(** * evaler/inverse_eval.py: resolution-matrix metrics, a shallow embedding

    The Python module works on numpy arrays of float64.  The embedding keeps
    the scalar type abstract behind the interface [Scalar] (the operations
    numpy applies to array elements), with two instances:
    - [Q_scalar]: exact rational arithmetic, used where a claim is about the
      arithmetic itself;
    - [float_scalar]: IEEE binary64 through the kernel's primitive floats,
      used to run the functions on concrete inputs with nan and inf.
    Structural results are proved for every instance of the interface.

    Arrays live in a heap of objects and functions receive and return
    references, so that "works on a copy" and "the input is not modified"
    are statements about the heap.  Python exceptions are values of [exn]. *)

From Stdlib Require Import ZArith QArith Qabs Lia Lqa PrimFloat Uint63.
From stdpp Require Import gmap strings list.

Set Default Proof Using "Type".
Open Scope nat_scope.

(** ** Scalars *)

Class Scalar (F : Type) := {
  of_Z : Z → F;               (* conversion of a Python int *)
  fadd : F → F → F;
  fsub : F → F → F;
  fmul : F → F → F;
  fdiv : F → F → F;           (* numpy true division: never raises *)
  fabs : F → F;
  fsqrt : F → F;
  feqb : F → F → bool;        (* == *)
  fltb : F → F → bool;        (* <  *)
  fleb : F → F → bool;        (* <= *)
  fmaximum : F → F → F        (* np.maximum *)
}.

(** Exact rationals.  Division by zero yields 0 here, so this instance agrees
    with numpy only where no division by zero takes place; [fsqrt] is the
    root of perfect squares (floor of the root on numerator and denominator
    otherwise). *)
#[global] Instance Q_scalar : Scalar Q := {|
  of_Z := inject_Z;
  fadd := Qplus;
  fsub := Qminus;
  fmul := Qmult;
  fdiv := Qdiv;
  fabs := Qabs;
  fsqrt := fun q => Qmake (Z.sqrt (Qnum q * Zpos (Qden q))) (Qden q);
  feqb := Qeq_bool;
  fltb := fun x y => negb (Qle_bool y x);
  fleb := Qle_bool;
  fmaximum := fun x y => if Qle_bool x y then y else x
|}.

Definition float_of_Z (z : Z) : float :=
  if (z <? 0)%Z then PrimFloat.opp (PrimFloat.of_uint63 (Uint63.of_Z (- z)))
  else PrimFloat.of_uint63 (Uint63.of_Z z).

(** IEEE binary64.  [np.maximum] propagates nan. *)
#[global] Instance float_scalar : Scalar float := {|
  of_Z := float_of_Z;
  fadd := PrimFloat.add;
  fsub := PrimFloat.sub;
  fmul := PrimFloat.mul;
  fdiv := PrimFloat.div;
  fabs := PrimFloat.abs;
  fsqrt := PrimFloat.sqrt;
  feqb := PrimFloat.eqb;
  fltb := PrimFloat.ltb;
  fleb := PrimFloat.leb;
  fmaximum := fun x y =>
    if PrimFloat.is_nan x then x
    else if PrimFloat.is_nan y then y
    else if PrimFloat.ltb x y then y else x
|}.

(** ** Exceptions and results *)

Inductive value_error :=
  | BadArgument        (* raised by the module's own argument checks *)
  | ZeroSizeReduction  (* np.max or np.argmin of an empty array *)
  | CannotReshape      (* reshape to a shape of another size *)
  | CannotBroadcast    (* assignment of a value of the wrong shape *)
  | ShapesNotAligned.  (* np.dot of operands of different lengths *)

Inductive exn :=
  | ValueError (why : value_error)
  | IndexError
  | NameError (name : string)  (* also UnboundLocalError, its subclass *)
  | AttributeError
  | SystemError.       (* a reference to no object: never arises from Python *)

Inductive result (A : Type) :=
  | Ok (a : A)
  | Raise (e : exn).
Arguments Ok {A} a.
Arguments Raise {A} e.

(** ** numpy arrays and the heap *)

Section Numpy.
Context {F : Type} `{Scalar F}.

(** A two-dimensional array: its shape and its items.  Only the items inside
    the shape are ever read. *)
Record ndarray := NdArray {
  shape0 : nat;
  shape1 : nat;
  item : nat → nat → F
}.

(** References are positions in the heap, a list of array objects. *)
Local Abbreviation loc := nat (only parsing).
Local Abbreviation heap := (list ndarray) (only parsing).

(** Computations: they read and write the heap and may raise. *)
Definition M (A : Type) : Type := heap → result A * heap.

Definition ret {A} (a : A) : M A := fun h => (Ok a, h).
Definition raise {A} (e : exn) : M A := fun h => (Raise e, h).
Definition bind {A B} (m : M A) (k : A → M B) : M B :=
  fun h => match m h with
           | (Ok a, h') => k a h'
           | (Raise e, h') => (Raise e, h')
           end.

Notation "'let*' x ':=' m 'in' k" := (bind m (fun x => k))
  (at level 10, x name, m at level 100, k at level 200).

(** [for x in l: body] with the loop-carried locals as [s]. *)
Fixpoint for_each {A S} (l : list A) (body : A → S → M S) (s : S) : M S :=
  match l with
  | [] => ret s
  | x :: l' => let* s' := body x s in for_each l' body s'
  end.

Definition alloc (a : ndarray) : M loc := fun h => (Ok (length h), h ++ [a]).
Definition load (l : loc) : M ndarray :=
  fun h => match h !! l with
           | Some a => (Ok a, h)
           | None => (Raise SystemError, h)
           end.
Definition store (l : loc) (a : ndarray) : M unit :=
  fun h => match h !! l with
           | Some _ => (Ok tt, <[l:=a]> h)
           | None => (Raise SystemError, h)
           end.

(** [np.zeros((n, m))] *)
Definition np_zeros (n m : nat) : M loc :=
  alloc (NdArray n m (fun _ _ => of_Z 0)).

(** [A.copy()] *)
Definition ndarray_copy (A : loc) : M loc := let* a := load A in alloc a.

(** [A[i, j]] for non-negative [i], [j] *)
Definition getitem (A : loc) (i j : nat) : M F :=
  let* a := load A in
  if (i <? shape0 a) && (j <? shape1 a) then ret (item a i j)
  else raise IndexError.

(** [A[i, j] = v] *)
Definition setitem (A : loc) (i j : nat) (v : F) : M unit :=
  let* a := load A in
  if (i <? shape0 a) && (j <? shape1 a) then
    store A (NdArray (shape0 a) (shape1 a)
               (fun i' j' => if (i' =? i) && (j' =? j) then v else item a i' j'))
  else raise IndexError.

(** Column [d] and row [i] of an array value, and its items in row-major
    order. *)
Definition column (a : ndarray) (d : nat) : list F :=
  map (fun i => item a i d) (seq 0 (shape0 a)).
Definition row (a : ndarray) (i : nat) : list F :=
  map (fun j => item a i j) (seq 0 (shape1 a)).
Definition to_lists (a : ndarray) : list (list F) :=
  map (row a) (seq 0 (shape0 a)).

(** [A[:, d]] *)
Definition get_col (A : loc) (d : nat) : M (list F) :=
  let* a := load A in
  if d <? shape1 a then ret (column a d) else raise IndexError.

(** [A[:, d] = v] for a one-dimensional [v] of the column's length *)
Definition set_col (A : loc) (d : nat) (v : list F) : M unit :=
  let* a := load A in
  if negb (d <? shape1 a) then raise IndexError
  else if negb (length v =? shape0 a) then raise (ValueError CannotBroadcast)
  else store A (NdArray (shape0 a) (shape1 a)
                  (fun i j => if j =? d then nth i v (of_Z 0) else item a i j)).

(** [np.max] of a one-dimensional array: an empty array has no maximum *)
Definition maximum_of (v : list F) : option F :=
  match v with
  | [] => None
  | x :: v' => Some (fold_left fmaximum v' x)
  end.
Definition np_max (v : list F) : M F :=
  match maximum_of v with
  | Some top => ret top
  | None => raise (ValueError ZeroSizeReduction)
  end.

(** [np.sum] of a one-dimensional array (summed left to right) *)
Definition np_sum (v : list F) : F := fold_left fadd v (of_Z 0).

(** [v / x] elementwise *)
Definition div_each (v : list F) (x : F) : list F := map (fun y => fdiv y x) v.

Definition string_in (s : string) (l : list string) : bool :=
  existsb (String.eqb s) l.

(** *** The module namespace

    The names bound at the top level of inverse_eval.py: what it imports and
    what it defines. *)
Definition module_names : list string :=
  [ "np"; "Pool"; "mne"; "read_inverse_operator"; "prepare_inverse_operator";
    "_assemble_kernel"; "RawArray"; "remove_overlap_in_labels"; "blurring";
    "get_raw_noise"; "settings_class"; "plot_topographic_parcellation";
    "setup_labels"; "setup"; "_getInversionKernel";
    "_convert_real_resolution_matrix_to_labels"; "standardize_columns";
    "get_noise"; "get_empirical_R_large"; "load_R_emp"; "correct_fwd";
    "get_R"; "remove_diagonal"; "get_average_cross_talk_map";
    "get_average_point_spread"; "get_spatial_dispersion";
    "get_spherical_coge"; "get_label_center_points"; "get_peak_dipole_error";
    "get_label_center"; "get_center_of_gravity_error"; "resolution_map";
    "get_r_master"; "get_roc_statistics"; "get_prc_statistics"; "get_roc";
    "get_prc"; "count_sources_in_labels" ].

(** A call through a global name: Python looks the name up when the call is
    made and raises NameError if the module does not bind it (none of the
    names looked up below is a builtin). *)
Definition global_name {A} (name : string) (call : M A) : M A :=
  if string_in name module_names then call else raise (NameError name).

(** *** inverse_eval.standardize_columns *)

(** The body of the loop [for d in range(len(R_std.T))]. *)
Definition standardize_column (R_std : loc) (arg : string) (d : nat) : M unit :=
  let* _ :=
    if String.eqb arg "diag" then
      let* diag := getitem R_std d d in
      let* col := get_col R_std d in
      set_col R_std d (div_each col diag)
    else ret tt in
  if String.eqb arg "max" then
    let* col := get_col R_std d in
    let* col' := get_col R_std d in
    let* top := np_max col' in
    set_col R_std d (div_each col top)
  else ret tt.

Definition standardize_columns (R : loc) (arg : string) : M loc :=
  if negb (string_in arg ["diag"; "max"]) then raise (ValueError BadArgument)
  else
    let* R_std := ndarray_copy R in
    let* a := load R_std in
    let* _ := for_each (seq 0 (shape1 a))
                (fun d _ => standardize_column R_std arg d) tt in
    ret R_std.

(** *** inverse_eval.remove_diagonal *)

(** [np.fill_diagonal(A, v)] on a two-dimensional array writes [A[k, k]] for
    every [k] below both dimensions. *)
Definition np_fill_diagonal (A : loc) (v : F) : M unit :=
  let* a := load A in
  store A (NdArray (shape0 a) (shape1 a)
             (fun i j => if i =? j then v else item a i j)).

(** [a.T] *)
Definition transposed (a : ndarray) : ndarray :=
  NdArray (shape1 a) (shape0 a) (fun i j => item a j i).

(** [a[np.where(mask)]] where [mask] is elementwise [keep]: the kept items in
    row-major order. *)
Definition masked_items (a : ndarray) (keep : F → bool) : list F :=
  flat_map (fun i => List.filter keep (row a i)) (seq 0 (shape0 a)).

(** [v.reshape(d0, d1)] of a one-dimensional [v]; [d1 = -1] asks numpy to
    infer the second dimension. *)
Definition np_reshape (v : list F) (d0 : nat) (d1 : Z) : M ndarray :=
  if (d1 =? -1)%Z then
    if (d0 =? 0) || negb (length v mod d0 =? 0)
    then raise (ValueError CannotReshape)
    else ret (NdArray d0 (length v / d0)
                (fun i j => nth (i * (length v / d0) + j) v (of_Z 0)))
  else if (Z.of_nat d0 * d1 =? Z.of_nat (length v))%Z
  then ret (NdArray d0 (Z.to_nat d1)
              (fun i j => nth (i * Z.to_nat d1 + j) v (of_Z 0)))
  else raise (ValueError CannotReshape).

Definition sentinel : F := of_Z 9999999999999999.

Definition remove_diagonal (A : loc) : M loc :=
  let* A_off_diagonal := ndarray_copy A in
  let* _ := np_fill_diagonal A_off_diagonal sentinel in
  let* a := load A_off_diagonal in
  let kept := masked_items (transposed a) (fun x => negb (feqb x sentinel)) in
  let* r := np_reshape kept (shape1 a) (Z.of_nat (shape0 a) - 1) in
  alloc (transposed r).

(** A list without its item at position [j]. *)
Definition without (j : nat) (v : list F) : list F := take j v ++ drop (S j) v.

(** The entries of an array off its diagonal, column by column. *)
Definition off_diagonal_entries (a : ndarray) : list F :=
  flat_map (fun j => without j (column a j)) (seq 0 (shape1 a)).

(** *** inverse_eval.get_roc *)

(** [np.diag(a)] of a two-dimensional array *)
Definition np_diag (a : ndarray) : list F :=
  map (fun k => item a k k) (seq 0 (min (shape0 a) (shape1 a))).

(** All the items of an array, in row-major order. *)
Definition items (a : ndarray) : list F := flat_map (row a) (seq 0 (shape0 a)).

(** [np.sum(v <op> T)] for a comparison: how many items satisfy it. *)
Definition count (p : F → bool) (v : list F) : Z :=
  Z.of_nat (length (List.filter p v)).

(** A decimal literal [n/d], the nearest scalar to the quotient. *)
Definition decimal (n d : Z) : F := fdiv (of_Z n) (of_Z d).

(** [np.linspace(start, stop, num)]: [arange(num) * step + start] with the
    last point set to [stop]. *)
Definition np_linspace (start stop : F) (num : nat) : list F :=
  let step := fdiv (fsub stop start) (of_Z (Z.of_nat (num - 1))) in
  map (fun c => if c =? num - 1 then stop
                else fadd (fmul (of_Z (Z.of_nat c)) step) start)
    (seq 0 num).

(** [enumerate(l)] *)
Definition enumerate {A} (l : list A) : list (nat * A) := zip (seq 0 (length l)) l.

(** [np.diff(x)] and [np.trapz(y, x)]:
    [(diff(x) * (y[1:] + y[:-1]) / 2.0).sum()] *)
Definition np_diff (x : list F) : list F := zip_with (fun a b => fsub b a) x (tail x).
Definition np_trapz (y x : list F) : F :=
  np_sum (zip_with (fun d s => fdiv (fmul d s) (of_Z 2))
            (np_diff x) (zip_with fadd (tail y) y)).

(** The dictionary [all_stats]: four lists, one entry per threshold. *)
Record roc_stats := RocStats {
  stat_TP : list Z; stat_FN : list Z; stat_TN : list Z; stat_FP : list Z
}.

(** The counts at threshold [T]. *)
Definition roc_TP (true_estimates : list F) (T : F) : Z :=
  count (fun x => fltb T x) true_estimates.
Definition roc_FN (true_estimates : list F) (T : F) : Z :=
  Z.of_nat (length true_estimates) - roc_TP true_estimates T.
Definition roc_TN (off_diagonals : list F) (T : F) : Z :=
  count (fun x => fleb x T) off_diagonals.
Definition roc_FP (off_diagonals : list F) (T : F) : Z :=
  count (fun x => fleb T x) off_diagonals.

Definition roc_TPR (true_estimates : list F) (T : F) : F :=
  let TP := roc_TP true_estimates T in
  let FN := roc_FN true_estimates T in
  fdiv (of_Z TP) (of_Z (TP + FN)).
Definition roc_FPR (off_diagonals : list F) (T : F) : F :=
  let TN := roc_TN off_diagonals T in
  let FP := roc_FP off_diagonals T in
  fdiv (of_Z FP) (of_Z (FP + TN)).

(** The body of the loop [for c, T in enumerate(np.linspace(...))]. *)
Definition roc_step (ROC : loc) (true_estimates off_diagonals : list F)
    (cT : nat * F) (all_stats : roc_stats) : M roc_stats :=
  let c := cT.1 in
  let T := cT.2 in
  let TP := roc_TP true_estimates T in
  let FN := roc_FN true_estimates T in
  let TN := roc_TN off_diagonals T in
  let FP := roc_FP off_diagonals T in
  let TPR := roc_TPR true_estimates T in
  let FPR := roc_FPR off_diagonals T in
  let* _ := setitem ROC 0 c FPR in
  let* _ := setitem ROC 1 c TPR in
  ret (RocStats (stat_TP all_stats ++ [TP]) (stat_FN all_stats ++ [FN])
         (stat_TN all_stats ++ [TN]) (stat_FP all_stats ++ [FP])).

Definition roc_thresholds : list F :=
  np_linspace (decimal (-1) 100) (decimal 101 100) 100.

Definition get_roc (R : loc) : M (loc * F * roc_stats) :=
  let n_T := 100 in
  let* ROC := np_zeros 2 (n_T + 3) in
  let* R_max := global_name "standardize_columns"
                  (standardize_columns R "max") in
  let* r_max := load R_max in
  let true_estimates := np_diag r_max in
  let* R_max_off_diagonals := global_name "remove_diagonal"
                                (remove_diagonal R_max) in
  let* off := load R_max_off_diagonals in
  let* all_stats :=
    for_each (enumerate (np_linspace (decimal (-1) 100) (decimal 101 100) n_T))
      (roc_step ROC true_estimates (items off)) (RocStats [] [] [] []) in
  let* roc := load ROC in
  let acu := fabs (np_trapz (row roc 1) (row roc 0)) in
  ret (ROC, acu, all_stats).

(** *** inverse_eval.get_average_cross_talk_map *)

(** [np.sort] and [np.median] of a one-dimensional array *)
Fixpoint insert_sorted (x : F) (l : list F) : list F :=
  match l with
  | [] => [x]
  | y :: l' => if fleb x y then x :: l else y :: insert_sorted x l'
  end.
Definition np_sort (v : list F) : list F := fold_right insert_sorted [] v.
Definition np_median (v : list F) : F :=
  let sorted := np_sort v in
  let n := length v in
  if n =? 0 then fdiv (of_Z 0) (of_Z 0)
  else if Nat.odd n then nth (n / 2) sorted (of_Z 0)
  else fdiv (fadd (nth (n / 2 - 1) sorted (of_Z 0)) (nth (n / 2) sorted (of_Z 0)))
         (of_Z 2).

Section CrossTalk.
(** The function a binding of the name [standardize_rows] would denote; the
    module has no such binding. *)
Variable standardize_rows : loc → M loc.

Definition get_average_cross_talk_map (R : loc) : M (list F) :=
  let* R := global_name "standardize_rows" (standardize_rows R) in
  let* r := load R in
  let acm := map np_median (to_lists r) in
  ret acm.

End CrossTalk.

(** *** inverse_eval.get_label_center and get_center_of_gravity_error *)

(** A position, a row of an array of shape (n, 3). *)
Definition vec3 : Type := F * F * F.
Definition vx (v : vec3) : F := v.1.1.
Definition vy (v : vec3) : F := v.1.2.
Definition vz (v : vec3) : F := v.2.
Definition vec_sub (u v : vec3) : vec3 :=
  (fsub (vx u) (vx v), fsub (vy u) (vy v), fsub (vz u) (vz v)).
Definition vec_div (v : vec3) (x : F) : vec3 :=
  (fdiv (vx v) x, fdiv (vy v) x, fdiv (vz v) x).

(** [np.linalg.norm] of a position *)
Definition norm3 (v : vec3) : F :=
  fsqrt (fadd (fadd (fmul (vx v) (vx v)) (fmul (vy v) (vy v)))
           (fmul (vz v) (vz v))).

(** [np.mean(rows, axis=0)] *)
Definition mean_axis0 (rows : list vec3) : vec3 :=
  let n := of_Z (Z.of_nat (length rows)) in
  (fdiv (np_sum (map vx rows)) n, fdiv (np_sum (map vy rows)) n,
   fdiv (np_sum (map vz rows)) n).

Inductive hemisphere := lh | rh.

(** An mne Label, and a source space with its vertex positions ['rr']. *)
Record Label := MkLabel {
  label_name : string;
  hemi : hemisphere;
  vertices : list nat
}.
Record source_space := MkSourceSpace { rr : list vec3 }.

(** [src[0]] for a left-hemisphere label, [src[1]] for a right one *)
Definition space_of (src : source_space * source_space) (label : Label)
    : source_space :=
  match hemi label with lh => src.1 | rh => src.2 end.

(** [rr[verts, :]] *)
Definition take_rows (positions : list vec3) (verts : list nat) : M (list vec3) :=
  match mapM (fun v => positions !! v) verts with
  | Some rows => ret rows
  | None => raise IndexError
  end.

Definition get_label_center (labels : list Label)
    (src : source_space * source_space) : M (list vec3) :=
  for_each labels (fun label label_center =>
    let verts := vertices label in
    match hemi label with
    | lh => let* rows := take_rows (rr src.1) verts in
            ret (label_center ++ [mean_axis0 rows])
    | rh => let* rows := take_rows (rr src.2) verts in
            ret (label_center ++ [mean_axis0 rows])
    end) [].

(** [np.dot(col, rows)] of a vector and an array of shape (n, 3) *)
Definition weighted_sum (col : list F) (rows : list vec3) : vec3 :=
  (np_sum (zip_with fmul col (map vx rows)),
   np_sum (zip_with fmul col (map vy rows)),
   np_sum (zip_with fmul col (map vz rows))).
Definition np_dot (col : list F) (rows : list vec3) : M vec3 :=
  if length col =? length rows then ret (weighted_sum col rows)
  else raise (ValueError ShapesNotAligned).

(** The order of [np.argmin]: smaller first, and nan before everything. *)
Definition is_nan (x : F) : bool := negb (feqb x x).
Definition np_less (x y : F) : bool :=
  fltb x y || (is_nan x && negb (is_nan y)).

Fixpoint argmin_from (best_i : nat) (best : F) (i : nat) (v : list F) : nat :=
  match v with
  | [] => best_i
  | x :: v' => if np_less x best then argmin_from i x (S i) v'
               else argmin_from best_i best (S i) v'
  end.

(** [np.argmin]: the first position of the least item *)
Definition np_argmin (v : list F) : M nat :=
  match v with
  | [] => raise (ValueError ZeroSizeReduction)
  | x :: v' => ret (argmin_from 0 x 1 v')
  end.

(** [label_center[c]] *)
Definition getitem_row (rows : list vec3) (c : nat) : M vec3 :=
  match rows !! c with Some v => ret v | None => raise IndexError end.

(** [np.linalg.norm(np.repeat(cog.reshape((1, 3)), n, axis=0) - rows, axis=1)] *)
Definition distances_to (cog : vec3) (rows : list vec3) : list F :=
  map (fun center => norm3 (vec_sub cog center)) rows.

(** The body of the loop [for c, col in enumerate(R.T)]. *)
Definition cog_step (label_center : list vec3) (ccol : nat * list F)
    (acc : list F * list vec3 * list nat) : M (list F * list vec3 * list nat) :=
  let c := ccol.1 in
  let col := ccol.2 in
  let coge := acc.1.1 in
  let center_of_gravity_list := acc.1.2 in
  let cog_closest_source := acc.2 in
  let* weighted := np_dot col label_center in
  let center_of_gravity := vec_div weighted (np_sum col) in
  let* own_center := getitem_row label_center c in
  let error := norm3 (vec_sub own_center center_of_gravity) in
  let* closest := np_argmin (distances_to center_of_gravity label_center) in
  ret (coge ++ [error], center_of_gravity_list ++ [center_of_gravity],
       cog_closest_source ++ [closest]).

Definition get_center_of_gravity_error (R : loc)
    (src : source_space * source_space) (labels : list Label)
    : M (list F * list vec3 * list nat) :=
  let* label_center := global_name "get_label_center"
                         (get_label_center labels src) in
  let* r := load R in
  let* acc := for_each (enumerate (to_lists (transposed r)))
                (cog_step label_center) ([], [], []) in
  ret (map (fmul (of_Z 100)) acc.1.1, acc.1.2, acc.2).

(** The center of gravity of a label: the mean position of its vertices. *)
Definition center_of (src : source_space * source_space) (label : Label) : vec3 :=
  mean_axis0
    (default [] (mapM (fun v => rr (space_of src label) !! v) (vertices label))).

(** [np.array(rows)] for a list of rows of one length *)
Definition of_lists (rows : list (list F)) : ndarray :=
  NdArray (length rows) (length (hd [] rows))
    (fun i j => nth j (nth i rows []) (of_Z 0)).

Definition raises_ValueError {A} (r : result A) : Prop :=
  ∃ why, r = Raise (ValueError why).

End Numpy.

Arguments ndarray F : clear implicits.
Arguments M F A : clear implicits.
Arguments vec3 F : clear implicits.
Arguments source_space F : clear implicits.

Abbreviation loc := nat (only parsing).
Abbreviation heap F := (list (ndarray F)) (only parsing).

Notation "'let*' x ':=' m 'in' k" := (bind m (fun x => k))
  (at level 10, x name, m at level 100, k at level 200).

(** ** inverse_eval.get_r_master

    [get_r_master] only orchestrates: it partitions the SNR values and the
    activation labels, calls [get_R] on every pair and files the results.
    [get_R] is a parameter here: a function of the inverse method, the SNR
    and the activation labels (its other arguments are the same in every
    call), returning the two resolution matrices or raising.  A matrix is
    its row count and its columns, one column per activation label, so that
    np.concatenate(axis=1) appends columns. *)

Definition rbind {A B} (m : result A) (k : A → result B) : result B :=
  match m with Ok a => k a | Raise e => Raise e end.

Notation "'let?' x ':=' m 'in' k" := (rbind m (fun x => k))
  (at level 10, x name, m at level 100, k at level 200).

(** [for x in l: body], in the exception monad *)
Fixpoint rfor_each {A S} (l : list A) (body : A → S → result S) (s : S)
    : result S :=
  match l with
  | [] => Ok s
  | x :: l' => let? s' := body x s in rfor_each l' body s'
  end.

(** [[f(x) for x in l]] where [f] may raise *)
Fixpoint rmap {A B} (f : A → result B) (l : list A) : result (list B) :=
  match l with
  | [] => Ok []
  | x :: l' => let? y := f x in let? ys := rmap f l' in Ok (y :: ys)
  end.

Section RMaster.
Context {F : Type} `{Scalar F}.

Record cmatrix := CMatrix { c_rows : nat; c_cols : list (list F) }.

(** The values of the dictionaries [r_master] and [r_master_vl]. *)
Inductive r_value :=
  | Tensor (slices : list cmatrix)   (* r_tensor[:, :, s] for each s *)
  | SNRList (SNRs : list F).

Variable get_R : string → F → list Label → result (cmatrix * cmatrix).
(** [fwd['src'][0]['nuse'] + fwd['src'][1]['nuse']] of the corrected forward *)
Variable vertno : nat.

(** [np.floor_divide] and [np.mod] on integers: 0 when dividing by 0 *)
Definition np_floor_divide (a b : Z) : Z := if (b =? 0)%Z then 0%Z else (a / b)%Z.
Definition np_mod (a b : Z) : Z := if (b =? 0)%Z then 0%Z else (a mod b)%Z.

(** [range(0, n)] *)
Definition py_range (n : Z) : list Z := map Z.of_nat (seq 0 (Z.to_nat n)).

(** [l[start:stop]] with Python's treatment of negative and large bounds *)
Definition slice_bound (len i : Z) : nat :=
  Z.to_nat (if (i <? 0)%Z then Z.max (i + len) 0 else Z.min i len).
Definition py_slice {A} (l : list A) (start stop : Z) : list A :=
  let len := Z.of_nat (length l) in
  let a := slice_bound len start in
  let b := slice_bound len stop in
  take (b - a) (drop a l).

(** [np.array_split(l, k)] for [k >= 1]: the first [len % k] chunks have one
    item more than the others. *)
Definition array_split {A} (l : list A) (k : nat) : list (list A) :=
  let each := length l / k in
  let extras := length l mod k in
  map (fun i => take (each + (if i <? extras then 1 else 0))
                  (drop (i * each + min i extras) l))
    (seq 0 k).

(** [np.zeros((rows, cols))] *)
Definition zeros_cmatrix (rows cols : nat) : cmatrix :=
  CMatrix rows (replicate cols (replicate rows (of_Z 0))).

(** [np.concatenate((a, b), axis=1)] *)
Definition concatenate_columns (a b : cmatrix) : result cmatrix :=
  if c_rows a =? c_rows b then Ok (CMatrix (c_rows a) (c_cols a ++ c_cols b))
  else Raise (ValueError ShapesNotAligned).

(** [r_tensor[:, :, s] = value] on a tensor of shape (rows, cols, len(slices)):
    the value must have the slice's shape, or a single column to repeat. *)
Definition set_slice (rows cols : nat) (slices : list cmatrix) (s : nat)
    (value : cmatrix) : result (list cmatrix) :=
  if negb (s <? length slices) then Raise IndexError
  else if negb (c_rows value =? rows) then Raise (ValueError CannotBroadcast)
  else if length (c_cols value) =? cols then Ok (<[s := value]> slices)
  else match c_cols value with
       | [col] => Ok (<[s := CMatrix rows (replicate cols col)]> slices)
       | _ => Raise (ValueError CannotBroadcast)
       end.

(** [out[k]] *)
Definition list_item {A} (l : list A) (k : nat) : result A :=
  match l !! k with Some x => Ok x | None => Raise IndexError end.

(** The loop [for c, SNR in enumerate(SNR_group)] that files the outputs of
    one group. *)
Definition file_group (n_labels n_act : nat) (activation_jobs : nat)
    (activation_chunks : list (list Label)) (out : list (cmatrix * cmatrix))
    (group_count : nat) (SNR_group : list F)
    (tensors : list cmatrix * list cmatrix)
    : result (list cmatrix * list cmatrix) :=
  rfor_each (enumerate SNR_group) (fun cSNR tensors =>
    let c := cSNR.1 in
    let? R := rfor_each (enumerate activation_chunks) (fun dchunk R =>
                let d := dchunk.1 in
                let? o := list_item out (c * activation_jobs + d) in
                let? R_emp := concatenate_columns R.1 o.1 in
                let? R_emp_vl := concatenate_columns R.2 o.2 in
                Ok (R_emp, R_emp_vl))
              (CMatrix n_labels [], CMatrix vertno []) in
    let? r_tensor := set_slice n_labels n_act tensors.1
                       (c + group_count * length SNR_group) R.1 in
    let? r_tensor_vl := set_slice vertno n_act tensors.2
                          (c + group_count * length SNR_group) R.2 in
    Ok (r_tensor, r_tensor_vl)) tensors.

(** The body of the loop
    [for group_count, SNR_group in enumerate(SNR_iterations)]: the calls of
    [get_R] for one group, in the order of [inp_group], and their filing. *)
Definition group_step (inv_method : string) (n_labels : nat)
    (activation_labels : list Label) (activation_jobs : Z)
    (gSNR_group : nat * list F) (tensors : list cmatrix * list cmatrix)
    : result (list cmatrix * list cmatrix) :=
  let group_count := gSNR_group.1 in
  let SNR_group := gSNR_group.2 in
  let activation_chunks :=
    array_split activation_labels (Z.to_nat activation_jobs) in
  let inp_group :=
    flat_map (fun SNR => map (fun chunk => (SNR, chunk)) activation_chunks)
      SNR_group in
  let? out := rmap (fun inp => get_R inv_method inp.1 inp.2) inp_group in
  file_group n_labels (length activation_labels) (Z.to_nat activation_jobs)
    activation_chunks out group_count SNR_group tensors.

Definition run_groups (inv_method : string) (n_labels : nat)
    (activation_labels : list Label) (activation_jobs : Z)
    (SNR_iterations : list (list F)) (tensors : list cmatrix * list cmatrix)
    : result (list cmatrix * list cmatrix) :=
  rfor_each (enumerate SNR_iterations)
    (group_step inv_method n_labels activation_labels activation_jobs) tensors.

(** The split of the jobs over SNR values and activation labels. *)
Definition SNR_njobs_of (n_jobs len_SNRs : Z) : Z :=
  if (n_jobs <? 2 * len_SNRs)%Z then n_jobs else len_SNRs.
Definition activation_jobs_of (n_jobs len_SNRs : Z) : Z :=
  if (n_jobs <? 2 * len_SNRs)%Z then 1%Z else np_floor_divide n_jobs len_SNRs.

(** The list [SNR_iterations]: the full groups, then the remainder if any. *)
Definition SNR_iterations_of (SNRs : list F) (n_jobs : Z) : list (list F) :=
  let len_SNRs := Z.of_nat (length SNRs) in
  let SNR_njobs := SNR_njobs_of n_jobs len_SNRs in
  let iterations := np_floor_divide len_SNRs SNR_njobs in
  let N_remainder := np_mod len_SNRs SNR_njobs in
  map (fun iteration =>
         py_slice SNRs (iteration * SNR_njobs) ((iteration + 1) * SNR_njobs))
    (py_range iterations)
  ++ (if (N_remainder =? 0)%Z then []
      else [py_slice SNRs (SNR_njobs * iterations) len_SNRs]).

(** The body of the loop [for inv_method in inv_methods].  Its state: the two
    dictionaries and [activation_labels], which the first turn sets when it
    was None. *)
Definition method_step (SNRs : list F) (labels : list Label) (n_jobs : Z)
    (inv_method : string)
    (state : gmap string r_value * gmap string r_value * option (list Label))
    : result (gmap string r_value * gmap string r_value * option (list Label)) :=
  let r_master := state.1.1 in
  let r_master_vl := state.1.2 in
  let activation_labels := default labels state.2 in
  let r_tensor :=
    replicate (length SNRs)
      (zeros_cmatrix (length labels) (length activation_labels)) in
  let r_tensor_vl :=
    replicate (length SNRs)
      (zeros_cmatrix vertno (length activation_labels)) in
  let? tensors :=
    run_groups inv_method (length labels) activation_labels
      (activation_jobs_of n_jobs (Z.of_nat (length SNRs)))
      (SNR_iterations_of SNRs n_jobs) (r_tensor, r_tensor_vl) in
  Ok (<[inv_method := Tensor tensors.1]> r_master,
      <[inv_method := Tensor tensors.2]> r_master_vl,
      Some activation_labels).

Definition get_r_master (SNRs : list F) (labels : list Label)
    (inv_methods : list string) (activation_labels : option (list Label))
    (n_jobs : Z)
    : result (gmap string r_value * gmap string r_value) :=
  let? state := rfor_each inv_methods (method_step SNRs labels n_jobs)
                  (∅, ∅, activation_labels) in
  let r_master := state.1.1 in
  let r_master_vl := state.1.2 in
  Ok (<["SNRs" := SNRList SNRs]> r_master,
      <["SNRs" := SNRList SNRs]> r_master_vl).

(** The reference of claim C4, in its words: [get_R] evaluated one SNR after
    the other with the full list of activation labels, its results filed at
    the position of the SNR. *)
Definition sequential_tensors (inv_method : string) (SNRs : list F)
    (activation_labels : list Label) : result (list cmatrix * list cmatrix) :=
  let? out := rmap (fun SNR => get_R inv_method SNR activation_labels) SNRs in
  Ok (map fst out, map snd out).

End RMaster.

Arguments cmatrix F : clear implicits.
Arguments r_value F : clear implicits.

(** ** inverse_eval.get_R: scaling of the simulated data and choice of the
    estimator

    The numerical kernels of [get_R] are calls into MNE and numpy on data
    read from files; they are parameters here ([get_R_data] and the section
    variables).  What is modelled is what [get_R] itself decides: the SNR it
    uses, the scaling factor, the sensor data of each activation label, the
    estimator it hands them to, and the order of these calls, which are
    recorded as a trace. *)

Section GetR.
Context {F : Type} `{Scalar F}.

(** [np.inf] *)
Variable finf : F.
(** The objects MNE returns: inverse operators and source estimates. *)
Variables (InverseOperator Estimate : Type).

Inductive modality := mag | grad | eeg.

(** Sensor data: channels by time samples, as rows. *)
Definition sensor_data : Type := list (list F).
Definition scale_data (x : F) (m : sensor_data) : sensor_data :=
  map (map (fmul x)) m.
Definition add_data (a b : sensor_data) : sensor_data :=
  zip_with (zip_with fadd) a b.

(** What [get_R] computes from the files and the waveform before it scales:
    - [noise]: [epochs_ave.data[goodies, 0:T]];
    - [noise_power key]: the mean norm of the noise rows of the modality;
    - [signal_power key label]:
      [np.mean(np.abs(signal[mod_ind[key]]) * np.sqrt(T))];
    - [signal label]: [np.dot(G, act)[goodies, :]], the forward projection of
      the activation of the label;
    - [made_inverse_operator]: the result of [make_inverse_operator]. *)
Record get_R_data := GetRData {
  noise : sensor_data;
  noise_power : modality → F;
  signal_power : modality → Label → F;
  signal : Label → sensor_data;
  made_inverse_operator : InverseOperator
}.

(** The estimators, and what the rest of the loop body reads off an
    estimate: the columns [R_emp[:, c]] and [R_label_vert[:, c]], and whether
    the source estimate holds a nan. *)
Variable mixed_norm : sensor_data → Estimate.
Variable inv_function :
  sensor_data → F → string → option InverseOperator → Estimate.
Variable emp_column : Estimate → list F.
Variable vert_column : Estimate → list F.
Variable has_nan : Estimate → bool.

(** The calls [get_R] makes to what it does not define.  [evoked] is the
    data of the Evoked object on the good channels (the bad ones are nan). *)
Inductive call :=
  | MakeInverseOperator
  | MixedNorm (evoked : sensor_data)
  | InvFunction (evoked : sensor_data) (SNR : F) (invmethod : string)
      (inverse_operator : option InverseOperator)
  | PrepareInverseOperator (inverse_operator : InverseOperator) (lambda2 : F)
      (method : string).

Record get_R_input := GetRInput {
  invmethod : string;
  SNR : F;
  activation_labels : list Label;
  compute_analytical : bool
}.

(** [np.mean] of a one-dimensional array *)
Definition np_mean (v : list F) : F :=
  fdiv (np_sum v) (of_Z (Z.of_nat (length v))).

(** [SNR = np.inf] when the analytical matrix is asked for. *)
Definition used_SNR (inp : get_R_input) : F :=
  if compute_analytical inp then finf else SNR inp.

(** The list [snrs]: for mag, grad and eeg, the average signal power over the
    activation labels divided by the noise power. *)
Definition power_ratios (data : get_R_data) (act : list Label) : list F :=
  map (fun key =>
         fdiv (np_mean (map (signal_power data key) act)) (noise_power data key))
    [mag; grad; eeg].

Definition ave_scale (data : get_R_data) (inp : get_R_input) : F :=
  fdiv (used_SNR inp) (np_mean (power_ratios data (activation_labels inp))).

(** The sensor data [sens] of a label. *)
Definition sens_of (data : get_R_data) (scaling : F) (label : Label)
    : sensor_data :=
  if feqb scaling finf then signal data label
  else add_data (scale_data scaling (signal data label)) (noise data).

Definition linear_methods : list string := ["MNE"; "dSPM"; "eLORETA"; "sLORETA"].

(** [inverse_operator], and the call that makes it. *)
Definition inverse_operator_of (data : get_R_data) (inp : get_R_input)
    : option InverseOperator :=
  if string_in (invmethod inp) linear_methods
  then Some (made_inverse_operator data) else None.

(** The state of the loop over the activation labels: the columns filled so
    far and the local variable [lambda2], unbound at first. *)
Record loop_state := LoopState {
  R_emp : list (list F);
  R_label_vert : list (list F);
  lambda2 : option F
}.

(** One turn of [for c, label in enumerate(activation_labels)]: the call made
    and the state after it, or the exception.  An estimate of all zeros
    (mixed norm) or with a nan (else) reaches the undefined name
    [break_point]. *)
Definition activate (data : get_R_data) (inp : get_R_input) (label : Label)
    (st : loop_state) : call * result loop_state :=
  let scaling := ave_scale data inp in
  let sens := sens_of data scaling label in
  let lambda2 :=
    if feqb scaling finf then Some (fdiv (of_Z 1) (of_Z 9)) else lambda2 st in
  if String.eqb (invmethod inp) "mixed_norm" then
    let estimate := mixed_norm sens in
    (MixedNorm sens,
     if feqb (np_sum (emp_column estimate)) (of_Z 0)
     then Raise (NameError "break_point")
     else Ok (LoopState (R_emp st ++ [emp_column estimate])
                (R_label_vert st ++ [vert_column estimate]) lambda2))
  else
    let source :=
      inv_function sens (used_SNR inp) (invmethod inp)
        (inverse_operator_of data inp) in
    (InvFunction sens (used_SNR inp) (invmethod inp)
       (inverse_operator_of data inp),
     if has_nan source then Raise (NameError "break_point")
     else Ok (LoopState (R_emp st ++ [emp_column source])
                (R_label_vert st ++ [vert_column source]) lambda2)).

Fixpoint activation_loop (data : get_R_data) (inp : get_R_input)
    (labels : list Label) (st : loop_state) : list call * result loop_state :=
  match labels with
  | [] => ([], Ok st)
  | label :: labels' =>
      match activate data inp label st with
      | (made, Ok st') =>
          let rest := activation_loop data inp labels' st' in
          (made :: rest.1, rest.2)
      | (made, Raise e) => ([made], Raise e)
      end
  end.

(** What [get_R] returns: the two empirical matrices; with
    [compute_analytical], the empirical matrix alone for eLORETA, or with the
    analytical ones, which are not modelled. *)
Inductive get_R_output :=
  | Empirical (R_emp R_label_vert : list (list F))
  | EmpiricalOnly (R_emp : list (list F))
  | WithAnalytical (R_emp : list (list F)).

(** [get_R]: the trace of its calls and its outcome. *)
Definition get_R (data : get_R_data) (inp : get_R_input)
    : list call * result get_R_output :=
  let made := if string_in (invmethod inp) linear_methods
              then [MakeInverseOperator] else [] in
  let run := activation_loop data inp (activation_labels inp)
               (LoopState [] [] None) in
  match run.2 with
  | Raise e => (made ++ run.1, Raise e)
  | Ok st =>
      if compute_analytical inp then
        match lambda2 st with
        | None => (made ++ run.1, Raise (NameError "lambda2"))
        | Some l =>
            match inverse_operator_of data inp with
            | None => (made ++ run.1, Raise AttributeError)
            | Some op =>
                (made ++ run.1 ++ [PrepareInverseOperator op l (invmethod inp)],
                 if string_in (invmethod inp) ["MNE"; "dSPM"; "sLORETA"]
                 then Ok (WithAnalytical (R_emp st))
                 else Ok (EmpiricalOnly (R_emp st)))
            end
        end
      else (made ++ run.1, Ok (Empirical (map (map fabs) (R_emp st))
                                 (R_label_vert st)))
  end.

(** The call one turn of the loop makes for a label. *)
Definition call_of (data : get_R_data) (inp : get_R_input) (label : Label)
    : call :=
  (activate data inp label (LoopState [] [] None)).1.

(** The calls of the estimators in a trace, and the sensor data they are
    handed, in the order of the calls. *)
Definition is_estimator_call (made : call) : bool :=
  match made with
  | MixedNorm _ | InvFunction _ _ _ _ => true
  | _ => false
  end.
Definition estimator_calls (calls : list call) : list call :=
  List.filter is_estimator_call calls.
Definition evoked_of (made : call) : option sensor_data :=
  match made with
  | MixedNorm evoked | InvFunction evoked _ _ _ => Some evoked
  | _ => None
  end.
Definition estimator_data (calls : list call) : list sensor_data :=
  omap evoked_of calls.

End GetR.

Arguments call F InverseOperator : clear implicits.
Arguments get_R_data F InverseOperator : clear implicits.
Arguments GetRData {F InverseOperator}.
Arguments noise {F InverseOperator} data : rename.
Arguments noise_power {F InverseOperator} data key : rename.
Arguments signal_power {F InverseOperator} data key label : rename.
Arguments signal {F InverseOperator} data label : rename.
Arguments made_inverse_operator {F InverseOperator} data : rename.
Arguments sens_of {F H} finf {InverseOperator} data scaling label.
Arguments ave_scale {F H} finf {InverseOperator} data inp.
Arguments power_ratios {F H InverseOperator} data act.
Arguments inverse_operator_of {F InverseOperator} data inp.
Arguments is_estimator_call {F InverseOperator} made.
Arguments estimator_calls {F InverseOperator} calls.
Arguments evoked_of {F InverseOperator} made.
Arguments estimator_data {F InverseOperator} calls.
Arguments activate {F H} finf {InverseOperator Estimate}.
Arguments activation_loop {F H} finf {InverseOperator Estimate}.
Arguments call_of {F H} finf {InverseOperator Estimate}.
Arguments get_R {F H} finf {InverseOperator Estimate}.
Arguments MakeInverseOperator {F InverseOperator}.
Arguments MixedNorm {F InverseOperator}.
Arguments InvFunction {F InverseOperator}.
Arguments PrepareInverseOperator {F InverseOperator}.
Arguments get_R_input F : clear implicits.
Arguments loop_state F : clear implicits.
Arguments sensor_data F : clear implicits.

(** ** Vocabulary of the statements

    Shapes, ranges and the values the loops are shown to leave behind. *)

Definition is_Ok {A} (r : result A) : Prop := ∃ a, r = Ok a.

Definition sumZ (l : list Z) : Z := fold_right Z.add 0%Z l.

Section Vocabulary.
Context {F : Type} `{Scalar F}.
Implicit Types a b : ndarray F.

(** The copy after the columns before [d] have been standardized by [den]. *)
Definition standardized_upto (den : nat → F) a (d : nat) b : Prop :=
  shape0 b = shape0 a ∧ shape1 b = shape1 a ∧
  ∀ i j, i < shape0 a → j < shape1 a →
    item b i j = if j <? d then fdiv (item a i j) (den j) else item a i j.

(** The two denominators of [standardize_columns]. *)
Definition col_max a (j : nat) : F := default (of_Z 0) (maximum_of (column a j)).
Definition col_diag a (j : nat) : F := item a j j.

(** [ROC] as [get_roc] allocates it. *)
Definition roc_zeros : ndarray F := NdArray 2 (100 + 3) (fun _ _ => of_Z 0).

(** What the loop leaves in [ROC] when it runs over the thresholds [Ts]
    numbered from [s]. *)
Definition roc_filled (te off : list F) (s : nat) (Ts : list F)
    (roc : ndarray F) (i c : nat) : F :=
  match Ts !! (c - s) with
  | Some T =>
      if s <=? c then
        if i =? 0 then roc_FPR off T
        else if i =? 1 then roc_TPR te T
        else item roc i c
      else item roc i c
  | None => item roc i c
  end.

(** The vertices of a label index rows of its hemisphere's [rr]. *)
Definition vertices_in_range (src : source_space F * source_space F)
    (label : Label) : Prop :=
  Forall (fun v => v < length (rr (space_of src label))) (vertices label).

(** What one turn of the loop of [get_center_of_gravity_error] appends for
    column [c]. *)
Definition cog_of (label_center : list (vec3 F)) (col : list F) : vec3 F :=
  vec_div (weighted_sum col label_center) (np_sum col).
Definition argmin_of (v : list F) : nat :=
  match v with [] => 0 | x :: v' => argmin_from 0 x 1 v' end.
Definition error_of (label_center : list (vec3 F)) (ccol : nat * list F) : F :=
  norm3 (vec_sub (nth ccol.1 label_center (of_Z 0, of_Z 0, of_Z 0))
           (cog_of label_center ccol.2)).
Definition closest_of (label_center : list (vec3 F)) (col : list F) : nat :=
  argmin_of (distances_to (cog_of label_center col) label_center).

(** The shapes [get_R] returns for [n_labels] labels and the activation
    labels [act], with [vertno] source vertices. *)
Definition well_shaped (vertno n_labels : nat) (act : list Label)
    (o : cmatrix F * cmatrix F) : Prop :=
  c_rows o.1 = n_labels ∧ length (c_cols o.1) = length act
  ∧ c_rows o.2 = vertno ∧ length (c_cols o.2) = length act.

(** Filing the outputs of a group when the activation labels are not split:
    output [c] of the group goes to slot [c + base]. *)
Fixpoint filed (out : list (cmatrix F * cmatrix F)) (c base : nat)
    (tensors : list (cmatrix F) * list (cmatrix F))
    : list (cmatrix F) * list (cmatrix F) :=
  match out with
  | [] => tensors
  | o :: out' =>
      filed out' (S c) base
        (<[c + base := o.1]> tensors.1, <[c + base := o.2]> tensors.2)
  end.

(** [lambda2] is unbound or 1/9. *)
Definition lambda2_ok (st : loop_state F) : Prop :=
  lambda2 st = None ∨ lambda2 st = Some (fdiv (of_Z 1) (of_Z 9)).

End Vocabulary.

(** Monotone lists of rationals and the unit interval. *)
Fixpoint descending (l : list Q) : Prop :=
  match l with
  | x :: l' =>
      match l' with y :: _ => (y <= x)%Q | [] => True end ∧ descending l'
  | [] => True
  end.

Fixpoint ascending (l : list Q) : Prop :=
  match l with
  | x :: l' =>
      match l' with y :: _ => (x <= y)%Q | [] => True end ∧ ascending l'
  | [] => True
  end.

Fixpoint ascendingb (l : list Q) : bool :=
  match l with
  | x :: l' =>
      match l' with y :: _ => Qle_bool x y | [] => true end && ascendingb l'
  | [] => true
  end.

Definition unit_interval (x : Q) : Prop := (0 <= x)%Q ∧ (x <= 1)%Q.

(** ** Concrete inputs *)

(** [np.zeros((0, 1))]: one column, no rows. *)
Definition no_rows : ndarray float := NdArray 0 1 (fun _ _ => of_Z 0).

(** [np.array([[5.]])] *)
Definition one_by_one : ndarray float := of_lists [[5%float]].

(** [np.array([[-1., -1.], [-1e16, -1.]])]: every column maximum is -1, and
    the standardized entry at row 1, column 0 is 1e16. *)
Definition negative_columns : ndarray float :=
  of_lists [[-1; -1]; [-10000000000000000; -1]]%float.

(** [np.array([[4., 1.], [2., 8.]])] as floats *)
Definition two_by_two_float : ndarray float :=
  of_lists [[4; 1]; [2; 8]]%float.

(** Two hemispheres with two vertices each, and one label on each. *)
Definition two_spaces : source_space Q * source_space Q :=
  (MkSourceSpace [(0, 0, 0); (2 # 1, 0, 0)],
   MkSourceSpace [(0, 3 # 1, 0); (0, 5 # 1, 0)])%Q.
Definition two_labels : list Label :=
  [MkLabel "a-lh" lh [0; 1]; MkLabel "b-rh" rh [0; 1]].

(** A stand-in for [get_R] on exact numbers: every entry of its two matrices
    is the SNR it was called with. *)
Definition echo_output (n_labels vertno : nat) (SNR : Q) (act : list Label)
    : cmatrix Q * cmatrix Q :=
  (CMatrix n_labels (map (fun _ => replicate n_labels SNR) act),
   CMatrix vertno (map (fun _ => replicate vertno SNR) act)).
Definition echo_get_R (n_labels vertno : nat)
    : string → Q → list Label → result (cmatrix Q * cmatrix Q) :=
  fun _ SNR act => Ok (echo_output n_labels vertno SNR act).

(** [get_R] on float64 with estimators that return the data they are given. *)
Definition estimate_has_nan (e : sensor_data float) : bool :=
  existsb (existsb PrimFloat.is_nan) e.
Definition run_get_R (data : get_R_data float unit) (inp : get_R_input float)
    : list (call float unit) * result get_R_output :=
  get_R infinity (fun evoked => evoked) (fun evoked _ _ _ => evoked)
    (fun e => concat e) (fun e => concat e) estimate_has_nan data inp.

Definition label_a : Label := MkLabel "a-lh" lh [0; 1].
Definition label_b : Label := MkLabel "b-rh" rh [0; 1].

(** An EEG-only recording: the mean over no magnetometer, and over no
    gradiometer, is nan. *)
Definition eeg_only : get_R_data float unit :=
  GetRData [[0.5]]%float
    (fun key => match key with eeg => 1%float | _ => nan end)
    (fun key _ => match key with eeg => 1%float | _ => nan end)
    (fun _ => [[1]]%float) tt.

(** A recording with the three kinds of channels. *)
Definition all_modalities : get_R_data float unit :=
  GetRData [[0.5]]%float (fun _ => 1%float) (fun _ _ => 1%float)
    (fun _ => [[1]]%float) tt.

(** Two labels of different signal power. *)
Definition uneven_powers : get_R_data float unit :=
  GetRData [[0.5]]%float (fun _ => 1%float)
    (fun _ label => if String.eqb (label_name label) "a-lh" then 1%float
                    else 3%float)
    (fun _ => [[1]]%float) tt.

(** [np.array([[4., 1.], [2., 8.]])] *)
Definition two_by_two : ndarray Q := of_lists [[4#1; 1#1]; [2#1; 8#1]]%Q.

(** ** The other metrics of the module *)

(** *** inverse_eval.get_average_point_spread *)

Section PointSpread.
Context {F : Type} `{Scalar F}.

(** [np.median] of a one-dimensional array propagates nan: the result is nan
    as soon as an item is. *)
Definition np_median_nan (v : list F) : F :=
  if existsb is_nan v then fdiv (of_Z 0) (of_Z 0) else np_median v.

(** [np.median(r, axis=0)]: the median of every column *)
Definition median_axis0 (r : ndarray F) : list F :=
  map (fun j => np_median_nan (column r j)) (seq 0 (shape1 r)).

Definition get_average_point_spread (R : loc) (arg : string) : M F (list F) :=
  let* R := global_name "standardize_columns" (standardize_columns R arg) in
  let* R_copy := global_name "remove_diagonal" (remove_diagonal R) in
  let* r := load R_copy in
  let acm := median_axis0 r in
  ret acm.

End PointSpread.

(** *** inverse_eval.get_prc *)

Section PrecisionRecall.
Context {F : Type} `{Scalar F}.

(** [A[i, j]] for a non-negative [i] and an integer [j]: numpy counts a
    negative index from the end. *)
Definition getitem_from_end (A : loc) (i : nat) (j : Z) : M F F :=
  let* a := load A in
  let j' := if (j <? 0)%Z then (j + Z.of_nat (shape1 a))%Z else j in
  if (i <? shape0 a) && (0 <=? j')%Z && (j' <? Z.of_nat (shape1 a))%Z
  then ret (item a i (Z.to_nat j'))
  else raise IndexError.

(** [PPV = TP/(TP+FP)] at threshold [T]: nan when nothing is above [T]. *)
Definition prc_PPV (true_estimates off_diagonals : list F) (T : F) : F :=
  let TP := roc_TP true_estimates T in
  let FP := roc_FP off_diagonals T in
  fdiv (of_Z TP) (of_Z (TP + FP)).

(** The body of the loop [for c, T in enumerate(np.linspace(...))]. *)
Definition prc_step (PRC : loc) (true_estimates off_diagonals : list F)
    (cT : nat * F) (_ : unit) : M F unit :=
  let c := cT.1 in
  let T := cT.2 in
  let PPV := prc_PPV true_estimates off_diagonals T in
  let TPR := roc_TPR true_estimates T in
  let* PPV := if is_nan PPV then getitem_from_end PRC 1 (Z.of_nat c - 1)
              else ret PPV in
  let* _ := setitem PRC 0 c TPR in
  setitem PRC 1 c PPV.

Definition prc_thresholds : list F :=
  np_linspace (decimal (-1) 1000) (decimal 1001 1000) 1000.

Definition get_prc (R : loc) : M F (loc * F) :=
  let n_T := 1000 in
  let* PRC := np_zeros 2 n_T in
  let* R_max := global_name "standardize_columns"
                  (standardize_columns R "max") in
  let* r_max := load R_max in
  let true_estimates := np_diag r_max in
  let* R_max_off_diagonals := global_name "remove_diagonal"
                                (remove_diagonal R_max) in
  let* off := load R_max_off_diagonals in
  let* _ :=
    for_each
      (enumerate (np_linspace (decimal (-1) 1000) (decimal 1001 1000) n_T))
      (prc_step PRC true_estimates (items off)) tt in
  let* prc := load PRC in
  let acu := fabs (np_trapz (row prc 1) (row prc 0)) in
  ret (PRC, acu).

(** The precisions the loop stores: the precision at the threshold, or the
    one stored before it where that is nan; [prev] is what the first turn
    falls back on. *)
Fixpoint prc_precisions (true_estimates off_diagonals : list F) (prev : F)
    (Ts : list F) : list F :=
  match Ts with
  | [] => []
  | T :: Ts' =>
      let PPV := prc_PPV true_estimates off_diagonals T in
      let stored := if is_nan PPV then prev else PPV in
      stored :: prc_precisions true_estimates off_diagonals stored Ts'
  end.

(** [PRC] as [get_prc] allocates it. *)
Definition prc_zeros : ndarray F := NdArray 2 1000 (fun _ _ => of_Z 0).

End PrecisionRecall.

(** *** inverse_eval.get_R: the estimates and the turns that abort *)

Section GetREstimates.
Context {F : Type} `{Scalar F}.
Variable finf : F.
Variables (InverseOperator Estimate : Type).
Variable mixed_norm : sensor_data F → Estimate.
Variable inv_function :
  sensor_data F → F → string → option InverseOperator → Estimate.
Variable emp_column : Estimate → list F.
Variable vert_column : Estimate → list F.
Variable has_nan : Estimate → bool.

(** The estimate [get_R] obtains for an activation label. *)
Definition estimate_of (data : get_R_data F InverseOperator)
    (inp : get_R_input F) (label : Label) : Estimate :=
  let sens := sens_of finf data (ave_scale finf data inp) label in
  if String.eqb (invmethod inp) "mixed_norm" then mixed_norm sens
  else inv_function sens (used_SNR finf inp) (invmethod inp)
         (inverse_operator_of data inp).

(** The tests that lead to [break_point]: a column of [R_emp] that sums to
    zero (mixed norm), a nan in the source estimate (otherwise). *)
Definition aborts (data : get_R_data F InverseOperator)
    (inp : get_R_input F) (label : Label) : bool :=
  if String.eqb (invmethod inp) "mixed_norm"
  then feqb (np_sum (emp_column (estimate_of data inp label))) (of_Z 0)
  else has_nan (estimate_of data inp label).

(** The local variable [lambda2] after the loop over [labels]: bound by a
    turn whose scaling equals inf, and by nothing else. *)
Definition lambda2_after (data : get_R_data F InverseOperator)
    (inp : get_R_input F) (labels : list Label) (st : loop_state F)
    : option F :=
  match labels with
  | [] => lambda2 st
  | _ => if feqb (ave_scale finf data inp) finf
         then Some (fdiv (of_Z 1) (of_Z 9)) else lambda2 st
  end.

End GetREstimates.

Arguments estimate_of {F H} finf {InverseOperator Estimate}.
Arguments aborts {F H} finf {InverseOperator Estimate}.
Arguments lambda2_after {F H} finf {InverseOperator}.

(** ** inverse_eval.correct_fwd and count_sources_in_labels

    A forward object is a dictionary that [correct_fwd] modifies in place
    and returns: the model passes the object along as the state and returns
    it beside the outcome.  What is kept of it is what the two functions
    read and write: for each hemisphere the arrays 'inuse' and 'vertno' and
    the count 'nuse' of [fwd['src']], the gain matrix [fwd['sol']['data']]
    (one column per source, a fixed-orientation forward) and
    [fwd['nsource']]. *)

Section ForwardModel.
Context {F : Type}.

Record source_info := SourceInfo {
  src_inuse : list Z;     (* 'inuse': a flag for every vertex of the surface *)
  src_nuse : Z;           (* 'nuse' *)
  src_vertno : list nat   (* 'vertno': the vertices in use *)
}.

Record Forward := MkForward {
  fwd_src : source_info * source_info;   (* fwd['src'][0], fwd['src'][1] *)
  sol_data : cmatrix F;                  (* fwd['sol']['data'] *)
  nsource : Z                            (* fwd['nsource'] *)
}.

(** [fwd['src'][src_ind]] and the assignment of its three entries *)
Definition source_of (fwd : Forward) (src_ind : hemisphere) : source_info :=
  match src_ind with lh => (fwd_src fwd).1 | rh => (fwd_src fwd).2 end.
Definition set_source (fwd : Forward) (src_ind : hemisphere) (s : source_info)
    : Forward :=
  match src_ind with
  | lh => MkForward (s, (fwd_src fwd).2) (sol_data fwd) (nsource fwd)
  | rh => MkForward ((fwd_src fwd).1, s) (sol_data fwd) (nsource fwd)
  end.

(** [np.in1d(xs, ys)] and [np.isin(xs, ys)] on one-dimensional arrays *)
Definition np_in1d (xs ys : list nat) : list bool :=
  map (fun x => existsb (Nat.eqb x) ys) xs.
Definition np_in1d_Z (xs ys : list Z) : list bool :=
  map (fun x => existsb (Z.eqb x) ys) xs.

(** [np.where(mask)[0]]: the positions of the true items, counted from [i] *)
Fixpoint where_from (i : nat) (mask : list bool) : list nat :=
  match mask with
  | [] => []
  | b :: mask' => (if b then [i] else []) ++ where_from (S i) mask'
  end.
Definition np_where (mask : list bool) : list nat := where_from 0 mask.

(** [np.nonzero(v)[0]] *)
Definition np_nonzero (v : list Z) : list nat :=
  np_where (map (fun x => negb (x =? 0)%Z) v).

(** [inuse[vertnos] = 0]: numpy checks every index before it writes. *)
Definition zero_items (inuse : list Z) (vertnos : list nat) : result (list Z) :=
  if forallb (fun v => v <? length inuse) vertnos
  then Ok (foldl (fun acc v => <[v := 0%Z]> acc) inuse vertnos)
  else Raise IndexError.

(** The loop [for label in labels_unwanted], with [sources_to_remove] as its
    local variable and the forward object as the state. *)
Fixpoint remove_labels (offset : Z) (vertnos_lh vertnos_rh : list nat)
    (labels : list Label) (sources_to_remove : list Z) (fwd : Forward)
    : result (list Z) * Forward :=
  match labels with
  | [] => (Ok sources_to_remove, fwd)
  | label :: labels' =>
      let vertnos := vertices label in
      let sources_to_remove :=
        match hemi label with
        | lh => sources_to_remove
                ++ map Z.of_nat (np_where (np_in1d vertnos_lh vertnos))
        | rh => sources_to_remove
                ++ map (fun i => (Z.of_nat i + offset)%Z)
                     (np_where (np_in1d vertnos_rh vertnos))
        end in
      let src_ind := hemi label in
      match zero_items (src_inuse (source_of fwd src_ind)) vertnos with
      | Raise e => (Raise e, fwd)
      | Ok inuse =>
          let fwd :=
            set_source fwd src_ind
              (SourceInfo inuse (sumZ inuse) (np_nonzero inuse)) in
          remove_labels offset vertnos_lh vertnos_rh labels' sources_to_remove
            fwd
      end
  end.

(** [data[:, source_to_keep]] *)
Definition take_columns (data : cmatrix F) (source_to_keep : list nat)
    : result (cmatrix F) :=
  match mapM (fun i => c_cols data !! i) source_to_keep with
  | Some cols => Ok (CMatrix (c_rows data) cols)
  | None => Raise IndexError
  end.

(** [correct_fwd(fwd, labels_unwanted)]: the outcome and the forward object
    after the call, which is the object returned. *)
Definition correct_fwd (fwd : Forward) (labels_unwanted : list Label)
    : result unit * Forward :=
  let offset := src_nuse (fwd_src fwd).1 in
  let vertnos_lh := src_vertno (fwd_src fwd).1 in
  let vertnos_rh := src_vertno (fwd_src fwd).2 in
  match remove_labels offset vertnos_lh vertnos_rh labels_unwanted [] fwd with
  | (Raise e, fwd) => (Raise e, fwd)
  | (Ok sources_to_remove, fwd) =>
      let columns := map Z.of_nat (seq 0 (length (c_cols (sol_data fwd)))) in
      let source_to_keep :=
        np_where (map negb (np_in1d_Z columns sources_to_remove)) in
      match take_columns (sol_data fwd) source_to_keep with
      | Raise e => (Raise e, fwd)
      | Ok data =>
          (Ok tt,
           MkForward (fwd_src fwd) data (Z.of_nat (length (c_cols data))))
      end
  end.

(** [np.sum] of a boolean array *)
Definition count_true (mask : list bool) : Z :=
  Z.of_nat (length (List.filter id mask)).

Definition count_sources_in_labels (labels : list Label) (fwd : Forward)
    : list Z :=
  flat_map (fun label =>
              match hemi label with
              | lh => [count_true (np_in1d (vertices label)
                                     (src_vertno (fwd_src fwd).1))]
              | rh => [count_true (np_in1d (vertices label)
                                     (src_vertno (fwd_src fwd).2))]
              end) labels.

(** *** Vocabulary *)

Definition same_hemi (a b : hemisphere) : bool :=
  match a, b with lh, lh | rh, rh => true | _, _ => false end.

(** The vertices of the unwanted labels of a hemisphere, and the test that a
    vertex is none of them. *)
Definition unwanted_vertices (h : hemisphere) (labels : list Label)
    : list nat :=
  flat_map vertices (List.filter (fun label => same_hemi (hemi label) h) labels).
Definition wanted (h : hemisphere) (labels : list Label) (v : nat) : bool :=
  negb (existsb (Nat.eqb v) (unwanted_vertices h labels)).

(** The flags after those of the vertices [U] are set to 0, the first flag
    being that of vertex [i]. *)
Fixpoint zeroed_from (i : nat) (U : list nat) (inuse : list Z) : list Z :=
  match inuse with
  | [] => []
  | x :: inuse' =>
      (if existsb (Nat.eqb i) U then 0%Z else x) :: zeroed_from (S i) U inuse'
  end.

(** A source space with the flags [inuse], as the loop leaves it. *)
Definition source_with (inuse : list Z) : source_info :=
  SourceInfo inuse (sumZ inuse) (np_nonzero inuse).

(** What the loop adds to [sources_to_remove]. *)
Definition removed (offset : Z) (vertnos_lh vertnos_rh : list nat)
    (labels : list Label) : list Z :=
  flat_map (fun label =>
              match hemi label with
              | lh => map Z.of_nat
                        (np_where (np_in1d vertnos_lh (vertices label)))
              | rh => map (fun i => (Z.of_nat i + offset)%Z)
                        (np_where (np_in1d vertnos_rh (vertices label)))
              end) labels.

(** The values whose key passes a test, in their order. *)
Definition select {A B} (p : A → bool) (keys : list A) (vals : list B)
    : list B :=
  map snd (List.filter (fun kv => p kv.1) (zip keys vals)).

(** A source space whose three entries agree: flags 0 or 1, 'vertno' the
    flagged vertices, 'nuse' their number. *)
Definition source_consistent (s : source_info) : Prop :=
  Forall (fun x => x = 0%Z ∨ x = 1%Z) (src_inuse s)
  ∧ src_vertno s = np_nonzero (src_inuse s)
  ∧ src_nuse s = Z.of_nat (length (src_vertno s)).

(** A forward object whose gain matrix has one column per source in use,
    those of the left hemisphere first. *)
Definition forward_consistent (fwd : Forward) : Prop :=
  source_consistent (fwd_src fwd).1 ∧ source_consistent (fwd_src fwd).2
  ∧ length (c_cols (sol_data fwd))
    = length (src_vertno (fwd_src fwd).1) + length (src_vertno (fwd_src fwd).2).

(** The vertices of a label are vertices of the surface of its hemisphere. *)
Definition label_on_surface (fwd : Forward) (label : Label) : Prop :=
  Forall (fun v => v < length (src_inuse (source_of fwd (hemi label))))
    (vertices label).

End ForwardModel.

Arguments Forward F : clear implicits.

(** A forward object with three vertices on each surface, two of them in use
    on each, and a gain matrix of one row; one unwanted label, on the left. *)
Definition small_fwd : Forward Q :=
  MkForward
    (SourceInfo [1; 0; 1]%Z 2 [0; 2], SourceInfo [1; 1; 0]%Z 2 [0; 1])
    (CMatrix 1 [[1 # 1]; [2 # 1]; [3 # 1]; [4 # 1]]%Q) 4.
Definition unknown_lh : list Label := [MkLabel "unknown-lh" lh [0; 1]].
(** A label with a vertex that the left surface does not have. *)
Definition off_surface : list Label := [MkLabel "far-lh" lh [0; 7]].

(** *** inverse_eval.resolution_map *)

Section ResolutionMap.
Context {F : Type} `{Scalar F}.

(** What the function reaches outside the module: the settings object, the
    source spaces read from the forward solution, and the surface plot. *)
Variables (Settings SourceSpaces Joined Brain : Type).
Variable fname_fwd : Settings → string.
(** [mne.read_forward_solution(fname)['src']] reads a file and may raise. *)
Variable read_forward_solution_src : string → M F SourceSpaces.
Variable blurring : list F → Joined → M F (list F).
(** What bindings of the names [standardize_rows], [join_source_spaces],
    [mlab] and [print_ply] would denote; the module binds none of them. *)
Variable standardize_rows : loc → M F loc.
Variable join_source_spaces : SourceSpaces → M F Joined.
Variable triangular_mesh : Joined → list F → M F Brain.
Variable print_ply : string → Joined → list F → M F unit.

(** Reading a local variable that only some branches assign. *)
Definition local_name {A} (name : string) (v : option A) : M F A :=
  match v with Some a => ret a | None => raise (NameError name) end.

Definition resolution_map (settings : Settings) (R : loc)
    (res_argument arg fpath : string) (print_surf : bool)
    : M F (list F * Brain) :=
  if negb (string_in res_argument ["point_spread"; "cross_talk"])
  then raise (ValueError BadArgument)
  else
    let* acm :=
      if String.eqb res_argument "point_spread" then
        let* acm := global_name "get_average_point_spread"
                      (get_average_point_spread R arg) in
        ret (Some acm)
      else ret None in
    let* acm :=
      if String.eqb res_argument "cross_talk" then
        let* acm := global_name "get_average_cross_talk_map"
                      (get_average_cross_talk_map standardize_rows R) in
        ret (Some acm)
      else ret acm in
    let* src := global_name "mne"
                  (read_forward_solution_src (fname_fwd settings)) in
    let* src_joined := global_name "join_source_spaces"
                         (join_source_spaces src) in
    let* scalars := global_name "blurring"
                      (let* acm := local_name "acm" acm in
                       blurring acm src_joined) in
    let* brain := global_name "mlab" (triangular_mesh src_joined scalars) in
    let* _ :=
      if print_surf then
        if String.length fpath =? 0 then raise (ValueError BadArgument)
        else global_name "print_ply" (print_ply fpath src_joined scalars)
      else ret tt in
    let* acm := local_name "acm" acm in
    ret (acm, brain).

End ResolutionMap.

Arguments resolution_map {F H Settings SourceSpaces Joined Brain}.

(** *** inverse_eval.setup_labels *)

Section SetupLabels.

(** [mne.read_labels_from_annot(subject, parc, subjects_dir=subjects_dir)]
    reads the annotation files and may raise. *)
Variable read_labels_from_annot : string → string → string → result (list Label).

(** [name[0:-3]]: the name without its last three characters, empty for a
    name of at most three. *)
Definition name_stem (name : string) : string :=
  String.substring 0 (String.length name - 3) name.

(** The body of the loop [for label in all_labels]; the third component is
    what has been printed. *)
Definition setup_labels_step (unwanted_labels : list string)
    (acc : list Label * list Label * list string) (label : Label)
    : list Label * list Label * list string :=
  let labels := acc.1.1 in
  let labels_unwanted := acc.1.2 in
  let printed := acc.2 in
  if negb (string_in (name_stem (label_name label)) unwanted_labels)
  then (labels ++ [label], labels_unwanted, printed)
  else (labels, labels_unwanted ++ [label],
        printed ++ [("Removing " ++ label_name label)%string]).

(** The result, and the lines printed. *)
Definition setup_labels (subject parc subjects_dir : string)
    (unwanted_labels : list string)
    : result (list Label * list Label) * list string :=
  match read_labels_from_annot subject parc subjects_dir with
  | Raise e => (Raise e, [])
  | Ok all_labels =>
      let acc := fold_left (setup_labels_step unwanted_labels) all_labels
                   ([], [], []) in
      let labels := acc.1.1 in
      let labels_unwanted := acc.1.2 in
      let labels_lh := List.filter (fun label => same_hemi (hemi label) lh) labels in
      let labels_rh := List.filter (fun label => same_hemi (hemi label) rh) labels in
      let labels := labels_lh ++ labels_rh in
      (Ok (labels, labels_unwanted), acc.2)
  end.

(** The default of the parameter [unwanted_labels]. *)
Definition default_unwanted_labels : list string := ["unknown"; "corpuscallosum"].

End SetupLabels.

(** Labels listed by hemisphere: no label of the right hemisphere comes
    before one of the left. *)
Definition hemisphere_sorted (labels : list Label) : Prop :=
  ∀ i j a b, labels !! i = Some a → labels !! j = Some b →
    hemi a = rh → hemi b = lh → j < i.

(** The labels of one hemisphere, and the labels whose name without its
    last three characters is listed as unwanted. *)
Definition on_hemi (h : hemisphere) (label : Label) : bool :=
  same_hemi (hemi label) h.
Definition is_unwanted (unwanted_labels : list string) (label : Label) : bool :=
  string_in (name_stem (label_name label)) unwanted_labels.

(** A parcellation file of four labels. *)
Definition four_labels : list Label :=
  [ MkLabel "precentral-rh" rh [0; 1]; MkLabel "unknown-lh" lh [2];
    MkLabel "precentral-lh" lh [0; 1]; MkLabel "unknown-rh" rh [2] ].

(** *** inverse_eval.get_label_center_points *)

Section LabelCenterPoints.
Context {F : Type} `{Scalar F}.

(** A surface source space [src[c]]: the positions ['rr'] of all its
    vertices, the vertices in use ['vertno'], and the number ['np'] of its
    vertices. *)
Record surface := MkSurface {
  surface_rr : list (vec3 F);
  surface_vertno : list nat;
  surface_np : nat
}.

(** [src[c]] and [src_space_sphere[c]] for [c] in [range(2)] *)
Definition src_at {A} (src : A * A) (c : nat) : A :=
  if c =? 0 then src.1 else src.2.

(** [rows - np.mean(rows, axis=0)] *)
Definition centered (rows : list (vec3 F)) : list (vec3 F) :=
  map (fun r => vec_sub r (mean_axis0 rows)) rows.

(** [[(c, label) for c, label in enumerate(labels) if label.hemi == h]] *)
Definition labels_of_hemi (labels : list Label) (h : hemisphere)
    : list (nat * Label) :=
  List.filter (fun clabel => same_hemi (hemi clabel.2) h) (enumerate labels).

(** [vert in vertno] for an array [vertno] *)
Definition np_contains (vertno : list nat) (vert : nat) : bool :=
  existsb (Nat.eqb vert) vertno.

(** [sources[k]] *)
Definition getitem_nat (l : list nat) (k : nat) : M F nat :=
  match l !! k with Some v => ret v | None => raise IndexError end.

(** The body of the loop [for label in labels_hemi], for hemisphere [c] and
    the centered positions [rr] of its sphere. *)
Definition center_points_step (src : surface * surface) (c : nat)
    (rr : list (vec3 F)) (label : nat * Label)
    (acc : list nat * list (nat * Label)) : M F (list nat * list (nat * Label)) :=
  let center_vertices := acc.1 in
  let zero_labels := acc.2 in
  let label_verts := vertices label.2 in
  let* rows := take_rows rr label_verts in
  let label_center := mean_axis0 rows in
  let sources_in_label :=
    List.filter (np_contains (surface_vertno (src_at src c)))
      (vertices label.2) in
  if length sources_in_label =? 0 then
    ret (center_vertices, zero_labels ++ [label])
  else
    let* rows := take_rows rr sources_in_label in
    let* k := np_argmin (distances_to label_center rows) in
    let* center_vertex := getitem_nat sources_in_label k in
    ret (center_vertices ++ [center_vertex + c * surface_np src.1],
         zero_labels).

(** [np.zeros((1000, 3))] *)
Definition zeros_1000_3 : list (vec3 F) :=
  replicate 1000 (of_Z 0, of_Z 0, of_Z 0).

(** The function returns the center points and the center vertices, or two
    arrays of zeros in place of both.  What it prints is left out. *)
Definition get_label_center_points (labels : list Label)
    (src : surface * surface)
    (src_space_sphere : source_space F * source_space F)
    : M F (list (vec3 F) * (list (vec3 F) + list nat)) :=
  let labels_divide := (labels_of_hemi labels lh, labels_of_hemi labels rh) in
  let* acc :=
    for_each [0; 1] (fun c acc =>
      let src_sphere := src_at src_space_sphere c in
      let rr := centered (rr src_sphere) in
      let labels_hemi := src_at labels_divide c in
      for_each labels_hemi (center_points_step src c rr) acc) ([], []) in
  let center_vertices := acc.1 in
  let zero_labels := acc.2 in
  if 0 <? length zero_labels then ret (zeros_1000_3, inl zeros_1000_3)
  else
    (* np.array([]) is an array of floats, and no index *)
    if length center_vertices =? 0 then raise IndexError
    else
      let* center_points :=
        take_rows (surface_rr src.1 ++ surface_rr src.2) center_vertices in
      ret (center_points, inr center_vertices).

(** *** Vocabulary *)

(** The surface and the sphere of a label's hemisphere, and the offset of
    the hemisphere's vertices among all the vertices. *)
Definition surface_of (src : surface * surface) (label : Label) : surface :=
  match hemi label with lh => src.1 | rh => src.2 end.
Definition vertex_offset (src : surface * surface) (label : Label) : nat :=
  match hemi label with lh => 0 | rh => surface_np src.1 end.

(** The vertices of a label that are sources in use. *)
Definition sources_in (src : surface * surface) (label : Label) : list nat :=
  List.filter (np_contains (surface_vertno (surface_of src label)))
    (vertices label).

(** The position of a vertex on the centered sphere of a label's hemisphere,
    the center of gravity of the label there, and the distance of a vertex
    from it. *)
Definition sphere_position (sphere : source_space F * source_space F)
    (label : Label) (v : nat) : vec3 F :=
  nth v (centered (rr (space_of sphere label))) (of_Z 0, of_Z 0, of_Z 0).
Definition sphere_center (sphere : source_space F * source_space F)
    (label : Label) : vec3 F :=
  mean_axis0 (map (sphere_position sphere label) (vertices label)).
Definition sphere_distance (sphere : source_space F * source_space F)
    (label : Label) (v : nat) : F :=
  norm3 (vec_sub (sphere_center sphere label) (sphere_position sphere label v)).

(** The center vertex of a label: the first of its sources that is nearest
    to its center of gravity on the sphere. *)
Definition center_vertex_of (src : surface * surface)
    (sphere : source_space F * source_space F) (label : Label) : nat :=
  nth (argmin_of (map (sphere_distance sphere label) (sources_in src label)))
    (sources_in src label) 0.

(** The turn [c] of the loop over the hemispheres that handles a label. *)
Definition turn_of (label : Label) : nat :=
  match hemi label with lh => 0 | rh => 1 end.

(** A label none of whose vertices is a source in use. *)
Definition no_source (src : surface * surface) (label : Label) : bool :=
  length (sources_in src label) =? 0.

(** The center vertex of a label as an index into the positions of both
    hemispheres. *)
Definition center_index_of (src : surface * surface)
    (sphere : source_space F * source_space F) (label : Label) : nat :=
  center_vertex_of src sphere label + vertex_offset src label.

(** The labels of the left hemisphere, then those of the right. *)
Definition by_hemisphere (labels : list Label) : list Label :=
  List.filter (on_hemi lh) labels ++ List.filter (on_hemi rh) labels.

End LabelCenterPoints.

Arguments surface F : clear implicits.

(** The surfaces of two hemispheres with two vertices each: all the vertices
    of the right one are sources in use, and the second of the left one. *)
Definition two_surfaces : surface Q * surface Q :=
  (MkSurface [(0, 0, 0); (2 # 1, 0, 0)]%Q [1] 2,
   MkSurface [(0, 3 # 1, 0); (0, 5 # 1, 0)]%Q [0; 1] 2).

(** *** inverse_eval.get_peak_dipole_error *)

Section PeakDipoleError.
Context {F : Type} `{Scalar F}.

(** The order of [np.argmax]: larger first, and nan before everything. *)
Definition np_greater (x y : F) : bool :=
  fltb y x || (is_nan x && negb (is_nan y)).

Fixpoint argmax_from (best_i : nat) (best : F) (i : nat) (v : list F) : nat :=
  match v with
  | [] => best_i
  | x :: v' => if np_greater x best then argmax_from i x (S i) v'
               else argmax_from best_i best (S i) v'
  end.

(** The first position of the greatest item of a non-empty array *)
Definition argmax_of (v : list F) : nat :=
  match v with [] => 0 | x :: v' => argmax_from 0 x 1 v' end.

(** [np.argmax(np.abs(a), axis=0)]: an array without rows has no maximum,
    whatever the number of its columns. *)
Definition argmax_abs_axis0 (a : ndarray F) : M F (list nat) :=
  if shape0 a =? 0 then raise (ValueError ZeroSizeReduction)
  else ret (map (fun j => argmax_of (map fabs (column a j)))
              (seq 0 (shape1 a))).

(** [a - b] for arrays of shapes (m, 3) and (k, 3): row by row when [m = k],
    and the single row of one against every row of the other when [m] or
    [k] is 1. *)
Definition broadcast_sub (a b : list (vec3 F)) : M F (list (vec3 F)) :=
  if length a =? length b then ret (zip_with vec_sub a b)
  else match a, b with
       | [x], _ => ret (map (fun y => vec_sub x y) b)
       | _, [y] => ret (map (fun x => vec_sub x y) a)
       | _, _ => raise (ValueError CannotBroadcast)
       end.

Definition get_peak_dipole_error (R_vl : loc) (src : surface F * surface F)
    (src_space_sphere : source_space F * source_space F)
    (labels : list Label) : M F (list F) :=
  let* centers := global_name "get_label_center_points"
                    (get_label_center_points labels src src_space_sphere) in
  let label_center_points := centers.1 in
  let* r_vl := load R_vl in
  let* max_sources := argmax_abs_axis0 r_vl in
  let* rr_lh := take_rows (surface_rr src.1) (surface_vertno src.1) in
  let* rr_rh := take_rows (surface_rr src.2) (surface_vertno src.2) in
  let rr := rr_lh ++ rr_rh in
  let* peaks := take_rows rr max_sources in
  let* differences := broadcast_sub peaks label_center_points in
  let errors := map (fun d => fmul (norm3 d) (of_Z 100)) differences in
  ret errors.

(** *** Vocabulary *)

(** The positions of the sources in use, left hemisphere first. *)
Definition source_positions (src : surface F * surface F) : list (vec3 F) :=
  map (fun v => nth v (surface_rr src.1) (of_Z 0, of_Z 0, of_Z 0))
    (surface_vertno src.1)
  ++ map (fun v => nth v (surface_rr src.2) (of_Z 0, of_Z 0, of_Z 0))
       (surface_vertno src.2).

(** The vertices in use are vertices of their surfaces. *)
Definition sources_in_range (src : surface F * surface F) : Prop :=
  Forall (fun v => v < length (surface_rr src.1)) (surface_vertno src.1)
  ∧ Forall (fun v => v < length (surface_rr src.2)) (surface_vertno src.2).

(** The source with the largest reconstruction, in absolute value, of
    column [j], and its position. *)
Definition peak_source (r : ndarray F) (j : nat) : nat :=
  argmax_of (map fabs (column r j)).
Definition peak_position (src : surface F * surface F) (r : ndarray F)
    (j : nat) : vec3 F :=
  nth (peak_source r j) (source_positions src) (of_Z 0, of_Z 0, of_Z 0).

End PeakDipoleError.

(** A reconstruction over three sources for two labels. *)
Definition three_by_two : ndarray Q :=
  of_lists [[1 # 1; 0]; [-(3 # 1); 1 # 1]; [2 # 1; 5 # 1]]%Q.

(** A label on the first vertex of the left hemisphere, which is no source
    in use of [two_surfaces]. *)
Definition unsourced : list Label := [MkLabel "c-lh" lh [0]].

(** *** Vocabulary: receiver operating curves of perfect separation *)

(** Between two consecutive points the curve is at height 1, or it does not
    move sideways. *)
Fixpoint level_or_still (xs ys : list Q) : Prop :=
  match xs, ys with
  | x0 :: xs', y0 :: ys' =>
      match xs', ys' with
      | x1 :: _, y1 :: _ =>
          ((y0 == 1 ∧ y1 == 1) ∨ x1 == x0)%Q ∧ level_or_still xs' ys'
      | _, _ => True
      end
  | _, _ => True
  end.

(** Thresholds between which 1 and [top] are not separated: two consecutive
    ones are both below 1 or both at least [top], and the last is at least
    [top]. *)
Fixpoint split_at_oneb (top : Q) (Ts : list Q) : bool :=
  match Ts with
  | [] => true
  | T :: Ts' =>
      match Ts' with
      | [] => Qle_bool top T
      | T' :: _ =>
          ((negb (Qle_bool 1 T) && negb (Qle_bool 1 T'))
           || (Qle_bool top T && Qle_bool top T'))
          && split_at_oneb top Ts'
      end
  end.

(** The last threshold of [get_roc] below 1, -0.01 + 98 * 1.02 / 99. *)
Definition last_threshold_below_one : Q := 3299 # 3300.

(** *** inverse_eval.get_spatial_dispersion *)

Section SpatialDispersion.
Context {F : Type} `{Scalar F}.

(** The array [dist]: the difference of the peak positions, repeated over
    [m] rows, and the source positions, repeated over the columns, is taken
    row by row when there are [m] sources, and with the rows of one side
    repeated when that side has a single row; entry (i, j) is the distance
    between peak position j and source position i. *)
Definition distance_table (m : nat) (peak_positons rr : list (vec3 F))
    : M F (list (list F)) :=
  let row_for := fun r => map (fun p => norm3 (vec_sub p r)) peak_positons in
  if m =? length rr then ret (map row_for rr)
  else if m =? 1 then ret (map row_for rr)
  else match rr with
       | [r] => ret (replicate m (row_for r))
       | _ => raise (ValueError CannotBroadcast)
       end.

(** [np.diag(np.dot(dist.T, r))]: entry j is the sum over the rows i of
    [dist[i, j] * r[i, j]] (summed left to right). *)
Definition dot_diag (dist : list (list F)) (r : ndarray F) : M F (list F) :=
  if length dist =? shape0 r then
    ret (map (fun j =>
                np_sum (zip_with fmul
                          (map (fun row => nth j row (of_Z 0)) dist)
                          (column r j)))
           (seq 0 (shape1 r)))
  else raise (ValueError ShapesNotAligned).

(** The parameter [labels] is not used. *)
Definition get_spatial_dispersion (R : loc) (src : surface F * surface F)
    (labels : list Label) : M F (list F) :=
  let* rr_lh := take_rows (surface_rr src.1) (surface_vertno src.1) in
  let* rr_rh := take_rows (surface_rr src.2) (surface_vertno src.2) in
  let rr := rr_lh ++ rr_rh in
  let* r := load R in
  let* peaks := argmax_abs_axis0 r in
  let* peak_positons := take_rows rr peaks in
  let* dist := distance_table (shape0 r) peak_positons rr in
  let* weighted := dot_diag dist r in
  let totals := map (fun j => np_sum (map fabs (column r j)))
                  (seq 0 (shape1 r)) in
  let SD := zip_with (fun num den => fmul (fdiv num den) (of_Z 100))
              weighted totals in
  ret SD.

(** *** Vocabulary *)

(** The dispersion of column [j]: the distances of the sources from the
    peak position of the column, weighted by the entries of the column, over
    the sum of the absolute values of the entries, times 100. *)
Definition dispersion_of (src : surface F * surface F) (r : ndarray F)
    (j : nat) : F :=
  fmul
    (fdiv
       (np_sum (zip_with fmul
                  (map (fun p => norm3 (vec_sub (peak_position src r j) p))
                     (source_positions src))
                  (column r j)))
       (np_sum (map fabs (column r j))))
    (of_Z 100).

End SpatialDispersion.

(** A reconstruction over three sources in which every column has a single
    entry that is not zero. *)
Definition one_hot : ndarray Q :=
  of_lists [[0; 0]; [-(3 # 1); 0]; [0; 5 # 1]]%Q.

(** * Proofs *)

Section NumpyFacts.
Context {F : Type} `{Scalar F}.
Implicit Types (h : heap F) (a b : ndarray F).

Lemma lookup_fresh h a : (h ++ [a]) !! length h = Some a.
Proof. by apply list_lookup_middle. Qed.

Lemma insert_fresh h a b : <[length h := b]> (h ++ [a]) = h ++ [b].
Proof.
  rewrite insert_app_r_alt by lia. by rewrite Nat.sub_diag.
Qed.

Lemma lookup_old h a l x : h !! l = Some x → (h ++ [a]) !! l = Some x.
Proof. intros Hl. by apply lookup_app_l_Some. Qed.

Lemma load_fresh h a : load (length h) (h ++ [a]) = (Ok a, h ++ [a]).
Proof. unfold load. by rewrite lookup_fresh. Qed.

Lemma store_fresh h a b : store (length h) b (h ++ [a]) = (Ok tt, h ++ [b]).
Proof. unfold store. by rewrite lookup_fresh, insert_fresh. Qed.

Lemma column_length a d : length (column a d) = shape0 a.
Proof. unfold column. by rewrite length_map, length_seq. Qed.

Lemma column_lookup a d i : i < shape0 a → column a d !! i = Some (item a i d).
Proof.
  intros Hi. unfold column. rewrite list_lookup_fmap.
  rewrite lookup_seq_lt by done. done.
Qed.

Lemma column_ext a b d :
  shape0 a = shape0 b →
  (∀ i, i < shape0 a → item a i d = item b i d) →
  column a d = column b d.
Proof.
  intros Hs Hi. unfold column. rewrite <- Hs.
  apply map_ext_in. intros i Hin. apply in_seq in Hin. apply Hi. lia.
Qed.

(** *** standardize_columns *)

Lemma standardized_upto_column den a d b j :
  standardized_upto den a d b → j < shape1 a →
  column b j = if j <? d then div_each (column a j) (den j) else column a j.
Proof.
  intros (H0 & H1 & Hi) Hj. unfold column, div_each. rewrite H0.
  destruct (j <? d) eqn:E; [rewrite map_map|];
    apply map_ext_in; intros i Hin; apply in_seq in Hin;
    rewrite Hi by lia; by rewrite E.
Qed.

Lemma set_col_standardized den a d b h :
  standardized_upto den a d b → d < shape1 a →
  ∃ b', set_col (length h) d (div_each (column a d) (den d)) (h ++ [b])
          = (Ok tt, h ++ [b']) ∧ standardized_upto den a (S d) b'.
Proof.
  intros (H0 & H1 & Hi) Hd. eexists. split.
  - unfold set_col, bind. rewrite load_fresh.
    rewrite H1. apply Nat.ltb_lt in Hd as ->. simpl.
    unfold div_each. rewrite length_map, column_length, H0, Nat.eqb_refl. simpl.
    apply store_fresh.
  - split; [done|]. split; [done|]. simpl. intros i j Hi' Hj.
    destruct (Nat.eqb_spec j d) as [->|Hne].
    + assert ((d <? S d) = true) as -> by (apply Nat.ltb_lt; lia).
      apply nth_lookup_Some. unfold div_each.
      rewrite list_lookup_fmap, column_lookup by done. done.
    + rewrite Hi by done.
      destruct (Nat.ltb_spec j d), (Nat.ltb_spec j (S d)); try done; lia.
Qed.

Lemma get_col_fresh h b d :
  d < shape1 b → get_col (length h) d (h ++ [b]) = (Ok (column b d), h ++ [b]).
Proof.
  intros Hd. unfold get_col, bind. rewrite load_fresh.
  by apply Nat.ltb_lt in Hd as ->.
Qed.

Lemma standardize_column_max a d b h :
  standardized_upto (col_max a) a d b → d < shape1 a → 0 < shape0 a →
  ∃ b', standardize_column (length h) "max" d (h ++ [b]) = (Ok tt, h ++ [b'])
        ∧ standardized_upto (col_max a) a (S d) b'.
Proof.
  intros Hb Hd Hn.
  destruct (set_col_standardized (col_max a) a d b h Hb Hd) as (b' & Hset & Hb').
  exists b'. split; [|done].
  pose proof (standardized_upto_column _ _ _ _ d Hb Hd) as Hcol.
  rewrite Nat.ltb_irrefl in Hcol.
  destruct Hb as (H0 & H1 & _).
  unfold standardize_column. simpl. unfold bind at 1. simpl.
  unfold bind at 1. rewrite get_col_fresh by lia.
  unfold bind at 1. rewrite get_col_fresh by lia.
  rewrite Hcol. unfold bind at 1, np_max.
  unfold col_max in Hset.
  destruct (maximum_of (column a d)) as [top|] eqn:Emax.
  - simpl in *. exact Hset.
  - exfalso. unfold maximum_of in Emax.
    destruct (column a d) eqn:Ec; [|done].
    apply (f_equal length) in Ec. rewrite column_length in Ec. simpl in Ec. lia.
Qed.

Lemma standardize_loop_max a h k : ∀ d b,
  d + k = shape1 a → standardized_upto (col_max a) a d b → 0 < shape0 a →
  ∃ b', for_each (seq d k) (fun d _ => standardize_column (length h) "max" d) tt
          (h ++ [b]) = (Ok tt, h ++ [b'])
        ∧ standardized_upto (col_max a) a (shape1 a) b'.
Proof.
  induction k as [|k IH]; intros d b Hdk Hb Hn.
  - exists b. split; [done|]. by replace (shape1 a) with d by lia.
  - destruct (standardize_column_max a d b h Hb) as (b1 & Hstep & Hb1); [lia|done|].
    destruct (IH (S d) b1) as (b' & Hloop & Hb'); [lia|done|done|].
    exists b'. split; [|done]. simpl. unfold bind. by rewrite Hstep.
Qed.

Lemma standardize_column_max_empty b h d :
  d < shape1 b → shape0 b = 0 →
  standardize_column (length h) "max" d (h ++ [b])
  = (Raise (ValueError ZeroSizeReduction), h ++ [b]).
Proof.
  intros Hd Hn. unfold standardize_column. simpl. unfold bind at 1. simpl.
  unfold bind at 1. rewrite get_col_fresh by lia.
  unfold bind at 1. rewrite get_col_fresh by lia.
  unfold column. rewrite Hn. done.
Qed.

Lemma getitem_fresh h b i j :
  getitem (length h) i j (h ++ [b])
  = (if (i <? shape0 b) && (j <? shape1 b) then Ok (item b i j) else Raise IndexError,
     h ++ [b]).
Proof.
  unfold getitem, bind. rewrite load_fresh.
  by destruct ((i <? shape0 b) && (j <? shape1 b)).
Qed.

Lemma standardize_column_diag a d b h :
  standardized_upto (col_diag a) a d b → d < shape1 a → d < shape0 a →
  ∃ b', standardize_column (length h) "diag" d (h ++ [b]) = (Ok tt, h ++ [b'])
        ∧ standardized_upto (col_diag a) a (S d) b'.
Proof.
  intros Hb Hd Hn.
  destruct (set_col_standardized (col_diag a) a d b h Hb Hd) as (b' & Hset & Hb').
  exists b'. split; [|done].
  pose proof (standardized_upto_column _ _ _ _ d Hb Hd) as Hcol.
  rewrite Nat.ltb_irrefl in Hcol.
  destruct Hb as (H0 & H1 & Hi).
  unfold standardize_column. simpl. unfold bind at 1.
  unfold bind at 1. rewrite getitem_fresh, H0, H1.
  apply Nat.ltb_lt in Hd as Hd'. apply Nat.ltb_lt in Hn as Hn'.
  rewrite Hd', Hn'. simpl.
  unfold bind at 1. rewrite get_col_fresh by lia.
  rewrite Hcol, Hi, Nat.ltb_irrefl by done.
  unfold col_diag in Hset. by rewrite Hset.
Qed.

Lemma standardize_column_diag_index b h d :
  shape0 b ≤ d →
  standardize_column (length h) "diag" d (h ++ [b]) = (Raise IndexError, h ++ [b]).
Proof.
  intros Hd. unfold standardize_column. simpl. unfold bind at 1.
  unfold bind at 1. rewrite getitem_fresh.
  by assert ((d <? shape0 b) = false) as -> by (apply Nat.ltb_ge; lia).
Qed.

Lemma standardize_loop_diag a h k : ∀ d b,
  d + k = shape1 a → standardized_upto (col_diag a) a d b → d ≤ shape0 a →
  ∃ b', (shape1 a ≤ shape0 a
         ∧ for_each (seq d k) (fun d _ => standardize_column (length h) "diag" d) tt
             (h ++ [b]) = (Ok tt, h ++ [b'])
         ∧ standardized_upto (col_diag a) a (shape1 a) b')
        ∨ (shape0 a < shape1 a
           ∧ for_each (seq d k) (fun d _ => standardize_column (length h) "diag" d) tt
               (h ++ [b]) = (Raise IndexError, h ++ [b'])).
Proof.
  induction k as [|k IH]; intros d b Hdk Hb Hn.
  - exists b. left. split; [lia|]. split; [done|].
    by replace (shape1 a) with d by lia.
  - destruct (decide (d < shape0 a)) as [Hlt|Hge].
    + destruct (standardize_column_diag a d b h Hb) as (b1 & Hstep & Hb1); [lia|done|].
      destruct (IH (S d) b1) as (b' & [(Hle & Hloop & Hb')|(Hlt' & Hloop)]);
        [lia|done|lia| |].
      * exists b'. left. split; [done|]. split; [|done].
        simpl. unfold bind. by rewrite Hstep.
      * exists b'. right. split; [done|]. simpl. unfold bind. by rewrite Hstep.
    + exists b. right. split; [lia|]. simpl. unfold bind.
      rewrite standardize_column_diag_index; [done|].
      destruct Hb as (-> & _). lia.
Qed.

Lemma standardized_upto_0 den a : standardized_upto den a 0 a.
Proof. by repeat split. Qed.

Lemma copy_then_load h R a (k : loc → ndarray F → M F loc) :
  h !! R = Some a →
  (let* R_std := ndarray_copy R in let* a' := load R_std in k R_std a') h
  = k (length h) a (h ++ [a]).
Proof.
  intros HR. unfold bind at 1. unfold ndarray_copy, bind at 1, load at 1.
  rewrite HR. simpl. unfold bind at 1. by rewrite load_fresh.
Qed.

Lemma standardize_columns_other R arg h :
  arg ≠ "diag" → arg ≠ "max" →
  standardize_columns R arg h = (Raise (ValueError BadArgument), h).
Proof.
  intros Hd Hm. unfold standardize_columns, string_in. simpl.
  apply String.eqb_neq in Hd as ->. by apply String.eqb_neq in Hm as ->.
Qed.

Lemma standardize_columns_max R h a :
  h !! R = Some a →
  (0 < shape0 a ∨ shape1 a = 0) →
  ∃ b, standardize_columns R "max" h = (Ok (length h), h ++ [b])
       ∧ standardized_upto (col_max a) a (shape1 a) b.
Proof.
  intros HR Hshape. unfold standardize_columns. simpl.
  rewrite (copy_then_load h R a) by done.
  destruct Hshape as [Hn|Hm].
  - destruct (standardize_loop_max a h (shape1 a) 0 a) as (b & Hloop & Hb);
      [done|apply standardized_upto_0|done|].
    exists b. split; [|done]. unfold bind. by rewrite Hloop.
  - exists a. rewrite Hm. split; [done|].
    rewrite <- Hm. apply standardized_upto_0 || (rewrite Hm; apply standardized_upto_0).
Qed.

Lemma standardize_columns_max_empty R h a :
  h !! R = Some a → shape0 a = 0 → 0 < shape1 a →
  standardize_columns R "max" h
  = (Raise (ValueError ZeroSizeReduction), h ++ [a]).
Proof.
  intros HR Hn Hm. unfold standardize_columns. simpl.
  rewrite (copy_then_load h R a) by done.
  destruct (shape1 a) as [|m] eqn:E; [lia|].
  simpl. unfold bind.
  rewrite standardize_column_max_empty by (rewrite ?E; lia). done.
Qed.

Lemma standardize_columns_diag R h a :
  h !! R = Some a →
  ∃ b, (shape1 a ≤ shape0 a
        ∧ standardize_columns R "diag" h = (Ok (length h), h ++ [b])
        ∧ standardized_upto (col_diag a) a (shape1 a) b)
       ∨ (shape0 a < shape1 a
          ∧ standardize_columns R "diag" h = (Raise IndexError, h ++ [b])).
Proof.
  intros HR. unfold standardize_columns. simpl.
  rewrite (copy_then_load h R a) by done.
  destruct (standardize_loop_diag a h (shape1 a) 0 a)
    as (b & [(Hle & Hloop & Hb)|(Hlt & Hloop)]);
    [done|apply standardized_upto_0|lia| |].
  - exists b. left. split; [done|]. split; [|done]. unfold bind. by rewrite Hloop.
  - exists b. right. split; [done|]. unfold bind. by rewrite Hloop.
Qed.

(** *** remove_diagonal *)

Lemma filter_map_all {A} (keep : F → bool) (g : A → F) (l : list A) :
  (∀ x, In x l → keep (g x) = true) → List.filter keep (map g l) = map g l.
Proof.
  induction l as [|x l IH]; intros Hk; [done|]. simpl.
  rewrite Hk by (by left). f_equal. apply IH. intros y Hy. apply Hk. by right.
Qed.

Lemma without_column a j :
  j < shape0 a →
  without j (column a j)
  = map (fun i => item a i j) (seq 0 j ++ seq (S j) (shape0 a - S j)).
Proof.
  intros Hj. unfold without, column.
  rewrite <- fmap_take, <- fmap_drop, take_seq, drop_seq.
  rewrite Nat.min_l by lia. by rewrite map_app.
Qed.

Lemma without_length j (v : list F) : j < length v → length (without j v) = length v - 1.
Proof.
  intros Hj. unfold without. rewrite length_app, length_take, length_drop. lia.
Qed.

(** Masking the sentinel out of column [j] of the diagonal-filled copy removes
    its diagonal item and nothing else. *)
Lemma filter_filled_column a j :
  j < shape0 a →
  feqb (sentinel (F:=F)) sentinel = true →
  (∀ i, i < shape0 a → i ≠ j → feqb (item a i j) sentinel = false) →
  List.filter (fun x => negb (feqb x sentinel))
    (map (fun i => if i =? j then sentinel else item a i j) (seq 0 (shape0 a)))
  = without j (column a j).
Proof.
  intros Hj Hs Ha. rewrite without_column by done.
  replace (shape0 a) with (j + (1 + (shape0 a - S j))) at 1 by lia.
  rewrite !seq_app, !map_app, !List.filter_app. simpl.
  rewrite Nat.eqb_refl, Hs. simpl. f_equal.
  - rewrite <- (filter_map_all (fun x => negb (feqb x sentinel))
                  (fun i => item a i j) (seq 0 j)).
    + f_equal. apply map_ext_in. intros i Hi. apply in_seq in Hi.
      by assert ((i =? j) = false) as -> by (apply Nat.eqb_neq; lia).
    + intros i Hi. apply in_seq in Hi. rewrite Ha by lia. done.
  - replace (j + 1) with (S j) by lia.
    rewrite <- (filter_map_all (fun x => negb (feqb x sentinel))
                  (fun i => item a i j) (seq (S j) (shape0 a - S j))).
    + f_equal. apply map_ext_in. intros i Hi. apply in_seq in Hi.
      by assert ((i =? j) = false) as -> by (apply Nat.eqb_neq; lia).
    + intros i Hi. apply in_seq in Hi. rewrite Ha by lia. done.
Qed.

Lemma flat_map_block_lookup (f : nat → list F) (L : nat) m : ∀ s j i,
  (∀ k, k < m → length (f (s + k)) = L) → j < m → i < L →
  flat_map f (seq s m) !! (j * L + i) = f (s + j) !! i.
Proof.
  induction m as [|m IH]; intros s j i Hlen Hj Hi; [lia|]. simpl.
  destruct j as [|j].
  - rewrite Nat.add_0_r. simpl. apply lookup_app_l.
    specialize (Hlen 0). rewrite Nat.add_0_r in Hlen. rewrite Hlen; lia.
  - rewrite lookup_app_r.
    + specialize (Hlen 0) as H0. rewrite Nat.add_0_r in H0. rewrite H0 by lia.
      replace (S j * L + i - L) with (j * L + i) by lia.
      rewrite IH with (i := i); [by replace (S s + j) with (s + S j) by lia| |lia|done].
      intros k Hk. replace (S s + k) with (s + S k) by lia. apply Hlen. lia.
    + specialize (Hlen 0) as H0. rewrite Nat.add_0_r in H0. rewrite H0; lia.
Qed.

Lemma flat_map_block_length (f : nat → list F) (L : nat) m : ∀ s,
  (∀ k, k < m → length (f (s + k)) = L) →
  length (flat_map f (seq s m)) = m * L.
Proof.
  induction m as [|m IH]; intros s Hlen; [done|]. simpl.
  rewrite length_app, IH.
  - specialize (Hlen 0). rewrite Nat.add_0_r in Hlen. rewrite Hlen; lia.
  - intros k Hk. replace (S s + k) with (s + S k) by lia. apply Hlen. lia.
Qed.

Lemma remove_diagonal_square (A : loc) h a n :
  h !! A = Some a → shape0 a = n → shape1 a = n → 1 ≤ n →
  feqb (sentinel (F:=F)) sentinel = true →
  (∀ i j, i < n → j < n → i ≠ j → feqb (item a i j) sentinel = false) →
  ∃ a' b, remove_diagonal A h = (Ok (S (length h)), h ++ [a'; b])
          ∧ shape0 b = n - 1 ∧ shape1 b = n
          ∧ ∀ j, j < n → column b j = without j (column a j).
Proof.
  intros HA H0 H1 Hn Hs Hoff.
  set (f := fun j => List.filter (fun x => negb (feqb x sentinel))
                       (map (fun i => if i =? j then sentinel else item a i j)
                          (seq 0 n))).
  assert (∀ j, j < n → f j = without j (column a j)) as Hf.
  { intros j Hj. unfold f. rewrite <- H0.
    apply filter_filled_column; [lia|done|].
    intros i Hi Hij. apply Hoff; lia. }
  assert (∀ k, k < n → length (f (0 + k)) = n - 1) as Hlen.
  { intros k Hk. simpl. rewrite Hf by done.
    rewrite without_length; rewrite column_length; lia. }
  assert (length (flat_map f (seq 0 n)) = n * (n - 1)) as Hkept
    by (by apply flat_map_block_length).
  do 2 eexists. split; [|split; [|split]].
  - unfold remove_diagonal. unfold bind at 1.
    unfold ndarray_copy, bind at 1, load at 1. rewrite HA. simpl.
    unfold bind at 1. unfold np_fill_diagonal, bind at 1.
    rewrite load_fresh, store_fresh.
    unfold bind at 1. rewrite load_fresh. simpl.
    unfold masked_items, row. simpl. rewrite H0, H1. fold f.
    unfold np_reshape.
    assert ((Z.of_nat n - 1 =? -1)%Z = false) as -> by lia.
    assert ((Z.of_nat n * (Z.of_nat n - 1) =? Z.of_nat (length (flat_map f (seq 0 n))))%Z
            = true) as -> by (apply Z.eqb_eq; rewrite Hkept; nia).
    unfold bind, ret, alloc. simpl.
    rewrite length_app, <- app_assoc. simpl.
    replace (length h + 1) with (S (length h)) by lia. reflexivity.
  - simpl. lia.
  - done.
  - intros j Hj. rewrite <- Hf by done.
    replace (Z.to_nat (Z.of_nat n - 1)) with (n - 1) by lia.
    unfold column at 1. simpl.
    replace (Z.to_nat (Z.of_nat n - 1)) with (n - 1) by lia.
    apply list_eq. intros i. rewrite list_lookup_fmap.
    destruct (decide (i < n - 1)) as [Hi|Hi].
    + rewrite lookup_seq_lt by done. simpl.
      pose proof (flat_map_block_lookup f (n - 1) n 0 j i Hlen Hj Hi) as Hlk.
      simpl in Hlk. rewrite <- Hlk.
      destruct (flat_map f (seq 0 n) !! (j * (n - 1) + i)) eqn:E.
      * f_equal. by apply nth_lookup_Some.
      * exfalso. apply lookup_ge_None in E. rewrite Hkept in E. nia.
    + rewrite lookup_seq_ge by lia. simpl. symmetry.
      apply lookup_ge_None. specialize (Hlen j Hj). simpl in Hlen. lia.
Qed.

(** The heap after [standardize_columns]: at most one new object. *)
Lemma standardize_columns_heap (R : loc) (arg : string) h res h' :
  standardize_columns R arg h = (res, h') → h' = h ∨ ∃ b, h' = h ++ [b].
Proof.
  intros Hrun. destruct (h !! R) as [a|] eqn:HR.
  - destruct (decide (arg = "max")) as [->|Hmax];
      [|destruct (decide (arg = "diag")) as [->|Hdiag]].
    + destruct (decide (0 < shape0 a ∨ shape1 a = 0)) as [Hshape|Hshape].
      * destruct (standardize_columns_max R h a HR Hshape) as (b & E & _).
        rewrite Hrun in E. right. exists b. congruence.
      * rewrite (standardize_columns_max_empty R h a) in Hrun by (done || lia).
        right. exists a. congruence.
    + destruct (standardize_columns_diag R h a HR) as (b & [(_ & E & _)|(_ & E)]);
        rewrite Hrun in E; right; exists b; congruence.
    + rewrite standardize_columns_other in Hrun by done. left. congruence.
  - revert Hrun. unfold standardize_columns.
    destruct (negb _); [intros [= <- <-]; by left|].
    unfold bind at 1. unfold ndarray_copy, bind at 1, load at 1. rewrite HR.
    intros [= <- <-]. by left.
Qed.

(** C8 (as amended).  [standardize_columns(R, arg)] raises ValueError exactly
    when [arg] is neither "diag" nor "max", or when [arg] is "max" and [R] has
    a column but no row (np.max of an empty column).  Whatever the outcome,
    [R] and every other array already in the heap are left as they were: the
    function writes to a fresh copy only.  On success the result has the shape
    of [R]; with "max" each of its columns is the column of [R] divided by
    that column's maximum, with "diag" by that column's diagonal entry. *)
Theorem standardize_columns_spec (R : loc) (arg : string) h a :
  h !! R = Some a →
  ∃ res h',
    standardize_columns R arg h = (res, h')
    ∧ (∀ l x, h !! l = Some x → h' !! l = Some x)
    ∧ (raises_ValueError res ↔
         (arg ≠ "diag" ∧ arg ≠ "max")
         ∨ (arg = "max" ∧ shape0 a = 0 ∧ 0 < shape1 a))
    ∧ (∀ R_std, res = Ok R_std →
         ∃ b, h' !! R_std = Some b ∧ R_std ≠ R
              ∧ shape0 b = shape0 a ∧ shape1 b = shape1 a
              ∧ ∀ j, j < shape1 a →
                  (arg = "max" →
                     ∃ top, maximum_of (column a j) = Some top
                            ∧ column b j = div_each (column a j) top)
                  ∧ (arg = "diag" →
                       column b j = div_each (column a j) (item a j j))).
Proof.
  intros HR.
  assert (R < length h) as HRlt by (by eapply lookup_lt_Some).
  destruct (decide (arg = "max")) as [->|Hmax];
    [|destruct (decide (arg = "diag")) as [->|Hdiag]].
  - destruct (decide (0 < shape0 a ∨ shape1 a = 0)) as [Hshape|Hshape].
    + destruct (standardize_columns_max R h a HR Hshape) as (b & -> & Hb).
      do 2 eexists. split; [done|]. split; [by intros; apply lookup_old|].
      split.
      * split; [by intros [? ?]|]. intros [[_ ?]|(_ & ? & ?)]; [done|lia].
      * intros ? [= <-]. exists b. split; [apply lookup_fresh|].
        split; [lia|]. destruct Hb as (H0 & H1 & Hi). do 2 (split; [done|]).
        intros j Hj. split; [|done]. intros _.
        pose proof (standardized_upto_column _ _ _ _ j (conj H0 (conj H1 Hi)) Hj)
          as Hcol.
        apply Nat.ltb_lt in Hj as Hj'. rewrite Hj' in Hcol.
        unfold col_max in Hcol.
        destruct (maximum_of (column a j)) as [top|] eqn:Emax; [by exists top|].
        exfalso. unfold maximum_of in Emax.
        destruct (column a j) eqn:Ec; [|done].
        apply (f_equal length) in Ec. rewrite column_length in Ec. simpl in Ec. lia.
    + rewrite (standardize_columns_max_empty R h a) by (done || lia).
      do 2 eexists. split; [done|]. split; [by intros; apply lookup_old|].
      split; [|done].
      split; [|by eexists]. intros _. right. split; [done|]. lia.
  - destruct (standardize_columns_diag R h a HR)
      as (b & [(Hle & -> & Hb)|(Hlt & ->)]).
    + do 2 eexists. split; [done|]. split; [by intros; apply lookup_old|].
      split.
      * split; [by intros [? ?]|]. intros [[? _]|(? & _)]; done.
      * intros ? [= <-]. exists b. split; [apply lookup_fresh|].
        split; [lia|]. pose proof Hb as (H0 & H1 & _). do 2 (split; [done|]).
        intros j Hj. split; [done|]. intros _.
        pose proof (standardized_upto_column _ _ _ _ j Hb Hj) as Hcol.
        apply Nat.ltb_lt in Hj as Hj'. by rewrite Hj' in Hcol.
    + do 2 eexists. split; [done|]. split; [by intros; apply lookup_old|].
      split; [|done].
      split; [by intros [? ?]|]. intros [[? _]|(? & _)]; done.
  - rewrite standardize_columns_other by done.
    do 2 eexists. split; [done|]. split; [done|]. split; [|done].
    split; [by left|by eexists].
Qed.

(** C9.  For a square n-by-n array [A], n >= 1, none of whose entries
    compares equal to the sentinel 9999999999999999 (a value the scalar type
    compares equal to itself), [remove_diagonal(A)] returns a new array of
    shape (n-1, n) whose column j is column j of [A] without its diagonal
    entry, the other entries in their order; [A] and every other array of
    the heap are left as they were. *)
Theorem remove_diagonal_spec (A : loc) h a n :
  h !! A = Some a → shape0 a = n → shape1 a = n → 1 ≤ n →
  feqb (sentinel (F:=F)) sentinel = true →
  (∀ i j, i < n → j < n → feqb (item a i j) sentinel = false) →
  ∃ B h' b,
    remove_diagonal A h = (Ok B, h')
    ∧ h' !! B = Some b ∧ B ≠ A
    ∧ shape0 b = n - 1 ∧ shape1 b = n
    ∧ (∀ j, j < n → column b j = without j (column a j))
    ∧ (∀ l x, h !! l = Some x → h' !! l = Some x).
Proof.
  intros HA H0 H1 Hn Hs Hall.
  destruct (remove_diagonal_square A h a n) as (a' & b & Hrun & Hb0 & Hb1 & Hcol);
    [done..|by intros; apply Hall|].
  assert (A < length h) by (by eapply lookup_lt_Some).
  exists (S (length h)), (h ++ [a'; b]), b.
  split; [done|]. split.
  { replace (S (length h)) with (length (h ++ [a'])) by (rewrite length_app; simpl; lia).
    change (h ++ [a'; b]) with (h ++ [a'] ++ [b]). rewrite app_assoc.
    apply lookup_fresh. }
  split; [lia|]. do 3 (split; [done|]).
  intros l x Hl. by apply lookup_app_l_Some.
Qed.

(** *** Frames: what the functions leave alone *)

Lemma standardize_columns_frame (R : loc) arg h res h' :
  standardize_columns R arg h = (res, h') →
  ∀ l x, h !! l = Some x → h' !! l = Some x.
Proof.
  intros Hrun l x Hl.
  destruct (standardize_columns_heap R arg h res h' Hrun) as [->|[b ->]];
    [done|by apply lookup_old].
Qed.

Lemma remove_diagonal_frame (A : loc) h res h' :
  remove_diagonal A h = (res, h') →
  ∀ l x, h !! l = Some x → h' !! l = Some x.
Proof.
  unfold remove_diagonal. unfold bind at 1.
  unfold ndarray_copy, bind at 1, load at 1.
  destruct (h !! A) as [a|] eqn:HA; [|by intros [= <- <-]]. simpl.
  unfold bind at 1. unfold np_fill_diagonal, bind at 1.
  rewrite load_fresh, store_fresh.
  unfold bind at 1. rewrite load_fresh.
  unfold bind at 1.
  destruct (np_reshape _ _ _ _) as [[r|e] h1] eqn:Er.
  - assert (h1 = h ++ [NdArray (shape0 a) (shape1 a)
                         (fun i j => if i =? j then sentinel else item a i j)])
      as ->.
    { revert Er. unfold np_reshape.
      repeat destruct (_ : bool); unfold ret, raise; by intros [= <- <-] || by intros [=]. }
    unfold alloc. intros [= <- <-] l x Hl.
    by apply lookup_old, lookup_old.
  - assert (h1 = h ++ [NdArray (shape0 a) (shape1 a)
                         (fun i j => if i =? j then sentinel else item a i j)])
      as ->.
    { revert Er. unfold np_reshape.
      repeat destruct (_ : bool); unfold ret, raise; by intros [= <- <-] || by intros [=]. }
    intros [= <- <-] l x Hl. by apply lookup_old.
Qed.

(** *** get_roc: the threshold loop *)

Lemma setitem_at (ROC : loc) h roc i c v :
  h !! ROC = Some roc → i < shape0 roc → c < shape1 roc →
  setitem ROC i c v h
  = (Ok tt, <[ROC := NdArray (shape0 roc) (shape1 roc)
                       (fun i' j' => if (i' =? i) && (j' =? c) then v
                                     else item roc i' j')]> h).
Proof.
  intros HROC Hi Hc. unfold setitem, bind, load. rewrite HROC.
  apply Nat.ltb_lt in Hi as ->. apply Nat.ltb_lt in Hc as ->. simpl.
  unfold store. by rewrite HROC.
Qed.

Lemma roc_loop (ROC : loc) (te off : list F) (Ts : list F) :
  ∀ s stats h roc,
  h !! ROC = Some roc → shape0 roc = 2 → s + length Ts ≤ shape1 roc →
  ∃ roc',
    for_each (zip (seq s (length Ts)) Ts) (roc_step ROC te off) stats h
    = (Ok (RocStats (stat_TP stats ++ map (roc_TP te) Ts)
                    (stat_FN stats ++ map (roc_FN te) Ts)
                    (stat_TN stats ++ map (roc_TN off) Ts)
                    (stat_FP stats ++ map (roc_FP off) Ts)),
       <[ROC := roc']> h)
    ∧ shape0 roc' = 2 ∧ shape1 roc' = shape1 roc
    ∧ ∀ i c, item roc' i c = roc_filled te off s Ts roc i c.
Proof.
  induction Ts as [|T Ts IH]; intros s stats h roc HROC H0 Hlen.
  - exists roc. cbn [length seq zip zip_with for_each map].
    rewrite !app_nil_r, list_insert_id by done.
    destruct stats. split; [done|]. split; [done|]. split; [done|].
    intros i c. unfold roc_filled. by rewrite lookup_nil.
  - simpl in Hlen.
    assert (ROC < length h) as HROClt by (by eapply lookup_lt_Some).
    set (roc1 := NdArray (shape0 roc) (shape1 roc)
                   (fun i' j' => if (i' =? 0) && (j' =? s) then roc_FPR off T
                                 else item roc i' j')).
    set (roc2 := NdArray (shape0 roc1) (shape1 roc1)
                   (fun i' j' => if (i' =? 1) && (j' =? s) then roc_TPR te T
                                 else item roc1 i' j')).
    destruct (IH (S s)
                (RocStats (stat_TP stats ++ [roc_TP te T])
                   (stat_FN stats ++ [roc_FN te T])
                   (stat_TN stats ++ [roc_TN off T])
                   (stat_FP stats ++ [roc_FP off T]))
                (<[ROC := roc2]> h) roc2)
      as (roc' & Hrun & H0' & H1' & Hitem).
    { by apply list_lookup_insert_eq. }
    { done. }
    { simpl. lia. }
    exists roc'. split; [|split; [done|split; [done|]]].
    + cbn [length seq zip zip_with for_each]. unfold bind at 1.
      unfold roc_step at 1. cbn [fst snd]. unfold bind at 1.
      rewrite (setitem_at ROC h roc 0 s) by (done || lia).
      fold roc1. unfold bind at 1.
      rewrite (setitem_at ROC (<[ROC := roc1]> h) roc1 1 s);
        [|by apply list_lookup_insert_eq|simpl; lia|simpl; lia].
      fold roc2. rewrite list_insert_insert_eq. unfold ret at 1.
      rewrite Hrun. cbn [stat_TP stat_FN stat_TN stat_FP map].
      rewrite <- !app_assoc. cbn [app].
      by rewrite list_insert_insert_eq.
    + intros i c. rewrite Hitem. unfold roc_filled.
      destruct (decide (c = s)) as [->|Hne].
      * rewrite Nat.sub_diag. cbn [lookup list_lookup].
        assert (Ts !! (s - S s) = Ts !! 0) as -> by (f_equal; lia).
        assert ((S s <=? s) = false) as -> by (apply Nat.leb_gt; lia).
        rewrite Nat.leb_refl.
        assert (item roc2 i s = if i =? 0 then roc_FPR off T
                                else if i =? 1 then roc_TPR te T
                                else item roc i s) as Hs.
        { simpl. rewrite Nat.eqb_refl.
          destruct i as [|[|i]]; simpl; done. }
        by destruct (Ts !! 0).
      * assert (item roc2 i c = item roc i c) as Hc.
        { simpl. assert ((c =? s) = false) as -> by (by apply Nat.eqb_neq).
          by rewrite !andb_false_r. }
        rewrite Hc.
        destruct (decide (s < c)) as [Hlt|Hge].
        -- replace (c - s) with (S (c - S s)) by lia. cbn [lookup list_lookup].
           assert ((S s <=? c) = true) as -> by (apply Nat.leb_le; lia).
           by assert ((s <=? c) = true) as -> by (apply Nat.leb_le; lia).
        -- assert ((S s <=? c) = false) as -> by (apply Nat.leb_gt; lia).
           assert ((s <=? c) = false) as -> by (apply Nat.leb_gt; lia).
           destruct (Ts !! (c - S s)), ((T :: Ts) !! (c - s)); done.
Qed.

(** *** get_roc: from the setup to the result *)

Lemma bound_standardize_columns :
  string_in "standardize_columns" module_names = true.
Proof. reflexivity. Qed.

Lemma bound_remove_diagonal : string_in "remove_diagonal" module_names = true.
Proof. reflexivity. Qed.

Lemma np_linspace_length (start stop : F) num :
  length (np_linspace start stop num) = num.
Proof. unfold np_linspace. by rewrite length_map, length_seq. Qed.

Lemma roc_thresholds_length : length (roc_thresholds (F:=F)) = 100.
Proof. apply np_linspace_length. Qed.

(** Once the standardized matrix and its off-diagonal part are there, the
    loop and the integration always go through. *)
Lemma get_roc_after_setup (R : loc) h R_max h1 r_max R_off h2 off :
  standardize_columns R "max" (h ++ [roc_zeros]) = (Ok R_max, h1) →
  h1 !! R_max = Some r_max →
  remove_diagonal R_max h1 = (Ok R_off, h2) →
  h2 !! R_off = Some off →
  ∃ roc,
    get_roc R h
    = (Ok (length h,
           fabs (np_trapz (row roc 1) (row roc 0)),
           RocStats (map (roc_TP (np_diag r_max)) roc_thresholds)
                    (map (roc_FN (np_diag r_max)) roc_thresholds)
                    (map (roc_TN (items off)) roc_thresholds)
                    (map (roc_FP (items off)) roc_thresholds)),
       <[length h := roc]> h2)
    ∧ length h < length h2
    ∧ shape0 roc = 2 ∧ shape1 roc = 103
    ∧ ∀ i c, item roc i c
             = roc_filled (np_diag r_max) (items off) 0 roc_thresholds
                 roc_zeros i c.
Proof.
  intros Hstd Hr_max Hoff Hoff_l.
  assert (h2 !! length h = Some roc_zeros) as HROC.
  { eapply remove_diagonal_frame; [done|].
    eapply standardize_columns_frame; [done|]. apply lookup_fresh. }
  destruct (roc_loop (length h) (np_diag r_max) (items off) roc_thresholds
              0 (RocStats [] [] [] []) h2 roc_zeros HROC)
    as (roc & Hloop & H0 & H1 & Hitem).
  { done. }
  { rewrite roc_thresholds_length. simpl. lia. }
  exists roc. split; [|split; [by eapply lookup_lt_Some|done]].
  unfold get_roc, global_name.
  rewrite bound_standardize_columns, bound_remove_diagonal.
  unfold bind at 1. unfold np_zeros, alloc at 1.
  fold roc_zeros. unfold bind at 1. rewrite Hstd.
  unfold bind at 1, load at 1. rewrite Hr_max.
  unfold bind at 1. rewrite Hoff.
  unfold bind at 1, load at 1. rewrite Hoff_l.
  unfold bind at 1. fold (roc_thresholds (F:=F)). unfold enumerate.
  rewrite Hloop. cbn [stat_TP stat_FN stat_TN stat_FP app].
  unfold bind at 1, load at 1.
  rewrite list_lookup_insert_eq by (by eapply lookup_lt_Some).
  done.
Qed.

Lemma run_inj {A B C} (x x' : A) (y y' : B) (z z' : C) (h h' : heap F) :
  (Ok (x, y, z), h) = (Ok (x', y', z'), h') → x = x' ∧ y = y' ∧ z = z' ∧ h = h'.
Proof. by intros [= -> -> -> ->]. Qed.

(** A run of [get_roc] that returns went through every stage of the setup. *)
Lemma get_roc_ok_inv (R : loc) h out h' :
  get_roc R h = (Ok out, h') →
  ∃ R_max h1 r_max R_off h2 off,
    standardize_columns R "max" (h ++ [roc_zeros]) = (Ok R_max, h1)
    ∧ h1 !! R_max = Some r_max
    ∧ remove_diagonal R_max h1 = (Ok R_off, h2)
    ∧ h2 !! R_off = Some off.
Proof.
  unfold get_roc, global_name.
  rewrite bound_standardize_columns, bound_remove_diagonal.
  unfold bind at 1. unfold np_zeros, alloc at 1.
  fold roc_zeros. unfold bind at 1.
  destruct (standardize_columns R "max" (h ++ [roc_zeros]))
    as [[R_max|e] h1] eqn:Hstd; [|done].
  unfold bind at 1, load at 1.
  destruct (h1 !! R_max) as [r_max|] eqn:Hr_max; [|done].
  unfold bind at 1.
  destruct (remove_diagonal R_max h1) as [[R_off|e] h2] eqn:Hoff; [|done].
  unfold bind at 1, load at 1.
  destruct (h2 !! R_off) as [off|] eqn:Hoff_l; [|done].
  intros _. by exists R_max, h1, r_max, R_off, h2, off.
Qed.

Lemma roc_filled_beyond (te off : list F) (roc : ndarray F) i c :
  100 ≤ c → roc_filled te off 0 roc_thresholds roc i c = item roc i c.
Proof.
  intros Hc. unfold roc_filled.
  rewrite lookup_ge_None_2; [done|]. rewrite roc_thresholds_length. lia.
Qed.

(** C10.  Whenever [get_roc] returns, the array [ROC] it returns has shape
    (2, 103); the loop over the 100 thresholds writes columns 0 to 99 only,
    so columns 100, 101 and 102 hold (0, 0), the value [np.zeros] gave
    them. *)
Theorem get_roc_shape (R : loc) h ROC acu all_stats h' :
  get_roc R h = (Ok (ROC, acu, all_stats), h') →
  ∃ roc, h' !! ROC = Some roc
         ∧ shape0 roc = 2 ∧ shape1 roc = 103
         ∧ length (stat_TP all_stats) = 100
         ∧ ∀ c, 100 ≤ c < 103 →
             item roc 0 c = of_Z 0 ∧ item roc 1 c = of_Z 0.
Proof.
  intros Hrun.
  destruct (get_roc_ok_inv R h _ h' Hrun)
    as (R_max & h1 & r_max & R_off & h2 & off & Hstd & Hr_max & Hoff & Hoff_l).
  destruct (get_roc_after_setup R h R_max h1 r_max R_off h2 off)
    as (roc & Hrun' & Hlt & H0 & H1 & Hitem); [done..|].
  rewrite Hrun in Hrun'. apply run_inj in Hrun' as (-> & -> & -> & ->).
  assert (stat_TP (RocStats (map (roc_TP (np_diag r_max)) roc_thresholds)
                     (map (roc_FN (np_diag r_max)) roc_thresholds)
                     (map (roc_TN (items off)) roc_thresholds)
                     (map (roc_FP (items off)) roc_thresholds))
          = map (roc_TP (np_diag r_max)) roc_thresholds) as HTP by done.
  exists roc. split; [by apply list_lookup_insert_eq|].
  split; [done|]. split; [done|].
  split; [by rewrite HTP, length_map, roc_thresholds_length|].
  intros c [Hc _]. by rewrite !Hitem, !roc_filled_beyond.
Qed.

(** *** get_roc on a square matrix *)

Lemma map_lookup_seq {B} (g : F → B) (d : B) (Ts : list F) :
  map (fun c => match Ts !! c with Some T => g T | None => d end)
    (seq 0 (length Ts))
  = map g Ts.
Proof.
  apply list_eq. intros c. rewrite !list_lookup_fmap.
  destruct (decide (c < length Ts)) as [Hc|Hc].
  - rewrite lookup_seq_lt by done. simpl.
    destruct (Ts !! c) eqn:E; [done|].
    apply lookup_ge_None in E. lia.
  - rewrite lookup_seq_ge by lia. rewrite lookup_ge_None_2 by lia. done.
Qed.

Lemma roc_filled_row (te off : list F) roc i (g : F → F) :
  shape1 roc = 103 →
  (∀ c, item roc i c = roc_filled te off 0 roc_thresholds roc_zeros i c) →
  (∀ T, (if i =? 0 then roc_FPR off T
         else if i =? 1 then roc_TPR te T else of_Z 0) = g T) →
  row roc i = map g roc_thresholds ++ replicate 3 (of_Z 0).
Proof.
  intros H1 Hitem Hg. unfold row. rewrite H1.
  change 103 with (100 + 3). rewrite seq_app, map_app. f_equal.
  - rewrite <- (map_lookup_seq g (of_Z 0)), roc_thresholds_length.
    apply map_ext. intros c. rewrite Hitem. unfold roc_filled.
    rewrite Nat.sub_0_r. destruct (roc_thresholds !! c); [|done].
    simpl. apply Hg.
  - simpl. by rewrite !Hitem, !roc_filled_beyond by lia.
Qed.

Lemma get_roc_square (R : loc) h a n :
  h !! R = Some a → shape0 a = n → shape1 a = n → 1 ≤ n →
  feqb (sentinel (F:=F)) sentinel = true →
  (∀ i j, i < n → j < n → i ≠ j →
     feqb (fdiv (item a i j) (col_max a j)) sentinel = false) →
  ∃ r_max off roc h',
    get_roc R h
    = (Ok (length h,
           fabs (np_trapz (row roc 1) (row roc 0)),
           RocStats (map (roc_TP (np_diag r_max)) roc_thresholds)
                    (map (roc_FN (np_diag r_max)) roc_thresholds)
                    (map (roc_TN (items off)) roc_thresholds)
                    (map (roc_FP (items off)) roc_thresholds)),
       h')
    ∧ h' !! length h = Some roc
    ∧ (∀ l x, h !! l = Some x → h' !! l = Some x)
    ∧ standardized_upto (col_max a) a n r_max
    ∧ shape0 off = n - 1 ∧ shape1 off = n
    ∧ (∀ j, j < n → column off j = without j (column r_max j))
    ∧ row roc 0 = map (roc_FPR (items off)) roc_thresholds ++ replicate 3 (of_Z 0)
    ∧ row roc 1 = map (roc_TPR (np_diag r_max)) roc_thresholds
                  ++ replicate 3 (of_Z 0).
Proof.
  intros HR H0 H1 Hn Hs Hoff.
  destruct (standardize_columns_max R (h ++ [roc_zeros]) a) as (b & Hstd & Hb);
    [by apply lookup_old|lia|].
  rewrite H1 in Hb. pose proof Hb as (Hb0 & Hb1 & Hbi).
  destruct (remove_diagonal_square (length (h ++ [roc_zeros]))
              ((h ++ [roc_zeros]) ++ [b]) b n)
    as (a' & off & Hrm & Hoff0 & Hoff1 & Hcol);
    [apply lookup_fresh|lia|lia|done|done| |].
  { intros i j Hi Hj Hij. rewrite Hbi by lia.
    apply Nat.ltb_lt in Hj as Hj'. rewrite Hj'. by apply Hoff. }
  destruct (get_roc_after_setup R h _ _ b _ _ off Hstd (lookup_fresh _ _) Hrm)
    as (roc & Hrun & Hlt & Hr0 & Hr1 & Hitem).
  { replace (S (length ((h ++ [roc_zeros]) ++ [b])))
      with (length (((h ++ [roc_zeros]) ++ [b]) ++ [a']))
      by (rewrite !length_app; simpl; lia).
    change (((h ++ [roc_zeros]) ++ [b]) ++ [a'; off])
      with (((h ++ [roc_zeros]) ++ [b]) ++ [a'] ++ [off]).
    rewrite app_assoc. apply lookup_fresh. }
  exists b, off, roc. eexists. split; [exact Hrun|].
  split; [by apply list_lookup_insert_eq|].
  split.
  { intros l x Hl. assert (l < length h) by (by eapply lookup_lt_Some).
    rewrite list_lookup_insert_ne by lia.
    by apply lookup_app_l_Some, lookup_old, lookup_old. }
  do 4 (split; [done|]).
  split; by apply (roc_filled_row (np_diag b) (items off)).
Qed.

(** Counting over the items of an array row by row or column by column
    gives the same number. *)
Lemma count_app (p : F → bool) (u v : list F) :
  count p (u ++ v) = (count p u + count p v)%Z.
Proof. unfold count. rewrite List.filter_app, length_app. lia. Qed.

Lemma count_flat_map {A} (p : F → bool) (f : A → list F) (l : list A) :
  count p (flat_map f l) = sumZ (map (fun x => count p (f x)) l).
Proof.
  induction l as [|x l IH]; [done|]. simpl. by rewrite count_app, IH.
Qed.

Lemma count_map {A} (p : F → bool) (g : A → F) (l : list A) :
  count p (map g l) = sumZ (map (fun x => if p (g x) then 1%Z else 0%Z) l).
Proof.
  induction l as [|x l IH]; [done|]. simpl. rewrite <- IH. unfold count. simpl.
  destruct (p (g x)); simpl; lia.
Qed.

Lemma sumZ_pointwise {A} (f g : A → Z) (l : list A) :
  sumZ (map (fun x => (f x + g x)%Z) l) = (sumZ (map f l) + sumZ (map g l))%Z.
Proof. induction l as [|x l IH]; [done|]. simpl. rewrite IH. lia. Qed.

Lemma sumZ_swap {A B} (g : A → B → Z) (l1 : list A) (l2 : list B) :
  sumZ (map (fun i => sumZ (map (fun j => g i j) l2)) l1)
  = sumZ (map (fun j => sumZ (map (fun i => g i j) l1)) l2).
Proof.
  induction l1 as [|x l1 IH]; simpl.
  - induction l2 as [|y l2 IH2]; [done|]. simpl. by rewrite <- IH2.
  - by rewrite IH, <- sumZ_pointwise.
Qed.

Lemma count_items_columns (p : F → bool) a :
  count p (items a) = count p (flat_map (column a) (seq 0 (shape1 a))).
Proof.
  unfold items. rewrite !count_flat_map. unfold row, column.
  erewrite map_ext; [|intros i; apply count_map].
  symmetry. erewrite map_ext; [|intros j; apply count_map].
  symmetry. apply (sumZ_swap (fun i j => if p (item a i j) then 1%Z else 0%Z)).
Qed.

Lemma count_off_diagonal (p : F → bool) r_max off :
  shape1 off = shape1 r_max →
  (∀ j, j < shape1 r_max → column off j = without j (column r_max j)) →
  count p (items off) = count p (off_diagonal_entries r_max).
Proof.
  intros H1 Hcol. rewrite count_items_columns. unfold off_diagonal_entries.
  rewrite H1. f_equal.
  rewrite !flat_map_concat_map. f_equal.
  apply map_ext_in. intros j Hj. apply in_seq in Hj. apply Hcol. lia.
Qed.

Lemma count_bounds (p : F → bool) (l : list F) :
  (0 ≤ count p l ≤ Z.of_nat (length l))%Z.
Proof.
  unfold count. split; [lia|]. apply inj_le.
  induction l as [|x l IH]; [done|]. simpl. destruct (p x); simpl; lia.
Qed.

Lemma count_le_imp (p q : F → bool) (l : list F) :
  (∀ x, p x = true → q x = true) → (count p l ≤ count q l)%Z.
Proof.
  intros Hpq. unfold count. apply inj_le.
  induction l as [|x l IH]; [done|]. simpl.
  destruct (p x) eqn:Ep; [rewrite (Hpq x Ep); simpl; lia|].
  destruct (q x); simpl; lia.
Qed.

Lemma count_cover (p q : F → bool) (l : list F) :
  (∀ x, p x || q x = true) → (Z.of_nat (length l) ≤ count p l + count q l)%Z.
Proof.
  intros Hpq. unfold count.
  enough (length l ≤ length (List.filter p l) + length (List.filter q l)) by lia.
  induction l as [|x l IH]; [done|]. simpl. specialize (Hpq x).
  destruct (p x), (q x); simpl in *; try done; lia.
Qed.

Lemma items_length a : length (items a) = shape0 a * shape1 a.
Proof.
  unfold items. apply flat_map_block_length.
  intros k _. unfold row. by rewrite length_map, length_seq.
Qed.

Lemma np_diag_length a : length (np_diag a) = shape0 a `min` shape1 a.
Proof. unfold np_diag. by rewrite length_map, length_seq. Qed.

Lemma forallb_enumerate {A} (p : nat → A → bool) (l : list A) :
  forallb (fun cT => p cT.1 cT.2) (enumerate l) = true →
  ∀ c T, l !! c = Some T → p c T = true.
Proof.
  unfold enumerate.
  enough (∀ s, forallb (fun cT => p cT.1 cT.2) (zip (seq s (length l)) l) = true →
               ∀ c T, l !! c = Some T → p (s + c) T = true) as Hgen
    by (intros Hall c T Hc; by apply (Hgen 0 Hall c T Hc)).
  induction l as [|x l IH]; intros s Hall c T Hc; [done|].
  simpl in Hall. apply andb_true_iff in Hall as [Hx Hl].
  destruct c as [|c].
  - injection Hc as <-. by rewrite Nat.add_0_r.
  - specialize (IH (S s) Hl c T Hc).
    by replace (s + S c) with (S s + c) by lia.
Qed.

(** *** get_label_center and get_center_of_gravity_error *)

Lemma take_rows_in_range (positions : list (vec3 F)) (verts : list nat) h :
  Forall (fun v => v < length positions) verts →
  ∃ rows, mapM (fun v => positions !! v) verts = Some rows
          ∧ take_rows positions verts h = (Ok rows, h).
Proof.
  intros Hv.
  assert (is_Some (mapM (fun v => positions !! v) verts)) as [rows Hrows].
  { apply mapM_is_Some. eapply Forall_impl; [exact Hv|].
    intros v Hlt. by apply lookup_lt_is_Some. }
  exists rows. split; [done|]. unfold take_rows. by rewrite Hrows.
Qed.

Lemma get_label_center_loop (src : source_space F * source_space F)
    (labels : list Label) : ∀ acc h,
  Forall (vertices_in_range src) labels →
  for_each labels (fun label label_center =>
    let verts := vertices label in
    match hemi label with
    | lh => let* rows := take_rows (rr src.1) verts in
            ret (label_center ++ [mean_axis0 rows])
    | rh => let* rows := take_rows (rr src.2) verts in
            ret (label_center ++ [mean_axis0 rows])
    end) acc h
  = (Ok (acc ++ map (center_of src) labels), h).
Proof.
  induction labels as [|label labels IH]; intros acc h Hall.
  - simpl. by rewrite app_nil_r.
  - apply Forall_cons in Hall as [Hlabel Hall].
    destruct (take_rows_in_range _ _ h Hlabel) as (rows & Hrows & Hrun).
    assert (center_of src label = mean_axis0 rows) as Hc
      by (unfold center_of; by rewrite Hrows).
    cbn [for_each]. unfold bind at 1. unfold space_of in Hrun.
    destruct (hemi label); unfold bind at 1; rewrite Hrun; unfold ret at 1;
      rewrite IH by done; cbn [map]; rewrite <- Hc, <- app_assoc; done.
Qed.

Lemma cog_loop (label_center : list (vec3 F)) h (cols : list (list F)) :
  ∀ s acc,
  s + length cols ≤ length label_center →
  Forall (fun col => length col = length label_center) cols →
  for_each (zip (seq s (length cols)) cols) (cog_step label_center) acc h
  = (Ok (acc.1.1 ++ map (error_of label_center) (zip (seq s (length cols)) cols),
         acc.1.2 ++ map (cog_of label_center) cols,
         acc.2 ++ map (closest_of label_center) cols), h).
Proof.
  induction cols as [|col cols IH]; intros s [[coge cogs] closest] Hs Hlen.
  - simpl. by rewrite !app_nil_r.
  - apply Forall_cons in Hlen as [Hcol Hlen]. simpl in Hs.
    cbn [length seq zip zip_with for_each]. unfold bind at 1.
    unfold cog_step at 1. cbn [fst snd]. unfold bind at 1, np_dot.
    rewrite Hcol, Nat.eqb_refl. unfold ret at 1.
    unfold bind at 1, getitem_row.
    destruct (label_center !! s) as [own|] eqn:Hown;
      [|apply lookup_ge_None in Hown; lia].
    unfold ret at 1. unfold bind at 1, np_argmin.
    destruct (distances_to _ label_center) as [|d ds] eqn:Hd.
    { apply (f_equal length) in Hd. unfold distances_to in Hd.
      rewrite length_map in Hd. simpl in Hd. lia. }
    unfold ret at 1 2. rewrite IH by (done || lia). cbn [fst snd map].
    rewrite <- !app_assoc. cbn [app].
    unfold error_of, closest_of, cog_of. cbn [fst snd].
    rewrite Hd. cbn [argmin_of].
    by rewrite (nth_lookup_Some _ _ _ _ Hown).
Qed.

Lemma argmin_from_least (v : list F) :
  (∀ x, np_less x x = false) →
  (∀ x y z, np_less x y = true → np_less y z = true → np_less x z = true) →
  ∀ (pre : list F) best_i best,
  pre !! best_i = Some best →
  (∀ x, x ∈ pre → np_less x best = false) →
  ∃ least, (pre ++ v) !! argmin_from best_i best (length pre) v = Some least
           ∧ ∀ x, x ∈ pre ++ v → np_less x least = false.
Proof.
  intros Hirr Htrans.
  induction v as [|x v IH]; intros pre best_i best Hbest Hpre.
  - exists best. rewrite app_nil_r. by split.
  - cbn [argmin_from].
    replace (pre ++ x :: v) with ((pre ++ [x]) ++ v) by (by rewrite <- app_assoc).
    replace (S (length pre)) with (length (pre ++ [x]))
      by (rewrite length_app; simpl; lia).
    destruct (np_less x best) eqn:Hx.
    + apply IH; [by apply list_lookup_middle|].
      intros y [Hy|Hy%list_elem_of_singleton]%elem_of_app.
      * destruct (np_less y x) eqn:Hyx; [|done].
        specialize (Hpre y Hy). by rewrite (Htrans _ _ _ Hyx Hx) in Hpre.
      * subst y. apply Hirr.
    + apply IH; [by apply lookup_app_l_Some|].
      intros y [Hy|Hy%list_elem_of_singleton]%elem_of_app; [by apply Hpre|].
      by subst y.
Qed.

Lemma argmin_of_least (v : list F) :
  (∀ x, np_less x x = false) →
  (∀ x y z, np_less x y = true → np_less y z = true → np_less x z = true) →
  v ≠ [] →
  ∃ least, v !! argmin_of v = Some least
           ∧ ∀ x, x ∈ v → np_less x least = false.
Proof.
  intros Hirr Htrans Hne. destruct v as [|x v]; [done|].
  apply (argmin_from_least v Hirr Htrans [x] 0 x); [done|].
  intros y Hy%list_elem_of_singleton. subst y. apply Hirr.
Qed.

Lemma enumerate_lookup {A} (l : list A) c x :
  l !! c = Some x → enumerate l !! c = Some (c, x).
Proof.
  intros Hc. unfold enumerate. apply lookup_zip_with_Some.
  exists c, x. split; [done|]. split; [|done].
  apply lookup_seq_lt. by eapply lookup_lt_Some.
Qed.

Lemma bound_get_label_center : string_in "get_label_center" module_names = true.
Proof. reflexivity. Qed.

Lemma columns_of_transposed (r : ndarray F) :
  to_lists (transposed r) = map (column r) (seq 0 (shape1 r)).
Proof. done. Qed.

(** C7.  For a resolution matrix [R] of shape (n, n) and n labels whose
    vertices are vertices of their source space,
    [get_center_of_gravity_error(R, src, labels)] returns three sequences of
    length n.  For column c: the center of gravity in the second sequence is
    (R[:,c] dot label_center) / sum(R[:,c]), where row k of label_center is
    the mean position of the vertices of label k; the first sequence holds 100
    times the Euclidean distance between the mean position of the vertices of
    label c and that center of gravity; the third holds the index of a label
    center such that no label center is closer to the center of gravity.
    "Closer" is the order of np.argmin, assumed to be a strict order, as it is
    for float64 and for exact numbers; the heap is left as it was. *)
Theorem get_center_of_gravity_error_spec (R : loc)
    (src : source_space F * source_space F) (labels : list Label)
    h (r : ndarray F) (n : nat) :
  (∀ x : F, np_less x x = false) →
  (∀ x y z : F, np_less x y = true → np_less y z = true → np_less x z = true) →
  h !! R = Some r → shape0 r = n → shape1 r = n → length labels = n →
  Forall (vertices_in_range src) labels →
  ∃ coge center_of_gravity_list cog_closest_source,
    get_center_of_gravity_error R src labels h
    = (Ok (coge, center_of_gravity_list, cog_closest_source), h)
    ∧ length coge = n ∧ length center_of_gravity_list = n
    ∧ length cog_closest_source = n
    ∧ ∀ c label, labels !! c = Some label →
        ∃ positions cog closest,
          mapM (fun v => rr (space_of src label) !! v) (vertices label)
          = Some positions
          ∧ center_of_gravity_list !! c = Some cog
          ∧ cog = vec_div (weighted_sum (column r c) (map (center_of src) labels))
                    (np_sum (column r c))
          ∧ coge !! c
            = Some (fmul (of_Z 100) (norm3 (vec_sub (mean_axis0 positions) cog)))
          ∧ cog_closest_source !! c = Some closest
          ∧ closest < n
          ∧ ∀ j center_j center_closest,
              map (center_of src) labels !! j = Some center_j →
              map (center_of src) labels !! closest = Some center_closest →
              np_less (norm3 (vec_sub cog center_j))
                (norm3 (vec_sub cog center_closest)) = false.
Proof.
  intros Hirr Htrans HR H0 H1 Hlabels Hrange.
  set (centers := map (center_of src) labels).
  assert (length centers = n) as Hcenters
    by (unfold centers; by rewrite length_map).
  set (cols := map (column r) (seq 0 n)).
  assert (length cols = n) as Hcols
    by (unfold cols; by rewrite length_map, length_seq).
  assert (get_center_of_gravity_error R src labels h
          = (Ok (map (fmul (of_Z 100)) (map (error_of centers) (enumerate cols)),
                 map (cog_of centers) cols, map (closest_of centers) cols), h))
    as Hrun.
  { unfold get_center_of_gravity_error, global_name.
    rewrite bound_get_label_center. unfold bind at 1.
    unfold get_label_center. rewrite get_label_center_loop by done.
    cbn [app]. fold centers. unfold bind at 1, load at 1. rewrite HR.
    rewrite columns_of_transposed, H1. fold cols. unfold bind at 1.
    unfold enumerate. rewrite cog_loop.
    - done.
    - rewrite Hcols, Hcenters. lia.
    - unfold cols. apply Forall_forall. intros col Hcol.
      apply list_elem_of_fmap in Hcol as (c & -> & _).
      by rewrite column_length, H0, Hcenters. }
  do 3 eexists. split; [exact Hrun|].
  split.
  { unfold enumerate.
    by rewrite !length_map, length_zip_with, length_seq, Hcols, Nat.min_id. }
  split; [by rewrite length_map|]. split; [by rewrite length_map|].
  intros c label Hc.
  assert (c < n) as Hcn by (rewrite <- Hlabels; by eapply lookup_lt_Some).
  assert (vertices_in_range src label) as Hlabel.
  { eapply Forall_forall in Hrange; [done|]. by eapply list_elem_of_lookup_2. }
  destruct (take_rows_in_range _ _ h Hlabel) as (positions & Hpos & _).
  assert (cols !! c = Some (column r c)) as Hcol.
  { unfold cols. by rewrite list_lookup_fmap, lookup_seq_lt. }
  assert (centers !! c = Some (mean_axis0 positions)) as Hcenter.
  { unfold centers. rewrite list_lookup_fmap, Hc. cbn.
    unfold center_of. by rewrite Hpos. }
  exists positions, (cog_of centers (column r c)),
    (closest_of centers (column r c)).
  split; [done|]. split; [by rewrite list_lookup_fmap, Hcol|].
  split; [done|]. split.
  { rewrite !list_lookup_fmap, (enumerate_lookup _ _ _ Hcol). cbn.
    unfold error_of. cbn [fst snd].
    by rewrite (nth_lookup_Some _ _ _ _ Hcenter). }
  split; [by rewrite list_lookup_fmap, Hcol|].
  destruct (argmin_of_least
              (distances_to (cog_of centers (column r c)) centers) Hirr Htrans)
    as (least & Hleast & Hmin).
  { intros E. apply (f_equal length) in E. unfold distances_to in E.
    rewrite length_map, Hcenters in E. simpl in E. lia. }
  fold (closest_of centers (column r c)) in Hleast.
  split.
  { apply lookup_lt_Some in Hleast. unfold distances_to in Hleast.
    by rewrite length_map, Hcenters in Hleast. }
  intros j center_j center_closest Hj Hclosest.
  unfold distances_to in Hleast. rewrite list_lookup_fmap, Hclosest in Hleast.
  injection Hleast as <-. apply Hmin. unfold distances_to.
  apply list_elem_of_fmap. exists center_j. split; [done|].
  by eapply list_elem_of_lookup_2.
Qed.

(** *** get_average_cross_talk_map *)

Lemma unbound_standardize_rows :
  string_in "standardize_rows" module_names = false.
Proof. reflexivity. Qed.

(** C3, the code at every input.  [get_average_cross_talk_map] calls
    [standardize_rows], a name the module neither defines nor imports:
    whatever function that name might have been meant for, the call raises
    NameError before anything is computed, and no array of medians is
    returned. *)
Theorem get_average_cross_talk_map_name_error
    (standardize_rows : loc → M F loc) (R : loc) h :
  get_average_cross_talk_map standardize_rows R h
  = (Raise (NameError "standardize_rows"), h).
Proof.
  unfold get_average_cross_talk_map, global_name.
  rewrite unbound_standardize_rows. unfold bind, raise. done.
Qed.

End NumpyFacts.

(** ** get_r_master *)

Section RMasterFacts.
Context {F : Type} `{Scalar F}.
Variable get_R : string → F → list Label → result (cmatrix F * cmatrix F).
Variable vertno : nat.

Lemma array_split_1 {A} (l : list A) : array_split l 1 = [l].
Proof.
  unfold array_split. cbn [seq map]. rewrite Nat.div_1_r, Nat.mod_1_r.
  cbn. by rewrite Nat.add_0_r, firstn_all.
Qed.

Lemma py_slice_one {A} (l : list A) (i : nat) (x : A) :
  l !! i = Some x →
  py_slice l (Z.of_nat i * 1) ((Z.of_nat i + 1) * 1) = [x].
Proof.
  intros Hi. pose proof (lookup_lt_Some _ _ _ Hi) as Hlt.
  unfold py_slice, slice_bound.
  assert ((Z.of_nat i * 1 <? 0)%Z = false) as -> by lia.
  assert (((Z.of_nat i + 1) * 1 <? 0)%Z = false) as -> by lia.
  replace (Z.to_nat (Z.min (Z.of_nat i * 1) (Z.of_nat (length l)))) with i by lia.
  replace (Z.to_nat (Z.min ((Z.of_nat i + 1) * 1) (Z.of_nat (length l))))
    with (S i) by lia.
  replace (S i - i) with 1 by lia.
  by rewrite (drop_S _ _ _ Hi).
Qed.

(** With one job the SNR values are handled one at a time. *)
Lemma singleton_groups (SNRs : list F) :
  map (fun iteration =>
         py_slice SNRs (iteration * 1) ((iteration + 1) * 1))
    (py_range (Z.of_nat (length SNRs)))
  = map (fun SNR => [SNR]) SNRs.
Proof.
  unfold py_range. rewrite Nat2Z.id, map_map.
  apply list_eq. intros i. rewrite !list_lookup_fmap.
  destruct (SNRs !! i) as [x|] eqn:Hi.
  - rewrite lookup_seq_lt by (by eapply lookup_lt_Some). cbn.
    by rewrite (py_slice_one _ _ _ Hi).
  - rewrite lookup_seq_ge by (by apply lookup_ge_None). done.
Qed.

Lemma concatenate_onto_empty (n : nat) (m : cmatrix F) :
  c_rows m = n → concatenate_columns (CMatrix n []) m = Ok m.
Proof.
  intros Hn. unfold concatenate_columns. cbn. rewrite Hn, Nat.eqb_refl.
  destruct m. cbn in *. by subst.
Qed.

Lemma set_slice_fits (rows cols : nat) (slices : list (cmatrix F)) s value :
  s < length slices → c_rows value = rows → length (c_cols value) = cols →
  set_slice rows cols slices s value = Ok (<[s := value]> slices).
Proof.
  intros Hs Hr Hc. unfold set_slice.
  apply Nat.ltb_lt in Hs as ->. rewrite Hr, Hc, !Nat.eqb_refl. done.
Qed.

Lemma file_group_unsplit (n_labels : nat) (act : list Label) group_count :
  ∀ (SNR_group : list F) (pre out : list (cmatrix F * cmatrix F)) L tensors,
  length out = length SNR_group →
  Forall (well_shaped vertno n_labels act) out →
  length pre + length out + group_count * L ≤ length tensors.1 →
  length tensors.2 = length tensors.1 →
  rfor_each (zip (seq (length pre) (length SNR_group)) SNR_group)
    (fun cSNR tensors =>
       let c := cSNR.1 in
       let? R := rfor_each (enumerate [act]) (fun dchunk R =>
                   let d := dchunk.1 in
                   let? o := list_item (pre ++ out) (c * 1 + d) in
                   let? R_emp := concatenate_columns R.1 o.1 in
                   let? R_emp_vl := concatenate_columns R.2 o.2 in
                   Ok (R_emp, R_emp_vl))
                 (CMatrix n_labels [], CMatrix vertno []) in
       let? r_tensor := set_slice n_labels (length act) tensors.1
                          (c + group_count * L) R.1 in
       let? r_tensor_vl := set_slice vertno (length act) tensors.2
                             (c + group_count * L) R.2 in
       Ok (r_tensor, r_tensor_vl)) tensors
  = Ok (filed out (length pre) (group_count * L) tensors).
Proof.
  induction SNR_group as [|SNR SNR_group IH];
    intros pre out L [te tv] Hlen Hshape Hfit Hsame.
  - by destruct out.
  - destruct out as [|o out]; [done|].
    apply Forall_cons in Hshape as [(Ho1 & Ho2 & Ho3 & Ho4) Hshape].
    cbn [fst snd length] in *.
    cbn [length seq zip zip_with rfor_each enumerate fst snd rbind].
    unfold list_item. rewrite Nat.mul_1_r, Nat.add_0_r.
    rewrite (list_lookup_middle pre out o (length pre)) by done.
    cbn [rbind]. rewrite !concatenate_onto_empty by done. cbn [rbind fst snd].
    rewrite !set_slice_fits by (done || lia). cbn [rbind filed fst snd].
    replace (pre ++ o :: out) with ((pre ++ [o]) ++ out)
      by (by rewrite <- app_assoc).
    replace (S (length pre)) with (length (pre ++ [o]))
      by (rewrite length_app; simpl; lia).
    apply IH; cbn [fst snd]; rewrite ?length_insert, ?length_app; simpl;
      try done; lia.
Qed.

Lemma file_group_one_chunk (n_labels : nat) (act : list Label) group_count
    (SNR_group : list F) (out : list (cmatrix F * cmatrix F)) tensors :
  length out = length SNR_group →
  Forall (well_shaped vertno n_labels act) out →
  length out + group_count * length SNR_group ≤ length tensors.1 →
  length tensors.2 = length tensors.1 →
  file_group vertno n_labels (length act) 1 [act] out group_count SNR_group
    tensors
  = Ok (filed out 0 (group_count * length SNR_group) tensors).
Proof.
  intros Hlen Hshape Hfit Hsame.
  apply (file_group_unsplit n_labels act group_count SNR_group [] out
           (length SNR_group) tensors); done.
Qed.

Lemma rmap_cons_Ok {A B} (f : A → result B) x l ys :
  rmap f (x :: l) = Ok ys →
  ∃ y ys', f x = Ok y ∧ rmap f l = Ok ys' ∧ ys = y :: ys'.
Proof.
  cbn. destruct (f x) as [y|]; [|done]. cbn.
  destruct (rmap f l) as [ys'|]; [|done]. cbn.
  intros [= <-]. by exists y, ys'.
Qed.

Lemma rmap_length {A B} (f : A → result B) l ys :
  rmap f l = Ok ys → length ys = length l.
Proof.
  revert ys. induction l as [|x l IH]; intros ys.
  - by intros [= <-].
  - intros (y & ys' & _ & Hl & ->)%rmap_cons_Ok. cbn. by rewrite (IH ys').
Qed.

Lemma filed_length (out : list (cmatrix F * cmatrix F)) : ∀ c base tensors,
  length (filed out c base tensors).1 = length tensors.1
  ∧ length (filed out c base tensors).2 = length tensors.2.
Proof.
  induction out as [|o out IH]; intros c base tensors; [done|].
  cbn [filed]. destruct (IH (S c) base
    (<[c + base := o.1]> tensors.1, <[c + base := o.2]> tensors.2)) as [-> ->].
  cbn [fst snd]. by rewrite !length_insert.
Qed.

(** One job: the groups are the single SNR values, in order. *)
Lemma run_groups_singletons inv_method (n_labels : nat) (act : list Label) :
  ∀ (rest : list F) (g : nat) outs tensors,
  rmap (fun SNR => get_R inv_method SNR act) rest = Ok outs →
  Forall (well_shaped vertno n_labels act) outs →
  g + length rest ≤ length tensors.1 →
  length tensors.2 = length tensors.1 →
  rfor_each (zip (seq g (length (map (fun SNR => [SNR]) rest)))
               (map (fun SNR => [SNR]) rest))
    (group_step get_R vertno inv_method n_labels act 1) tensors
  = Ok (filed outs g 0 tensors).
Proof.
  induction rest as [|SNR rest IH]; intros g outs tensors Hout Hshape Hfit Hsame.
  - injection Hout as <-. done.
  - apply rmap_cons_Ok in Hout as (o & outs' & Ho & Hrest & ->).
    apply Forall_cons in Hshape as [Hwo Hshape].
    cbn [length] in Hfit.
    cbn [map length seq zip zip_with rfor_each fst snd].
    unfold group_step at 1. cbn [fst snd].
    change (Z.to_nat 1) with 1. rewrite array_split_1.
    cbn [flat_map map app rmap fst snd]. rewrite Ho. cbn [rbind].
    rewrite file_group_one_chunk; cbn [length];
      [|done|by apply Forall_singleton|lia|done].
    cbn [rbind filed]. rewrite !Nat.add_0_l, Nat.mul_1_r, !Nat.add_0_r.
    apply IH; cbn [fst snd]; rewrite ?length_insert; (done || lia).
Qed.

Lemma insert_middle {A} (l1 l2 : list A) (x y : A) (n : nat) :
  n = length l1 → <[n := y]> (l1 ++ x :: l2) = l1 ++ y :: l2.
Proof.
  intros ->. rewrite insert_app_r_alt by lia. by rewrite Nat.sub_diag.
Qed.

Lemma filed_fills (outs : list (cmatrix F * cmatrix F)) :
  ∀ (pre_e pre_v rest_e rest_v : list (cmatrix F)),
  length pre_v = length pre_e →
  length rest_e = length outs → length rest_v = length outs →
  filed outs (length pre_e) 0 (pre_e ++ rest_e, pre_v ++ rest_v)
  = (pre_e ++ map fst outs, pre_v ++ map snd outs).
Proof.
  induction outs as [|o outs IH]; intros pre_e pre_v rest_e rest_v Hp He Hv.
  - destruct rest_e, rest_v; done.
  - destruct rest_e as [|ze rest_e], rest_v as [|zv rest_v]; try done.
    cbn [filed fst snd map]. rewrite Nat.add_0_r.
    rewrite (insert_middle pre_e), (insert_middle pre_v) by done.
    replace (pre_e ++ o.1 :: rest_e) with ((pre_e ++ [o.1]) ++ rest_e)
      by (by rewrite <- app_assoc).
    replace (pre_v ++ o.2 :: rest_v) with ((pre_v ++ [o.2]) ++ rest_v)
      by (by rewrite <- app_assoc).
    replace (S (length pre_e)) with (length (pre_e ++ [o.1]))
      by (rewrite length_app; simpl; lia).
    rewrite IH; rewrite ?length_app; simpl in *; try lia.
    by rewrite <- !app_assoc.
Qed.

Lemma one_job_groups (SNRs : list F) :
  SNR_iterations_of SNRs 1 = map (fun SNR => [SNR]) SNRs.
Proof.
  unfold SNR_iterations_of, SNR_njobs_of.
  destruct SNRs as [|SNR SNRs]; [done|].
  assert ((1 <? 2 * Z.of_nat (length (SNR :: SNRs)))%Z = true) as ->
    by (apply Z.ltb_lt; cbn [length]; lia).
  unfold np_floor_divide, np_mod. cbn [Z.eqb].
  rewrite Z.div_1_r, Z.mod_1_r. cbn [Z.eqb]. rewrite app_nil_r.
  apply singleton_groups.
Qed.

Lemma one_job_run inv_method (SNRs : list F) (n_labels : nat)
    (act : list Label) outs :
  rmap (fun SNR => get_R inv_method SNR act) SNRs = Ok outs →
  Forall (well_shaped vertno n_labels act) outs →
  run_groups get_R vertno inv_method n_labels act
    (activation_jobs_of 1 (Z.of_nat (length SNRs)))
    (SNR_iterations_of SNRs 1)
    (replicate (length SNRs) (zeros_cmatrix n_labels (length act)),
     replicate (length SNRs) (zeros_cmatrix vertno (length act)))
  = Ok (map fst outs, map snd outs).
Proof.
  intros Hout Hshape. rewrite one_job_groups. unfold run_groups, enumerate.
  destruct SNRs as [|SNR SNRs]; [by injection Hout as <-|].
  assert (activation_jobs_of 1 (Z.of_nat (length (SNR :: SNRs))) = 1%Z) as ->.
  { unfold activation_jobs_of.
    by assert ((1 <? 2 * Z.of_nat (length (SNR :: SNRs)))%Z = true) as ->
      by (apply Z.ltb_lt; cbn [length]; lia). }
  pose proof (rmap_length _ _ _ Hout) as Hlen.
  rewrite (run_groups_singletons inv_method n_labels act (SNR :: SNRs) 0 outs);
    cbn [fst snd]; rewrite ?length_replicate; try done.
  f_equal.
  pose proof (filed_fills outs [] []
                (replicate (length (SNR :: SNRs))
                   (zeros_cmatrix n_labels (length act)))
                (replicate (length (SNR :: SNRs))
                   (zeros_cmatrix vertno (length act))) eq_refl) as Hfill.
  rewrite !length_replicate in Hfill.
  exact (Hfill (eq_sym Hlen) (eq_sym Hlen)).
Qed.

(** The loop over the inverse methods with one job. *)
Lemma one_job_methods (SNRs : list F) (labels act : list Label)
    (inv_methods : list string) :
  ∀ r_master r_master_vl state_act,
  default labels state_act = act →
  (∀ m, m ∈ inv_methods →
     ∃ outs, rmap (fun SNR => get_R m SNR act) SNRs = Ok outs
             ∧ Forall (well_shaped vertno (length labels) act) outs) →
  ∃ r_master' r_master_vl' state_act',
    rfor_each inv_methods (method_step get_R vertno SNRs labels 1)
      (r_master, r_master_vl, state_act)
    = Ok (r_master', r_master_vl', state_act')
    ∧ ∀ m,
        (m ∈ inv_methods →
           ∀ outs, rmap (fun SNR => get_R m SNR act) SNRs = Ok outs →
             r_master' !! m = Some (Tensor (map fst outs))
             ∧ r_master_vl' !! m = Some (Tensor (map snd outs)))
        ∧ (m ∉ inv_methods →
             r_master' !! m = r_master !! m
             ∧ r_master_vl' !! m = r_master_vl !! m).
Proof.
  induction inv_methods as [|m0 ms IH]; intros rm rv st Hst Hall.
  - exists rm, rv, st. split; [done|]. intros m. split; [|done].
    by intros ?%elem_of_nil.
  - destruct (Hall m0) as (outs0 & Hout0 & Hshape0); [by left|].
    destruct (IH (<[m0 := Tensor (map fst outs0)]> rm)
                (<[m0 := Tensor (map snd outs0)]> rv) (Some act))
      as (rm' & rv' & st' & Hrun & Hlook); [done| |].
    { intros m Hm. apply Hall. by right. }
    exists rm', rv', st'. split.
    + cbn [rfor_each]. unfold method_step at 1. cbn [fst snd]. rewrite Hst.
      rewrite (one_job_run m0 SNRs (length labels) act outs0) by done.
      cbn [rbind fst snd]. exact Hrun.
    + intros m. destruct (Hlook m) as [Hin Hout]. split.
      * intros Hm outs Houts.
        destruct (decide (m ∈ ms)) as [Hms|Hms]; [by apply Hin|].
        apply elem_of_cons in Hm as [->|?]; [|done].
        destruct (Hout Hms) as [-> ->]. rewrite !lookup_insert_eq.
        rewrite Hout0 in Houts. by injection Houts as <-.
      * intros Hm. apply not_elem_of_cons in Hm as [Hne Hms].
        destruct (Hout Hms) as [-> ->].
        by rewrite !lookup_insert_ne.
Qed.

(** With one job [get_r_master] is the sequential evaluation: every inverse
    method is mapped to the tensor whose slice [s] is the output of [get_R]
    at [SNRs[s]] with all the activation labels. *)
Lemma get_r_master_one_job (SNRs : list F) (labels : list Label)
    (inv_methods : list string) (activation_labels : option (list Label)) :
  let act := default labels activation_labels in
  (∀ m, m ∈ inv_methods →
     ∃ outs, rmap (fun SNR => get_R m SNR act) SNRs = Ok outs
             ∧ Forall (well_shaped vertno (length labels) act) outs) →
  ∃ r_master r_master_vl,
    get_r_master get_R vertno SNRs labels inv_methods activation_labels 1
    = Ok (r_master, r_master_vl)
    ∧ r_master !! "SNRs" = Some (SNRList SNRs)
    ∧ r_master_vl !! "SNRs" = Some (SNRList SNRs)
    ∧ ∀ m, m ∈ inv_methods → m ≠ "SNRs" →
        ∃ tensors, sequential_tensors get_R m SNRs act = Ok tensors
                   ∧ r_master !! m = Some (Tensor tensors.1)
                   ∧ r_master_vl !! m = Some (Tensor tensors.2).
Proof.
  intros act Hall.
  destruct (one_job_methods SNRs labels act inv_methods ∅ ∅ activation_labels)
    as (rm & rv & st & Hrun & Hlook); [done..|].
  do 2 eexists. split.
  { unfold get_r_master. rewrite Hrun. cbn [rbind fst snd]. done. }
  split; [apply lookup_insert_eq|]. split; [apply lookup_insert_eq|].
  intros m Hm Hne. destruct (Hall m Hm) as (outs & Hout & _).
  destruct (Hlook m) as [Hin _]. destruct (Hin Hm outs Hout) as [Hrm Hrv].
  exists (map fst outs, map snd outs). split.
  { unfold sequential_tensors. by rewrite Hout. }
  by rewrite !lookup_insert_ne.
Qed.

(** *** Two jobs, three SNR values: the remainder group *)

Section Remainder.
Variables (s0 s1 s2 : F) (labels act : list Label) (inv_method : string).
Variables (o0 o1 o2 : cmatrix F * cmatrix F).
Hypothesis run0 : get_R inv_method s0 act = Ok o0.
Hypothesis run1 : get_R inv_method s1 act = Ok o1.
Hypothesis run2 : get_R inv_method s2 act = Ok o2.
Hypothesis shape0 : well_shaped vertno (length labels) act o0.
Hypothesis shape1 : well_shaped vertno (length labels) act o1.
Hypothesis shape2 : well_shaped vertno (length labels) act o2.

Lemma remainder_groups : SNR_iterations_of [s0; s1; s2] 2 = [[s0; s1]; [s2]].
Proof. reflexivity. Qed.

Lemma remainder_run :
  run_groups get_R vertno inv_method (length labels) act
    (activation_jobs_of 2 (Z.of_nat (length [s0; s1; s2])))
    (SNR_iterations_of [s0; s1; s2] 2)
    (replicate (length [s0; s1; s2])
       (zeros_cmatrix (length labels) (length act)),
     replicate (length [s0; s1; s2]) (zeros_cmatrix vertno (length act)))
  = Ok ([o0.1; o2.1; zeros_cmatrix (length labels) (length act)],
        [o0.2; o2.2; zeros_cmatrix vertno (length act)]).
Proof using run0 run1 run2 shape0 shape1 shape2.
  rewrite remainder_groups.
  change (activation_jobs_of 2 (Z.of_nat (length [s0; s1; s2]))) with 1%Z.
  unfold run_groups, enumerate.
  cbn [length seq zip zip_with rfor_each replicate].
  unfold group_step at 1. cbn [fst snd]. change (Z.to_nat 1) with 1.
  rewrite array_split_1. cbn [flat_map map app rmap fst snd].
  rewrite run0, run1. cbn [rbind].
  rewrite file_group_one_chunk; cbn [length fst snd];
    [|done|by repeat (apply Forall_cons_2; [done|])|lia|done].
  cbn [rbind filed fst snd]. 
  unfold group_step at 1. cbn [fst snd]. rewrite array_split_1.
  cbn [flat_map map app rmap fst snd]. rewrite run2. cbn [rbind].
  rewrite file_group_one_chunk; cbn [length fst snd];
    [|done|by apply Forall_singleton|rewrite !length_insert; simpl; lia
     |by rewrite !length_insert].
  done.
Qed.

(** C1, the code at a failing input.  With three SNR values and n_jobs = 2
    the groups are [SNRs[0], SNRs[1]] and the remainder [SNRs[2]].  The slot
    a result is written to is c + group_count * len(SNR_group), which for the
    remainder is 0 + 1 * 1 = 1: the output of [get_R] for SNRs[2] replaces
    that for SNRs[1], and slice 2 of both tensors keeps its zeros. *)
Theorem get_r_master_remainder_slot :
  inv_method ≠ "SNRs" →
  ∃ r_master r_master_vl,
    get_r_master get_R vertno [s0; s1; s2] labels [inv_method] (Some act) 2
    = Ok (r_master, r_master_vl)
    ∧ r_master !! inv_method
      = Some (Tensor [o0.1; o2.1; zeros_cmatrix (length labels) (length act)])
    ∧ r_master_vl !! inv_method
      = Some (Tensor [o0.2; o2.2; zeros_cmatrix vertno (length act)])
    ∧ r_master !! "SNRs" = Some (SNRList [s0; s1; s2]).
Proof using run0 run1 run2 shape0 shape1 shape2.
  intros Hne. do 2 eexists. split.
  { unfold get_r_master. cbn [rfor_each]. unfold method_step.
    cbn [fst snd default from_option id]. rewrite remainder_run.
    cbn [rbind fst snd]. done. }
  split; [by rewrite lookup_insert_ne, lookup_insert_eq|].
  split; [by rewrite lookup_insert_ne, lookup_insert_eq|].
  apply lookup_insert_eq.
Qed.

(** C4, the code at a failing input.  On the same call the output with
    n_jobs = 2 differs from the sequential evaluation, which is what
    n_jobs = 1 computes, as soon as [get_R] returns a nonzero matrix for the
    last SNR: the output depends on n_jobs. *)
Theorem get_r_master_depends_on_n_jobs :
  inv_method ≠ "SNRs" →
  o2.1 ≠ zeros_cmatrix (length labels) (length act) →
  ∃ parallel sequential tensors,
    get_r_master get_R vertno [s0; s1; s2] labels [inv_method] (Some act) 2
    = Ok parallel
    ∧ get_r_master get_R vertno [s0; s1; s2] labels [inv_method] (Some act) 1
      = Ok sequential
    ∧ sequential_tensors get_R inv_method [s0; s1; s2] act = Ok tensors
    ∧ sequential.1 !! inv_method = Some (Tensor tensors.1)
    ∧ parallel.1 !! inv_method ≠ sequential.1 !! inv_method.
Proof using run0 run1 run2 shape0 shape1 shape2.
  intros Hne Hnonzero.
  assert (rmap (fun SNR => get_R inv_method SNR act) [s0; s1; s2]
          = Ok [o0; o1; o2]) as Hout
    by (cbn [rmap]; by rewrite run0, run1, run2).
  destruct (get_r_master_one_job [s0; s1; s2] labels [inv_method] (Some act))
    as (rm & rv & Hseq & _ & _ & Hlook).
  { intros m ->%list_elem_of_singleton. exists [o0; o1; o2].
    split; [done|]. by repeat (apply Forall_cons_2; [done|]). }
  destruct (Hlook inv_method) as (tensors & Htensors & Hrm & _);
    [by apply list_elem_of_singleton|done|].
  cbn [default from_option id] in Htensors.
  assert (tensors.1 = [o0.1; o1.1; o2.1]) as Ht.
  { unfold sequential_tensors in Htensors. rewrite Hout in Htensors.
    by injection Htensors as <-. }
  eexists _, (rm, rv), tensors. split.
  { unfold get_r_master. cbn [rfor_each]. unfold method_step.
    cbn [fst snd default from_option id]. rewrite remainder_run.
    cbn [rbind fst snd]. done. }
  split; [done|]. split; [done|]. split; [done|].
  cbn [fst]. rewrite Hrm, Ht, lookup_insert_ne, lookup_insert_eq by done.
  intros [= _ E]. by apply Hnonzero.
Qed.

End Remainder.

End RMasterFacts.

(** ** get_R *)

Section GetRFacts.
Context {F : Type} `{Scalar F}.
Variable finf : F.
Variables (InverseOperator Estimate : Type).
Variable mixed_norm : sensor_data F → Estimate.
Variable inv_function :
  sensor_data F → F → string → option InverseOperator → Estimate.
Variable emp_column : Estimate → list F.
Variable vert_column : Estimate → list F.
Variable has_nan : Estimate → bool.

Abbreviation activate' :=
  (activate finf mixed_norm inv_function emp_column vert_column has_nan).
Abbreviation activation_loop' :=
  (activation_loop finf mixed_norm inv_function emp_column vert_column has_nan).
Abbreviation get_R' :=
  (get_R finf mixed_norm inv_function emp_column vert_column has_nan).
Abbreviation call_of' :=
  (call_of finf mixed_norm inv_function emp_column vert_column has_nan).

Implicit Types (data : get_R_data F InverseOperator) (inp : get_R_input F).
Implicit Types (st : loop_state F).

Lemma filter_map_all_calls {A} (g : A → call F InverseOperator) (l : list A)
    (keep : call F InverseOperator → bool) :
  (∀ x, keep (g x) = true) → List.filter keep (map g l) = map g l.
Proof.
  intros Hk. induction l as [|x l IH]; [done|]. cbn. by rewrite Hk, IH.
Qed.

(** The call of a turn does not depend on the state of the loop. *)
Lemma activate_call data inp label st :
  (activate' data inp label st).1 = call_of' data inp label.
Proof.
  unfold call_of, activate. by destruct (String.eqb (invmethod inp) "mixed_norm").
Qed.

Lemma activate_lambda2 data inp label st st' :
  lambda2_ok st → (activate' data inp label st).2 = Ok st' → lambda2_ok st'.
Proof.
  intros Hst. unfold activate.
  destruct (String.eqb (invmethod inp) "mixed_norm"); cbn [snd];
    destruct (_ : bool); intros [= <-]; unfold lambda2_ok; cbn [lambda2];
    destruct (feqb _ finf); auto.
Qed.

(** The loop calls the estimator for the activation labels in their order,
    up to the first turn that raises. *)
Lemma activation_loop_calls data inp (labels : list Label) : ∀ st,
  lambda2_ok st →
  ∃ k, k ≤ length labels
       ∧ (labels ≠ [] → 1 ≤ k)
       ∧ (activation_loop' data inp labels st).1
         = map (call_of' data inp) (take k labels)
       ∧ (∀ st', (activation_loop' data inp labels st).2 = Ok st' →
            k = length labels ∧ lambda2_ok st').
Proof.
  induction labels as [|label labels IH]; intros st Hst.
  - exists 0. split; [done|]. split; [done|]. split; [done|].
    cbn. by intros st' [= <-].
  - cbn [activation_loop].
    pose proof (activate_call data inp label st) as Hcall.
    pose proof (activate_lambda2 data inp label st) as Hl2.
    destruct (activate' data inp label st) as [made [st1|e]]; cbn [fst snd] in *.
    + destruct (IH st1) as (k & Hk & _ & Hcalls & Hok); [by apply Hl2|].
      exists (S k). split; [simpl; lia|]. split; [lia|].
      split; [cbn; by rewrite Hcall, Hcalls|].
      intros st' Hst'. destruct (Hok st' Hst') as [-> ?]. done.
    + exists 1. split; [simpl; lia|]. split; [done|].
      split; [cbn; by rewrite Hcall, take_0|]. done.
Qed.

Lemma call_of_mixed_norm data inp label :
  invmethod inp = "mixed_norm" →
  call_of' data inp label
  = MixedNorm (sens_of finf data (ave_scale finf data inp) label).
Proof. intros E. unfold call_of, activate. by rewrite E. Qed.

Lemma call_of_inv_function data inp label :
  invmethod inp ≠ "mixed_norm" →
  call_of' data inp label
  = InvFunction (sens_of finf data (ave_scale finf data inp) label)
      (used_SNR finf inp) (invmethod inp) (inverse_operator_of data inp).
Proof.
  intros E. unfold call_of, activate.
  by apply String.eqb_neq in E as ->.
Qed.

Lemma call_of_is_estimator data inp label :
  is_estimator_call (call_of' data inp label) = true.
Proof.
  unfold call_of, activate.
  by destruct (String.eqb (invmethod inp) "mixed_norm").
Qed.

(** The trace of [get_R]: the making of the inverse operator for a linear
    method, the estimator calls of the loop, and the preparation of the
    inverse operator at the end of an analytical run, with lambda2 = 1/9. *)
Lemma get_R_calls data inp :
  ∃ k tail,
    (get_R' data inp).1
    = (if string_in (invmethod inp) linear_methods
       then [MakeInverseOperator] else [])
      ++ map (call_of' data inp) (take k (activation_labels inp)) ++ tail
    ∧ k ≤ length (activation_labels inp)
    ∧ (activation_labels inp ≠ [] → 1 ≤ k)
    ∧ (is_Ok (get_R' data inp).2 → k = length (activation_labels inp))
    ∧ (tail = []
       ∨ ∃ op, tail = [PrepareInverseOperator op (fdiv (of_Z 1) (of_Z 9))
                         (invmethod inp)]).
Proof.
  destruct (activation_loop_calls data inp (activation_labels inp)
              (LoopState [] [] None)) as (k & Hk & Hne & Hcalls & Hok);
    [by left|].
  unfold get_R.
  destruct (activation_loop' data inp (activation_labels inp) _)
    as [calls [st|e]]; cbn [fst snd] in *.
  - destruct (Hok st eq_refl) as [-> Hl2].
    destruct (compute_analytical inp).
    + destruct (lambda2 st) as [l|] eqn:El.
      * destruct Hl2 as [?|Hl]; [congruence|].
        rewrite El in Hl. injection Hl as ->.
        destruct (inverse_operator_of data inp) as [op|].
        -- exists (length (activation_labels inp)),
             [PrepareInverseOperator op (fdiv (of_Z 1) (of_Z 9)) (invmethod inp)].
           cbn [fst snd]. rewrite Hcalls. split; [done|]. split; [done|].
           split; [done|]. split; [done|]. right. by exists op.
        -- exists (length (activation_labels inp)), []. cbn [fst snd].
           rewrite Hcalls, app_nil_r. by repeat split; auto.
      * exists (length (activation_labels inp)), []. cbn [fst snd].
        rewrite Hcalls, app_nil_r. by repeat split; auto.
    + exists (length (activation_labels inp)), []. cbn [fst snd].
      rewrite Hcalls, app_nil_r. by repeat split; auto.
  - exists k, []. cbn [fst snd]. rewrite Hcalls, app_nil_r.
    split; [done|]. split; [done|]. split; [done|].
    split; [by intros [? ?]|by left].
Qed.

Lemma estimator_calls_of_trace data inp k (pre tail : list (call F InverseOperator)) labels :
  estimator_calls pre = [] → estimator_calls tail = [] →
  estimator_calls (pre ++ map (call_of' data inp) (take k labels) ++ tail)
  = map (call_of' data inp) (take k labels).
Proof.
  intros Hpre Htail. unfold estimator_calls in *.
  rewrite !List.filter_app, Hpre, Htail, app_nil_r. cbn [app].
  apply filter_map_all_calls. intros label. apply call_of_is_estimator.
Qed.

Lemma string_in_elem (x : string) (l : list string) :
  string_in x l = true ↔ x ∈ l.
Proof.
  unfold string_in. rewrite existsb_exists. split.
  - intros (y & Hy & ->%String.eqb_eq). by apply list_elem_of_In.
  - intros Hx. exists x. split; [by apply list_elem_of_In|apply String.eqb_refl].
Qed.

Lemma estimator_data_of_trace data inp k
    (pre tail : list (call F InverseOperator)) labels :
  estimator_data pre = [] → estimator_data tail = [] →
  estimator_data (pre ++ map (call_of' data inp) (take k labels) ++ tail)
  = map (sens_of finf data (ave_scale finf data inp)) (take k labels).
Proof.
  intros Hpre Htail. unfold estimator_data in *.
  rewrite !omap_app, Hpre, Htail, app_nil_r. cbn [app].
  induction (take k labels) as [|label l IH]; [done|]. cbn [map omap].
  rewrite <- IH. unfold call_of, activate.
  by destruct (String.eqb (invmethod inp) "mixed_norm").
Qed.


(** The sensor data of [get_R].  It uses SNR = inf when [compute_analytical]
    is set, and one scaling factor for all the activation labels:
    ave_scale = SNR / mean over (mag, grad, eeg) of (average signal power of
    the modality / noise power of the modality).  The sensor data handed to
    the estimator for a label are the noise-free signal when ave_scale
    compares equal to +inf, and ave_scale * signal + noise otherwise; 1/9 is
    the only value of lambda2 that the final preparation of the inverse
    operator ever receives.  With [compute_analytical] the data are the
    noise-free signal whenever inf divided by the mean ratio is +inf. *)
Theorem get_R_sensor_data data inp :
  used_SNR finf inp = (if compute_analytical inp then finf else SNR inp)
  ∧ ave_scale finf data inp
    = fdiv (used_SNR finf inp)
        (np_mean
           (map (fun key =>
                   fdiv (np_mean (map (signal_power data key)
                                    (activation_labels inp)))
                     (noise_power data key))
              [mag; grad; eeg]))
  ∧ (∀ op l m, PrepareInverseOperator op l m ∈ (get_R' data inp).1 →
       l = fdiv (of_Z 1) (of_Z 9))
  ∧ ∃ k, k ≤ length (activation_labels inp)
      ∧ (activation_labels inp ≠ [] → 1 ≤ k)
      ∧ (is_Ok (get_R' data inp).2 → k = length (activation_labels inp))
      ∧ estimator_data (get_R' data inp).1
        = map (fun label =>
                 if feqb (ave_scale finf data inp) finf then signal data label
                 else add_data
                        (scale_data (ave_scale finf data inp) (signal data label))
                        (noise data))
            (take k (activation_labels inp))
      ∧ (compute_analytical inp = true →
         feqb (fdiv finf (np_mean (power_ratios data (activation_labels inp))))
           finf = true →
         estimator_data (get_R' data inp).1
         = map (signal data) (take k (activation_labels inp))).
Proof.
  destruct (get_R_calls data inp) as (k & tail & Hcalls & Hk & Hne & Hok & Htail).
  split; [done|]. split; [done|]. split.
  { intros op l m. rewrite Hcalls, !elem_of_app.
    intros [Hin|[Hin|Hin]].
    - destruct (string_in (invmethod inp) linear_methods);
        [by apply list_elem_of_singleton in Hin|by apply elem_of_nil in Hin].
    - apply list_elem_of_fmap in Hin as (label & E & _).
      pose proof (call_of_is_estimator data inp label) as Hest.
      by rewrite <- E in Hest.
    - destruct Htail as [->|[op' ->]]; [by apply elem_of_nil in Hin|].
      apply list_elem_of_singleton in Hin. by injection Hin as _ -> _. }
  exists k. split; [done|]. split; [done|]. split; [done|].
  assert (estimator_data (get_R' data inp).1
          = map (sens_of finf data (ave_scale finf data inp))
              (take k (activation_labels inp))) as Hdata.
  { rewrite Hcalls. apply estimator_data_of_trace.
    - by destruct (string_in (invmethod inp) linear_methods).
    - by destruct Htail as [->|[op ->]]. }
  split; [done|].
  intros Hca Hinf. rewrite Hdata. apply map_ext. intros label.
  unfold sens_of, ave_scale, used_SNR. by rewrite Hca, Hinf.
Qed.

End GetRFacts.

(** ** Exact arithmetic: the area under the ROC curve *)

Section ExactRoc.
Open Scope Q_scope.

Lemma fold_left_Qplus (l : list Q) (acc : Q) :
  fold_left Qplus l acc == acc + fold_left Qplus l 0.
Proof.
  revert acc. induction l as [|t l IH]; intros acc; simpl.
  - lra.
  - rewrite (IH (acc + t)), (IH (0 + t)). lra.
Qed.

Lemma np_sum_cons (t : Q) (l : list Q) : np_sum (t :: l) == t + np_sum l.
Proof.
  unfold np_sum. cbn [fold_left fadd of_Z Q_scalar].
  change (inject_Z 0) with 0. rewrite fold_left_Qplus. lra.
Qed.

Lemma ascendingb_sound l : ascendingb l = true → ascending l.
Proof.
  induction l as [|x l IH]; [done|]. simpl. intros [Hxy Hl]%andb_true_iff.
  split; [|by apply IH]. destruct l; [done|]. by apply Qle_bool_iff.
Qed.

Lemma trapz_term_bounds (x0 x1 y0 y1 : Q) :
  x1 <= x0 → unit_interval y0 → unit_interval y1 →
  x1 - x0 <= (x1 - x0) * (y1 + y0) / 2 ∧ (x1 - x0) * (y1 + y0) / 2 <= 0.
Proof.
  intros Hx [? ?] [? ?].
  assert ((x1 - x0) * (y1 + y0) / 2 == (x1 - x0) * ((y1 + y0) * (1 # 2))) as ->
    by (unfold Qdiv; change (/ 2) with (1 # 2); ring).
  set (d := x1 - x0). set (m := (y1 + y0) * (1 # 2)).
  assert (d <= 0) by (unfold d; lra).
  assert (0 <= m ∧ m <= 1) as [? ?] by (unfold m; split; lra).
  split; nra.
Qed.

Lemma np_trapz_cons (x0 x1 y0 y1 : Q) (xs ys : list Q) :
  np_trapz (y0 :: y1 :: ys) (x0 :: x1 :: xs)
  == (x1 - x0) * (y1 + y0) / 2 + np_trapz (y1 :: ys) (x1 :: xs).
Proof.
  unfold np_trapz at 1. unfold np_diff. cbn [tail zip_with].
  rewrite np_sum_cons. reflexivity.
Qed.

Lemma np_trapz_bounds : ∀ (xs ys : list Q),
  length xs = length ys → descending xs →
  Forall unit_interval ys →
  List.last xs 0 - hd 0 xs <= np_trapz ys xs ∧ np_trapz ys xs <= 0.
Proof.
  induction xs as [|x0 xs IH]; intros ys Hlen Hdesc Hys.
  - destruct ys; [|done]. change (np_trapz [] []) with 0.
    cbn [List.last hd]. lra.
  - destruct ys as [|y0 ys]; [done|].
    destruct xs as [|x1 xs].
    + destruct ys; [|done]. change (np_trapz [y0] [x0]) with 0.
      cbn [List.last hd]. lra.
    + destruct ys as [|y1 ys]; [done|].
      destruct Hdesc as [Hx Hdesc].
      apply Forall_cons in Hys as [Hy0 Hys].
      pose proof Hys as [Hy1 _]%Forall_cons.
      destruct (IH (y1 :: ys)) as [IHl IHu]; [simpl in *; lia|done|done|].
      destruct (trapz_term_bounds x0 x1 y0 y1 Hx Hy0 Hy1) as [Hl Hu].
      rewrite np_trapz_cons.
      change (List.last (x0 :: x1 :: xs) 0) with (List.last (x1 :: xs) 0).
      cbn [hd] in *. split; lra.
Qed.

Lemma unit_interval_last (xs : list Q) :
  Forall unit_interval xs → 0 <= List.last xs 0.
Proof.
  induction xs as [|x xs IH]; intros Hxs; [cbn [List.last]; lra|].
  apply Forall_cons in Hxs as [[? ?] Hxs].
  destruct xs; [done|]. by apply IH.
Qed.

(** The area under a curve that runs leftwards inside the unit square. *)
Lemma np_trapz_unit (xs ys : list Q) :
  length xs = length ys → descending xs →
  Forall unit_interval xs → Forall unit_interval ys →
  0 <= Qabs (np_trapz ys xs) ∧ Qabs (np_trapz ys xs) <= 1.
Proof.
  intros Hlen Hdesc Hxs Hys. split; [apply Qabs_nonneg|].
  destruct (np_trapz_bounds xs ys Hlen Hdesc Hys) as [Hl Hu].
  pose proof (unit_interval_last xs Hxs) as Hlast.
  assert (hd 0 xs <= 1) as Hhd.
  { destruct xs; [cbn [hd]; lra|]. by apply Forall_cons in Hxs as [[? ?] _]. }
  apply Qabs_Qle_condition. split; lra.
Qed.

Lemma inject_Z_pos (z : Z) : (0 < z)%Z → 0 < inject_Z z.
Proof. intros Hz. change 0 with (inject_Z 0). by rewrite <- Zlt_Qlt. Qed.

Lemma rate_unit (a b : Z) :
  (0 ≤ a)%Z → (0 ≤ b)%Z → (0 < a + b)%Z →
  unit_interval (inject_Z a / inject_Z (a + b)).
Proof.
  intros Ha Hb Hab. pose proof (inject_Z_pos _ Hab) as Hpos. split.
  - apply Qle_shift_div_l; [done|]. rewrite Qmult_0_l.
    change 0 with (inject_Z 0). by rewrite <- Zle_Qle.
  - apply Qle_shift_div_r; [done|]. rewrite Qmult_1_l, <- Zle_Qle. lia.
Qed.

Lemma rate_antitone (a b a' b' : Z) :
  (0 ≤ a' ≤ a)%Z → (0 ≤ b ≤ b')%Z → (0 < a + b)%Z → (0 < a' + b')%Z →
  inject_Z a' / inject_Z (a' + b') <= inject_Z a / inject_Z (a + b).
Proof.
  intros Ha Hb Hab Hab'.
  pose proof (inject_Z_pos _ Hab) as Hpos.
  pose proof (inject_Z_pos _ Hab') as Hpos'.
  apply Qle_shift_div_l; [done|].
  assert (inject_Z a' / inject_Z (a' + b') * inject_Z (a + b)
          == inject_Z a' * inject_Z (a + b) / inject_Z (a' + b')) as ->
    by (field; lra).
  apply Qle_shift_div_r; [done|].
  rewrite <- !inject_Z_mult, <- Zle_Qle. nia.
Qed.

Lemma roc_FP_TN_pos (offs : list Q) (T : Q) :
  offs ≠ [] → (0 < roc_FP offs T + roc_TN offs T)%Z.
Proof.
  intros Hne. unfold roc_FP, roc_TN.
  pose proof (count_cover (fun x => fleb T x) (fun x => fleb x T) offs) as Hc.
  assert (0 < length offs)%nat by (destruct offs; [done|simpl; lia]).
  enough (Z.of_nat (length offs) ≤ count (fun x => fleb T x) offs
                                   + count (fun x => fleb x T) offs)%Z by lia.
  apply Hc. intros x. cbn [fleb Q_scalar].
  destruct (Qle_bool T x) eqn:E; [done|]. simpl.
  apply Qle_bool_iff. destruct (Qlt_le_dec x T) as [Hlt|Hle]; [lra|].
  apply Qle_bool_iff in Hle. congruence.
Qed.

Lemma roc_FPR_unit (offs : list Q) (T : Q) :
  offs ≠ [] → unit_interval (roc_FPR offs T).
Proof.
  intros Hne. unfold roc_FPR. cbn [fdiv of_Z Q_scalar].
  apply rate_unit; [apply count_bounds..|by apply roc_FP_TN_pos].
Qed.

Lemma roc_FPR_antitone (offs : list Q) (T T' : Q) :
  offs ≠ [] → T <= T' → roc_FPR offs T' <= roc_FPR offs T.
Proof.
  intros Hne HT. unfold roc_FPR. cbn [fdiv of_Z Q_scalar].
  apply rate_antitone; [| |by apply roc_FP_TN_pos..].
  - split; [apply count_bounds|]. apply count_le_imp. intros x.
    cbn [fleb Q_scalar]. rewrite !Qle_bool_iff. lra.
  - split; [apply count_bounds|]. apply count_le_imp. intros x.
    cbn [fleb Q_scalar]. rewrite !Qle_bool_iff. lra.
Qed.

Lemma roc_TPR_unit (te : list Q) (T : Q) :
  te ≠ [] → unit_interval (roc_TPR te T).
Proof.
  intros Hne. unfold roc_TPR, roc_FN. cbn [fdiv of_Z Q_scalar].
  pose proof (count_bounds (fun x => fltb T x) te) as Hb. unfold roc_TP.
  assert (0 < length te)%nat by (destruct te; [done|simpl; lia]).
  apply rate_unit; lia.
Qed.

Lemma descending_rates (f : Q → Q) (Ts : list Q) :
  (∀ T T', T <= T' → f T' <= f T) → (∀ T, 0 <= f T) →
  ascending Ts → descending (map f Ts ++ replicate 3 0).
Proof.
  intros Hanti Hpos. induction Ts as [|T Ts IH]; intros Hasc.
  - simpl. repeat split; lra.
  - destruct Hasc as [HT Hasc]. specialize (IH Hasc). split; [|done].
    destruct Ts as [|T' Ts]; simpl; [apply Hpos|by apply Hanti].
Qed.

Lemma unit_interval_rates (f : Q → Q) (Ts : list Q) :
  (∀ T, unit_interval (f T)) →
  Forall unit_interval (map f Ts ++ replicate 3 0).
Proof.
  intros Hf. apply Forall_app. split.
  - apply Forall_forall. intros y Hy. apply list_elem_of_fmap in Hy as (T & -> & _).
    apply Hf.
  - repeat constructor; unfold unit_interval; lra.
Qed.

Lemma roc_thresholds_ascending : ascending (roc_thresholds (F:=Q)).
Proof. apply ascendingb_sound. vm_compute. reflexivity. Qed.

(** The thresholds are the 100 points -0.01 + c * (1.02 / 99). *)
Lemma roc_thresholds_even (c : nat) (T : Q) :
  roc_thresholds !! c = Some T →
  T == -(1 # 100) + inject_Z (Z.of_nat c) * ((102 # 100) / 99).
Proof.
  intros Hc. apply Qeq_bool_iff.
  apply (forallb_enumerate
           (fun c T => Qeq_bool T (-(1 # 100)
                                   + inject_Z (Z.of_nat c) * ((102 # 100) / 99)))
           roc_thresholds); [|done].
  vm_compute. reflexivity.
Qed.

Lemma Qeq_bool_false (x y : Q) : ¬ x == y → Qeq_bool x y = false.
Proof.
  intros Hne. destruct (Qeq_bool x y) eqn:E; [|done].
  by apply Qeq_bool_eq in E.
Qed.

Lemma row_lookup (a : ndarray Q) i c :
  (c < shape1 a)%nat → row a i !! c = Some (item a i c).
Proof.
  intros Hc. unfold row. rewrite list_lookup_fmap, lookup_seq_lt by done. done.
Qed.

(** [get_roc] in exact arithmetic.  Let [R] be a square n-by-n
    matrix with n >= 2 and nonzero column maxima, such that no off-diagonal
    entry of the column-standardized matrix equals the sentinel
    9999999999999999 of [remove_diagonal].  Then [get_roc(R)] returns; it
    standardizes each column of [R] by its maximum; it runs over the 100
    thresholds T = -0.01 + c * 1.02/99; for each it counts the diagonal
    entries strictly greater than T as TP and the rest of the diagonal as FN,
    the off-diagonal entries at most T as TN and at least T as FP, and stores
    (FPR, TPR) = (FP/(FP+TN), TP/(TP+FN)) in column c of ROC; and the area
    it returns lies between 0 and 1. *)
Theorem get_roc_spec (R : loc) (h : heap Q) (a : ndarray Q) (n : nat) :
  h !! R = Some a → shape0 a = n → shape1 a = n → (2 ≤ n)%nat →
  (∀ j, (j < n)%nat → ¬ col_max a j == 0) →
  (∀ i j, (i < n)%nat → (j < n)%nat → i ≠ j →
     ¬ item a i j / col_max a j == sentinel) →
  ∃ r_max ROC roc acu all_stats h',
    get_roc R h = (Ok (ROC, acu, all_stats), h')
    ∧ h' !! ROC = Some roc
    ∧ shape0 r_max = n ∧ shape1 r_max = n
    ∧ (∀ i j, (i < n)%nat → (j < n)%nat →
         item r_max i j = item a i j / col_max a j)
    ∧ length (roc_thresholds (F:=Q)) = 100%nat
    ∧ (∀ c T, roc_thresholds !! c = Some T →
         T == -(1 # 100) + inject_Z (Z.of_nat c) * ((102 # 100) / 99))
    ∧ (∀ c T, roc_thresholds !! c = Some T →
         stat_TP all_stats !! c = Some (roc_TP (np_diag r_max) T)
         ∧ stat_FN all_stats !! c
           = Some (Z.of_nat n - roc_TP (np_diag r_max) T)%Z
         ∧ stat_TN all_stats !! c = Some (roc_TN (off_diagonal_entries r_max) T)
         ∧ stat_FP all_stats !! c = Some (roc_FP (off_diagonal_entries r_max) T)
         ∧ item roc 0 c = roc_FPR (off_diagonal_entries r_max) T
         ∧ item roc 1 c = roc_TPR (np_diag r_max) T)
    ∧ 0 <= acu ∧ acu <= 1.
Proof.
  intros HR H0 H1 Hn Hmax Hsent.
  destruct (get_roc_square R h a n HR H0 H1)
    as (r_max & off & roc & h' & Hrun & Hroc & _ & Hstd & Hoff0 & Hoff1
        & Hcol & Hrow0 & Hrow1); [lia|done| |].
  { intros i j Hi Hj Hij. apply Qeq_bool_false. by apply Hsent. }
  destruct Hstd as (Hr0 & Hr1 & Hitem). rewrite H0 in Hr0. rewrite H1 in Hr1.
  assert (length (np_diag r_max) = n) as Hte
    by (rewrite np_diag_length, Hr0, Hr1; lia).
  assert (np_diag r_max ≠ []) as Hte_ne
    by (intros E; rewrite E in Hte; simpl in Hte; lia).
  assert (items off ≠ []) as Hoff_ne.
  { intros E. apply (f_equal length) in E.
    rewrite items_length, Hoff0, Hoff1 in E. simpl in E. nia. }
  assert (∀ p, count p (items off) = count p (off_diagonal_entries r_max))
    as Hcount.
  { intros p. apply count_off_diagonal; [lia|].
    intros j Hj. apply Hcol. lia. }
  assert (∀ T, roc_FPR (items off) T = roc_FPR (off_diagonal_entries r_max) T)
    as HFPR by (intros T; unfold roc_FPR, roc_FP, roc_TN; by rewrite !Hcount).
  exists r_max, (length h), roc. do 2 eexists. exists h'.
  split; [exact Hrun|]. split; [done|]. split; [done|]. split; [done|].
  split.
  { intros i j Hi Hj. rewrite Hitem by lia.
    by assert ((j <? n) = true) as -> by (apply Nat.ltb_lt; lia). }
  split; [apply roc_thresholds_length|].
  split; [apply roc_thresholds_even|].
  split.
  { intros c T Hc. cbn [stat_TP stat_FN stat_TN stat_FP].
    assert (c < 100)%nat as Hc100.
    { apply lookup_lt_Some in Hc. by rewrite roc_thresholds_length in Hc. }
    rewrite !list_lookup_fmap, Hc. cbn [fmap option_fmap option_map].
    split; [done|]. split; [by unfold roc_FN; rewrite Hte|].
    split; [by unfold roc_TN; rewrite Hcount|].
    split; [by unfold roc_FP; rewrite Hcount|].
    assert (shape1 roc = 103%nat) as Hs1.
    { apply (f_equal length) in Hrow0. unfold row in Hrow0.
      rewrite length_map, length_seq, length_app, length_map,
        roc_thresholds_length in Hrow0. done. }
    split.
    - pose proof (row_lookup roc 0 c) as Hl. rewrite Hrow0 in Hl.
      rewrite lookup_app_l in Hl
        by (rewrite length_map, roc_thresholds_length; lia).
      rewrite list_lookup_fmap, Hc in Hl. cbn in Hl.
      rewrite <- HFPR. symmetry. apply (inj Some). apply Hl. lia.
    - pose proof (row_lookup roc 1 c) as Hl. rewrite Hrow1 in Hl.
      rewrite lookup_app_l in Hl
        by (rewrite length_map, roc_thresholds_length; lia).
      rewrite list_lookup_fmap, Hc in Hl. cbn in Hl.
      symmetry. apply (inj Some). apply Hl. lia. }
  rewrite Hrow0, Hrow1. cbn [fabs Q_scalar]. change (of_Z 0%Z) with 0.
  apply np_trapz_unit.
  - by rewrite !length_app, !length_map.
  - apply descending_rates; [|intros T; by apply roc_FPR_unit
                             |apply roc_thresholds_ascending].
    intros T T' HT. by apply roc_FPR_antitone.
  - apply unit_interval_rates. intros T. by apply roc_FPR_unit.
  - apply unit_interval_rates. intros T. by apply roc_TPR_unit.
Qed.

(** On exact numbers the order of np.argmin is the strict order [<]. *)
Lemma Q_np_less (x y : Q) : np_less x y = true ↔ x < y.
Proof.
  unfold np_less, is_nan. cbn [fltb feqb Q_scalar].
  rewrite (Qeq_eq_bool x x) by reflexivity. cbn [negb andb orb].
  rewrite orb_false_r, negb_true_iff. split.
  - intros E. apply Qnot_le_lt. intros Hle. apply Qle_bool_iff in Hle. congruence.
  - intros Hlt. destruct (Qle_bool y x) eqn:E; [|done].
    apply Qle_bool_iff in E. lra.
Qed.

Lemma Q_np_less_irrefl (x : Q) : np_less x x = false.
Proof.
  destruct (np_less x x) eqn:E; [|done]. apply Q_np_less in E. lra.
Qed.

Lemma Q_np_less_trans (x y z : Q) :
  np_less x y = true → np_less y z = true → np_less x z = true.
Proof. rewrite !Q_np_less. lra. Qed.

End ExactRoc.

(** C8, against the claim as it was stated (ValueError if and only if [arg]
    is neither "diag" nor "max"): on [np.zeros((0, 1))] with "max", np.max of
    the empty column raises ValueError. *)
Lemma standardize_columns_max_no_rows :
  ¬ (raises_ValueError (standardize_columns 0 "max" [no_rows]).1
     ↔ ("max" ≠ "diag" ∧ "max" ≠ "max")).
Proof.
  intros [Hraise _].
  destruct Hraise as [_ Hne]; [|done].
  by exists ZeroSizeReduction.
Qed.

Lemma standardize_columns_spec_witness :
  [two_by_two] !! 0 = Some two_by_two
  ∧ ∃ res h',
      standardize_columns 0 "max" [two_by_two] = (res, h')
      ∧ (∀ l x, [two_by_two] !! l = Some x → h' !! l = Some x)
      ∧ (raises_ValueError res ↔
           ("max" ≠ "diag" ∧ "max" ≠ "max")
           ∨ ("max" = "max" ∧ shape0 two_by_two = 0 ∧ 0 < shape1 two_by_two))
      ∧ (∀ R_std, res = Ok R_std →
           ∃ b, h' !! R_std = Some b ∧ R_std ≠ 0
                ∧ shape0 b = shape0 two_by_two ∧ shape1 b = shape1 two_by_two
                ∧ ∀ j, j < shape1 two_by_two →
                    ("max" = "max" →
                       ∃ top, maximum_of (column two_by_two j) = Some top
                              ∧ column b j = div_each (column two_by_two j) top)
                    ∧ ("max" = "diag" →
                         column b j
                         = div_each (column two_by_two j) (item two_by_two j j))).
Proof.
  split; [reflexivity|].
  apply (standardize_columns_spec 0 "max" [two_by_two] two_by_two).
  reflexivity.
Defined.

Lemma remove_diagonal_spec_witness :
  ∃ B h' b,
    remove_diagonal 0 [two_by_two_float] = (Ok B, h')
    ∧ h' !! B = Some b ∧ B ≠ 0
    ∧ shape0 b = 2 - 1 ∧ shape1 b = 2
    ∧ (∀ j, j < 2 → column b j = without j (column two_by_two_float j))
    ∧ (∀ l x, [two_by_two_float] !! l = Some x → h' !! l = Some x).
Proof.
  apply (remove_diagonal_spec 0 [two_by_two_float] two_by_two_float 2);
    [reflexivity|reflexivity|reflexivity|lia|reflexivity|].
  intros i j Hi Hj.
  destruct i as [|[|i]], j as [|[|j]]; try lia; reflexivity.
Defined.

Lemma get_roc_shape_witness :
  ∃ ROC acu all_stats h',
    get_roc 0 [two_by_two_float] = (Ok (ROC, acu, all_stats), h')
    ∧ ∃ roc, h' !! ROC = Some roc
             ∧ shape0 roc = 2 ∧ shape1 roc = 103
             ∧ length (stat_TP all_stats) = 100
             ∧ ∀ c, 100 ≤ c < 103 →
                 item roc 0 c = of_Z 0 ∧ item roc 1 c = of_Z 0.
Proof.
  do 4 eexists.
  split; [vm_compute; reflexivity|].
  eapply (get_roc_shape 0 [two_by_two_float]).
  vm_compute. reflexivity.
Defined.

(** C2, the code on an input where the claim fails.  The claim, and the
    docstring of [get_roc], promise an area between 0 and 1.  The 1-by-1
    matrix [[5.]] is square and its column maximum 5 is not zero; it has no
    off-diagonal entry, so FP + TN is 0 at every threshold, every
    false-positive rate is 0/0 = nan in float64, and [get_roc] returns, with
    the area nan: neither at least 0 nor at most 1. *)
Lemma get_roc_one_by_one_nan :
  maximum_of (column one_by_one 0) = Some 5%float
  ∧ ∃ ROC acu all_stats h',
      get_roc 0 [one_by_one] = (Ok (ROC, acu, all_stats), h')
      ∧ fleb (of_Z 0) acu = false ∧ fleb acu (of_Z 1) = false.
Proof.
  split; [reflexivity|]. do 4 eexists.
  split; [vm_compute; reflexivity|]. split; reflexivity.
Qed.

(** With negative column maxima a standardized off-diagonal entry can equal
    the sentinel of [remove_diagonal]; it is then masked out as well and the
    reshape fails. *)
Lemma get_roc_sentinel_clash :
  (get_roc 0 [negative_columns]).1 = Raise (ValueError CannotReshape).
Proof. vm_compute. reflexivity. Qed.

Lemma get_roc_spec_witness :
  ∃ r_max ROC roc acu all_stats h',
    get_roc 0 [two_by_two] = (Ok (ROC, acu, all_stats), h')
    ∧ h' !! ROC = Some roc
    ∧ shape0 r_max = 2 ∧ shape1 r_max = 2
    ∧ (∀ i j, i < 2 → j < 2 →
         item r_max i j = (item two_by_two i j / col_max two_by_two j)%Q)
    ∧ length (roc_thresholds (F:=Q)) = 100
    ∧ (∀ c T, roc_thresholds !! c = Some T →
         (T == -(1 # 100) + inject_Z (Z.of_nat c) * ((102 # 100) / 99))%Q)
    ∧ (∀ c T, roc_thresholds !! c = Some T →
         stat_TP all_stats !! c = Some (roc_TP (np_diag r_max) T)
         ∧ stat_FN all_stats !! c
           = Some (Z.of_nat 2 - roc_TP (np_diag r_max) T)%Z
         ∧ stat_TN all_stats !! c = Some (roc_TN (off_diagonal_entries r_max) T)
         ∧ stat_FP all_stats !! c = Some (roc_FP (off_diagonal_entries r_max) T)
         ∧ item roc 0 c = roc_FPR (off_diagonal_entries r_max) T
         ∧ item roc 1 c = roc_TPR (np_diag r_max) T)
    ∧ (0 <= acu)%Q ∧ (acu <= 1)%Q.
Proof.
  apply (get_roc_spec 0 [two_by_two] two_by_two 2);
    [reflexivity|reflexivity|reflexivity|lia| |].
  - intros j Hj. destruct j as [|[|j]]; [| |lia]; vm_compute; lia.
  - intros i j Hi Hj Hij.
    destruct i as [|[|i]], j as [|[|j]]; try lia; vm_compute; lia.
Defined.

Lemma get_center_of_gravity_error_spec_witness :
  ∃ coge center_of_gravity_list cog_closest_source,
    get_center_of_gravity_error 0 two_spaces two_labels [two_by_two]
    = (Ok (coge, center_of_gravity_list, cog_closest_source), [two_by_two])
    ∧ length coge = 2 ∧ length center_of_gravity_list = 2
    ∧ length cog_closest_source = 2
    ∧ ∀ c label, two_labels !! c = Some label →
        ∃ positions cog closest,
          mapM (fun v => rr (space_of two_spaces label) !! v) (vertices label)
          = Some positions
          ∧ center_of_gravity_list !! c = Some cog
          ∧ cog = vec_div (weighted_sum (column two_by_two c)
                             (map (center_of two_spaces) two_labels))
                    (np_sum (column two_by_two c))
          ∧ coge !! c
            = Some (fmul (of_Z 100) (norm3 (vec_sub (mean_axis0 positions) cog)))
          ∧ cog_closest_source !! c = Some closest
          ∧ closest < 2
          ∧ ∀ j center_j center_closest,
              map (center_of two_spaces) two_labels !! j = Some center_j →
              map (center_of two_spaces) two_labels !! closest
              = Some center_closest →
              np_less (norm3 (vec_sub cog center_j))
                (norm3 (vec_sub cog center_closest)) = false.
Proof.
  apply (get_center_of_gravity_error_spec 0 two_spaces two_labels
           [two_by_two] two_by_two 2);
    [exact Q_np_less_irrefl|exact Q_np_less_trans
    |reflexivity|reflexivity|reflexivity|reflexivity|].
  repeat constructor; simpl; lia.
Defined.

Lemma get_r_master_remainder_slot_witness :
  ∃ r_master r_master_vl,
    get_r_master (echo_get_R 2 3) 3 [1 # 1; 2 # 1; 3 # 1] two_labels ["MNE"]
      (Some two_labels) 2
    = Ok (r_master, r_master_vl)
    ∧ r_master !! "MNE"
      = Some (Tensor [(echo_output 2 3 (1 # 1) two_labels).1;
                      (echo_output 2 3 (3 # 1) two_labels).1;
                      zeros_cmatrix (length two_labels) (length two_labels)])
    ∧ r_master_vl !! "MNE"
      = Some (Tensor [(echo_output 2 3 (1 # 1) two_labels).2;
                      (echo_output 2 3 (3 # 1) two_labels).2;
                      zeros_cmatrix 3 (length two_labels)])
    ∧ r_master !! "SNRs" = Some (SNRList [1 # 1; 2 # 1; 3 # 1]).
Proof.
  apply (get_r_master_remainder_slot (echo_get_R 2 3) 3 (1 # 1) (2 # 1) (3 # 1)
           two_labels
           two_labels "MNE" (echo_output 2 3 (1 # 1) two_labels)
           (echo_output 2 3 (2 # 1) two_labels) (echo_output 2 3 (3 # 1) two_labels));
    try reflexivity; try (repeat split; reflexivity).
  discriminate.
Defined.

Lemma get_r_master_depends_on_n_jobs_witness :
  ∃ parallel sequential tensors,
    get_r_master (echo_get_R 2 3) 3 [1 # 1; 2 # 1; 3 # 1] two_labels ["MNE"]
      (Some two_labels) 2
    = Ok parallel
    ∧ get_r_master (echo_get_R 2 3) 3 [1 # 1; 2 # 1; 3 # 1] two_labels ["MNE"]
        (Some two_labels) 1
      = Ok sequential
    ∧ sequential_tensors (echo_get_R 2 3) "MNE" [1 # 1; 2 # 1; 3 # 1] two_labels
      = Ok tensors
    ∧ sequential.1 !! "MNE" = Some (Tensor tensors.1)
    ∧ parallel.1 !! "MNE" ≠ sequential.1 !! "MNE".
Proof.
  apply (get_r_master_depends_on_n_jobs (echo_get_R 2 3) 3 (1 # 1) (2 # 1) (3 # 1)
           two_labels
           two_labels "MNE" (echo_output 2 3 (1 # 1) two_labels)
           (echo_output 2 3 (2 # 1) two_labels) (echo_output 2 3 (3 # 1) two_labels));
    try reflexivity; try (repeat split; reflexivity); discriminate.
Defined.

(** The scaling factor of [get_R] is an average over the activation labels
    it is given: called on the chunk [label_a] alone it is 2, called on the
    full list it is 1, so that the chunks of a split run are not scaled as
    the full list is. *)
Lemma chunk_scaling_differs :
  ave_scale infinity uneven_powers (GetRInput "MNE" 2%float [label_a] false)
  = 2%float
  ∧ ave_scale infinity uneven_powers
      (GetRInput "MNE" 2%float [label_a; label_b] false)
    = 1%float.
Proof. split; reflexivity. Qed.

(** C5, the code on an input where the claim fails.  On an EEG-only
    recording the noise power and the signal power of the magnetometers and
    of the gradiometers are means over no channel, nan, and so is
    ave_scale = inf / nan.  With [compute_analytical] set the test
    [scaling == np.inf] then fails: the data handed to the estimator are
    nan * signal + noise, nan, and not the signal [[1.]]; lambda2 is never
    bound and the inverse operator never prepared; and whatever the
    estimators return, the call ends in NameError (for [break_point] when
    the estimate is found to hold a nan, for the unbound [lambda2]
    otherwise) and returns no matrix. *)
Theorem get_R_analytical_eeg_only (Estimate : Type)
    (mixed_norm : sensor_data float → Estimate)
    (inv_function : sensor_data float → float → string → option unit → Estimate)
    (emp_column vert_column : Estimate → list float)
    (has_nan : Estimate → bool) :
  let inp := GetRInput "MNE" 3%float [label_a] true in
  let run := get_R infinity mixed_norm inv_function emp_column vert_column
               has_nan eeg_only inp in
  compute_analytical inp = true
  ∧ signal eeg_only label_a = [[1%float]]
  ∧ PrimFloat.is_nan (ave_scale infinity eeg_only inp) = true
  ∧ (∃ x, estimator_data run.1 = [[[x]]] ∧ PrimFloat.is_nan x = true)
  ∧ (∀ op l m, PrepareInverseOperator op l m ∉ run.1)
  ∧ (run.2 = Raise (NameError "break_point")
     ∨ run.2 = Raise (NameError "lambda2")).
Proof.
  intros inp run.
  assert (run = ([MakeInverseOperator;
                  InvFunction [[nan]] infinity "MNE" (Some tt)],
                 if has_nan (inv_function [[nan]] infinity "MNE" (Some tt))
                 then Raise (NameError "break_point")
                 else Raise (NameError "lambda2"))) as ->.
  { subst run inp. unfold get_R. cbv.
    match goal with |- context [has_nan ?e] => by destruct (has_nan e) end. }
  split; [reflexivity|]. split; [reflexivity|]. split; [reflexivity|].
  cbn [fst snd]. split; [by eexists|]. split.
  - intros op l m Hin.
    repeat (apply elem_of_cons in Hin as [Hin|Hin]; [done|]).
    by apply elem_of_nil in Hin.
  - destruct (has_nan _); [by left|by right].
Qed.

(** With the three modalities present the analytical run scales by +inf and
    hands the noise-free signal to the estimator, with lambda2 = 1/9. *)
Lemma get_R_analytical_run :
  (run_get_R all_modalities (GetRInput "MNE" 3%float [label_a] true)).1
  = [MakeInverseOperator;
     InvFunction [[1%float]] infinity "MNE" (Some tt);
     PrepareInverseOperator tt (1 / 9)%float "MNE"].
Proof. vm_compute. reflexivity. Qed.

Section PointSpreadFacts.
Context {F : Type} `{Scalar F}.
Implicit Types (h : heap F) (a b : ndarray F).

Lemma insert_sorted_Forall (P : F → Prop) x (l : list F) :
  P x → Forall P l → Forall P (insert_sorted x l).
Proof.
  intros Hx Hl. induction Hl as [|y l Hy Hl IH]; simpl.
  - by apply Forall_singleton.
  - destruct (fleb x y).
    + apply Forall_cons_2; [done|]. by apply Forall_cons_2.
    + by apply Forall_cons_2.
Qed.

Lemma np_sort_Forall (P : F → Prop) (v : list F) :
  Forall P v → Forall P (np_sort v).
Proof.
  intros Hv. induction Hv as [|x v Hx Hv IH]; [done|].
  simpl. by apply insert_sorted_Forall.
Qed.

Lemma insert_sorted_length x (l : list F) :
  length (insert_sorted x l) = S (length l).
Proof.
  induction l as [|y l IH]; [done|]. simpl.
  destruct (fleb x y); simpl; by rewrite ?IH.
Qed.

Lemma np_sort_length (v : list F) : length (np_sort v) = length v.
Proof.
  induction v as [|x v IH]; [done|]. simpl. by rewrite insert_sorted_length, IH.
Qed.

(** The median of a nonempty list has every property its items have that the
    mean of two items keeps. *)
Lemma np_median_closed (P : F → Prop) (v : list F) :
  v ≠ [] →
  (∀ x y, P x → P y → P (fdiv (fadd x y) (of_Z 2))) →
  Forall P v → P (np_median v).
Proof.
  intros Hne Hmean Hv. unfold np_median.
  pose proof (np_sort_Forall _ v Hv) as Hs.
  pose proof (np_sort_length v) as Hlen.
  assert (0 < length v) as Hpos by (destruct v; [done|simpl; lia]).
  assert (∀ k, k < length v → P (nth k (np_sort v) (of_Z 0))) as Hnth.
  { intros k Hk.
    destruct (lookup_lt_is_Some_2 (np_sort v) k) as [x Hx]; [lia|].
    rewrite (nth_lookup_Some _ _ _ _ Hx).
    by apply (Forall_lookup_1 _ _ _ _ Hs Hx). }
  assert ((length v =? 0) = false) as -> by (apply Nat.eqb_neq; lia).
  destruct (Nat.odd (length v)) eqn:Eo.
  - apply Hnth. apply Nat.div_lt; lia.
  - assert (2 ≤ length v) as H2.
    { destruct (length v) as [|[|k]] eqn:E; [lia|done|lia]. }
    apply Hmean; apply Hnth.
    + pose proof (Nat.div_lt (length v) 2). lia.
    + apply Nat.div_lt; lia.
Qed.

(** The point spread of a square matrix, column by column. *)
Lemma get_average_point_spread_square (R : loc) h a n :
  h !! R = Some a → shape0 a = n → shape1 a = n → 1 ≤ n →
  feqb (sentinel (F:=F)) sentinel = true →
  (∀ i j, i < n → j < n → i ≠ j →
     feqb (fdiv (item a i j) (col_max a j)) sentinel = false) →
  ∃ h',
    get_average_point_spread R "max" h
    = (Ok (map (fun j => np_median_nan
                           (without j (div_each (column a j) (col_max a j))))
             (seq 0 n)), h')
    ∧ ∀ l x, h !! l = Some x → h' !! l = Some x.
Proof.
  intros HR H0 H1 Hn Hs Hoff.
  destruct (standardize_columns_max R h a) as (b & Hstd & Hb); [done|lia|].
  rewrite H1 in Hb. pose proof Hb as (Hb0 & Hb1 & Hbi).
  destruct (remove_diagonal_square (length h) (h ++ [b]) b n)
    as (a' & off & Hrm & Hoff0 & Hoff1 & Hcol);
    [apply lookup_fresh|lia|lia|done|done| |].
  { intros i j Hi Hj Hij. rewrite Hbi by lia.
    apply Nat.ltb_lt in Hj as Hj'. rewrite Hj'. by apply Hoff. }
  eexists. split.
  - unfold get_average_point_spread, global_name.
    rewrite bound_standardize_columns, bound_remove_diagonal.
    unfold bind at 1. rewrite Hstd. unfold bind at 1. rewrite Hrm.
    unfold bind at 1, load at 1.
    assert ((h ++ [b] ++ [a'; off]) !! S (length (h ++ [b])) = Some off) as Hl.
    { change (h ++ [b] ++ [a'; off]) with (h ++ [b] ++ [a'] ++ [off]).
      rewrite !app_assoc.
      replace (S (length (h ++ [b]))) with (length ((h ++ [b]) ++ [a']))
        by (rewrite !length_app; simpl; lia).
      apply lookup_fresh. }
    rewrite <- app_assoc. rewrite Hl. unfold ret. f_equal. f_equal.
    unfold median_axis0. rewrite Hoff1. apply map_ext_in.
    intros j Hj. apply in_seq in Hj. rewrite Hcol by lia. f_equal. f_equal.
    pose proof (standardized_upto_column _ _ _ _ j Hb) as Hc.
    rewrite Hc by lia.
    by assert ((j <? n) = true) as -> by (apply Nat.ltb_lt; lia).
  - intros l x Hl. by apply lookup_app_l_Some.
Qed.


Lemma get_average_point_spread_square_diag (R : loc) h a n :
  h !! R = Some a → shape0 a = n → shape1 a = n → 1 ≤ n →
  feqb (sentinel (F:=F)) sentinel = true →
  (∀ i j, i < n → j < n → i ≠ j →
     feqb (fdiv (item a i j) (col_diag a j)) sentinel = false) →
  ∃ h',
    get_average_point_spread R "diag" h
    = (Ok (map (fun j => np_median_nan
                           (without j (div_each (column a j) (col_diag a j))))
             (seq 0 n)), h')
    ∧ ∀ l x, h !! l = Some x → h' !! l = Some x.
Proof.
  intros HR H0 H1 Hn Hs Hoff.
  destruct (standardize_columns_diag R h a HR)
    as (b & [(_ & Hstd & Hb)|(Hlt & _)]); [|lia].
  rewrite H1 in Hb. pose proof Hb as (Hb0 & Hb1 & Hbi).
  destruct (remove_diagonal_square (length h) (h ++ [b]) b n)
    as (a' & off & Hrm & Hoff0 & Hoff1 & Hcol);
    [apply lookup_fresh|lia|lia|done|done| |].
  { intros i j Hi Hj Hij. rewrite Hbi by lia.
    apply Nat.ltb_lt in Hj as Hj'. rewrite Hj'. by apply Hoff. }
  eexists. split.
  - unfold get_average_point_spread, global_name.
    rewrite bound_standardize_columns, bound_remove_diagonal.
    unfold bind at 1. rewrite Hstd. unfold bind at 1. rewrite Hrm.
    unfold bind at 1, load at 1.
    assert ((h ++ [b] ++ [a'; off]) !! S (length (h ++ [b])) = Some off) as Hl.
    { change (h ++ [b] ++ [a'; off]) with (h ++ [b] ++ [a'] ++ [off]).
      rewrite !app_assoc.
      replace (S (length (h ++ [b]))) with (length ((h ++ [b]) ++ [a']))
        by (rewrite !length_app; simpl; lia).
      apply lookup_fresh. }
    rewrite <- app_assoc. rewrite Hl. unfold ret. f_equal. f_equal.
    unfold median_axis0. rewrite Hoff1. apply map_ext_in.
    intros j Hj. apply in_seq in Hj. rewrite Hcol by lia. f_equal. f_equal.
    pose proof (standardized_upto_column _ _ _ _ j Hb) as Hc.
    rewrite Hc by lia.
    by assert ((j <? n) = true) as -> by (apply Nat.ltb_lt; lia).
  - intros l x Hl. by apply lookup_app_l_Some.
Qed.

Lemma get_average_point_spread_other (R : loc) arg h :
  arg ≠ "diag" → arg ≠ "max" →
  get_average_point_spread R arg h = (Raise (ValueError BadArgument), h).
Proof.
  intros Hd Hm. unfold get_average_point_spread, global_name.
  rewrite bound_standardize_columns. unfold bind at 1.
  by rewrite standardize_columns_other.
Qed.

(** [get_average_point_spread(R, arg)] on a square n-by-n matrix, n >= 1,
    whose standardized off-diagonal entries differ from the sentinel of
    [remove_diagonal]: a bad [arg] raises ValueError; otherwise entry j of
    the result is the median of column j of [R], divided by the column's
    maximum ("max") or diagonal entry ("diag"), without its diagonal entry.
    For a 1-by-1 matrix that is the median of no number, nan.  The arrays of
    the heap are left as they were. *)
Theorem get_average_point_spread_spec (R : loc) (arg : string) h a n :
  h !! R = Some a → shape0 a = n → shape1 a = n → 1 ≤ n →
  feqb (sentinel (F:=F)) sentinel = true →
  (∀ i j, i < n → j < n → i ≠ j →
     feqb (fdiv (item a i j)
             (if String.eqb arg "diag" then col_diag a j else col_max a j))
       sentinel = false) →
  ∃ res h',
    get_average_point_spread R arg h = (res, h')
    ∧ (∀ l x, h !! l = Some x → h' !! l = Some x)
    ∧ (arg ≠ "diag" → arg ≠ "max" → res = Raise (ValueError BadArgument))
    ∧ (arg = "diag" ∨ arg = "max" →
         res = Ok (map (fun j =>
                          np_median_nan
                            (without j
                               (div_each (column a j)
                                  (if String.eqb arg "diag" then col_diag a j
                                   else col_max a j))))
                     (seq 0 n)))
    ∧ (arg = "diag" ∨ arg = "max" → n = 1 →
         res = Ok [fdiv (of_Z 0) (of_Z 0)]).
Proof.
  intros HR H0 H1 Hn Hs Hoff.
  assert (∀ den, n = 1 →
            map (fun j => np_median_nan (without j (div_each (column a j) (den j))))
              (seq 0 n) = [fdiv (of_Z 0) (of_Z 0)]) as Hone.
  { intros den ->. unfold column. rewrite H0. reflexivity. }
  destruct (decide (arg = "max")) as [->|Hmax];
    [|destruct (decide (arg = "diag")) as [->|Hdiag]].
  - destruct (get_average_point_spread_square R h a n) as (h' & Hrun & Hfr);
      [done..|].
    do 2 eexists. split; [exact Hrun|]. split; [done|].
    split; [done|]. split; [done|]. intros _ Hn1. by rewrite Hone.
  - destruct (get_average_point_spread_square_diag R h a n) as (h' & Hrun & Hfr);
      [done..|].
    do 2 eexists. split; [exact Hrun|]. split; [done|].
    split; [done|]. split; [done|]. intros _ Hn1. by rewrite Hone.
  - rewrite get_average_point_spread_other by done.
    do 2 eexists. split; [done|]. split; [done|]. split; [done|].
    split; by intros [?|?].
Qed.

End PointSpreadFacts.

Section ExactStandardize.
Open Scope Q_scope.
Implicit Types (h : heap Q) (a b : ndarray Q).

Lemma Q_fold_max (v : list Q) : ∀ x,
  x <= fold_left fmaximum v x
  ∧ Forall (fun y => y <= fold_left fmaximum v x) v
  ∧ (fold_left fmaximum v x = x ∨ In (fold_left fmaximum v x) v).
Proof.
  induction v as [|y v IH]; intros x; cbn [fold_left].
  - split; [lra|]. split; [done|]. by left.
  - change (fmaximum x y) with (if Qle_bool x y then y else x).
    destruct (Qle_bool x y) eqn:E.
    + destruct (IH y) as (Hge & Hall & Hin).
      apply Qle_bool_iff in E. split; [by eapply Qle_trans|]. split.
      * by apply Forall_cons_2.
      * right. destruct Hin as [Heq|Hin]; [left; by rewrite Heq|by right].
    + destruct (IH x) as (Hge & Hall & Hin).
      assert (y <= x).
      { destruct (Qlt_le_dec y x) as [Hlt|Hle]; [by apply Qlt_le_weak|].
        apply Qle_bool_iff in Hle. congruence. }
      split; [done|]. split.
      * apply Forall_cons_2; [by eapply Qle_trans|done].
      * destruct Hin as [Heq|Hin]; [by left|right; by right].
Qed.

Lemma col_max_ge a i j :
  (i < shape0 a)%nat → item a i j <= col_max a j.
Proof.
  intros Hi. unfold col_max, maximum_of.
  pose proof (column_lookup a j i Hi) as Hl.
  destruct (column a j) as [|x v] eqn:Ec; [done|]. simpl.
  destruct (Q_fold_max v x) as (Hge & Hall & _).
  destruct i as [|i]; simpl in Hl.
  - by injection Hl as <-.
  - rewrite Forall_forall in Hall. apply Hall.
    by eapply list_elem_of_lookup_2.
Qed.

Lemma col_max_attained a j :
  (0 < shape0 a)%nat → ∃ i, (i < shape0 a)%nat ∧ col_max a j = item a i j.
Proof.
  intros Hn. unfold col_max, maximum_of.
  pose proof (column_length a j) as Hlen.
  destruct (column a j) as [|x v] eqn:Ec; [simpl in Hlen; lia|].
  cbn [from_option id].
  destruct (Q_fold_max v x) as (_ & _ & [->|Hin]).
  - exists 0%nat. split; [done|].
    pose proof (column_lookup a j 0 Hn) as Hl. rewrite Ec in Hl.
    by injection Hl.
  - apply list_elem_of_In, list_elem_of_lookup_1 in Hin as [i Hi].
    assert (S i < shape0 a)%nat as Hlt.
    { apply lookup_lt_Some in Hi. simpl in Hlen. lia. }
    exists (S i). split; [done|].
    pose proof (column_lookup a j (S i) Hlt) as Hl. rewrite Ec in Hl.
    simpl in Hl. congruence.
Qed.

(** A matrix standardized by positive column maxima: no entry above 1, and
    1 as the maximum of every column. *)
Lemma standardized_max_unit a b :
  (0 < shape0 a)%nat →
  (∀ j, (j < shape1 a)%nat → 0 < col_max a j) →
  standardized_upto (col_max a) a (shape1 a) b →
  (∀ i j, (i < shape0 a)%nat → (j < shape1 a)%nat → item b i j <= 1)
  ∧ (∀ j, (j < shape1 a)%nat → col_max b j == 1).
Proof.
  intros Hn Hpos (H0 & H1 & Hitem).
  assert (∀ i j, (i < shape0 a)%nat → (j < shape1 a)%nat →
            item b i j = item a i j / col_max a j) as Hb.
  { intros i j Hi Hj. rewrite Hitem by done.
    by apply Nat.ltb_lt in Hj as ->. }
  assert (∀ i j, (i < shape0 a)%nat → (j < shape1 a)%nat → item b i j <= 1)
    as Hle.
  { intros i j Hi Hj. rewrite Hb by done.
    apply Qle_shift_div_r; [by apply Hpos|].
    rewrite Qmult_1_l. by apply col_max_ge. }
  split; [done|]. intros j Hj. apply Qle_antisym.
  - destruct (col_max_attained b j) as (i & Hi & ->); [lia|].
    apply Hle; lia.
  - destruct (col_max_attained a j Hn) as (i & Hi & Htop).
    assert (item b i j == 1) as <-.
    { rewrite Hb by done. rewrite <- Htop. field.
      specialize (Hpos j Hj). lra. }
    apply col_max_ge. lia.
Qed.


(** On exact numbers: [standardize_columns(R, 'max')] of a matrix with at
    least one row and positive column maxima returns a matrix of the same
    shape with no entry above 1 and 1 as the maximum of every column. *)
Theorem standardize_columns_max_unit (R : loc) h a :
  h !! R = Some a → (0 < shape0 a)%nat →
  (∀ j, (j < shape1 a)%nat → 0 < col_max a j) →
  ∃ R_std h' b,
    standardize_columns R "max" h = (Ok R_std, h') ∧ h' !! R_std = Some b
    ∧ shape0 b = shape0 a ∧ shape1 b = shape1 a
    ∧ (∀ i j, (i < shape0 a)%nat → (j < shape1 a)%nat → item b i j <= 1)
    ∧ (∀ j, (j < shape1 a)%nat → col_max b j == 1).
Proof.
  intros HR Hn Hpos.
  destruct (standardize_columns_max R h a) as (b & Hstd & Hb); [done|by left|].
  destruct (standardized_max_unit a b Hn Hpos Hb) as [Hle Hmax].
  exists (length h), (h ++ [b]), b. split; [done|].
  split; [apply lookup_fresh|]. by destruct Hb as (? & ? & _).
Qed.

(** On exact numbers: standardizing by the column maxima a second time
    changes nothing, entry by entry. *)
Theorem standardize_columns_max_idempotent (R : loc) h a :
  h !! R = Some a → (0 < shape0 a)%nat →
  (∀ j, (j < shape1 a)%nat → 0 < col_max a j) →
  ∃ R1 h1 b R2 h2 c,
    standardize_columns R "max" h = (Ok R1, h1) ∧ h1 !! R1 = Some b
    ∧ standardize_columns R1 "max" h1 = (Ok R2, h2) ∧ h2 !! R2 = Some c
    ∧ shape0 c = shape0 a ∧ shape1 c = shape1 a
    ∧ ∀ i j, (i < shape0 a)%nat → (j < shape1 a)%nat →
        item c i j == item b i j.
Proof.
  intros HR Hn Hpos.
  destruct (standardize_columns_max R h a) as (b & Hstd & Hb); [done|by left|].
  destruct (standardized_max_unit a b Hn Hpos Hb) as [Hle Hmax].
  pose proof Hb as (Hb0 & Hb1 & _).
  destruct (standardize_columns_max (length h) (h ++ [b]) b)
    as (c & Hstd2 & Hc); [apply lookup_fresh|left; lia|].
  exists (length h), (h ++ [b]), b, (length (h ++ [b])), ((h ++ [b]) ++ [c]), c.
  split; [done|]. split; [apply lookup_fresh|]. split; [done|].
  split; [apply lookup_fresh|].
  destruct Hc as (Hc0 & Hc1 & Hitem).
  split; [lia|]. split; [lia|]. intros i j Hi Hj.
  rewrite Hitem by lia.
  assert ((j <? shape1 b)%nat = true) as -> by (apply Nat.ltb_lt; lia).
  change (item b i j / col_max b j == item b i j).
  rewrite (Hmax j Hj). field.
Qed.

Lemma Q_no_nan (v : list Q) : existsb is_nan v = false.
Proof.
  induction v as [|x v IH]; [done|]. cbn [existsb]. rewrite IH.
  unfold is_nan. cbn [feqb Q_scalar].
  by rewrite (proj2 (Qeq_bool_iff x x) (Qeq_refl x)).
Qed.

(** On exact numbers: the point spread of a square n-by-n matrix, n >= 2,
    with positive column maxima is returned, has one entry per column, and
    none of them is above 1; none is below 0 when no entry of [R] is. *)
Theorem get_average_point_spread_unit (R : loc) h a n :
  h !! R = Some a → shape0 a = n → shape1 a = n → (2 ≤ n)%nat →
  (∀ j, (j < n)%nat → 0 < col_max a j) →
  ∃ acm h',
    get_average_point_spread R "max" h = (Ok acm, h')
    ∧ length acm = n
    ∧ (∀ j m, acm !! j = Some m → m <= 1)
    ∧ ((∀ i j, (i < n)%nat → (j < n)%nat → 0 <= item a i j) →
       ∀ j m, acm !! j = Some m → 0 <= m).
Proof.
  intros HR H0 H1 Hn Hpos.
  assert (∀ i j, (i < n)%nat → (j < n)%nat →
            item a i j / col_max a j <= 1) as Hle.
  { intros i j Hi Hj. apply Qle_shift_div_r; [by apply Hpos|].
    rewrite Qmult_1_l. apply col_max_ge. lia. }
  destruct (get_average_point_spread_square R h a n) as (h' & Hrun & _);
    [done|done|done|lia|reflexivity| |].
  { intros i j Hi Hj _. apply Qeq_bool_false. intros E.
    specialize (Hle i j Hi Hj). cbn [fdiv Q_scalar] in E. rewrite E in Hle.
    revert Hle. by vm_compute. }
  do 2 eexists. split; [exact Hrun|].
  split; [by rewrite length_map, length_seq|].
  assert (∀ (P : Q → Prop) j m,
            (∀ x y, P x → P y → P ((x + y) / 2)) →
            (∀ i, (i < n)%nat → P (item a i j / col_max a j)) →
            map (fun j => np_median_nan
                            (without j (div_each (column a j) (col_max a j))))
              (seq 0 n) !! j = Some m →
            P m) as Hmed.
  { intros P j m Hmean Hin Hj. rewrite list_lookup_fmap in Hj.
    destruct (seq 0 n !! j) as [j'|] eqn:Ej; [|done].
    apply lookup_seq in Ej as [-> Hjn]. simpl in Hj. injection Hj as <-.
    unfold np_median_nan. rewrite Q_no_nan.
    apply np_median_closed; [|exact Hmean|].
    - intros E. apply (f_equal length) in E. revert E.
      rewrite without_length; unfold div_each;
        rewrite length_map, column_length; simpl; lia.
    - unfold without. apply Forall_app. split.
      + apply Forall_take, Forall_forall. intros x Hx.
        unfold div_each, column in Hx. rewrite <- list_fmap_compose in Hx.
        apply list_elem_of_fmap in Hx as (i & -> & Hi).
        apply elem_of_seq in Hi. apply Hin. lia.
      + apply Forall_drop, Forall_forall. intros x Hx.
        unfold div_each, column in Hx. rewrite <- list_fmap_compose in Hx.
        apply list_elem_of_fmap in Hx as (i & -> & Hi).
        apply elem_of_seq in Hi. apply Hin. lia. }
  split.
  - intros j m Hj.
    pose proof (lookup_lt_Some _ _ _ Hj) as Hlt.
    rewrite length_map, length_seq in Hlt.
    apply (Hmed (fun x => x <= 1) j m); [|by intros; apply Hle|done].
    intros x y Hx Hy. apply Qle_shift_div_r; lra.
  - intros Hnonneg j m Hj.
    pose proof (lookup_lt_Some _ _ _ Hj) as Hlt.
    rewrite length_map, length_seq in Hlt.
    apply (Hmed (fun x => 0 <= x) j m); [| |done].
    + intros x y Hx Hy. apply Qle_shift_div_l; lra.
    + intros i Hi. apply Qle_shift_div_l; [by apply Hpos|].
      rewrite Qmult_0_l. by apply Hnonneg.
Qed.

End ExactStandardize.

Lemma get_average_point_spread_spec_witness :
  ∃ res h',
    get_average_point_spread 0 "max" [two_by_two] = (res, h')
    ∧ (∀ l x, [two_by_two] !! l = Some x → h' !! l = Some x)
    ∧ ("max" ≠ "diag" → "max" ≠ "max" → res = Raise (ValueError BadArgument))
    ∧ ("max" = "diag" ∨ "max" = "max" →
         res = Ok (map (fun j =>
                          np_median_nan
                            (without j
                               (div_each (column two_by_two j)
                                  (if String.eqb "max" "diag"
                                   then col_diag two_by_two j
                                   else col_max two_by_two j))))
                     (seq 0 2)))
    ∧ ("max" = "diag" ∨ "max" = "max" → 2 = 1 →
         res = Ok [fdiv (of_Z 0) (of_Z 0)]).
Proof.
  apply (get_average_point_spread_spec 0 "max" [two_by_two] two_by_two 2);
    [reflexivity|reflexivity|reflexivity|lia|reflexivity|].
  intros i j Hi Hj Hij.
  destruct i as [|[|i]], j as [|[|j]]; try lia; reflexivity.
Defined.

Lemma standardize_columns_max_unit_witness :
  ∃ R_std h' b,
    standardize_columns 0 "max" [two_by_two] = (Ok R_std, h')
    ∧ h' !! R_std = Some b
    ∧ shape0 b = shape0 two_by_two ∧ shape1 b = shape1 two_by_two
    ∧ (∀ i j, i < shape0 two_by_two → j < shape1 two_by_two →
         (item b i j <= 1)%Q)
    ∧ (∀ j, j < shape1 two_by_two → (col_max b j == 1)%Q).
Proof.
  apply (standardize_columns_max_unit 0 [two_by_two] two_by_two);
    [reflexivity|simpl; lia|].
  intros j Hj. destruct j as [|[|j]]; [reflexivity|reflexivity|simpl in Hj; lia].
Defined.

Lemma standardize_columns_max_idempotent_witness :
  ∃ R1 h1 b R2 h2 c,
    standardize_columns 0 "max" [two_by_two] = (Ok R1, h1) ∧ h1 !! R1 = Some b
    ∧ standardize_columns R1 "max" h1 = (Ok R2, h2) ∧ h2 !! R2 = Some c
    ∧ shape0 c = shape0 two_by_two ∧ shape1 c = shape1 two_by_two
    ∧ ∀ i j, i < shape0 two_by_two → j < shape1 two_by_two →
        (item c i j == item b i j)%Q.
Proof.
  apply (standardize_columns_max_idempotent 0 [two_by_two] two_by_two);
    [reflexivity|simpl; lia|].
  intros j Hj. destruct j as [|[|j]]; [reflexivity|reflexivity|simpl in Hj; lia].
Defined.

Lemma get_average_point_spread_unit_witness :
  ∃ acm h',
    get_average_point_spread 0 "max" [two_by_two] = (Ok acm, h')
    ∧ length acm = 2
    ∧ (∀ j m, acm !! j = Some m → (m <= 1)%Q)
    ∧ ((∀ i j, i < 2 → j < 2 → (0 <= item two_by_two i j)%Q) →
       ∀ j m, acm !! j = Some m → (0 <= m)%Q).
Proof.
  apply (get_average_point_spread_unit 0 [two_by_two] two_by_two 2);
    [reflexivity|reflexivity|reflexivity|lia|].
  intros j Hj. destruct j as [|[|j]]; [reflexivity|reflexivity|lia].
Defined.

Section PrecisionRecallFacts.
Context {F : Type} `{Scalar F}.
Implicit Types (h : heap F) (a b : ndarray F).

Lemma getitem_from_end_at (A : loc) h a i (j : Z) :
  h !! A = Some a → i < shape0 a → (-1 ≤ j < Z.of_nat (shape1 a))%Z →
  0 < shape1 a →
  getitem_from_end A i j h
  = (Ok (item a i (if (j <? 0)%Z then shape1 a - 1 else Z.to_nat j)), h).
Proof.
  intros HA Hi Hj Hpos. unfold getitem_from_end, bind, load. rewrite HA.
  apply Nat.ltb_lt in Hi as ->.
  destruct (Z.ltb_spec j 0).
  - assert ((0 <=? j + Z.of_nat (shape1 a))%Z = true) as ->
      by (apply Z.leb_le; lia).
    assert ((j + Z.of_nat (shape1 a) <? Z.of_nat (shape1 a))%Z = true) as ->
      by (apply Z.ltb_lt; lia).
    simpl. unfold ret. do 3 f_equal. lia.
  - assert ((0 <=? j)%Z = true) as -> by (apply Z.leb_le; lia).
    assert ((j <? Z.of_nat (shape1 a))%Z = true) as -> by (apply Z.ltb_lt; lia).
    done.
Qed.

Lemma prc_precisions_length (te off : list F) prev Ts :
  length (prc_precisions te off prev Ts) = length Ts.
Proof.
  revert prev. induction Ts as [|T Ts IH]; intros prev; [done|].
  simpl. by rewrite IH.
Qed.

Lemma prc_loop (PRC : loc) (te off : list F) (Ts : list F) :
  ∀ s h prc,
  h !! PRC = Some prc → shape0 prc = 2 → s + length Ts ≤ shape1 prc →
  ∃ prc',
    for_each (zip (seq s (length Ts)) Ts) (prc_step PRC te off) tt h
    = (Ok tt, <[PRC := prc']> h)
    ∧ shape0 prc' = 2 ∧ shape1 prc' = shape1 prc
    ∧ (∀ i c, c < s ∨ s + length Ts ≤ c → item prc' i c = item prc i c)
    ∧ (∀ k T, Ts !! k = Some T → item prc' 0 (s + k) = roc_TPR te T)
    ∧ (∀ k, k < length Ts →
         prc_precisions te off
           (item prc 1 (if s =? 0 then shape1 prc - 1 else s - 1)) Ts !! k
         = Some (item prc' 1 (s + k))).
Proof.
  induction Ts as [|T Ts IH]; intros s h prc HPRC H0 Hlen.
  - exists prc. cbn [length seq zip zip_with for_each].
    rewrite list_insert_id by done.
    split; [done|]. split; [done|]. split; [done|]. split; [done|].
    split; [by intros k T; rewrite lookup_nil|]. intros k Hk. simpl in Hk. lia.
  - simpl in Hlen.
    set (prev := item prc 1 (if s =? 0 then shape1 prc - 1 else s - 1)).
    set (stored := if is_nan (prc_PPV te off T) then prev
                   else prc_PPV te off T).
    set (prc1 := NdArray (shape0 prc) (shape1 prc)
                   (fun i' j' => if (i' =? 0) && (j' =? s) then roc_TPR te T
                                 else item prc i' j')).
    set (prc2 := NdArray (shape0 prc1) (shape1 prc1)
                   (fun i' j' => if (i' =? 1) && (j' =? s) then stored
                                 else item prc1 i' j')).
    destruct (IH (S s) (<[PRC := prc2]> h) prc2)
      as (prc' & Hrun & H0' & H1' & Hold & Hrow0 & Hrow1).
    { apply list_lookup_insert_eq. by eapply lookup_lt_Some. }
    { done. }
    { simpl. lia. }
    exists prc'. split; [|split; [done|split; [done|split; [|split]]]].
    + cbn [length seq zip zip_with for_each]. unfold bind at 1.
      unfold prc_step at 1. cbn [fst snd]. unfold bind at 1.
      assert ((if is_nan (prc_PPV te off T)
               then getitem_from_end PRC 1 (Z.of_nat s - 1)
               else ret (prc_PPV te off T)) h = (Ok stored, h)) as ->.
      { unfold stored. destruct (is_nan (prc_PPV te off T)); [|done].
        rewrite (getitem_from_end_at PRC h prc 1) by (done || lia).
        unfold prev. do 3 f_equal.
        destruct (Nat.eqb_spec s 0) as [->|Hs]; [done|].
        destruct (Z.ltb_spec (Z.of_nat s - 1) 0); lia. }
      unfold bind at 1.
      rewrite (setitem_at PRC h prc 0 s) by (done || lia).
      fold prc1.
      rewrite (setitem_at PRC (<[PRC := prc1]> h) prc1 1 s);
        [|apply list_lookup_insert_eq; by eapply lookup_lt_Some
         |simpl; lia|simpl; lia].
      fold prc2. rewrite list_insert_insert_eq.
      rewrite Hrun. by rewrite list_insert_insert_eq.
    + intros i c Hc. rewrite Hold by (simpl in *; lia).
      simpl. assert ((c =? s) = false) as -> by (apply Nat.eqb_neq; simpl in *; lia).
      by rewrite !andb_false_r.
    + intros k T' Hk. destruct k as [|k].
      * injection Hk as <-. rewrite Nat.add_0_r, Hold by lia.
        simpl. by rewrite Nat.eqb_refl.
      * replace (s + S k) with (S s + k) by lia. by apply Hrow0.
    + intros k Hk. destruct k as [|k].
      * rewrite Nat.add_0_r, Hold by lia. simpl. fold prev. fold stored.
        by rewrite Nat.eqb_refl.
      * replace (s + S k) with (S s + k) by lia.
        rewrite <- Hrow1 by (simpl in Hk; lia).
        cbn [prc_precisions lookup list_lookup]. fold prev. fold stored.
        do 2 f_equal. simpl. by rewrite Nat.sub_0_r, Nat.eqb_refl.
Qed.


Lemma prc_thresholds_length : length (prc_thresholds (F:=F)) = 1000.
Proof. apply np_linspace_length. Qed.

(** [get_prc(R)] on a square n-by-n matrix, n >= 1, whose standardized
    off-diagonal entries differ from the sentinel of [remove_diagonal]: it
    returns a new array PRC of shape (2, 1000), all of whose columns are
    written.  Row 0 holds the true-positive rate TP/(TP+FN) at each of the
    1000 thresholds; row 1 holds the precision TP/(TP+FP), or, where that is
    nan, the precision stored for the threshold before; at the first threshold
    the fallback is PRC[1, -1], the last column, still 0.  The area returned is
    the absolute value of the trapezoid sum over the two rows, and the arrays of
    the heap are left as they were. *)
Theorem get_prc_spec (R : loc) h a n :
  h !! R = Some a → shape0 a = n → shape1 a = n → 1 ≤ n →
  feqb (sentinel (F:=F)) sentinel = true →
  (∀ i j, i < n → j < n → i ≠ j →
     feqb (fdiv (item a i j) (col_max a j)) sentinel = false) →
  ∃ r_max off prc h',
    get_prc R h = (Ok (length h, fabs (np_trapz (row prc 1) (row prc 0))), h')
    ∧ h' !! length h = Some prc
    ∧ (∀ l x, h !! l = Some x → h' !! l = Some x)
    ∧ standardized_upto (col_max a) a n r_max
    ∧ shape0 off = n - 1 ∧ shape1 off = n
    ∧ (∀ j, j < n → column off j = without j (column r_max j))
    ∧ shape0 prc = 2 ∧ shape1 prc = 1000
    ∧ row prc 0 = map (roc_TPR (np_diag r_max)) prc_thresholds
    ∧ row prc 1
      = prc_precisions (np_diag r_max) (items off) (of_Z 0) prc_thresholds.
Proof.
  intros HR H0 H1 Hn Hs Hoff.
  destruct (standardize_columns_max R (h ++ [prc_zeros]) a) as (b & Hstd & Hb);
    [by apply lookup_old|lia|].
  rewrite H1 in Hb. pose proof Hb as (Hb0 & Hb1 & Hbi).
  destruct (remove_diagonal_square (length (h ++ [prc_zeros]))
              ((h ++ [prc_zeros]) ++ [b]) b n)
    as (a' & off & Hrm & Hoff0 & Hoff1 & Hcol);
    [apply lookup_fresh|lia|lia|done|done| |].
  { intros i j Hi Hj Hij. rewrite Hbi by lia.
    apply Nat.ltb_lt in Hj as Hj'. rewrite Hj'. by apply Hoff. }
  set (h2 := ((h ++ [prc_zeros]) ++ [b]) ++ [a'; off]) in *.
  assert (h2 !! length h = Some prc_zeros) as HPRC.
  { unfold h2. by apply lookup_app_l_Some, lookup_old, lookup_fresh. }
  assert (h2 !! S (length ((h ++ [prc_zeros]) ++ [b])) = Some off) as Hoff_l.
  { unfold h2.
    replace (S (length ((h ++ [prc_zeros]) ++ [b])))
      with (length (((h ++ [prc_zeros]) ++ [b]) ++ [a']))
      by (rewrite !length_app; simpl; lia).
    change (((h ++ [prc_zeros]) ++ [b]) ++ [a'; off])
      with (((h ++ [prc_zeros]) ++ [b]) ++ [a'] ++ [off]).
    rewrite app_assoc. apply lookup_fresh. }
  destruct (prc_loop (length h) (np_diag b) (items off) prc_thresholds
              0 h2 prc_zeros HPRC)
    as (prc & Hloop & Hp0 & Hp1 & _ & Hrow0 & Hrow1).
  { done. }
  { rewrite prc_thresholds_length. done. }
  exists b, off, prc, (<[length h := prc]> h2).
  assert (length h < length h2) as Hlt by (by eapply lookup_lt_Some).
  split.
  { unfold get_prc, global_name.
    rewrite bound_standardize_columns, bound_remove_diagonal.
    unfold bind at 1. unfold np_zeros, alloc at 1.
    fold (prc_zeros (F:=F)). unfold bind at 1. rewrite Hstd.
    unfold bind at 1, load at 1. rewrite lookup_fresh.
    unfold bind at 1. rewrite Hrm. fold h2.
    unfold bind at 1, load at 1. rewrite Hoff_l.
    unfold bind at 1. fold (prc_thresholds (F:=F)). unfold enumerate.
    rewrite Hloop.
    unfold bind at 1, load at 1.
    rewrite list_lookup_insert_eq by done.
    done. }
  split; [by apply list_lookup_insert_eq|].
  split.
  { intros l x Hl. assert (l < length h) by (by eapply lookup_lt_Some).
    rewrite list_lookup_insert_ne by lia.
    unfold h2. by apply lookup_app_l_Some, lookup_old, lookup_old. }
  do 4 (split; [done|]). split; [done|].
  change (shape1 prc_zeros) with 1000 in Hp1. split; [done|].
  split.
  - unfold row. rewrite Hp1. apply list_eq. intros c.
    rewrite !list_lookup_fmap.
    destruct (decide (c < 1000)) as [Hc|Hc].
    + rewrite lookup_seq_lt by done.
      destruct (lookup_lt_is_Some_2 (prc_thresholds (F:=F)) c) as [T HT];
        [by rewrite prc_thresholds_length|].
      rewrite HT. cbn [fmap option_fmap option_map]. f_equal.
      by apply (Hrow0 c T).
    + rewrite lookup_seq_ge by lia.
      rewrite lookup_ge_None_2; [done|]. rewrite prc_thresholds_length. lia.
  - unfold row. rewrite Hp1. apply list_eq. intros c.
    rewrite list_lookup_fmap.
    destruct (decide (c < 1000)) as [Hc|Hc].
    + rewrite lookup_seq_lt by done.
      specialize (Hrow1 c). rewrite prc_thresholds_length in Hrow1.
      assert (∀ x, item (prc_zeros (F:=F)) 1 x = of_Z 0) as Hz by done.
      rewrite Hz in Hrow1. rewrite Hrow1 by done. done.
    + rewrite lookup_seq_ge by lia. symmetry.
      apply lookup_ge_None_2.
      rewrite prc_precisions_length, prc_thresholds_length. lia.
Qed.

End PrecisionRecallFacts.

Lemma get_prc_spec_witness :
  ∃ r_max off prc h',
    get_prc 0 [two_by_two]
    = (Ok (length [two_by_two], fabs (np_trapz (row prc 1) (row prc 0))), h')
    ∧ h' !! length [two_by_two] = Some prc
    ∧ (∀ l x, [two_by_two] !! l = Some x → h' !! l = Some x)
    ∧ standardized_upto (col_max two_by_two) two_by_two 2 r_max
    ∧ shape0 off = 2 - 1 ∧ shape1 off = 2
    ∧ (∀ j, j < 2 → column off j = without j (column r_max j))
    ∧ shape0 prc = 2 ∧ shape1 prc = 1000
    ∧ row prc 0 = map (roc_TPR (np_diag r_max)) prc_thresholds
    ∧ row prc 1
      = prc_precisions (np_diag r_max) (items off) (of_Z 0) prc_thresholds.
Proof.
  apply (get_prc_spec 0 [two_by_two] two_by_two 2);
    [reflexivity|reflexivity|reflexivity|lia|reflexivity|].
  intros i j Hi Hj Hij.
  destruct i as [|[|i]], j as [|[|j]]; try lia; reflexivity.
Defined.

(** ** get_r_master: the numbers of jobs for which it is right *)

Section RMasterGroups.
Context {F : Type} `{Scalar F}.
Variable get_R : string → F → list Label → result (cmatrix F * cmatrix F).
Variable vertno : nat.

Lemma rmap_app_Ok {A B} (f : A → result B) (l1 l2 : list A) ys :
  rmap f (l1 ++ l2) = Ok ys →
  ∃ ys1 ys2, rmap f l1 = Ok ys1 ∧ rmap f l2 = Ok ys2 ∧ ys = ys1 ++ ys2.
Proof.
  revert ys. induction l1 as [|x l1 IH]; intros ys Hys.
  - by exists [], ys.
  - apply rmap_cons_Ok in Hys as (y & ys' & Hx & Hrest & ->).
    destruct (IH ys' Hrest) as (ys1 & ys2 & H1 & H2 & ->).
    exists (y :: ys1), ys2. cbn. by rewrite Hx, H1.
Qed.

Lemma rmap_pairs inv_method (act : list Label) (group : list F) :
  rmap (fun inp : F * list Label => get_R inv_method inp.1 inp.2)
    (flat_map (fun SNR => [(SNR, act)]) group)
  = rmap (fun SNR => get_R inv_method SNR act) group.
Proof.
  induction group as [|SNR group IH]; [done|].
  cbn [flat_map app rmap fst snd]. by rewrite IH.
Qed.

Lemma filed_shift (out : list (cmatrix F * cmatrix F)) : ∀ c base tensors,
  filed out c base tensors = filed out (c + base) 0 tensors.
Proof.
  induction out as [|o out IH]; intros c base tensors; [done|].
  cbn [filed]. rewrite Nat.add_0_r. rewrite IH.
  by replace (S c + base) with (S (c + base)) by lia.
Qed.

(** Filing a group into the slots that follow the ones already filled. *)
Lemma filed_fills_next (outs : list (cmatrix F * cmatrix F)) :
  ∀ (pre_e pre_v mid_e mid_v rest_e rest_v : list (cmatrix F)),
  length pre_v = length pre_e →
  length mid_e = length outs → length mid_v = length outs →
  filed outs (length pre_e) 0
    (pre_e ++ mid_e ++ rest_e, pre_v ++ mid_v ++ rest_v)
  = (pre_e ++ map fst outs ++ rest_e, pre_v ++ map snd outs ++ rest_v).
Proof.
  induction outs as [|o outs IH];
    intros pre_e pre_v mid_e mid_v rest_e rest_v Hp He Hv.
  - destruct mid_e, mid_v; done.
  - destruct mid_e as [|ze mid_e], mid_v as [|zv mid_v]; try done.
    cbn [filed fst snd map app]. rewrite Nat.add_0_r.
    rewrite (insert_middle pre_e), (insert_middle pre_v) by done.
    replace (pre_e ++ o.1 :: mid_e ++ rest_e)
      with ((pre_e ++ [o.1]) ++ mid_e ++ rest_e) by (by rewrite <- app_assoc).
    replace (pre_v ++ o.2 :: mid_v ++ rest_v)
      with ((pre_v ++ [o.2]) ++ mid_v ++ rest_v) by (by rewrite <- app_assoc).
    replace (S (length pre_e)) with (length (pre_e ++ [o.1]))
      by (rewrite length_app; simpl; lia).
    rewrite IH; rewrite ?length_app; simpl in *; try lia.
    by rewrite <- !app_assoc.
Qed.

(** Groups of one length: every output lands in the slot of its SNR. *)
Lemma run_groups_even inv_method (n_labels : nat) (act : list Label) (n : nat) :
  ∀ (gs : list (list F)) (g0 : nat) outs
    (pre_e pre_v rest_e rest_v : list (cmatrix F)),
  Forall (fun g => length g = n) gs →
  rmap (fun SNR => get_R inv_method SNR act) (concat gs) = Ok outs →
  Forall (well_shaped vertno n_labels act) outs →
  length pre_e = g0 * n → length pre_v = g0 * n →
  length rest_e = length outs → length rest_v = length outs →
  rfor_each (zip (seq g0 (length gs)) gs)
    (group_step get_R vertno inv_method n_labels act 1)
    (pre_e ++ rest_e, pre_v ++ rest_v)
  = Ok (pre_e ++ map fst outs, pre_v ++ map snd outs).
Proof.
  induction gs as [|g gs IH];
    intros g0 outs pre_e pre_v rest_e rest_v Hgs Hout Hshape Hpe Hpv Hre Hrv.
  - injection Hout as <-. by destruct rest_e, rest_v.
  - apply Forall_cons in Hgs as [Hg Hgs].
    cbn [concat] in Hout.
    apply rmap_app_Ok in Hout as (o_g & outs' & Hog & Houts' & ->).
    apply Forall_app in Hshape as [Hsg Hshape].
    pose proof (rmap_length _ _ _ Hog) as Hlen_g.
    rewrite length_app in Hre, Hrv.
    cbn [length seq zip zip_with rfor_each].
    unfold group_step at 1. cbn [fst snd].
    change (Z.to_nat 1) with 1. rewrite array_split_1.
    change (flat_map (fun SNR => map (fun chunk => (SNR, chunk)) [act]) g)
      with (flat_map (fun SNR => [(SNR, act)]) g).
    rewrite rmap_pairs, Hog.
    cbn [rbind].
    rewrite file_group_one_chunk; cbn [fst snd];
      [|lia|done|rewrite length_app; lia|rewrite !length_app; lia].
    cbn [rbind]. rewrite filed_shift, Nat.add_0_l, Hg, <- Hpe.
    rewrite <- (take_drop (length o_g) rest_e), <- (take_drop (length o_g) rest_v).
    rewrite filed_fills_next; [|lia|rewrite length_take; lia..].
    rewrite !app_assoc.
    rewrite (IH (S g0) outs'); try done.
    + by rewrite !map_app, !app_assoc.
    + rewrite length_app, length_map. lia.
    + rewrite length_app, length_map. lia.
    + rewrite length_drop. lia.
    + rewrite length_drop. lia.
Qed.

Lemma chunks_concat {A} (n : nat) : ∀ (q : nat) (s : nat) (l : list A),
  s + q * n ≤ length l →
  concat (map (fun g => take n (drop (g * n) l)) (seq 0 q))
  = take (q * n) l.
Proof.
  induction q as [|q IH]; intros s l Hlen; [done|].
  rewrite seq_S, map_app, concat_app, (IH s) by lia.
  cbn [map concat]. rewrite app_nil_r, Nat.add_0_l.
  replace (S q * n) with (q * n + n) by lia.
  by rewrite <- take_take_drop.
Qed.

Lemma py_slice_chunk {A} (l : list A) (n g : nat) :
  (g + 1) * n ≤ length l →
  py_slice l (Z.of_nat g * Z.of_nat n) ((Z.of_nat g + 1) * Z.of_nat n)
  = take n (drop (g * n) l).
Proof.
  intros Hlen. unfold py_slice, slice_bound.
  assert ((Z.of_nat g * Z.of_nat n <? 0)%Z = false) as -> by lia.
  assert (((Z.of_nat g + 1) * Z.of_nat n <? 0)%Z = false) as -> by lia.
  replace (Z.to_nat (Z.min (Z.of_nat g * Z.of_nat n) (Z.of_nat (length l))))
    with (g * n) by lia.
  replace (Z.to_nat (Z.min ((Z.of_nat g + 1) * Z.of_nat n) (Z.of_nat (length l))))
    with ((g + 1) * n) by lia.
  by replace ((g + 1) * n - g * n) with n by lia.
Qed.


(** The groups when the number of jobs divides the number of SNR values, or
    lies between it and its double: all of one length, and together the SNR
    values in their order. *)
Lemma even_groups (SNRs : list F) (n_jobs : Z) :
  (1 ≤ n_jobs)%Z →
  (Z.of_nat (length SNRs) mod n_jobs = 0
   ∨ Z.of_nat (length SNRs) < n_jobs < 2 * Z.of_nat (length SNRs))%Z →
  ∃ n gs,
    SNR_iterations_of SNRs n_jobs = gs
    ∧ Forall (fun g => length g = n) gs ∧ concat gs = SNRs
    ∧ (gs = [] ∨ activation_jobs_of n_jobs (Z.of_nat (length SNRs)) = 1%Z).
Proof.
  intros Hn Hcase. unfold SNR_iterations_of, SNR_njobs_of, activation_jobs_of.
  set (L := Z.of_nat (length SNRs)) in *.
  destruct (decide (L = 0%Z)) as [HL|HL].
  - exists 0, []. destruct SNRs; [|simpl in *; lia]. rewrite HL.
    assert ((n_jobs <? 2 * 0)%Z = false) as -> by lia.
    split; [done|]. split; [done|]. split; [done|]. by left.
  - assert ((n_jobs <? 2 * L)%Z = true) as ->.
    { apply Z.ltb_lt. destruct Hcase as [Hmod|?]; [|lia].
      destruct (Z.lt_ge_cases L n_jobs) as [Hlt|?]; [|lia].
      rewrite Z.mod_small in Hmod by lia. lia. }
    unfold np_floor_divide, np_mod.
    assert ((n_jobs =? 0)%Z = false) as -> by lia.
    destruct Hcase as [Hmod|Hbetween].
    + rewrite Hmod. cbn [Z.eqb]. rewrite app_nil_r.
      assert (n_jobs ≤ L)%Z as Hle.
      { destruct (Z.lt_ge_cases L n_jobs) as [Hlt|?]; [|lia].
        rewrite Z.mod_small in Hmod by lia. lia. }
      set (n := Z.to_nat n_jobs). set (q := Z.to_nat (L / n_jobs)).
      assert (q * n = length SNRs) as Hqn.
      { pose proof (Z.div_mod L n_jobs ltac:(lia)) as Hdm.
        rewrite Hmod in Hdm. unfold q, n.
        assert (0 ≤ L / n_jobs)%Z by (apply Z.div_pos; lia). nia. }
      exists n, (map (fun g => take n (drop (g * n) SNRs)) (seq 0 q)).
      split; [|split; [|split; [|by right]]].
      * unfold py_range. fold q. rewrite map_map. apply map_ext_in.
        intros g Hg. apply in_seq in Hg.
        replace n_jobs with (Z.of_nat n) by (unfold n; lia).
        apply py_slice_chunk. nia.
      * apply Forall_forall. intros g Hg.
        apply list_elem_of_fmap in Hg as (i & -> & Hi).
        apply elem_of_seq in Hi. rewrite length_take, length_drop. nia.
      * rewrite (chunks_concat n q 0) by lia. rewrite Hqn. apply firstn_all.
    + rewrite Z.div_small, Z.mod_small by lia.
      assert ((L =? 0)%Z = false) as -> by lia.
      change (py_range 0) with (@nil Z). cbn [map app].
      exists (length SNRs), [SNRs]. split; [|split; [|split; [|by right]]].
      * f_equal. unfold py_slice, slice_bound. fold L.
        assert ((n_jobs * 0 <? 0)%Z = false) as -> by lia.
        assert ((L <? 0)%Z = false) as -> by lia.
        replace (Z.to_nat (Z.min (n_jobs * 0) L)) with 0 by lia.
        replace (Z.to_nat (Z.min L L)) with (length SNRs) by lia.
        rewrite Nat.sub_0_r. apply firstn_all.
      * by apply Forall_singleton.
      * cbn. apply app_nil_r.
Qed.

(** The loop over the inverse methods, given what the groups of each method
    leave in the tensors. *)
Lemma methods_loop (SNRs : list F) (labels act : list Label) (n_jobs : Z)
    (result_of : string → list (cmatrix F) * list (cmatrix F))
    (inv_methods : list string) :
  (∀ m, m ∈ inv_methods →
     run_groups get_R vertno m (length labels) act
       (activation_jobs_of n_jobs (Z.of_nat (length SNRs)))
       (SNR_iterations_of SNRs n_jobs)
       (replicate (length SNRs) (zeros_cmatrix (length labels) (length act)),
        replicate (length SNRs) (zeros_cmatrix vertno (length act)))
     = Ok (result_of m)) →
  ∀ r_master r_master_vl state_act,
  default labels state_act = act →
  ∃ r_master' r_master_vl' state_act',
    rfor_each inv_methods (method_step get_R vertno SNRs labels n_jobs)
      (r_master, r_master_vl, state_act)
    = Ok (r_master', r_master_vl', state_act')
    ∧ ∀ m,
        (m ∈ inv_methods →
           r_master' !! m = Some (Tensor (result_of m).1)
           ∧ r_master_vl' !! m = Some (Tensor (result_of m).2))
        ∧ (m ∉ inv_methods →
             r_master' !! m = r_master !! m
             ∧ r_master_vl' !! m = r_master_vl !! m).
Proof.
  induction inv_methods as [|m0 ms IH]; intros Hruns rm rv st Hst.
  - exists rm, rv, st. split; [done|]. intros m. split; [|done].
    by intros ?%elem_of_nil.
  - destruct (IH (fun m Hm => Hruns m (list_elem_of_further _ _ _ Hm))
                (<[m0 := Tensor (result_of m0).1]> rm)
                (<[m0 := Tensor (result_of m0).2]> rv) (Some act))
      as (rm' & rv' & st' & Hrun & Hlook); [done|].
    exists rm', rv', st'. split.
    + cbn [rfor_each]. unfold method_step at 1. cbn [fst snd]. rewrite Hst.
      rewrite (Hruns m0) by (by left).
      cbn [rbind fst snd]. exact Hrun.
    + intros m. destruct (Hlook m) as [Hin Hout]. split.
      * intros Hm.
        destruct (decide (m ∈ ms)) as [Hms|Hms]; [by apply Hin|].
        apply elem_of_cons in Hm as [->|?]; [|done].
        destruct (Hout Hms) as [-> ->]. by rewrite !lookup_insert_eq.
      * intros Hm. apply not_elem_of_cons in Hm as [Hne Hms].
        destruct (Hout Hms) as [-> ->].
        by rewrite !lookup_insert_ne.
Qed.

(** [get_r_master] is the sequential evaluation whenever its groups of SNR
    values have one length: when [n_jobs] divides [len(SNRs)], and when it
    lies strictly between [len(SNRs)] and its double (one group).  Every
    inverse method is then mapped to the tensor whose slice s is the output
    of [get_R] at [SNRs[s]] with all the activation labels. *)
Theorem get_r_master_even_groups (SNRs : list F) (labels : list Label)
    (inv_methods : list string) (activation_labels : option (list Label))
    (n_jobs : Z) :
  let act := default labels activation_labels in
  (1 ≤ n_jobs)%Z →
  (Z.of_nat (length SNRs) mod n_jobs = 0
   ∨ Z.of_nat (length SNRs) < n_jobs < 2 * Z.of_nat (length SNRs))%Z →
  (∀ m, m ∈ inv_methods →
     ∃ outs, rmap (fun SNR => get_R m SNR act) SNRs = Ok outs
             ∧ Forall (well_shaped vertno (length labels) act) outs) →
  ∃ r_master r_master_vl,
    get_r_master get_R vertno SNRs labels inv_methods activation_labels n_jobs
    = Ok (r_master, r_master_vl)
    ∧ r_master !! "SNRs" = Some (SNRList SNRs)
    ∧ r_master_vl !! "SNRs" = Some (SNRList SNRs)
    ∧ ∀ m, m ∈ inv_methods → m ≠ "SNRs" →
        ∃ tensors, sequential_tensors get_R m SNRs act = Ok tensors
                   ∧ r_master !! m = Some (Tensor tensors.1)
                   ∧ r_master_vl !! m = Some (Tensor tensors.2).
Proof.
  intros act Hn Hcase Hall.
  set (result_of := fun m =>
         match rmap (fun SNR => get_R m SNR act) SNRs with
         | Ok outs => (map fst outs, map snd outs)
         | Raise _ => ([], [])
         end).
  destruct (even_groups SNRs n_jobs Hn Hcase) as (n & gs & Hgs & Hlen & Hcat & Hact).
  assert (∀ m, m ∈ inv_methods →
            run_groups get_R vertno m (length labels) act
              (activation_jobs_of n_jobs (Z.of_nat (length SNRs)))
              (SNR_iterations_of SNRs n_jobs)
              (replicate (length SNRs)
                 (zeros_cmatrix (length labels) (length act)),
               replicate (length SNRs) (zeros_cmatrix vertno (length act)))
            = Ok (result_of m)) as Hruns.
  { intros m Hm. destruct (Hall m Hm) as (outs & Hout & Hshape).
    unfold result_of. rewrite Hout, Hgs. unfold run_groups, enumerate.
    pose proof (rmap_length _ _ _ Hout) as Hlo.
    destruct Hact as [Hnil|Hone].
    - rewrite Hnil in *. cbn in Hcat. subst SNRs. by injection Hout as <-.
    - rewrite Hone.
      pose proof (run_groups_even m (length labels) act n gs 0 outs [] []
                    (replicate (length SNRs)
                       (zeros_cmatrix (length labels) (length act)))
                    (replicate (length SNRs)
                       (zeros_cmatrix vertno (length act)))) as Heven.
      cbn [app length] in Heven. rewrite !length_replicate in Heven.
      apply Heven; try done. by rewrite Hcat. }
  destruct (methods_loop SNRs labels act n_jobs result_of inv_methods Hruns
              ∅ ∅ activation_labels eq_refl)
    as (rm & rv & st & Hrun & Hlook).
  do 2 eexists. split.
  { unfold get_r_master. rewrite Hrun. cbn [rbind fst snd]. done. }
  split; [apply lookup_insert_eq|]. split; [apply lookup_insert_eq|].
  intros m Hm Hne. destruct (Hall m Hm) as (outs & Hout & _).
  destruct (Hlook m) as [Hin _]. destruct (Hin Hm) as [Hrm Hrv].
  unfold result_of in Hrm, Hrv. rewrite Hout in Hrm, Hrv.
  exists (map fst outs, map snd outs). split.
  { unfold sequential_tensors. by rewrite Hout. }
  by rewrite !lookup_insert_ne.
Qed.


(** Without a positive number of jobs there is no SNR value in any group. *)
Lemma idle_groups (SNRs : list F) (n_jobs : Z) :
  (n_jobs ≤ 0)%Z →
  SNR_iterations_of SNRs n_jobs = [] ∨ SNR_iterations_of SNRs n_jobs = [[]].
Proof.
  intros Hn. unfold SNR_iterations_of, SNR_njobs_of.
  set (L := Z.of_nat (length SNRs)).
  assert (0 ≤ L)%Z as HL by (unfold L; lia).
  destruct (decide (n_jobs = 0%Z)) as [->|Hne].
  - left. destruct (0 <? 2 * L)%Z eqn:E.
    + done.
    + assert (L = 0%Z) as -> by lia. done.
  - assert ((n_jobs <? 2 * L)%Z = true) as -> by lia.
    unfold np_floor_divide, np_mod.
    assert ((n_jobs =? 0)%Z = false) as -> by lia.
    assert (L / n_jobs ≤ 0)%Z as Hq.
    { pose proof (Z.div_mod L n_jobs Hne) as Hdm.
      pose proof (Z.mod_neg_bound L n_jobs ltac:(lia)) as Hmb. nia. }
    unfold py_range.
    replace (Z.to_nat (L / n_jobs)) with 0 by lia. cbn [seq map app].
    destruct (L mod n_jobs =? 0)%Z eqn:Em; [by left|]. right. f_equal.
    pose proof (Z.div_mod L n_jobs Hne) as Hdm.
    pose proof (Z.mod_neg_bound L n_jobs ltac:(lia)) as Hmb.
    unfold py_slice, slice_bound. fold L.
    assert ((n_jobs * (L / n_jobs) <? 0)%Z = false) as -> by lia.
    assert ((L <? 0)%Z = false) as -> by lia.
    replace (Z.to_nat (Z.min (n_jobs * (L / n_jobs)) L)) with (length SNRs)
      by lia.
    replace (Z.to_nat (Z.min L L)) with (length SNRs) by lia.
    by rewrite Nat.sub_diag.
Qed.

Lemma run_groups_idle inv_method (n_labels : nat) (act : list Label)
    (activation_jobs : Z) (gs : list (list F)) tensors :
  gs = [] ∨ gs = [[]] →
  run_groups get_R vertno inv_method n_labels act activation_jobs gs tensors
  = Ok tensors.
Proof. intros [->| ->]; reflexivity. Qed.

(** With [n_jobs <= 0] [get_r_master] raises nothing and calls [get_R] for
    no SNR value: every inverse method is mapped to tensors of zeros. *)
Theorem get_r_master_no_jobs (SNRs : list F) (labels : list Label)
    (inv_methods : list string) (activation_labels : option (list Label))
    (n_jobs : Z) :
  let act := default labels activation_labels in
  (n_jobs ≤ 0)%Z →
  ∃ r_master r_master_vl,
    get_r_master get_R vertno SNRs labels inv_methods activation_labels n_jobs
    = Ok (r_master, r_master_vl)
    ∧ r_master !! "SNRs" = Some (SNRList SNRs)
    ∧ r_master_vl !! "SNRs" = Some (SNRList SNRs)
    ∧ ∀ m, m ∈ inv_methods → m ≠ "SNRs" →
        r_master !! m
        = Some (Tensor (replicate (length SNRs)
                          (zeros_cmatrix (length labels) (length act))))
        ∧ r_master_vl !! m
          = Some (Tensor (replicate (length SNRs)
                            (zeros_cmatrix vertno (length act)))).
Proof.
  intros act Hn.
  set (zeros := (replicate (length SNRs)
                   (zeros_cmatrix (length labels) (length act)),
                 replicate (length SNRs) (zeros_cmatrix vertno (length act)))).
  assert (∀ m, m ∈ inv_methods →
            run_groups get_R vertno m (length labels) act
              (activation_jobs_of n_jobs (Z.of_nat (length SNRs)))
              (SNR_iterations_of SNRs n_jobs) zeros
            = Ok ((fun _ : string => zeros) m)) as Hruns.
  { intros m _. apply run_groups_idle. by apply idle_groups. }
  destruct (methods_loop SNRs labels act n_jobs (fun _ => zeros) inv_methods
              Hruns ∅ ∅ activation_labels eq_refl)
    as (rm & rv & st & Hrun & Hlook).
  do 2 eexists. split.
  { unfold get_r_master. rewrite Hrun. cbn [rbind fst snd]. done. }
  split; [apply lookup_insert_eq|]. split; [apply lookup_insert_eq|].
  intros m Hm Hne. destruct (Hlook m) as [Hin _].
  destruct (Hin Hm) as [Hrm Hrv]. by rewrite !lookup_insert_ne.
Qed.

End RMasterGroups.

Lemma get_r_master_even_groups_witness :
  ∃ r_master r_master_vl,
    get_r_master (echo_get_R 2 3) 3 [1 # 1; 2 # 1; 3 # 1; 4 # 1] two_labels
      ["MNE"] (Some two_labels) 2
    = Ok (r_master, r_master_vl)
    ∧ r_master !! "SNRs" = Some (SNRList [1 # 1; 2 # 1; 3 # 1; 4 # 1])
    ∧ r_master_vl !! "SNRs" = Some (SNRList [1 # 1; 2 # 1; 3 # 1; 4 # 1])
    ∧ ∀ m, m ∈ ["MNE"] → m ≠ "SNRs" →
        ∃ tensors,
          sequential_tensors (echo_get_R 2 3) m [1 # 1; 2 # 1; 3 # 1; 4 # 1]
            (default two_labels (Some two_labels))
          = Ok tensors
          ∧ r_master !! m = Some (Tensor tensors.1)
          ∧ r_master_vl !! m = Some (Tensor tensors.2).
Proof.
  apply (get_r_master_even_groups (echo_get_R 2 3) 3
           [1 # 1; 2 # 1; 3 # 1; 4 # 1] two_labels ["MNE"] (Some two_labels) 2).
  - lia.
  - left. reflexivity.
  - intros m _. eexists. split; [reflexivity|].
    repeat (apply Forall_cons_2; [by repeat split|]). apply Forall_nil_2.
Defined.

Lemma get_r_master_no_jobs_witness :
  ∃ r_master r_master_vl,
    get_r_master (echo_get_R 2 3) 3 [1 # 1; 2 # 1; 3 # 1] two_labels
      ["MNE"] (Some two_labels) 0
    = Ok (r_master, r_master_vl)
    ∧ r_master !! "SNRs" = Some (SNRList [1 # 1; 2 # 1; 3 # 1])
    ∧ r_master_vl !! "SNRs" = Some (SNRList [1 # 1; 2 # 1; 3 # 1])
    ∧ ∀ m, m ∈ ["MNE"] → m ≠ "SNRs" →
        r_master !! m
        = Some (Tensor (replicate (length [1 # 1; 2 # 1; 3 # 1])
                          (zeros_cmatrix (length two_labels)
                             (length (default two_labels (Some two_labels))))))
        ∧ r_master_vl !! m
          = Some (Tensor (replicate (length [1 # 1; 2 # 1; 3 # 1])
                            (zeros_cmatrix 3
                               (length (default two_labels (Some two_labels)))))).
Proof.
  apply (get_r_master_no_jobs (echo_get_R 2 3) 3 [1 # 1; 2 # 1; 3 # 1]
           two_labels ["MNE"] (Some two_labels) 0).
  lia.
Defined.

(** ** get_R: what it returns and when it aborts *)

Section GetROutcome.
Context {F : Type} `{Scalar F}.
Variable finf : F.
Variables (InverseOperator Estimate : Type).
Variable mixed_norm : sensor_data F → Estimate.
Variable inv_function :
  sensor_data F → F → string → option InverseOperator → Estimate.
Variable emp_column : Estimate → list F.
Variable vert_column : Estimate → list F.
Variable has_nan : Estimate → bool.

Abbreviation activate' :=
  (activate finf mixed_norm inv_function emp_column vert_column has_nan).
Abbreviation activation_loop' :=
  (activation_loop finf mixed_norm inv_function emp_column vert_column has_nan).
Abbreviation get_R' :=
  (get_R finf mixed_norm inv_function emp_column vert_column has_nan).
Abbreviation estimate_of' := (estimate_of finf mixed_norm inv_function).
Abbreviation aborts' :=
  (aborts finf mixed_norm inv_function emp_column has_nan).

Implicit Types (data : get_R_data F InverseOperator) (inp : get_R_input F).
Implicit Types (st : loop_state F).

(** One turn of the loop. *)
Lemma activate_outcome data inp label st :
  (activate' data inp label st).2
  = if aborts' data inp label then Raise (NameError "break_point")
    else Ok (LoopState
               (R_emp st ++ [emp_column (estimate_of' data inp label)])
               (R_label_vert st ++ [vert_column (estimate_of' data inp label)])
               (if feqb (ave_scale finf data inp) finf
                then Some (fdiv (of_Z 1) (of_Z 9)) else lambda2 st)).
Proof.
  unfold activate, aborts, estimate_of.
  by destruct (String.eqb (invmethod inp) "mixed_norm").
Qed.

Lemma activation_loop_completes data inp (labels : list Label) : ∀ st,
  Forall (fun label => aborts' data inp label = false) labels →
  (activation_loop' data inp labels st).2
  = Ok (LoopState
          (R_emp st ++ map (fun label => emp_column (estimate_of' data inp label))
                         labels)
          (R_label_vert st
           ++ map (fun label => vert_column (estimate_of' data inp label)) labels)
          (lambda2_after finf data inp labels st)).
Proof.
  induction labels as [|label labels IH]; intros st Hall.
  - cbn. rewrite !app_nil_r. by destruct st.
  - apply Forall_cons in Hall as [Hl Hall]. cbn [activation_loop].
    pose proof (activate_outcome data inp label st) as Hout.
    rewrite Hl in Hout.
    destruct (activate' data inp label st) as [made r]. cbn [snd] in Hout.
    subst r. cbn [snd]. rewrite (IH _ Hall). cbn [R_emp R_label_vert lambda2 map].
    rewrite <- !app_assoc. cbn [app]. do 2 f_equal.
    unfold lambda2_after. cbn [lambda2].
    destruct labels; [done|]. by destruct (feqb _ finf).
Qed.

Lemma activation_loop_aborts data inp (labels : list Label) : ∀ st,
  Exists (fun label => aborts' data inp label = true) labels →
  (activation_loop' data inp labels st).2 = Raise (NameError "break_point").
Proof.
  induction labels as [|label labels IH]; intros st Hex.
  - by apply Exists_nil in Hex.
  - cbn [activation_loop].
    pose proof (activate_outcome data inp label st) as Hout.
    destruct (aborts' data inp label) eqn:Ea.
    + destruct (activate' data inp label st) as [made r]. cbn [snd] in Hout.
      by subst r.
    + apply Exists_cons in Hex as [Hex|Hex]; [congruence|].
      destruct (activate' data inp label st) as [made r]. cbn [snd] in Hout.
      subst r. cbn [snd]. by apply IH.
Qed.


Lemma existsb_false_Forall {A} (p : A → bool) (l : list A) :
  existsb p l = false → Forall (fun x => p x = false) l.
Proof.
  induction l as [|x l IH]; [done|]. cbn.
  intros [Hx Hl]%orb_false_iff. apply Forall_cons_2; [done|by apply IH].
Qed.

Lemma existsb_true_Exists {A} (p : A → bool) (l : list A) :
  existsb p l = true → Exists (fun x => p x = true) l.
Proof.
  induction l as [|x l IH]; [done|]. cbn.
  intros [Hx|Hl]%orb_true_iff; [by apply Exists_cons_hd|].
  apply Exists_cons_tl. by apply IH.
Qed.

(** [get_R] without the analytical matrix.  It aborts as soon as the estimate
    of an activation label holds a nan (for "mixed_norm": gives a column of
    [R_emp] that sums to zero), and the exception is the NameError of the
    undefined name [break_point], not the Exception of the line after it.
    Otherwise it returns the two empirical matrices, one column per activation
    label in their order: the absolute values of the column of [R_emp] and
    the column of [R_label_vert] read off the estimate of the label. *)
Theorem get_R_empirical data inp :
  compute_analytical inp = false →
  (get_R finf mixed_norm inv_function emp_column vert_column has_nan data inp).2
  = if existsb (aborts' data inp) (activation_labels inp)
    then Raise (NameError "break_point")
    else Ok (Empirical
               (map (fun label =>
                       map fabs (emp_column (estimate_of' data inp label)))
                  (activation_labels inp))
               (map (fun label => vert_column (estimate_of' data inp label))
                  (activation_labels inp))).
Proof.
  intros Hc. unfold get_R.
  destruct (existsb (aborts' data inp) (activation_labels inp)) eqn:Ea.
  - rewrite activation_loop_aborts by (by apply existsb_true_Exists). done.
  - rewrite activation_loop_completes by (by apply existsb_false_Forall).
    rewrite Hc. cbn [snd R_emp R_label_vert app]. by rewrite map_map.
Qed.

(** [get_R] with the analytical matrix returns only if the list of
    activation labels is not empty, the scaling factor equals inf, the method
    is one of the four linear ones and no estimate made it abort; it then
    returns the empirical matrix as the estimates gave it, without taking
    absolute values (alone for eLORETA). *)
Theorem get_R_analytical data inp :
  compute_analytical inp = true →
  is_Ok (get_R' data inp).2 →
  activation_labels inp ≠ []
  ∧ feqb (ave_scale finf data inp) finf = true
  ∧ invmethod inp ∈ linear_methods
  ∧ Forall (fun label => aborts' data inp label = false) (activation_labels inp)
  ∧ (get_R' data inp).2
    = Ok ((if string_in (invmethod inp) ["MNE"; "dSPM"; "sLORETA"]
           then WithAnalytical else EmpiricalOnly)
            (map (fun label => emp_column (estimate_of' data inp label))
               (activation_labels inp))).
Proof.
  intros Hc. unfold get_R.
  destruct (existsb (aborts' data inp) (activation_labels inp)) eqn:Ea.
  { rewrite activation_loop_aborts by (by apply existsb_true_Exists).
    by intros [? ?]. }
  apply existsb_false_Forall in Ea.
  rewrite activation_loop_completes by done.
  rewrite Hc. cbn [snd lambda2 R_emp app].
  unfold lambda2_after. cbn [lambda2].
  destruct (activation_labels inp) as [|label labels] eqn:El.
  { by intros [? ?]. }
  destruct (feqb (ave_scale finf data inp) finf); [|by intros [? ?]].
  unfold inverse_operator_of.
  destruct (string_in (invmethod inp) linear_methods) eqn:Elin;
    [|by intros [? ?]].
  intros _. cbn [snd]. split; [done|]. split; [done|].
  split; [by apply string_in_elem|]. split; [done|].
  by destruct (string_in (invmethod inp) ["MNE"; "dSPM"; "sLORETA"]).
Qed.

(** [get_R] with the analytical matrix, when no turn of the loop binds
    [lambda2] (no activation label, or a scaling factor that does not equal
    inf, such as nan): the estimates are all computed and the call that
    prepares the inverse operator then raises UnboundLocalError, a NameError,
    for [lambda2]. *)
Theorem get_R_unbound_lambda2 data inp :
  compute_analytical inp = true →
  Forall (fun label => aborts' data inp label = false) (activation_labels inp) →
  activation_labels inp = [] ∨ feqb (ave_scale finf data inp) finf = false →
  (get_R' data inp).2 = Raise (NameError "lambda2")
  ∧ estimator_data (get_R' data inp).1
    = map (sens_of finf data (ave_scale finf data inp)) (activation_labels inp).
Proof.
  intros Hc Hall Hcase.
  unfold get_R.
  pose proof (activation_loop_completes data inp (activation_labels inp)
                (LoopState [] [] None) Hall) as Hloop.
  destruct (activation_loop' data inp (activation_labels inp) _)
    as [calls r] eqn:Erun. cbn [snd] in Hloop. subst r. cbn [fst snd].
  rewrite Hc. cbn [lambda2].
  assert (lambda2_after finf data inp (activation_labels inp)
            (LoopState [] [] None) = None) as ->.
  { unfold lambda2_after. destruct Hcase as [->| ->]; [done|].
    by destruct (activation_labels inp). }
  cbn [fst snd]. split; [done|].
  pose proof (activation_loop_calls finf _ _ mixed_norm inv_function emp_column
                vert_column has_nan data inp (activation_labels inp)
                (LoopState [] [] None)) as (k' & _ & _ & Hcalls & Hok);
    [by left|].
  rewrite Erun in Hcalls, Hok. cbn [fst snd] in Hcalls, Hok.
  destruct (Hok _ eq_refl) as [-> _]. rewrite firstn_all in Hcalls.
  rewrite Hcalls. unfold estimator_data. rewrite omap_app.
  assert (omap evoked_of
            (if string_in (invmethod inp) linear_methods
             then [MakeInverseOperator (F:=F) (InverseOperator:=InverseOperator)]
             else []) = []) as ->
    by (by destruct (string_in (invmethod inp) linear_methods)).
  cbn [app]. clear.
  induction (activation_labels inp) as [|label l IH]; [done|]. cbn [map omap].
  rewrite <- IH. unfold call_of, activate.
  by destruct (String.eqb (invmethod inp) "mixed_norm").
Qed.

End GetROutcome.

Lemma get_R_empirical_witness :
  (get_R infinity (fun evoked : sensor_data float => evoked)
     (fun evoked _ _ (_ : option unit) => evoked) (fun e => concat e)
     (fun e => concat e) estimate_has_nan all_modalities
     (GetRInput "MNE" 3%float [label_a] false)).2
  = if existsb
         (aborts infinity (fun evoked : sensor_data float => evoked)
            (fun evoked _ _ (_ : option unit) => evoked) (fun e => concat e)
            estimate_has_nan all_modalities
            (GetRInput "MNE" 3%float [label_a] false))
         (activation_labels (GetRInput "MNE" 3%float [label_a] false))
    then Raise (NameError "break_point")
    else Ok (Empirical
               (map (fun label =>
                       map fabs
                         (concat
                            (estimate_of infinity
                               (fun evoked : sensor_data float => evoked)
                               (fun evoked _ _ (_ : option unit) => evoked)
                               all_modalities
                               (GetRInput "MNE" 3%float [label_a] false) label)))
                  (activation_labels (GetRInput "MNE" 3%float [label_a] false)))
               (map (fun label =>
                       concat
                         (estimate_of infinity
                            (fun evoked : sensor_data float => evoked)
                            (fun evoked _ _ (_ : option unit) => evoked)
                            all_modalities
                            (GetRInput "MNE" 3%float [label_a] false) label))
                  (activation_labels (GetRInput "MNE" 3%float [label_a] false)))).
Proof.
  apply (get_R_empirical infinity unit (sensor_data float)
           (fun evoked => evoked) (fun evoked _ _ _ => evoked)
           (fun e => concat e) (fun e => concat e) estimate_has_nan
           all_modalities (GetRInput "MNE" 3%float [label_a] false)).
  reflexivity.
Defined.

Lemma get_R_analytical_witness :
  activation_labels (GetRInput "MNE" 3%float [label_a] true) ≠ []
  ∧ feqb (ave_scale infinity all_modalities
            (GetRInput "MNE" 3%float [label_a] true)) infinity = true
  ∧ invmethod (GetRInput "MNE" 3%float [label_a] true) ∈ linear_methods
  ∧ Forall (fun label =>
              aborts infinity (fun evoked : sensor_data float => evoked)
                (fun evoked _ _ (_ : option unit) => evoked)
                (fun e => concat e) estimate_has_nan all_modalities
                (GetRInput "MNE" 3%float [label_a] true) label = false)
      (activation_labels (GetRInput "MNE" 3%float [label_a] true))
  ∧ (get_R infinity (fun evoked : sensor_data float => evoked)
       (fun evoked _ _ (_ : option unit) => evoked) (fun e => concat e)
       (fun e => concat e) estimate_has_nan all_modalities
       (GetRInput "MNE" 3%float [label_a] true)).2
    = Ok ((if string_in (invmethod (GetRInput "MNE" 3%float [label_a] true))
                ["MNE"; "dSPM"; "sLORETA"]
           then WithAnalytical else EmpiricalOnly)
            (map (fun label =>
                    concat
                      (estimate_of infinity
                         (fun evoked : sensor_data float => evoked)
                         (fun evoked _ _ (_ : option unit) => evoked)
                         all_modalities
                         (GetRInput "MNE" 3%float [label_a] true) label))
               (activation_labels (GetRInput "MNE" 3%float [label_a] true)))).
Proof.
  apply (get_R_analytical infinity unit (sensor_data float)
           (fun evoked => evoked) (fun evoked _ _ _ => evoked)
           (fun e => concat e) (fun e => concat e) estimate_has_nan
           all_modalities (GetRInput "MNE" 3%float [label_a] true)).
  - reflexivity.
  - eexists. vm_compute. reflexivity.
Defined.

Lemma get_R_unbound_lambda2_witness :
  (get_R infinity (fun evoked : sensor_data float => evoked)
     (fun evoked _ _ (_ : option unit) => evoked) (fun e => concat e)
     (fun e => concat e) estimate_has_nan all_modalities
     (GetRInput "MNE" 3%float [] true)).2
  = Raise (NameError "lambda2")
  ∧ estimator_data
      (get_R infinity (fun evoked : sensor_data float => evoked)
         (fun evoked _ _ (_ : option unit) => evoked) (fun e => concat e)
         (fun e => concat e) estimate_has_nan all_modalities
         (GetRInput "MNE" 3%float [] true)).1
    = map (sens_of infinity all_modalities
             (ave_scale infinity all_modalities
                (GetRInput "MNE" 3%float [] true)))
        (activation_labels (GetRInput "MNE" 3%float [] true)).
Proof.
  apply (get_R_unbound_lambda2 infinity unit (sensor_data float)
           (fun evoked => evoked) (fun evoked _ _ _ => evoked)
           (fun e => concat e) (fun e => concat e) estimate_has_nan
           all_modalities (GetRInput "MNE" 3%float [] true)).
  - reflexivity.
  - apply Forall_nil_2.
  - by left.
Defined.

(** ** correct_fwd and count_sources_in_labels *)

Section ForwardFacts.
Context {F : Type}.
Implicit Types (fwd : Forward F) (labels : list Label).

Lemma existsb_eqb_elem (x : nat) (l : list nat) :
  existsb (Nat.eqb x) l = true ↔ x ∈ l.
Proof.
  rewrite existsb_exists. split.
  - intros (y & Hy & ->%Nat.eqb_eq). by apply list_elem_of_In.
  - intros Hx. exists x. split; [by apply list_elem_of_In|apply Nat.eqb_refl].
Qed.

Lemma where_from_filter (p : nat → bool) (n : nat) : ∀ s,
  where_from s (map p (seq s n)) = List.filter p (seq s n).
Proof.
  induction n as [|n IH]; intros s; [done|]. cbn [seq map where_from List.filter].
  rewrite IH. by destruct (p s).
Qed.

(** The positions of the keys that pass a test. *)
Lemma where_from_keys {A} (p : A → bool) (keys : list A) : ∀ s,
  where_from s (map p keys)
  = map fst (List.filter (fun ik => p ik.2) (zip (seq s (length keys)) keys)).
Proof.
  induction keys as [|k keys IH]; intros s; [done|].
  cbn [map where_from length seq zip zip_with List.filter fst snd].
  rewrite IH. by destruct (p k).
Qed.

Lemma lookup_zeroed_from (U : list nat) (inuse : list Z) : ∀ s k,
  zeroed_from s U inuse !! k
  = (fun x => if existsb (Nat.eqb (s + k)) U then 0%Z else x) <$> inuse !! k.
Proof.
  induction inuse as [|x inuse IH]; intros s k; [done|].
  destruct k as [|k]; cbn [zeroed_from lookup list_lookup].
  - by rewrite Nat.add_0_r.
  - rewrite IH. by replace (S s + k) with (s + S k) by lia.
Qed.

Lemma length_zeroed_from (U : list nat) (inuse : list Z) s :
  length (zeroed_from s U inuse) = length inuse.
Proof.
  revert s. induction inuse as [|x inuse IH]; intros s; [done|].
  cbn. by rewrite IH.
Qed.

Lemma zeroed_from_nil (inuse : list Z) s : zeroed_from s [] inuse = inuse.
Proof.
  revert s. induction inuse as [|x inuse IH]; intros s; [done|].
  cbn. by rewrite IH.
Qed.

Lemma zeroed_from_app (U1 U2 : list nat) (inuse : list Z) : ∀ s,
  zeroed_from s U2 (zeroed_from s U1 inuse) = zeroed_from s (U1 ++ U2) inuse.
Proof.
  induction inuse as [|x inuse IH]; intros s; [done|].
  cbn [zeroed_from]. rewrite IH, existsb_app.
  by destruct (existsb (Nat.eqb s) U1), (existsb (Nat.eqb s) U2).
Qed.

Lemma lookup_foldl_zero (vs : list nat) : ∀ (acc : list Z) k,
  foldl (fun acc v => <[v := 0%Z]> acc) acc vs !! k
  = (fun x => if existsb (Nat.eqb k) vs then 0%Z else x) <$> acc !! k.
Proof.
  induction vs as [|v vs IH]; intros acc k.
  - cbn. by destruct (acc !! k).
  - cbn [foldl existsb]. rewrite IH.
    destruct (Nat.eqb_spec k v) as [->|Hne].
    + cbn [orb]. destruct (decide (v < length acc)) as [Hlt|Hge].
      * rewrite list_lookup_insert_eq by done.
        destruct (lookup_lt_is_Some_2 acc v Hlt) as [x ->]. cbn.
        by destruct (existsb (Nat.eqb v) vs).
      * rewrite !lookup_ge_None_2; [done|lia|rewrite length_insert; lia].
    + cbn [orb]. by rewrite list_lookup_insert_ne by done.
Qed.

Lemma zero_items_zeroed (inuse : list Z) (vertnos : list nat) :
  Forall (fun v => v < length inuse) vertnos →
  zero_items inuse vertnos = Ok (zeroed_from 0 vertnos inuse).
Proof.
  intros Hin. unfold zero_items.
  assert (forallb (fun v => v <? length inuse) vertnos = true) as ->.
  { apply forallb_forall. intros v Hv. apply Nat.ltb_lt.
    rewrite Forall_forall in Hin. by apply Hin, list_elem_of_In. }
  f_equal. apply list_eq. intros k.
  by rewrite lookup_foldl_zero, lookup_zeroed_from.
Qed.

Lemma zero_items_out_of_range (inuse : list Z) (vertnos : list nat) :
  Exists (fun v => length inuse ≤ v) vertnos →
  zero_items inuse vertnos = Raise IndexError.
Proof.
  intros Hex. unfold zero_items.
  assert (forallb (fun v => v <? length inuse) vertnos = false) as ->; [|done].
  apply not_true_is_false. intros Hall.
  rewrite forallb_forall in Hall. apply Exists_exists in Hex as (v & Hv & Hge).
  specialize (Hall v (proj1 (list_elem_of_In _ _) Hv)).
  apply Nat.ltb_lt in Hall. lia.
Qed.

(** The vertices still flagged after some flags are set to 0. *)
Lemma nonzero_zeroed_from (U : list nat) (inuse : list Z) : ∀ s,
  where_from s (map (fun x => negb (x =? 0)%Z) (zeroed_from s U inuse))
  = List.filter (fun i => negb (existsb (Nat.eqb i) U))
      (where_from s (map (fun x => negb (x =? 0)%Z) inuse)).
Proof.
  induction inuse as [|x inuse IH]; intros s; [done|].
  cbn [zeroed_from map where_from]. rewrite List.filter_app, IH.
  destruct (existsb (Nat.eqb s) U) eqn:E.
  - cbn. destruct (negb (x =? 0)%Z); cbn; by rewrite ?E.
  - destruct (negb (x =? 0)%Z); cbn; by rewrite ?E.
Qed.

Lemma flags_zeroed_from (U : list nat) (inuse : list Z) : ∀ s,
  Forall (fun x => x = 0%Z ∨ x = 1%Z) inuse →
  Forall (fun x => x = 0%Z ∨ x = 1%Z) (zeroed_from s U inuse).
Proof.
  induction inuse as [|x inuse IH]; intros s Hf; [done|].
  apply Forall_cons in Hf as [Hx Hf]. cbn [zeroed_from].
  apply Forall_cons_2; [|by apply IH].
  destruct (existsb (Nat.eqb s) U); [by left|done].
Qed.

Lemma sum_of_flags (inuse : list Z) : ∀ s,
  Forall (fun x => x = 0%Z ∨ x = 1%Z) inuse →
  sumZ inuse
  = Z.of_nat (length (where_from s (map (fun x => negb (x =? 0)%Z) inuse))).
Proof.
  induction inuse as [|x inuse IH]; intros s Hf; [done|].
  apply Forall_cons in Hf as [Hx Hf]. cbn [sumZ fold_right map where_from].
  fold (sumZ inuse). rewrite (IH (S s) Hf), length_app.
  destruct Hx as [-> | ->]; cbn; lia.
Qed.

Lemma source_with_consistent (inuse : list Z) :
  Forall (fun x => x = 0%Z ∨ x = 1%Z) inuse →
  source_consistent (source_with inuse).
Proof.
  intros Hf. split; [done|]. split; [done|]. cbn. by apply sum_of_flags.
Qed.

Lemma source_consistent_with (s : source_info) :
  source_consistent s → s = source_with (src_inuse s).
Proof.
  intros (Hf & Hv & Hn). destruct s as [inuse nuse vertno]. cbn in *.
  unfold source_with. subst vertno. f_equal. rewrite Hn.
  symmetry. by apply sum_of_flags.
Qed.


(** The forward object while the loop runs: the flags of the vertices met so
    far are 0 in each hemisphere. *)
Lemma remove_labels_run (offset : Z) (vertnos_lh vertnos_rh : list nat)
    (data : cmatrix F) (n : Z) (inuse_l inuse_r : list Z) :
  ∀ labels (Ul Ur : list nat) (sources_to_remove : list Z),
  Forall (fun label =>
            Forall (fun v => v < length (match hemi label with
                                         | lh => inuse_l | rh => inuse_r
                                         end)) (vertices label)) labels →
  remove_labels offset vertnos_lh vertnos_rh labels sources_to_remove
    (MkForward (source_with (zeroed_from 0 Ul inuse_l),
                source_with (zeroed_from 0 Ur inuse_r)) data n)
  = (Ok (sources_to_remove ++ removed offset vertnos_lh vertnos_rh labels),
     MkForward
       (source_with (zeroed_from 0 (Ul ++ unwanted_vertices lh labels) inuse_l),
        source_with (zeroed_from 0 (Ur ++ unwanted_vertices rh labels) inuse_r))
       data n).
Proof.
  induction labels as [|label labels IH]; intros Ul Ur S Hin.
  - cbn. by rewrite !app_nil_r.
  - apply Forall_cons in Hin as [Hl Hin].
    cbn [remove_labels]. unfold removed, unwanted_vertices.
    cbn [flat_map List.filter]. fold (removed offset vertnos_lh vertnos_rh labels).
    destruct (hemi label) eqn:Eh; cbn [source_of fwd_src fst snd src_inuse
                                         source_with same_hemi flat_map].
    + rewrite zero_items_zeroed by (by rewrite length_zeroed_from).
      rewrite zeroed_from_app. cbn [set_source fwd_src fst snd sol_data nsource].
      fold (source_with (zeroed_from 0 (Ul ++ vertices label) inuse_l)).
      rewrite IH by done. by rewrite <- !app_assoc.
    + rewrite zero_items_zeroed by (by rewrite length_zeroed_from).
      rewrite zeroed_from_app. cbn [set_source fwd_src fst snd sol_data nsource].
      fold (source_with (zeroed_from 0 (Ur ++ vertices label) inuse_r)).
      rewrite IH by done. by rewrite <- !app_assoc.
Qed.

Lemma elem_of_where_from (mask : list bool) : ∀ s i,
  i ∈ where_from s mask ↔ ∃ k, i = s + k ∧ mask !! k = Some true.
Proof.
  induction mask as [|b mask IH]; intros s i.
  - cbn. split; [by intros ?%elem_of_nil|by intros (k & _ & ?)].
  - cbn [where_from]. rewrite elem_of_app, IH. split.
    + intros [Hb|(k & -> & Hk)].
      * destruct b; [|by apply elem_of_nil in Hb].
        apply list_elem_of_singleton in Hb as ->. exists 0. by rewrite Nat.add_0_r.
      * exists (S k). split; [lia|done].
    + intros ([|k] & -> & Hk).
      * left. injection Hk as ->. rewrite Nat.add_0_r. by apply list_elem_of_singleton.
      * right. exists k. split; [lia|done].
Qed.

Lemma elem_of_where_in1d (keys vs : list nat) (i : nat) :
  i ∈ np_where (np_in1d keys vs) ↔ ∃ v, keys !! i = Some v ∧ v ∈ vs.
Proof.
  unfold np_where, np_in1d. rewrite elem_of_where_from. split.
  - intros (k & -> & Hk). rewrite list_lookup_fmap in Hk.
    destruct (keys !! k) as [v|] eqn:E; [|done]. injection Hk as Hk.
    exists v. split; [done|]. by apply existsb_eqb_elem.
  - intros (v & Hv & Hin). exists i. split; [done|].
    rewrite list_lookup_fmap, Hv. cbn. f_equal. by apply existsb_eqb_elem.
Qed.

Lemma elem_of_unwanted (h : hemisphere) labels (v : nat) :
  v ∈ unwanted_vertices h labels
  ↔ ∃ label, label ∈ labels ∧ hemi label = h ∧ v ∈ vertices label.
Proof.
  unfold unwanted_vertices. rewrite list_elem_of_In, in_flat_map. split.
  - intros (label & Hl & Hv). apply filter_In in Hl as [Hl Hh].
    exists label. split; [by apply list_elem_of_In|]. split.
    + by destruct (hemi label), h.
    + by apply list_elem_of_In.
  - intros (label & Hl & Hh & Hv). exists label. split.
    + apply filter_In. split; [by apply list_elem_of_In|].
      rewrite Hh. by destruct h.
    + by apply list_elem_of_In.
Qed.

(** The columns the loop marks: those of the sources that lie in an unwanted
    label of their hemisphere. *)
Lemma elem_of_removed (offset : Z) (vertnos_lh vertnos_rh : list nat) labels
    (z : Z) :
  z ∈ removed offset vertnos_lh vertnos_rh labels
  ↔ (∃ i v, z = Z.of_nat i ∧ vertnos_lh !! i = Some v
            ∧ v ∈ unwanted_vertices lh labels)
    ∨ (∃ i v, z = (Z.of_nat i + offset)%Z ∧ vertnos_rh !! i = Some v
              ∧ v ∈ unwanted_vertices rh labels).
Proof.
  unfold removed. rewrite list_elem_of_In, in_flat_map. split.
  - intros (label & Hl & Hz). apply list_elem_of_In in Hl.
    destruct (hemi label) eqn:Eh; apply list_elem_of_In, list_elem_of_fmap in Hz
      as (i & -> & Hi); apply elem_of_where_in1d in Hi as (v & Hv & Hin).
    + left. exists i, v. split; [done|]. split; [done|].
      apply elem_of_unwanted. by exists label.
    + right. exists i, v. split; [done|]. split; [done|].
      apply elem_of_unwanted. by exists label.
  - intros [(i & v & -> & Hv & Hin)|(i & v & -> & Hv & Hin)];
      apply elem_of_unwanted in Hin as (label & Hl & Hh & Hin);
      exists label; (split; [by apply list_elem_of_In|]); rewrite Hh;
      apply list_elem_of_In, list_elem_of_fmap; exists i; (split; [done|]);
      apply elem_of_where_in1d; by exists v.
Qed.


Lemma existsb_Zeqb_elem (z : Z) (l : list Z) :
  existsb (Z.eqb z) l = true ↔ z ∈ l.
Proof.
  rewrite existsb_exists. split.
  - intros (y & Hy & ->%Z.eqb_eq). by apply list_elem_of_In.
  - intros Hz. exists z. split; [by apply list_elem_of_In|apply Z.eqb_refl].
Qed.

(** Column [c] is kept exactly when the vertex of its source is wanted. *)
Lemma kept_column (offset : Z) (vertnos_lh vertnos_rh : list nat) labels
    (c : nat) :
  offset = Z.of_nat (length vertnos_lh) →
  (∀ v, vertnos_lh !! c = Some v →
     negb (existsb (Z.eqb (Z.of_nat c))
             (removed offset vertnos_lh vertnos_rh labels))
     = wanted lh labels v)
  ∧ (∀ i v, c = length vertnos_lh + i → vertnos_rh !! i = Some v →
       negb (existsb (Z.eqb (Z.of_nat c))
               (removed offset vertnos_lh vertnos_rh labels))
       = wanted rh labels v).
Proof.
  intros Hoff. split.
  - intros v Hv. unfold wanted. f_equal. apply Bool.eq_iff_eq_true.
    rewrite existsb_Zeqb_elem, existsb_eqb_elem, elem_of_removed.
    pose proof (lookup_lt_Some _ _ _ Hv) as Hlt. split.
    + intros [(i & v' & Hi & Hl & Hin)|(i & v' & Hi & Hl & Hin)]; [|lia].
      assert (i = c) as -> by lia. congruence.
    + intros Hin. left. by exists c, v.
  - intros i v -> Hv. unfold wanted. f_equal. apply Bool.eq_iff_eq_true.
    rewrite existsb_Zeqb_elem, existsb_eqb_elem, elem_of_removed. split.
    + intros [(i' & v' & Hi & Hl & Hin)|(i' & v' & Hi & Hl & Hin)].
      * apply lookup_lt_Some in Hl. lia.
      * assert (i' = i) as -> by lia. congruence.
    + intros Hin. right. exists i, v. split; [lia|done].
Qed.

Lemma select_length {A B} (p : A → bool) (keys : list A) : ∀ (vals : list B),
  length keys = length vals →
  length (select p keys vals) = length (List.filter p keys).
Proof.
  unfold select.
  induction keys as [|k keys IH]; intros [|v vals] Hlen; try done.
  cbn [zip zip_with List.filter fst]. injection Hlen as Hlen.
  destruct (p k); cbn; by rewrite IH.
Qed.

(** Taking from [all] the columns at the positions that pass [p], when these
    positions are those of the keys that pass [pk]. *)
Lemma gather_select {A B} (pk : A → bool) (p : nat → bool) (all : list B) :
  ∀ (keys : list A) (vals : list B) (s : nat),
  length keys = length vals →
  (∀ i, i < length vals → all !! (s + i) = vals !! i) →
  (∀ i k, keys !! i = Some k → p (s + i) = pk k) →
  Forall2 (fun i y => all !! i = Some y)
    (List.filter p (seq s (length vals))) (select pk keys vals).
Proof.
  unfold select.
  induction keys as [|k keys IH]; intros [|v vals] s Hlen Hall Hp; try done.
  injection Hlen as Hlen.
  cbn [length seq List.filter zip zip_with fst].
  pose proof (Hp 0 k eq_refl) as Hp0. rewrite Nat.add_0_r in Hp0. rewrite Hp0.
  assert (Forall2 (fun i y => all !! i = Some y)
            (List.filter p (seq (S s) (length vals)))
            (map snd (List.filter (fun kv => pk kv.1) (zip keys vals))))
    as Hrest.
  { apply IH; [done| |].
    - intros i Hi. replace (S s + i) with (s + S i) by lia.
      rewrite Hall by (simpl; lia). done.
    - intros i k' Hk. replace (S s + i) with (s + S i) by lia.
      by apply (Hp (S i)). }
  destruct (pk k); [|done]. cbn [map snd]. constructor; [|done].
  specialize (Hall 0). rewrite Nat.add_0_r in Hall. apply Hall. simpl. lia.
Qed.

(** The forward object [correct_fwd] leaves and returns. *)
Lemma correct_fwd_run fwd labels :
  forward_consistent fwd →
  Forall (label_on_surface fwd) labels →
  correct_fwd fwd labels
  = (Ok tt,
     let cols :=
       select (wanted lh labels) (src_vertno (fwd_src fwd).1)
         (take (length (src_vertno (fwd_src fwd).1)) (c_cols (sol_data fwd)))
       ++ select (wanted rh labels) (src_vertno (fwd_src fwd).2)
            (drop (length (src_vertno (fwd_src fwd).1))
               (c_cols (sol_data fwd))) in
     MkForward
       (source_with (zeroed_from 0 (unwanted_vertices lh labels)
                       (src_inuse (fwd_src fwd).1)),
        source_with (zeroed_from 0 (unwanted_vertices rh labels)
                       (src_inuse (fwd_src fwd).2)))
       (CMatrix (c_rows (sol_data fwd)) cols)
       (Z.of_nat (length cols))).
Proof.
  intros ((Hfl & Hvl & Hnl) & (Hfr & Hvr & Hnr) & Hcols) Hsurf.
  destruct fwd as [[[il nl vl] [ir nr vr]] [rows cols] n].
  cbn [fwd_src sol_data c_cols c_rows fst snd src_inuse src_nuse src_vertno]
    in *.
  unfold correct_fwd.
  cbn [fwd_src sol_data c_cols c_rows fst snd src_inuse src_nuse src_vertno].
  assert (SourceInfo il nl vl = source_with (zeroed_from 0 [] il)) as ->.
  { rewrite zeroed_from_nil. unfold source_with. subst vl nl. f_equal.
    symmetry. by apply sum_of_flags. }
  assert (SourceInfo ir nr vr = source_with (zeroed_from 0 [] ir)) as ->.
  { rewrite zeroed_from_nil. unfold source_with. subst vr nr. f_equal.
    symmetry. by apply sum_of_flags. }
  rewrite remove_labels_run.
  2:{ eapply Forall_impl; [exact Hsurf|]. intros label Hl.
      unfold label_on_surface in Hl. cbn in Hl. by destruct (hemi label). }
  cbn [app fwd_src sol_data c_cols c_rows fst snd].
  set (S := removed nl vl vr labels).
  unfold np_where, np_in1d_Z. rewrite !map_map.
  rewrite (where_from_filter
             (fun c => negb (existsb (Z.eqb (Z.of_nat c)) S)) (length cols) 0).
  set (out := select (wanted lh labels) vl (take (length vl) cols)
              ++ select (wanted rh labels) vr (drop (length vl) cols)).
  assert (mapM (fun i => cols !! i)
            (List.filter (fun c => negb (existsb (Z.eqb (Z.of_nat c)) S))
               (seq 0 (length cols))) = Some out) as Hgather.
  { apply mapM_Some_2. rewrite Hcols, seq_app, List.filter_app.
    apply Forall2_app.
    - replace (length vl) with (length (take (length vl) cols)) at 1
        by (rewrite length_take; lia).
      apply gather_select.
      + rewrite length_take. lia.
      + intros i Hi. rewrite length_take in Hi.
        cbn. rewrite lookup_take_lt by lia. done.
      + intros i k Hk. cbn.
        by apply (proj1 (kept_column nl vl vr labels i Hnl)).
    - replace (length vr) with (length (drop (length vl) cols)) at 1
        by (rewrite length_drop; lia).
      cbn [Nat.add].
      apply gather_select.
      + rewrite length_drop. lia.
      + intros i Hi. by rewrite lookup_drop.
      + intros i k Hk.
        by apply (proj2 (kept_column nl vl vr labels (length vl + i) Hnl) i). }
  unfold take_columns. cbn [c_cols c_rows]. rewrite Hgather. done.
Qed.


Lemma nonzero_zeroed (U : list nat) (inuse : list Z) :
  np_nonzero (zeroed_from 0 U inuse)
  = List.filter (fun v => negb (existsb (Nat.eqb v) U)) (np_nonzero inuse).
Proof. apply nonzero_zeroed_from. Qed.

Lemma corrected_consistent fwd labels :
  forward_consistent fwd →
  forward_consistent
    (MkForward
       (source_with (zeroed_from 0 (unwanted_vertices lh labels)
                       (src_inuse (fwd_src fwd).1)),
        source_with (zeroed_from 0 (unwanted_vertices rh labels)
                       (src_inuse (fwd_src fwd).2)))
       (CMatrix (c_rows (sol_data fwd))
          (select (wanted lh labels) (src_vertno (fwd_src fwd).1)
             (take (length (src_vertno (fwd_src fwd).1))
                (c_cols (sol_data fwd)))
           ++ select (wanted rh labels) (src_vertno (fwd_src fwd).2)
                (drop (length (src_vertno (fwd_src fwd).1))
                   (c_cols (sol_data fwd)))))
       (nsource fwd)).
Proof.
  intros ((Hfl & Hvl & Hnl) & (Hfr & Hvr & Hnr) & Hcols).
  split; [by apply source_with_consistent, flags_zeroed_from|].
  split; [by apply source_with_consistent, flags_zeroed_from|].
  cbn [fwd_src sol_data c_cols fst snd source_with src_vertno].
  rewrite length_app, !select_length, !nonzero_zeroed, <- Hvl, <- Hvr.
  - done.
  - rewrite length_drop. lia.
  - rewrite length_take. lia.
Qed.

(** [correct_fwd(fwd, labels_unwanted)] on a consistent forward object and
    labels that lie on its surfaces returns, with [fwd] changed as follows.
    In each hemisphere 'vertno' keeps, in their order, the vertices that are
    in none of the unwanted labels of the hemisphere, and 'inuse' keeps its
    length.  The gain matrix keeps its rows and, in their order, the columns
    of the sources whose vertex is kept.  'nsource' is the number of columns
    left, which is the sum of the two 'nuse'; the object is consistent
    again. *)
Theorem correct_fwd_spec fwd labels :
  forward_consistent fwd →
  Forall (label_on_surface fwd) labels →
  ∃ fwd',
    correct_fwd fwd labels = (Ok tt, fwd')
    ∧ (∀ h, src_vertno (source_of fwd' h)
            = List.filter (wanted h labels) (src_vertno (source_of fwd h))
            ∧ length (src_inuse (source_of fwd' h))
              = length (src_inuse (source_of fwd h)))
    ∧ c_rows (sol_data fwd') = c_rows (sol_data fwd)
    ∧ c_cols (sol_data fwd')
      = select (wanted lh labels) (src_vertno (fwd_src fwd).1)
          (take (length (src_vertno (fwd_src fwd).1)) (c_cols (sol_data fwd)))
        ++ select (wanted rh labels) (src_vertno (fwd_src fwd).2)
             (drop (length (src_vertno (fwd_src fwd).1))
                (c_cols (sol_data fwd)))
    ∧ nsource fwd' = Z.of_nat (length (c_cols (sol_data fwd')))
    ∧ nsource fwd'
      = (src_nuse (fwd_src fwd').1 + src_nuse (fwd_src fwd').2)%Z
    ∧ forward_consistent fwd'.
Proof.
  intros Hcons Hsurf. eexists. split; [by apply correct_fwd_run|].
  destruct Hcons as ((Hfl & Hvl & Hnl) & (Hfr & Hvr & Hnr) & Hcols).
  cbv zeta.
  cbn [fwd_src sol_data nsource c_cols c_rows fst snd].
  assert (∀ h, src_vertno
                 (source_with (zeroed_from 0 (unwanted_vertices h labels)
                                 (src_inuse (source_of fwd h))))
               = List.filter (wanted h labels) (src_vertno (source_of fwd h)))
    as Hvert.
  { intros h. cbn [source_with src_vertno]. rewrite nonzero_zeroed.
    by destruct h; cbn [source_of]; rewrite ?Hvl, ?Hvr. }
  assert (length
            (select (wanted lh labels) (src_vertno (fwd_src fwd).1)
               (take (length (src_vertno (fwd_src fwd).1))
                  (c_cols (sol_data fwd)))
             ++ select (wanted rh labels) (src_vertno (fwd_src fwd).2)
                  (drop (length (src_vertno (fwd_src fwd).1))
                     (c_cols (sol_data fwd))))
          = length (List.filter (wanted lh labels) (src_vertno (fwd_src fwd).1))
            + length (List.filter (wanted rh labels)
                        (src_vertno (fwd_src fwd).2))) as Hlen.
  { rewrite length_app, !select_length; [done| |].
    - rewrite length_drop. lia.
    - rewrite length_take. lia. }
  assert (∀ h, source_consistent
                 (source_with (zeroed_from 0 (unwanted_vertices h labels)
                                 (src_inuse (source_of fwd h))))) as Hsc.
  { intros h. apply source_with_consistent, flags_zeroed_from.
    by destruct h. }
  split.
  { intros h. split.
    - destruct h; [apply (Hvert lh)|apply (Hvert rh)].
    - destruct h; cbn [source_of fwd_src fst snd source_with src_inuse];
        apply length_zeroed_from. }
  split; [done|]. split; [done|]. split; [done|]. split.
  { rewrite Hlen.
    destruct (Hsc lh) as (_ & _ & Hl), (Hsc rh) as (_ & _ & Hr).
    rewrite (Hvert lh) in Hl. rewrite (Hvert rh) in Hr.
    cbn [source_of] in Hl, Hr. rewrite Hl, Hr. lia. }
  split; [apply (Hsc lh)|]. split; [apply (Hsc rh)|].
  cbn [fwd_src sol_data c_cols fst snd]. rewrite Hlen.
  pose proof (Hvert lh) as Hl. pose proof (Hvert rh) as Hr.
  cbn [source_of] in Hl, Hr. by rewrite Hl, Hr.
Qed.


Lemma zeroed_from_twice (U : list nat) (inuse : list Z) :
  zeroed_from 0 U (zeroed_from 0 U inuse) = zeroed_from 0 U inuse.
Proof.
  apply list_eq. intros k. rewrite !lookup_zeroed_from.
  destruct (inuse !! k); [|done]. cbn.
  by destruct (existsb (Nat.eqb k) U).
Qed.

Lemma select_again {A B} (p : A → bool) (keys : list A) : ∀ (vals : list B),
  length keys = length vals →
  select p (List.filter p keys) (select p keys vals) = select p keys vals.
Proof.
  unfold select.
  induction keys as [|k keys IH]; intros [|v vals] Hlen; try done.
  injection Hlen as Hlen. cbn [zip zip_with List.filter fst].
  destruct (p k) eqn:Ek; [|by apply IH].
  cbn [map snd zip zip_with List.filter fst]. rewrite Ek.
  cbn [map snd]. f_equal. by apply IH.
Qed.

Lemma filter_again {A} (p : A → bool) (l : list A) :
  List.filter p (List.filter p l) = List.filter p l.
Proof.
  induction l as [|x l IH]; [done|]. cbn.
  destruct (p x) eqn:E; [|done]. cbn. by rewrite E, IH.
Qed.

(** A second call with the same labels changes nothing: the object that a
    first call on a consistent forward object left is left as it is. *)
Theorem correct_fwd_idempotent fwd labels fwd' :
  forward_consistent fwd →
  Forall (label_on_surface fwd) labels →
  correct_fwd fwd labels = (Ok tt, fwd') →
  correct_fwd fwd' labels = (Ok tt, fwd').
Proof.
  intros Hcons Hsurf Hrun.
  rewrite correct_fwd_run in Hrun by done. cbv zeta in Hrun.
  pose proof (corrected_consistent fwd labels Hcons) as Hcons'.
  destruct Hcons as ((Hfl & Hvl & Hnl) & (Hfr & Hvr & Hnr) & Hcols).
  set (vl := src_vertno (fwd_src fwd).1) in *.
  set (vr := src_vertno (fwd_src fwd).2) in *.
  set (cl := select (wanted lh labels) vl (take (length vl) (c_cols (sol_data fwd))))
    in *.
  set (cr := select (wanted rh labels) vr (drop (length vl) (c_cols (sol_data fwd))))
    in *.
  assert (length cl = length (List.filter (wanted lh labels) vl)) as Hcl.
  { unfold cl. apply select_length. rewrite length_take. lia. }
  injection Hrun as <-.
  rewrite correct_fwd_run.
  - cbv zeta.
    cbn [fwd_src sol_data c_cols c_rows fst snd source_with src_vertno src_inuse].
    rewrite !zeroed_from_twice, !nonzero_zeroed.
    fold (wanted lh labels) (wanted rh labels). rewrite <- Hvl, <- Hvr.
    fold vl vr. rewrite <- Hcl.
    rewrite take_app_length, drop_app_length.
    unfold cl, cr.
    rewrite !select_again by (rewrite ?length_drop, ?length_take; lia).
    done.
  - split; [apply Hcons'|]. split; [apply Hcons'|]. apply Hcons'.
  - eapply Forall_impl; [exact Hsurf|]. intros label Hl.
    unfold label_on_surface in *.
    destruct (hemi label);
      cbn [source_of fwd_src fst snd source_with src_inuse] in *;
      by rewrite length_zeroed_from.
Qed.

Lemma existsb_eqb_filter (w : nat → bool) (l : list nat) (v : nat) :
  existsb (Nat.eqb v) (List.filter w l) = w v && existsb (Nat.eqb v) l.
Proof.
  induction l as [|x l IH]; [by rewrite andb_false_r|]. cbn.
  destruct (w x) eqn:Ex; cbn; rewrite IH.
  - destruct (Nat.eqb_spec v x) as [->|Hne]; [|done].
    rewrite Ex. done.
  - destruct (Nat.eqb_spec v x) as [->|Hne]; [|done].
    rewrite Ex. done.
Qed.

Lemma count_in_filtered (w : nat → bool) (vs vertno : list nat) :
  (Forall (fun v => w v = false) vs →
   count_true (np_in1d vs (List.filter w vertno)) = 0%Z)
  ∧ (Forall (fun v => w v = true) vs →
     count_true (np_in1d vs (List.filter w vertno))
     = count_true (np_in1d vs vertno)).
Proof.
  unfold count_true, np_in1d. split; intros Hall.
  - induction Hall as [|v vs Hv Hall IH]; [done|]. cbn [map List.filter].
    rewrite existsb_eqb_filter, Hv. cbn. exact IH.
  - f_equal. f_equal. f_equal. apply map_ext_in. intros v Hin.
    rewrite Forall_forall in Hall.
    rewrite existsb_eqb_filter, Hall; [done|by apply list_elem_of_In].
Qed.

(** After [correct_fwd], [count_sources_in_labels] finds no source in any of
    the unwanted labels, and as many as before in every label none of whose
    vertices lies in an unwanted label of its hemisphere. *)
Theorem correct_fwd_counts fwd labels fwd' :
  forward_consistent fwd →
  Forall (label_on_surface fwd) labels →
  correct_fwd fwd labels = (Ok tt, fwd') →
  count_sources_in_labels labels fwd' = map (fun _ => 0%Z) labels
  ∧ ∀ others,
      Forall (fun label =>
                Forall (fun v => wanted (hemi label) labels v = true)
                  (vertices label)) others →
      count_sources_in_labels others fwd' = count_sources_in_labels others fwd.
Proof.
  intros Hcons Hsurf Hrun.
  rewrite correct_fwd_run in Hrun by done. cbv zeta in Hrun.
  destruct Hcons as ((Hfl & Hvl & Hnl) & (Hfr & Hvr & Hnr) & Hcols).
  injection Hrun as <-. unfold count_sources_in_labels.
  cbn [fwd_src fst snd source_with src_vertno].
  rewrite !nonzero_zeroed, <- Hvl, <- Hvr.
  fold (wanted lh labels) (wanted rh labels).
  split.
  - assert (∀ sub, (∀ label, label ∈ sub → label ∈ labels) →
              flat_map
                (fun label =>
                   match hemi label with
                   | lh => [count_true
                              (np_in1d (vertices label)
                                 (List.filter (wanted lh labels)
                                    (src_vertno (fwd_src fwd).1)))]
                   | rh => [count_true
                              (np_in1d (vertices label)
                                 (List.filter (wanted rh labels)
                                    (src_vertno (fwd_src fwd).2)))]
                   end) sub
              = map (fun _ => 0%Z) sub) as Hsub; [|by apply Hsub].
    induction sub as [|label sub IH]; intros Hin; [done|].
    cbn [flat_map map app].
    rewrite IH by (intros l Hl; apply Hin; by right).
    assert (Forall (fun v => wanted (hemi label) labels v = false)
              (vertices label)) as Hun.
    { apply Forall_forall. intros v Hv. unfold wanted.
      apply negb_false_iff, existsb_eqb_elem, elem_of_unwanted.
      exists label. split; [apply Hin; by left|done]. }
    destruct (hemi label);
      rewrite (proj1 (count_in_filtered _ _ _) Hun); done.
  - intros others Hothers.
    induction Hothers as [|label others Hl Hothers IH]; [done|].
    cbn [flat_map]. rewrite IH.
    destruct (hemi label);
      rewrite (proj2 (count_in_filtered _ _ _) Hl); done.
Qed.

Lemma remove_labels_raises (offset : Z) (vertnos_lh vertnos_rh : list nat) :
  ∀ labels (sources_to_remove : list Z) fwd,
  Exists (fun label => ¬ label_on_surface fwd label) labels →
  ∃ fwd',
    remove_labels offset vertnos_lh vertnos_rh labels sources_to_remove fwd
    = (Raise IndexError, fwd')
    ∧ sol_data fwd' = sol_data fwd ∧ nsource fwd' = nsource fwd.
Proof.
  induction labels as [|label labels IH]; intros S fwd Hex.
  - by apply Exists_nil in Hex.
  - cbn [remove_labels].
    destruct (decide (Forall (fun v => v < length (src_inuse
                                                    (source_of fwd (hemi label))))
                        (vertices label))) as [Hon|Hoff].
    + rewrite zero_items_zeroed by done.
      apply Exists_cons in Hex as [Hex|Hex]; [done|].
      set (fwd1 := set_source fwd (hemi label) _).
      destruct (IH (match hemi label with
                    | lh => S ++ map Z.of_nat
                                   (np_where (np_in1d vertnos_lh (vertices label)))
                    | rh => S ++ map (fun i => (Z.of_nat i + offset)%Z)
                                   (np_where (np_in1d vertnos_rh (vertices label)))
                    end) fwd1) as (fwd' & Hrun & Hd & Hn).
      { eapply Exists_impl; [exact Hex|]. intros l Hl Hl'. apply Hl.
        unfold label_on_surface in *. unfold fwd1 in Hl'.
        destruct (hemi label), (hemi l);
          cbn [source_of set_source fwd_src fst snd src_inuse] in *;
          by rewrite ?length_zeroed_from in Hl'. }
      exists fwd'. split; [exact Hrun|].
      rewrite Hd, Hn. unfold fwd1. by destruct (hemi label).
    + rewrite zero_items_out_of_range.
      * by exists fwd.
      * apply not_Forall_Exists in Hoff; [|apply _].
        eapply Exists_impl; [exact Hoff|]. intros v Hv. cbn in Hv. lia.
Qed.

(** If a vertex of an unwanted label is not a vertex of the surface of its
    hemisphere, [correct_fwd] raises IndexError; the gain matrix and
    'nsource' are then as they were, whatever the labels before have changed
    in [fwd['src']]. *)
Theorem correct_fwd_index_error fwd labels :
  Exists (fun label => ¬ label_on_surface fwd label) labels →
  ∃ fwd',
    correct_fwd fwd labels = (Raise IndexError, fwd')
    ∧ sol_data fwd' = sol_data fwd ∧ nsource fwd' = nsource fwd.
Proof.
  intros Hex. unfold correct_fwd.
  destruct (remove_labels_raises (src_nuse (fwd_src fwd).1)
              (src_vertno (fwd_src fwd).1) (src_vertno (fwd_src fwd).2)
              labels [] fwd Hex) as (fwd' & -> & Hd & Hn).
  by exists fwd'.
Qed.

End ForwardFacts.

Lemma small_fwd_consistent : forward_consistent small_fwd.
Proof.
  split; [|split]; [| |reflexivity];
    (split; [|split; reflexivity]);
    repeat (apply Forall_cons_2; [auto|]); apply Forall_nil_2.
Qed.

Lemma unknown_lh_on_surface : Forall (label_on_surface small_fwd) unknown_lh.
Proof.
  apply Forall_singleton. unfold label_on_surface. cbn.
  repeat (apply Forall_cons_2; [lia|]). apply Forall_nil_2.
Qed.

Lemma correct_fwd_spec_witness :
  ∃ fwd',
    correct_fwd small_fwd unknown_lh = (Ok tt, fwd')
    ∧ (∀ h, src_vertno (source_of fwd' h)
            = List.filter (wanted h unknown_lh)
                (src_vertno (source_of small_fwd h))
            ∧ length (src_inuse (source_of fwd' h))
              = length (src_inuse (source_of small_fwd h)))
    ∧ c_rows (sol_data fwd') = c_rows (sol_data small_fwd)
    ∧ c_cols (sol_data fwd')
      = select (wanted lh unknown_lh) (src_vertno (fwd_src small_fwd).1)
          (take (length (src_vertno (fwd_src small_fwd).1))
             (c_cols (sol_data small_fwd)))
        ++ select (wanted rh unknown_lh) (src_vertno (fwd_src small_fwd).2)
             (drop (length (src_vertno (fwd_src small_fwd).1))
                (c_cols (sol_data small_fwd)))
    ∧ nsource fwd' = Z.of_nat (length (c_cols (sol_data fwd')))
    ∧ nsource fwd'
      = (src_nuse (fwd_src fwd').1 + src_nuse (fwd_src fwd').2)%Z
    ∧ forward_consistent fwd'.
Proof.
  apply (correct_fwd_spec small_fwd unknown_lh);
    [exact small_fwd_consistent|exact unknown_lh_on_surface].
Defined.

Lemma correct_fwd_idempotent_witness :
  correct_fwd (correct_fwd small_fwd unknown_lh).2 unknown_lh
  = (Ok tt, (correct_fwd small_fwd unknown_lh).2).
Proof.
  apply (correct_fwd_idempotent small_fwd unknown_lh
           (correct_fwd small_fwd unknown_lh).2);
    [exact small_fwd_consistent|exact unknown_lh_on_surface|reflexivity].
Defined.

Lemma correct_fwd_counts_witness :
  count_sources_in_labels unknown_lh (correct_fwd small_fwd unknown_lh).2
  = map (fun _ => 0%Z) unknown_lh
  ∧ ∀ others,
      Forall (fun label =>
                Forall (fun v => wanted (hemi label) unknown_lh v = true)
                  (vertices label)) others →
      count_sources_in_labels others (correct_fwd small_fwd unknown_lh).2
      = count_sources_in_labels others small_fwd.
Proof.
  apply (correct_fwd_counts small_fwd unknown_lh
           (correct_fwd small_fwd unknown_lh).2);
    [exact small_fwd_consistent|exact unknown_lh_on_surface|reflexivity].
Defined.

Lemma correct_fwd_index_error_witness :
  ∃ fwd',
    correct_fwd small_fwd off_surface = (Raise IndexError, fwd')
    ∧ sol_data fwd' = sol_data small_fwd ∧ nsource fwd' = nsource small_fwd.
Proof.
  apply (correct_fwd_index_error small_fwd off_surface).
  apply Exists_cons_hd. unfold label_on_surface. cbn.
  intros Hall. apply Forall_cons in Hall as [_ Hall].
  apply Forall_cons in Hall as [Hlt _]. lia.
Defined.

(** ** Shapes and indices: when the metrics raise *)

Section ShapeFacts.
Context {F : Type} `{Scalar F}.
Implicit Types (h : heap F) (a b r : ndarray F).

(** [standardize_columns(R, 'diag')] reads [R[d, d]] for every column d: it
    raises IndexError exactly when [R] has more columns than rows, and
    returns otherwise. *)
Theorem standardize_columns_diag_shape (R : loc) h a :
  h !! R = Some a →
  ((standardize_columns R "diag" h).1 = Raise IndexError
   ↔ shape0 a < shape1 a)
  ∧ (is_Ok (standardize_columns R "diag" h).1 ↔ shape1 a ≤ shape0 a).
Proof.
  intros HR.
  destruct (standardize_columns_diag R h a HR)
    as (b & [(Hle & -> & _)|(Hlt & ->)]); cbn [fst].
  - split; split; [done|lia|done|]. intros _. by eexists.
  - split; split; [done|done| |lia]. by intros [? ?].
Qed.

Lemma take_rows_out_of_range (positions : list (vec3 F)) (verts : list nat) h :
  ¬ Forall (fun v => v < length positions) verts →
  take_rows positions verts h = (Raise IndexError, h).
Proof.
  intros Hv. unfold take_rows.
  destruct (mapM (fun v => positions !! v) verts) as [rows|] eqn:E; [|done].
  exfalso. apply Hv. apply mapM_Some_1 in E.
  apply Forall_forall. intros v Hin.
  apply list_elem_of_lookup_1 in Hin as [i Hi].
  destruct (Forall2_lookup_l _ _ _ _ _ E Hi) as (y & _ & Hy).
  by eapply lookup_lt_Some.
Qed.

Lemma get_label_center_raises (src : source_space F * source_space F)
    (labels : list Label) : ∀ acc h,
  ¬ Forall (vertices_in_range src) labels →
  for_each labels (fun label label_center =>
    let verts := vertices label in
    match hemi label with
    | lh => let* rows := take_rows (rr src.1) verts in
            ret (label_center ++ [mean_axis0 rows])
    | rh => let* rows := take_rows (rr src.2) verts in
            ret (label_center ++ [mean_axis0 rows])
    end) acc h
  = (Raise IndexError, h).
Proof.
  induction labels as [|label labels IH]; intros acc h Hall.
  - exfalso. by apply Hall.
  - cbn [for_each]. unfold bind at 1.
    destruct (decide (Forall (fun v => v < length (rr (space_of src label)))
                        (vertices label))) as [Hin|Hout].
    + destruct (take_rows_in_range _ _ h Hin) as (rows & Hrows & Hrun).
      unfold space_of in Hrun.
      destruct (hemi label); unfold bind at 1; rewrite Hrun; unfold ret at 1;
        apply IH; intros Hrest; apply Hall; by apply Forall_cons_2.
    + pose proof (take_rows_out_of_range _ _ h Hout) as Hrun.
      unfold space_of in Hrun.
      destruct (hemi label); unfold bind at 1; by rewrite Hrun.
Qed.

(** [get_label_center(labels, src)] returns the mean position of the
    vertices of every label, in the order of the labels, when every vertex of
    every label is a row of its hemisphere's 'rr', and raises IndexError
    otherwise; the heap is left as it was.  (The mean of no position, for a
    label without vertices, is nan in each coordinate.) *)
Theorem get_label_center_outcome (labels : list Label)
    (src : source_space F * source_space F) h :
  (Forall (vertices_in_range src) labels →
   get_label_center labels src h = (Ok (map (center_of src) labels), h))
  ∧ (¬ Forall (vertices_in_range src) labels →
     get_label_center labels src h = (Raise IndexError, h))
  ∧ ∀ label, vertices label = [] →
      center_of src label
      = (fdiv (of_Z 0) (of_Z 0), fdiv (of_Z 0) (of_Z 0), fdiv (of_Z 0) (of_Z 0)).
Proof.
  split; [|split].
  - intros Hall. unfold get_label_center.
    by rewrite get_label_center_loop.
  - intros Hall. unfold get_label_center. by apply get_label_center_raises.
  - intros label Hv. unfold center_of. by rewrite Hv.
Qed.


(** One more column than there are label centers: the loop fails on it. *)
Lemma cog_loop_overrun (label_center : list (vec3 F)) h (cols : list (list F)) :
  ∀ s acc,
  s ≤ length label_center → length label_center < s + length cols →
  Forall (fun col => length col = length label_center) cols →
  for_each (zip (seq s (length cols)) cols) (cog_step label_center) acc h
  = (Raise IndexError, h).
Proof.
  induction cols as [|col cols IH]; intros s acc Hs Hover Hlen.
  - simpl in Hover. lia.
  - apply Forall_cons in Hlen as [Hcol Hlen]. simpl in Hover.
    cbn [length seq zip zip_with for_each]. unfold bind at 1.
    destruct (decide (s = length label_center)) as [->|Hne].
    + unfold cog_step at 1. cbn [fst snd]. unfold bind at 1, np_dot.
      rewrite Hcol, Nat.eqb_refl. unfold ret at 1.
      unfold bind at 1, getitem_row.
      by rewrite lookup_ge_None_2 by lia.
    + pose proof (cog_loop label_center h [col] s acc) as Hone.
      cbn [length seq zip zip_with for_each] in Hone. unfold bind at 1 in Hone.
      destruct (cog_step label_center (s, col) acc h) as [[acc1|e] h1].
      * unfold ret in Hone.
        assert (h1 = h) as ->.
        { specialize (Hone ltac:(simpl; lia) ltac:(by apply Forall_singleton)).
          by injection Hone. }
        apply IH; [lia|lia|done].
      * specialize (Hone ltac:(simpl; lia) ltac:(by apply Forall_singleton)).
        done.
Qed.

(** [get_center_of_gravity_error(R, src, labels)] for the shapes of [R],
    with n labels whose vertices are rows of their 'rr': an [R] without
    columns gives three empty sequences; an [R] with a column and a number of
    rows other than n raises ValueError (np.dot); an [R] with n rows and more
    than n columns raises IndexError (label_center[c]); an [R] with n rows and
    at most n columns gives one entry per column.  The heap is left as it
    was. *)
Theorem get_center_of_gravity_error_shapes (R : loc)
    (src : source_space F * source_space F) (labels : list Label) h r :
  h !! R = Some r →
  Forall (vertices_in_range src) labels →
  (shape1 r = 0 →
   get_center_of_gravity_error R src labels h = (Ok ([], [], []), h))
  ∧ (0 < shape1 r → shape0 r ≠ length labels →
     get_center_of_gravity_error R src labels h
     = (Raise (ValueError ShapesNotAligned), h))
  ∧ (shape0 r = length labels → length labels < shape1 r →
     get_center_of_gravity_error R src labels h = (Raise IndexError, h))
  ∧ (shape0 r = length labels → shape1 r ≤ length labels →
     ∃ coge center_of_gravity_list cog_closest_source,
       get_center_of_gravity_error R src labels h
       = (Ok (coge, center_of_gravity_list, cog_closest_source), h)
       ∧ length coge = shape1 r
       ∧ center_of_gravity_list
         = map (fun c => cog_of (map (center_of src) labels) (column r c))
             (seq 0 (shape1 r))
       ∧ length cog_closest_source = shape1 r).
Proof.
  intros HR Hrange.
  assert (get_center_of_gravity_error R src labels h
          = (let* acc := for_each
                           (zip (seq 0 (length (map (column r)
                                                  (seq 0 (shape1 r)))))
                              (map (column r) (seq 0 (shape1 r))))
                           (cog_step (map (center_of src) labels))
                           ([], [], []) in
             ret (map (fmul (of_Z 100)) acc.1.1, acc.1.2, acc.2)) h) as Hrun.
  { unfold get_center_of_gravity_error, global_name.
    rewrite bound_get_label_center. unfold bind at 1.
    unfold get_label_center. rewrite get_label_center_loop by done.
    cbn [app]. unfold bind at 1, load at 1. rewrite HR. done. }
  rewrite Hrun. clear Hrun.
  set (centers := map (center_of src) labels).
  assert (length centers = length labels) as Hcenters
    by (unfold centers; by rewrite length_map).
  assert (Forall (fun col => length col = shape0 r)
            (map (column r) (seq 0 (shape1 r)))) as Hcols.
  { apply Forall_forall. intros col Hcol.
    apply list_elem_of_fmap in Hcol as (c & -> & _). apply column_length. }
  split; [|split; [|split]].
  - intros ->. done.
  - intros Hpos Hne. destruct (shape1 r) as [|m]; [lia|].
    cbn [seq map length zip zip_with for_each].
    unfold bind at 1. unfold bind at 1.
    unfold cog_step at 1. cbn [fst snd]. unfold bind at 1, np_dot.
    rewrite column_length, Hcenters.
    by assert ((shape0 r =? length labels) = false) as ->
      by (by apply Nat.eqb_neq).
  - intros H0 Hover. unfold bind at 1.
    rewrite cog_loop_overrun; [done|lia| |].
    + rewrite length_map, length_seq. lia.
    + rewrite H0, <- Hcenters in Hcols. exact Hcols.
  - intros H0 Hfit. unfold bind at 1.
    rewrite cog_loop.
    + cbn [fst snd app]. unfold ret. do 3 eexists. split; [done|].
      rewrite !length_map, length_zip_with, !length_map, !length_seq.
      split; [lia|]. split; [|done].
      by rewrite map_map.
    + rewrite length_map, length_seq. lia.
    + rewrite H0, <- Hcenters in Hcols. exact Hcols.
Qed.

End ShapeFacts.

Lemma standardize_columns_diag_shape_witness :
  ((standardize_columns 0 "diag" [two_by_two]).1 = Raise IndexError
   ↔ shape0 two_by_two < shape1 two_by_two)
  ∧ (is_Ok (standardize_columns 0 "diag" [two_by_two]).1
     ↔ shape1 two_by_two ≤ shape0 two_by_two).
Proof.
  apply (standardize_columns_diag_shape 0 [two_by_two] two_by_two).
  reflexivity.
Defined.

Lemma get_center_of_gravity_error_shapes_witness :
  (shape1 two_by_two = 0 →
   get_center_of_gravity_error 0 two_spaces two_labels [two_by_two]
   = (Ok ([], [], []), [two_by_two]))
  ∧ (0 < shape1 two_by_two → shape0 two_by_two ≠ length two_labels →
     get_center_of_gravity_error 0 two_spaces two_labels [two_by_two]
     = (Raise (ValueError ShapesNotAligned), [two_by_two]))
  ∧ (shape0 two_by_two = length two_labels →
     length two_labels < shape1 two_by_two →
     get_center_of_gravity_error 0 two_spaces two_labels [two_by_two]
     = (Raise IndexError, [two_by_two]))
  ∧ (shape0 two_by_two = length two_labels →
     shape1 two_by_two ≤ length two_labels →
     ∃ coge center_of_gravity_list cog_closest_source,
       get_center_of_gravity_error 0 two_spaces two_labels [two_by_two]
       = (Ok (coge, center_of_gravity_list, cog_closest_source), [two_by_two])
       ∧ length coge = shape1 two_by_two
       ∧ center_of_gravity_list
         = map (fun c =>
                  cog_of (map (center_of two_spaces) two_labels)
                    (column two_by_two c))
             (seq 0 (shape1 two_by_two))
       ∧ length cog_closest_source = shape1 two_by_two).
Proof.
  apply (get_center_of_gravity_error_shapes 0 two_spaces two_labels
           [two_by_two] two_by_two); [reflexivity|].
  repeat constructor; simpl; lia.
Defined.

(** ** resolution_map *)

Section ResolutionMapFacts.
Context {F : Type} `{Scalar F}.
Variables (Settings SourceSpaces Joined Brain : Type).
Variable fname_fwd : Settings → string.
Variable read_forward_solution_src : string → M F SourceSpaces.
Variable blurring : list F → Joined → M F (list F).
Variable standardize_rows : loc → M F loc.
Variable join_source_spaces : SourceSpaces → M F Joined.
Variable triangular_mesh : Joined → list F → M F Brain.
Variable print_ply : string → Joined → list F → M F unit.

Lemma unbound_join_source_spaces :
  string_in "join_source_spaces" module_names = false.
Proof. reflexivity. Qed.

Lemma string_in_two (s a b : string) :
  string_in s [a; b] = true → s = a ∨ s = b.
Proof.
  unfold string_in. cbn [existsb]. rewrite orb_false_r.
  intros [->%String.eqb_eq| ->%String.eqb_eq]%orb_true_iff; auto.
Qed.

(** The run of [resolution_map], up to the call it cannot make. *)
Lemma resolution_map_run (settings : Settings) (R : loc)
    (res_argument arg fpath : string) (print_surf : bool) h :
  resolution_map fname_fwd read_forward_solution_src blurring
    standardize_rows join_source_spaces triangular_mesh print_ply
    settings R res_argument arg fpath print_surf h
  = if negb (string_in res_argument ["point_spread"; "cross_talk"])
    then (Raise (ValueError BadArgument), h)
    else if String.eqb res_argument "cross_talk"
    then (Raise (NameError "standardize_rows"), h)
    else match get_average_point_spread R arg h with
         | (Raise e, h') => (Raise e, h')
         | (Ok _, h') =>
             match read_forward_solution_src (fname_fwd settings) h' with
             | (Raise e, h'') => (Raise e, h'')
             | (Ok _, h'') => (Raise (NameError "join_source_spaces"), h'')
             end
         end.
Proof.
  unfold resolution_map.
  destruct (string_in res_argument ["point_spread"; "cross_talk"]) eqn:Hin;
    cbn [negb]; [|done].
  apply string_in_two in Hin as [-> | ->].
  - change ("point_spread" =? "point_spread")%string with true.
    change ("point_spread" =? "cross_talk")%string with false.
    cbn iota. unfold global_name at 1.
    change (string_in "get_average_point_spread" module_names) with true.
    cbn iota. unfold bind at 1 2.
    destruct (get_average_point_spread R arg h) as [[acm|e] h']; [|done].
    unfold ret at 1. unfold bind at 1. unfold ret at 1.
    unfold bind at 1. unfold global_name at 1.
    change (string_in "mne" module_names) with true. cbn iota.
    destruct (read_forward_solution_src (fname_fwd settings) h')
      as [[src|e] h'']; [|done].
    unfold bind at 1. unfold global_name at 1.
    by rewrite unbound_join_source_spaces.
  - change ("cross_talk" =? "point_spread")%string with false.
    change ("cross_talk" =? "cross_talk")%string with true.
    cbn iota. unfold ret at 1. unfold bind at 1 2.
    unfold global_name at 1.
    change (string_in "get_average_cross_talk_map" module_names) with true.
    cbn iota. unfold get_average_cross_talk_map, global_name at 1.
    by rewrite unbound_standardize_rows.
Qed.

(** [resolution_map] never returns.  A [res_argument] other than
    'point_spread' and 'cross_talk' raises ValueError; 'cross_talk' raises
    NameError for [standardize_rows]; and 'point_spread' raises what
    [get_average_point_spread] or the reading of the forward solution
    raises, and when both succeed NameError for [join_source_spaces], a name
    the module neither defines nor imports.  In no case is a map drawn or a
    file printed. *)
Theorem resolution_map_never_returns (settings : Settings) (R : loc)
    (res_argument arg fpath : string) (print_surf : bool) h :
  let run := resolution_map fname_fwd read_forward_solution_src blurring
               standardize_rows join_source_spaces triangular_mesh print_ply
               settings R res_argument arg fpath print_surf h in
  ¬ is_Ok run.1
  ∧ (res_argument ≠ "point_spread" → res_argument ≠ "cross_talk" →
       run = (Raise (ValueError BadArgument), h))
  ∧ (res_argument = "cross_talk" →
       run = (Raise (NameError "standardize_rows"), h))
  ∧ (res_argument = "point_spread" →
       ∀ e h', get_average_point_spread R arg h = (Raise e, h') →
         run = (Raise e, h'))
  ∧ (res_argument = "point_spread" →
       ∀ acm h', get_average_point_spread R arg h = (Ok acm, h') →
         match read_forward_solution_src (fname_fwd settings) h' with
         | (Raise e, h'') => run = (Raise e, h'')
         | (Ok _, h'') => run = (Raise (NameError "join_source_spaces"), h'')
         end).
Proof.
  intros run.
  pose proof (resolution_map_run settings R res_argument arg fpath
                print_surf h) as Hrun.
  fold run in Hrun. clearbody run. split; [|split; [|split; [|split]]].
  - intros [a Ha]. rewrite Hrun in Ha.
    destruct (negb _); [done|]. destruct (String.eqb _ _); [done|].
    destruct (get_average_point_spread R arg h) as [[acm|e] h']; [|done].
    by destruct (read_forward_solution_src (fname_fwd settings) h')
      as [[src|e] h''].
  - intros H1 H2. rewrite Hrun.
    destruct (string_in res_argument _) eqn:Hin; [|done].
    by apply string_in_two in Hin as [-> | ->].
  - intros ->. by rewrite Hrun.
  - intros -> e h' Hps. rewrite Hrun. cbn. by rewrite Hps.
  - intros -> acm h' Hps. rewrite Hrun. cbn. rewrite Hps.
    by destruct (read_forward_solution_src (fname_fwd settings) h')
      as [[src|e] h''].
Qed.

End ResolutionMapFacts.

(** ** setup_labels *)

Section SetupLabelsFacts.
Variable read_labels_from_annot : string → string → string → result (list Label).

Lemma setup_labels_loop (unwanted_labels : list string) (all_labels : list Label) :
  ∀ labels labels_unwanted printed,
    fold_left (setup_labels_step unwanted_labels) all_labels
      (labels, labels_unwanted, printed)
    = (labels ++ List.filter (fun l => negb (is_unwanted unwanted_labels l))
                   all_labels,
       labels_unwanted ++ List.filter (is_unwanted unwanted_labels) all_labels,
       printed ++ map (fun l => ("Removing " ++ label_name l)%string)
                    (List.filter (is_unwanted unwanted_labels) all_labels)).
Proof.
  induction all_labels as [|label all_labels IH]; intros labels unw printed.
  - cbn. by rewrite !app_nil_r.
  - cbn [fold_left List.filter]. unfold setup_labels_step at 2.
    cbn [fst snd]. fold (is_unwanted unwanted_labels label).
    destruct (is_unwanted unwanted_labels label); cbn [negb map];
      rewrite IH, <- ?app_assoc; done.
Qed.

Lemma filter_partition {A} (p : A → bool) (l : list A) :
  List.filter (fun x => negb (p x)) l ++ List.filter p l ≡ₚ l.
Proof.
  induction l as [|x l IH]; [done|]. cbn [List.filter].
  destruct (p x); cbn [negb].
  - etransitivity; [symmetry; apply Permutation_middle|]. by constructor.
  - cbn. by constructor.
Qed.

Lemma filter_hemispheres (l : list Label) :
  List.filter (on_hemi lh) l ++ List.filter (on_hemi rh) l ≡ₚ l.
Proof.
  induction l as [|[name [|] verts] l IH]; [done|..];
    cbn [List.filter on_hemi same_hemi hemi].
  - cbn. by constructor.
  - etransitivity; [symmetry; apply Permutation_middle|]. by constructor.
Qed.

Lemma filter_sublist {A} (p : A → bool) (l : list A) :
  List.filter p l `sublist_of` l.
Proof.
  induction l as [|x l IH]; [done|]. cbn [List.filter].
  destruct (p x); by constructor.
Qed.

Lemma elem_of_List_filter {A} (p : A → bool) (l : list A) (x : A) :
  x ∈ List.filter p l ↔ x ∈ l ∧ p x = true.
Proof. by rewrite !list_elem_of_In, filter_In. Qed.

Lemma hemispheres_sorted (l : list Label) :
  hemisphere_sorted (List.filter (on_hemi lh) l ++ List.filter (on_hemi rh) l).
Proof.
  intros i j a b Ha Hb Hra Hlb.
  destruct (decide (i < length (List.filter (on_hemi lh) l))) as [Hi|Hi].
  { rewrite lookup_app_l in Ha by done.
    apply list_elem_of_lookup_2, elem_of_List_filter in Ha as [_ Ha].
    unfold on_hemi in Ha. by rewrite Hra in Ha. }
  destruct (decide (j < length (List.filter (on_hemi lh) l))) as [Hj|Hj];
    [lia|].
  rewrite lookup_app_r in Hb by lia.
  apply list_elem_of_lookup_2, elem_of_List_filter in Hb as [_ Hb].
  unfold on_hemi in Hb. by rewrite Hlb in Hb.
Qed.

Lemma hemisphere_sorted_tail (a : Label) (l : list Label) :
  hemisphere_sorted (a :: l) → hemisphere_sorted l.
Proof.
  intros Hs i j x y Hx Hy Hrx Hly.
  specialize (Hs (S i) (S j) x y Hx Hy Hrx Hly). lia.
Qed.

Lemma filter_all {A} (p : A → bool) (l : list A) :
  (∀ x, x ∈ l → p x = true) → List.filter p l = l.
Proof.
  induction l as [|x l IH]; [done|]. intros Hp. cbn [List.filter].
  rewrite (Hp x) by left. f_equal. apply IH. intros y Hy. apply Hp. by right.
Qed.

Lemma filter_none {A} (p : A → bool) (l : list A) :
  (∀ x, x ∈ l → p x = false) → List.filter p l = [].
Proof.
  induction l as [|x l IH]; [done|]. intros Hp. cbn [List.filter].
  rewrite (Hp x) by left. apply IH. intros y Hy. apply Hp. by right.
Qed.

(** Labels that are listed by hemisphere are left in their order. *)
Lemma hemisphere_sorted_fixed (l : list Label) :
  hemisphere_sorted l →
  List.filter (on_hemi lh) l ++ List.filter (on_hemi rh) l = l.
Proof.
  induction l as [|a l IH]; [done|]. intros Hs.
  pose proof (hemisphere_sorted_tail _ _ Hs) as Hl.
  cbn [List.filter]. destruct (hemi a) eqn:Ha.
  - assert (on_hemi lh a = true ∧ on_hemi rh a = false) as [-> ->]
      by (unfold on_hemi; by rewrite Ha).
    cbn. f_equal. by apply IH.
  - assert (on_hemi lh a = false ∧ on_hemi rh a = true) as [-> ->]
      by (unfold on_hemi; by rewrite Ha).
    assert (∀ x, x ∈ l → hemi x = rh) as Hall.
    { intros x [j Hx]%list_elem_of_lookup_1.
      destruct (hemi x) eqn:Hhx; [|done].
      specialize (Hs 0 (S j) a x eq_refl Hx Ha Hhx). lia. }
    rewrite filter_none, filter_all; [done| |].
    + intros x Hx. unfold on_hemi. by rewrite (Hall x Hx).
    + intros x Hx. unfold on_hemi. by rewrite (Hall x Hx).
Qed.

Lemma hemisphere_sorted_sublist (l k : list Label) :
  l `sublist_of` k → hemisphere_sorted k → hemisphere_sorted l.
Proof.
  intros Hsub. induction Hsub as [|x l k Hsub IH|x l k Hsub IH]; intros Hs.
  - done.
  - pose proof (IH (hemisphere_sorted_tail _ _ Hs)) as Hl.
    intros i j a b Ha Hb Hra Hlb.
    destruct i as [|i], j as [|j].
    + cbn in Ha, Hb. congruence.
    + cbn in Ha. injection Ha as ->.
      cbn in Hb. apply list_elem_of_lookup_2 in Hb.
      apply (λ H, elem_of_sublist _ _ _ H Hsub) in Hb.
      apply list_elem_of_lookup_1 in Hb as [j' Hb].
      specialize (Hs 0 (S j') a b eq_refl Hb Hra Hlb). lia.
    + lia.
    + cbn in Ha, Hb. specialize (Hl i j a b Ha Hb Hra Hlb). lia.
  - apply IH. by eapply hemisphere_sorted_tail.
Qed.

(** [setup_labels] once the parcellation is read: every label of the file is
    returned exactly once, among the unwanted ones exactly when its name
    without its last three characters is listed in [unwanted_labels], and a
    line is printed for each of these; the unwanted labels are in the order
    of the file; the other labels are returned with the left hemisphere
    before the right, each hemisphere in the order of the file, hence all of
    them in the order of the file when it lists the left hemisphere first. *)
Theorem setup_labels_partition (subject parc subjects_dir : string)
    (unwanted_labels : list string) (all_labels : list Label) :
  read_labels_from_annot subject parc subjects_dir = Ok all_labels →
  ∃ labels labels_unwanted,
    setup_labels read_labels_from_annot subject parc subjects_dir
      unwanted_labels
    = (Ok (labels, labels_unwanted),
       map (fun l => ("Removing " ++ label_name l)%string) labels_unwanted)
    ∧ labels ++ labels_unwanted ≡ₚ all_labels
    ∧ (∀ label, label ∈ labels_unwanted ↔
         label ∈ all_labels ∧ is_unwanted unwanted_labels label = true)
    ∧ labels_unwanted `sublist_of` all_labels
    ∧ hemisphere_sorted labels
    ∧ (∀ h, List.filter (on_hemi h) labels `sublist_of` all_labels)
    ∧ (hemisphere_sorted all_labels → labels `sublist_of` all_labels).
Proof.
  intros Hread. unfold setup_labels. rewrite Hread, setup_labels_loop.
  cbn [fst snd app].
  set (kept := List.filter (fun l => negb (is_unwanted unwanted_labels l))
                 all_labels).
  set (unw := List.filter (is_unwanted unwanted_labels) all_labels).
  change (List.filter (fun label => same_hemi (hemi label) lh) kept)
    with (List.filter (on_hemi lh) kept).
  change (List.filter (fun label => same_hemi (hemi label) rh) kept)
    with (List.filter (on_hemi rh) kept).
  exists (List.filter (on_hemi lh) kept ++ List.filter (on_hemi rh) kept), unw.
  split; [done|]. split; [|split; [|split; [|split; [|split]]]].
  - rewrite filter_hemispheres. apply filter_partition.
  - intros label. apply elem_of_List_filter.
  - apply filter_sublist.
  - apply hemispheres_sorted.
  - intros h. transitivity kept; [|apply filter_sublist].
    rewrite List.filter_app.
    destruct h.
    + rewrite (filter_all (on_hemi lh) (List.filter (on_hemi lh) kept)),
        (filter_none (on_hemi lh) (List.filter (on_hemi rh) kept)).
      * rewrite app_nil_r. apply filter_sublist.
      * intros x [_ Hx]%elem_of_List_filter. unfold on_hemi in *.
        by destruct (hemi x).
      * by intros x [_ Hx]%elem_of_List_filter.
    + rewrite (filter_none (on_hemi rh) (List.filter (on_hemi lh) kept)),
        (filter_all (on_hemi rh) (List.filter (on_hemi rh) kept)).
      * apply filter_sublist.
      * by intros x [_ Hx]%elem_of_List_filter.
      * intros x [_ Hx]%elem_of_List_filter. unfold on_hemi in *.
        by destruct (hemi x).
  - intros Hs. rewrite hemisphere_sorted_fixed.
    + apply filter_sublist.
    + eapply hemisphere_sorted_sublist; [apply filter_sublist|done].
Qed.

End SetupLabelsFacts.

(** A file that lists a right-hemisphere label first: the labels kept come
    back with the left hemisphere first. *)
Lemma setup_labels_reorders :
  setup_labels (fun _ _ _ => Ok four_labels) "sample" "aparc" "subjects"
    default_unwanted_labels
  = (Ok ([MkLabel "precentral-lh" lh [0; 1]; MkLabel "precentral-rh" rh [0; 1]],
         [MkLabel "unknown-lh" lh [2]; MkLabel "unknown-rh" rh [2]]),
     ["Removing unknown-lh"; "Removing unknown-rh"]).
Proof. reflexivity. Qed.

Lemma setup_labels_partition_witness :
  ∃ labels labels_unwanted,
    setup_labels (fun _ _ _ => Ok four_labels) "sample" "aparc" "subjects"
      default_unwanted_labels
    = (Ok (labels, labels_unwanted),
       map (fun l => ("Removing " ++ label_name l)%string) labels_unwanted)
    ∧ labels ++ labels_unwanted ≡ₚ four_labels
    ∧ (∀ label, label ∈ labels_unwanted ↔
         label ∈ four_labels ∧ is_unwanted default_unwanted_labels label = true)
    ∧ labels_unwanted `sublist_of` four_labels
    ∧ hemisphere_sorted labels
    ∧ (∀ h, List.filter (on_hemi h) labels `sublist_of` four_labels)
    ∧ (hemisphere_sorted four_labels → labels `sublist_of` four_labels).
Proof.
  apply (setup_labels_partition (fun _ _ _ => Ok four_labels)
           "sample" "aparc" "subjects" default_unwanted_labels four_labels).
  reflexivity.
Defined.

(** ** get_label_center_points *)

Section LabelCenterPointsFacts.
Context {F : Type} `{Scalar F}.

Lemma mapM_lookup_nth {A} (l : list A) (d : A) (vs : list nat) :
  Forall (fun v => v < length l) vs →
  mapM (fun v => l !! v) vs = Some (map (fun v => nth v l d) vs).
Proof.
  induction 1 as [|v vs Hv _ IH]; [done|].
  cbn [mapM map]. destruct (lookup_lt_is_Some_2 l v Hv) as [x Hx].
  rewrite Hx, IH. cbn. by rewrite (nth_lookup_Some _ _ _ _ Hx).
Qed.

Lemma take_rows_nth (positions : list (vec3 F)) (verts : list nat) h :
  Forall (fun v => v < length positions) verts →
  take_rows positions verts h
  = (Ok (map (fun v => nth v positions (of_Z 0, of_Z 0, of_Z 0)) verts), h).
Proof.
  intros Hv. unfold take_rows.
  by rewrite (mapM_lookup_nth (A:=vec3 F) positions (of_Z 0, of_Z 0, of_Z 0) _ Hv).
Qed.

Lemma argmin_from_bound (v : list F) : ∀ best_i best i,
  best_i < i → argmin_from best_i best i v < i + length v.
Proof.
  induction v as [|x v IH]; intros best_i best i Hlt; cbn [argmin_from length].
  - lia.
  - destruct (np_less x best).
    + specialize (IH i x (S i)). lia.
    + specialize (IH best_i best (S i)). lia.
Qed.

Lemma argmin_of_bound (v : list F) : v ≠ [] → argmin_of v < length v.
Proof.
  destruct v as [|x v]; [done|]. intros _. cbn [argmin_of length].
  pose proof (argmin_from_bound v 0 x 1). lia.
Qed.

Lemma centered_length (rows : list (vec3 F)) :
  length (centered rows) = length rows.
Proof. unfold centered. by rewrite length_map. Qed.

Lemma filter_in_range {A} (p : A → bool) (P : A → Prop) (l : list A) :
  Forall P l → Forall P (List.filter p l).
Proof.
  induction 1 as [|x l Hx _ IH]; [done|]. cbn [List.filter].
  destruct (p x); [by constructor|done].
Qed.

Lemma center_points_step_ok (src : surface F * surface F)
    (sphere : source_space F * source_space F) (i : nat) (label : Label)
    (center_vertices : list nat) (zero_labels : list (nat * Label)) h :
  vertices_in_range sphere label →
  center_points_step src (turn_of label)
    (centered (rr (src_at sphere (turn_of label)))) (i, label)
    (center_vertices, zero_labels) h
  = (Ok (if no_source src label
         then (center_vertices, zero_labels ++ [(i, label)])
         else (center_vertices ++ [center_index_of src sphere label],
               zero_labels)), h).
Proof.
  intros Hrange.
  assert (src_at sphere (turn_of label) = space_of sphere label) as Hsp
    by (unfold src_at, turn_of, space_of; by destruct (hemi label)).
  assert (src_at src (turn_of label) = surface_of src label) as Hsf
    by (unfold src_at, turn_of, surface_of; by destruct (hemi label)).
  assert (turn_of label * surface_np src.1 = vertex_offset src label) as Hoff
    by (unfold turn_of, vertex_offset; destruct (hemi label); lia).
  unfold vertices_in_range in Hrange.
  rewrite <- (centered_length (rr (space_of sphere label))) in Hrange.
  unfold center_points_step. cbn [fst snd]. rewrite Hsp, Hsf, Hoff.
  unfold bind at 1. rewrite take_rows_nth by done.
  fold (sources_in src label). fold (no_source src label).
  destruct (no_source src label) eqn:Hno; [done|].
  unfold bind at 1.
  rewrite take_rows_nth by (by apply filter_in_range).
  unfold bind at 1. unfold distances_to. rewrite map_map.
  change (map _ (sources_in src label))
    with (map (sphere_distance sphere label) (sources_in src label)).
  assert (sources_in src label ≠ []) as Hne.
  { intros E. unfold no_source in Hno. by rewrite E in Hno. }
  assert (map (sphere_distance sphere label) (sources_in src label) ≠ [])
    as Hne' by (by destruct (sources_in src label)).
  pose proof (argmin_of_bound _ Hne') as Hb. rewrite length_map in Hb.
  unfold np_argmin.
  destruct (map (sphere_distance sphere label) (sources_in src label))
    as [|d ds] eqn:Hd; [done|].
  unfold ret at 1. unfold bind at 1, getitem_nat.
  change (argmin_from 0 d 1 ds) with (argmin_of (d :: ds)). rewrite <- Hd.
  rewrite <- Hd in Hb.
  destruct (lookup_lt_is_Some_2 _ _ Hb) as [v Hv]. rewrite Hv.
  unfold ret at 1 2. unfold center_index_of, center_vertex_of.
  by rewrite (nth_lookup_Some _ _ _ _ Hv).
Qed.

Lemma center_points_step_raises (src : surface F * surface F)
    (sphere : source_space F * source_space F) (i : nat) (label : Label)
    (acc : list nat * list (nat * Label)) h :
  ¬ vertices_in_range sphere label →
  center_points_step src (turn_of label)
    (centered (rr (src_at sphere (turn_of label)))) (i, label) acc h
  = (Raise IndexError, h).
Proof.
  intros Hrange.
  assert (src_at sphere (turn_of label) = space_of sphere label) as Hsp
    by (unfold src_at, turn_of, space_of; by destruct (hemi label)).
  unfold vertices_in_range in Hrange.
  rewrite <- (centered_length (rr (space_of sphere label))) in Hrange.
  unfold center_points_step. cbn [fst snd]. rewrite Hsp.
  unfold bind at 1. by rewrite take_rows_out_of_range.
Qed.

(** The loop over the labels of one hemisphere. *)
Lemma center_points_loop (src : surface F * surface F)
    (sphere : source_space F * source_space F) (c : nat)
    (ls : list (nat * Label)) : ∀ center_vertices zero_labels h,
  Forall (fun clabel => turn_of clabel.2 = c) ls →
  Forall (fun clabel => vertices_in_range sphere clabel.2) ls →
  for_each ls (center_points_step src c (centered (rr (src_at sphere c))))
    (center_vertices, zero_labels) h
  = (Ok (center_vertices
           ++ map (fun clabel => center_index_of src sphere clabel.2)
                (List.filter (fun clabel => negb (no_source src clabel.2)) ls),
         zero_labels
           ++ List.filter (fun clabel => no_source src clabel.2) ls), h).
Proof.
  induction ls as [|[i label] ls IH]; intros cv zl h Hc Hr.
  - cbn. by rewrite !app_nil_r.
  - apply Forall_cons in Hc as [Hci Hc]. apply Forall_cons in Hr as [Hri Hr].
    cbn [fst snd] in Hci, Hri. subst c.
    cbn [for_each List.filter fst snd]. unfold bind at 1.
    rewrite center_points_step_ok by done.
    destruct (no_source src label); cbn [negb map];
      rewrite IH by done; by rewrite <- app_assoc.
Qed.

Lemma center_points_loop_raises (src : surface F * surface F)
    (sphere : source_space F * source_space F) (c : nat)
    (ls : list (nat * Label)) : ∀ acc h,
  Forall (fun clabel => turn_of clabel.2 = c) ls →
  ¬ Forall (fun clabel => vertices_in_range sphere clabel.2) ls →
  for_each ls (center_points_step src c (centered (rr (src_at sphere c))))
    acc h
  = (Raise IndexError, h).
Proof.
  induction ls as [|[i label] ls IH]; intros [cv zl] h Hc Hr.
  - exfalso. apply Hr. constructor.
  - apply Forall_cons in Hc as [Hci Hc]. cbn [fst snd] in Hci. subst c.
    cbn [for_each]. unfold bind at 1.
    destruct (decide (Forall (fun v => v < length (rr (space_of sphere label)))
                        (vertices label))) as [Hri|Hri].
    + rewrite center_points_step_ok by done.
      destruct (no_source src label); apply IH; try done.
      all: intros Hls; apply Hr; by constructor.
    + by rewrite center_points_step_raises.
Qed.

Lemma labels_of_hemi_labels (labels : list Label) (h : hemisphere) :
  map snd (labels_of_hemi labels h) = List.filter (on_hemi h) labels.
Proof.
  unfold labels_of_hemi, enumerate. generalize 0.
  induction labels as [|label labels IH]; intros s; [done|].
  cbn [length seq zip zip_with List.filter snd].
  change (same_hemi (hemi label) h) with (on_hemi h label).
  destruct (on_hemi h label); cbn [map snd]; by rewrite IH.
Qed.

Lemma labels_of_hemi_turn (labels : list Label) (h : hemisphere) :
  Forall (fun clabel => turn_of clabel.2 = match h with lh => 0 | rh => 1 end)
    (labels_of_hemi labels h).
Proof.
  apply Forall_forall. intros [i label] Hin.
  apply list_elem_of_In, filter_In in Hin as [_ Hin]. cbn [snd] in *.
  unfold turn_of. by destruct (hemi label), h.
Qed.

Lemma Forall_snd {A B} (P : B → Prop) (l : list (A * B)) :
  Forall (fun x => P x.2) l ↔ Forall P (map snd l).
Proof. by rewrite Forall_fmap. Qed.

Lemma filter_snd {A B} (p : B → bool) (l : list (A * B)) :
  map snd (List.filter (fun x => p x.2) l) = List.filter p (map snd l).
Proof.
  induction l as [|x l IH]; [done|]. cbn [List.filter map].
  destruct (p x.2); cbn [map]; by rewrite IH.
Qed.

Lemma Forall_by_hemisphere (P : Label → Prop) (labels : list Label) :
  Forall P labels ↔ Forall P (by_hemisphere labels).
Proof.
  unfold by_hemisphere. rewrite Forall_app, !Forall_forall. split.
  - intros HP. split; intros x Hx%list_elem_of_In%filter_In;
      apply HP, list_elem_of_In, Hx.
  - intros [Hl Hr] x Hx. destruct (hemi x) eqn:E.
    + apply Hl, list_elem_of_In, filter_In. split; [by apply list_elem_of_In|].
      unfold on_hemi. by rewrite E.
    + apply Hr, list_elem_of_In, filter_In. split; [by apply list_elem_of_In|].
      unfold on_hemi. by rewrite E.
Qed.

Lemma filter_no_source_nil (src : surface F * surface F) (ls : list Label) :
  Forall (fun label => sources_in src label ≠ []) ls →
  List.filter (no_source src) ls = []
  ∧ List.filter (fun label => negb (no_source src label)) ls = ls.
Proof.
  intros Hall. split.
  - apply filter_none. intros x Hx.
    pose proof (proj1 (Forall_forall _ _) Hall x Hx) as Hne.
    cbn beta in Hne. unfold no_source. by destruct (sources_in src x).
  - apply filter_all. intros x Hx.
    pose proof (proj1 (Forall_forall _ _) Hall x Hx) as Hne.
    cbn beta in Hne. unfold no_source. by destruct (sources_in src x).
Qed.

Lemma filter_no_source_cons (src : surface F * surface F) (ls : list Label) :
  Exists (fun label => sources_in src label = []) ls →
  List.filter (no_source src) ls ≠ [].
Proof.
  intros [x [Hx Hno]]%Exists_exists Hnil.
  assert (x ∈ List.filter (no_source src) ls) as Hin.
  { apply elem_of_List_filter. split; [done|]. unfold no_source.
    by rewrite Hno. }
  rewrite Hnil in Hin. by apply elem_of_nil in Hin.
Qed.

(** The two turns of the loop over the hemispheres. *)
Lemma center_points_loops (labels : list Label) (src : surface F * surface F)
    (sphere : source_space F * source_space F) h :
  Forall (vertices_in_range sphere) labels →
  for_each [0; 1] (fun c acc =>
      let src_sphere := src_at sphere c in
      let rr := centered (rr src_sphere) in
      let labels_hemi :=
        src_at (labels_of_hemi labels lh, labels_of_hemi labels rh) c in
      for_each labels_hemi (center_points_step src c rr) acc) ([], []) h
  = (Ok (map (center_index_of src sphere)
           (List.filter (fun label => negb (no_source src label))
              (by_hemisphere labels)),
         List.filter (fun clabel => no_source src clabel.2)
           (labels_of_hemi labels lh ++ labels_of_hemi labels rh)), h).
Proof.
  intros Hrange. apply Forall_by_hemisphere in Hrange.
  unfold by_hemisphere in *. apply Forall_app in Hrange as [Hl Hr].
  rewrite <- !labels_of_hemi_labels in Hl, Hr.
  apply Forall_snd in Hl, Hr.
  cbn [for_each]. unfold bind at 1. cbn zeta.
  change (src_at (labels_of_hemi labels lh, labels_of_hemi labels rh) 0)
    with (labels_of_hemi labels lh).
  rewrite (center_points_loop src sphere 0 _ [] [] h
             (labels_of_hemi_turn labels lh) Hl).
  unfold bind at 1.
  change (src_at (labels_of_hemi labels lh, labels_of_hemi labels rh) 1)
    with (labels_of_hemi labels rh).
  rewrite (center_points_loop src sphere 1 _ _ _ h
             (labels_of_hemi_turn labels rh) Hr).
  unfold ret. cbn [app].
  rewrite !List.filter_app, map_app, <- !labels_of_hemi_labels.
  rewrite <- !(filter_snd (fun label => negb (no_source src label))).
  by rewrite !map_map.
Qed.

Lemma center_points_loops_raise (labels : list Label)
    (src : surface F * surface F)
    (sphere : source_space F * source_space F) h :
  ¬ Forall (vertices_in_range sphere) labels →
  for_each [0; 1] (fun c acc =>
      let src_sphere := src_at sphere c in
      let rr := centered (rr src_sphere) in
      let labels_hemi :=
        src_at (labels_of_hemi labels lh, labels_of_hemi labels rh) c in
      for_each labels_hemi (center_points_step src c rr) acc) ([], []) h
  = (Raise IndexError, h).
Proof.
  intros Hrange. rewrite Forall_by_hemisphere in Hrange.
  unfold by_hemisphere in *. rewrite Forall_app in Hrange.
  rewrite <- !labels_of_hemi_labels in Hrange.
  rewrite <- !(Forall_snd (vertices_in_range sphere)) in Hrange.
  cbn [for_each]. unfold bind at 1. cbn zeta.
  change (src_at (labels_of_hemi labels lh, labels_of_hemi labels rh) 0)
    with (labels_of_hemi labels lh).
  change (src_at (labels_of_hemi labels lh, labels_of_hemi labels rh) 1)
    with (labels_of_hemi labels rh).
  destruct (decide (Forall (fun clabel : nat * Label =>
                              Forall (fun v => v < length (rr (space_of sphere clabel.2)))
                                (vertices clabel.2))
                      (labels_of_hemi labels lh))) as [Hl|Hl].
  - rewrite (center_points_loop src sphere 0 _ [] [] h
               (labels_of_hemi_turn labels lh) Hl).
    unfold bind at 1.
    rewrite (center_points_loop_raises src sphere 1 _ _ h
               (labels_of_hemi_turn labels rh)); [done|].
    intros Hr. by apply Hrange.
  - by rewrite (center_points_loop_raises src sphere 0 _ _ h
                  (labels_of_hemi_turn labels lh) Hl).
Qed.

Lemma zero_labels_of (src : surface F * surface F) (labels : list Label) :
  map snd (List.filter (fun clabel : nat * Label => no_source src clabel.2)
             (labels_of_hemi labels lh ++ labels_of_hemi labels rh))
  = List.filter (no_source src) (by_hemisphere labels).
Proof.
  rewrite (filter_snd (no_source src)), map_app, !labels_of_hemi_labels. done.
Qed.

(** The run of [get_label_center_points], by what its loops meet. *)
Lemma get_label_center_points_run (labels : list Label)
    (src : surface F * surface F)
    (sphere : source_space F * source_space F) h :
  let centers := map (center_index_of src sphere) (by_hemisphere labels) in
  let positions := surface_rr src.1 ++ surface_rr src.2 in
  get_label_center_points labels src sphere h
  = (if decide (Forall (fun label =>
                          Forall (fun v => v < length (rr (space_of sphere label)))
                            (vertices label)) labels)
     then if existsb (no_source src) labels
          then Ok (zeros_1000_3, inl zeros_1000_3)
          else if decide (labels ≠ []
                          ∧ Forall (fun v => v < length positions) centers)
          then Ok (map (fun v => nth v positions (of_Z 0, of_Z 0, of_Z 0))
                     centers, inr centers)
          else Raise IndexError
     else Raise IndexError, h).
Proof.
  intros centers positions. unfold get_label_center_points.
  destruct (decide (Forall _ labels)) as [Hrange|Hrange].
  2: { unfold bind at 1. by rewrite center_points_loops_raise. }
  unfold bind at 1. rewrite center_points_loops by done. cbn [fst snd].
  set (zero_labels := List.filter _ (_ ++ _)).
  assert (length zero_labels
          = length (List.filter (no_source src) (by_hemisphere labels)))
    as Hzero by (by rewrite <- zero_labels_of, length_map).
  clearbody zero_labels.
  destruct (existsb (no_source src) labels) eqn:Hex.
  - apply existsb_exists in Hex as (x & Hx%list_elem_of_In & Hno).
    assert (x ∈ List.filter (no_source src) (by_hemisphere labels)) as Hin.
    { apply elem_of_List_filter. split; [|done]. unfold by_hemisphere.
      rewrite elem_of_app, !elem_of_List_filter. unfold on_hemi.
      destruct (hemi x); auto. }
    destruct (List.filter (no_source src) (by_hemisphere labels));
      [by apply elem_of_nil in Hin|].
    by destruct zero_labels.
  - assert (∀ x, x ∈ by_hemisphere labels → no_source src x = false) as Hall.
    { intros x Hx. unfold by_hemisphere in Hx.
      rewrite elem_of_app, !elem_of_List_filter in Hx.
      assert (x ∈ labels) as Hin by (by destruct Hx as [[? _]|[? _]]).
      destruct (no_source src x) eqn:Hno; [|done].
      rewrite <- Hex. symmetry. apply existsb_exists. exists x.
      by rewrite <- list_elem_of_In. }
    rewrite (filter_none _ _ Hall) in Hzero. destruct zero_labels; [|done].
    rewrite filter_all
      by (intros x Hx; by rewrite (Hall x Hx)).
    fold centers. cbn [length Nat.ltb Nat.leb].
    assert (length centers = length labels) as Hlen.
    { unfold centers, by_hemisphere. rewrite length_map.
      by rewrite filter_hemispheres. }
    destruct (decide (labels ≠ [] ∧ _)) as [[Hne Hc]|Hn].
    + destruct (length centers =? 0) eqn:E.
      { apply Nat.eqb_eq in E. rewrite Hlen in E.
        by apply nil_length_inv in E. }
      unfold bind at 1. fold positions. by rewrite take_rows_nth.
    + destruct (length centers =? 0) eqn:E; [done|].
      unfold bind at 1. fold positions. rewrite take_rows_out_of_range; [done|].
      intros Hc. apply Hn. split; [|done]. intros ->.
      by rewrite Hlen in E.
Qed.

Lemma no_source_spec (src : surface F * surface F) (label : Label) :
  no_source src label = true ↔ sources_in src label = [].
Proof.
  unfold no_source. rewrite Nat.eqb_eq. split.
  - apply nil_length_inv.
  - by intros ->.
Qed.

Lemma existsb_no_source (src : surface F * surface F) (labels : list Label) :
  existsb (no_source src) labels = true
  ↔ Exists (fun label => sources_in src label = []) labels.
Proof.
  rewrite existsb_exists, Exists_exists. split.
  - intros (x & Hx & Hno). exists x.
    by rewrite list_elem_of_In, <- no_source_spec.
  - intros (x & Hx & Hno). exists x.
    by rewrite <- list_elem_of_In, no_source_spec.
Qed.

(** [get_label_center_points(labels, src, src_space_sphere)], case by case.
    If a vertex of a label is no vertex of the sphere of its hemisphere, it
    raises IndexError.  Otherwise, if a label has no vertex among the sources
    in use of its hemisphere, it returns two arrays of zeros of shape
    (1000, 3).  Otherwise it raises IndexError if there is no label at all
    (the empty list of center vertices becomes an array of floats) or if a
    center vertex, counted over both hemispheres, is beyond the positions of
    [src]; and else it returns the center vertices, first those of the labels
    of the left hemisphere and then those of the right, each the label's
    center vertex plus, on the right, the number of vertices of the left
    surface, with the positions they index.  The heap is left as it was. *)
Theorem get_label_center_points_outcome (labels : list Label)
    (src : surface F * surface F)
    (sphere : source_space F * source_space F) h :
  let centers := map (center_index_of src sphere) (by_hemisphere labels) in
  let positions := surface_rr src.1 ++ surface_rr src.2 in
  ∃ res,
    get_label_center_points labels src sphere h = (res, h)
    ∧ (¬ Forall (vertices_in_range sphere) labels → res = Raise IndexError)
    ∧ (Forall (vertices_in_range sphere) labels →
       (Exists (fun label => sources_in src label = []) labels →
          res = Ok (zeros_1000_3, inl zeros_1000_3))
       ∧ (Forall (fun label => sources_in src label ≠ []) labels →
          (labels = [] → res = Raise IndexError)
          ∧ (¬ Forall (fun v => v < length positions) centers →
               res = Raise IndexError)
          ∧ (labels ≠ [] → Forall (fun v => v < length positions) centers →
               res = Ok (map (fun v => nth v positions
                                         (of_Z 0, of_Z 0, of_Z 0)) centers,
                         inr centers)))).
Proof.
  intros centers positions.
  rewrite get_label_center_points_run. fold centers positions.
  eexists. split; [done|].
  destruct (decide (Forall _ labels)) as [Hrange|Hrange].
  2: { split; [done|]. intros Hr. by destruct Hrange. }
  split; [done|]. intros _.
  destruct (existsb (no_source src) labels) eqn:Hex.
  - split; [done|]. intros Hall. exfalso.
    apply existsb_no_source, Exists_exists in Hex as (x & Hx & Hno).
    by apply (proj1 (Forall_forall _ _) Hall x Hx).
  - split.
    { intros Hx%existsb_no_source. congruence. }
    intros _. destruct (decide (labels ≠ [] ∧ _)) as [[Hne Hc]|Hn].
    + split; [done|]. split; done.
    + split; [done|]. split; [done|]. intros Hne Hc. by destruct Hn.
Qed.

Lemma elem_of_sources_in (src : surface F * surface F) (label : Label) v :
  v ∈ sources_in src label
  ↔ v ∈ vertices label ∧ v ∈ surface_vertno (surface_of src label).
Proof.
  unfold sources_in. rewrite elem_of_List_filter. unfold np_contains.
  rewrite existsb_exists. split.
  - intros [Hv (x & Hx & Hvx)]. apply Nat.eqb_eq in Hvx. subst x.
    split; [done|]. by apply list_elem_of_In.
  - intros [Hv Hs]. split; [done|]. exists v.
    by rewrite <- list_elem_of_In, Nat.eqb_refl.
Qed.

(** The center vertex of a label with sources is one of them, and none of
    them is nearer to the label's center of gravity on the sphere. *)
Lemma center_vertex_nearest (src : surface F * surface F)
    (sphere : source_space F * source_space F) (label : Label) :
  (∀ x : F, np_less x x = false) →
  (∀ x y z : F, np_less x y = true → np_less y z = true → np_less x z = true) →
  sources_in src label ≠ [] →
  center_vertex_of src sphere label ∈ sources_in src label
  ∧ ∀ w, w ∈ sources_in src label →
      np_less (sphere_distance sphere label w)
        (sphere_distance sphere label (center_vertex_of src sphere label))
      = false.
Proof.
  intros Hirr Htrans Hne.
  assert (map (sphere_distance sphere label) (sources_in src label) ≠ [])
    as Hne' by (by destruct (sources_in src label)).
  destruct (argmin_of_least _ Hirr Htrans Hne') as (least & Hk & Hleast).
  apply list_lookup_fmap_Some in Hk as (v & -> & Hv).
  unfold center_vertex_of. rewrite (nth_lookup_Some _ _ _ _ Hv). split.
  - by eapply list_elem_of_lookup_2.
  - intros w Hw. apply Hleast. apply list_elem_of_fmap. eauto.
Qed.

(** What [get_label_center_points] returns when it returns center vertices
    (the order of np.argmin assumed to be a strict order, as it is for
    float64 and for exact numbers): one vertex and one position per label;
    entry i belongs to label i of the list of the left-hemisphere labels
    followed by the right-hemisphere ones, which is the list [labels] itself
    when that is sorted by hemisphere; the vertex is a vertex of the label
    among the sources in use of its hemisphere, no such vertex of the label
    is nearer to the label's center of gravity on the centered sphere, and it
    is returned plus, on the right, the number of vertices of the left
    surface; the position is the row of the positions of [src] at that
    index. *)
Theorem get_label_center_points_centers (labels : list Label)
    (src : surface F * surface F)
    (sphere : source_space F * source_space F) h h'
    (center_points : list (vec3 F)) (center_vertices : list nat) :
  (∀ x : F, np_less x x = false) →
  (∀ x y z : F, np_less x y = true → np_less y z = true → np_less x z = true) →
  get_label_center_points labels src sphere h
  = (Ok (center_points, inr center_vertices), h') →
  length center_vertices = length labels
  ∧ length center_points = length labels
  ∧ (hemisphere_sorted labels → by_hemisphere labels = labels)
  ∧ ∀ i label, by_hemisphere labels !! i = Some label →
      ∃ v, center_vertices !! i = Some (v + vertex_offset src label)
           ∧ center_points !! i
             = (surface_rr src.1 ++ surface_rr src.2)
                 !! (v + vertex_offset src label)
           ∧ v ∈ vertices label
           ∧ v ∈ surface_vertno (surface_of src label)
           ∧ ∀ w, w ∈ vertices label →
                  w ∈ surface_vertno (surface_of src label) →
                  np_less (sphere_distance sphere label w)
                    (sphere_distance sphere label v) = false.
Proof.
  intros Hirr Htrans. rewrite get_label_center_points_run.
  destruct (decide (Forall _ labels)) as [Hrange|Hrange]; [|done].
  destruct (existsb (no_source src) labels) eqn:Hex; [done|].
  destruct (decide (labels ≠ [] ∧ _)) as [[Hne Hc]|Hn]; [|done].
  intros [= <- <- <-].
  assert (length (by_hemisphere labels) = length labels) as Hlen
    by (unfold by_hemisphere; by rewrite filter_hemispheres).
  split; [by rewrite length_map|]. split; [by rewrite !length_map|].
  split; [apply hemisphere_sorted_fixed|].
  intros i label Hi.
  assert (sources_in src label ≠ []) as Hsrc.
  { intros Hno%no_source_spec.
    assert (label ∈ labels) as Hin.
    { apply list_elem_of_lookup_2 in Hi. unfold by_hemisphere in Hi.
      rewrite elem_of_app, !elem_of_List_filter in Hi.
      by destruct Hi as [[? _]|[? _]]. }
    assert (existsb (no_source src) labels = true); [|congruence].
    apply existsb_exists. exists label. by rewrite <- list_elem_of_In. }
  destruct (center_vertex_nearest src sphere label Hirr Htrans Hsrc)
    as [Hv Hleast].
  exists (center_vertex_of src sphere label).
  rewrite !list_lookup_fmap, Hi. cbn [fmap option_fmap option_map].
  apply elem_of_sources_in in Hv as [Hv1 Hv2].
  split; [done|]. split.
  { assert (center_index_of src sphere label
            < length (surface_rr src.1 ++ surface_rr src.2)) as Hlt.
    { apply (proj1 (Forall_forall _ _) Hc).
      apply list_elem_of_fmap. exists label. split; [done|].
      by eapply list_elem_of_lookup_2. }
    destruct (lookup_lt_is_Some_2 _ _ Hlt) as [x Hx].
    unfold center_index_of in Hx. rewrite Hx. f_equal.
    by apply nth_lookup_Some. }
  split; [done|]. split; [done|].
  intros w Hw1 Hw2. apply Hleast. by apply elem_of_sources_in.
Qed.

End LabelCenterPointsFacts.

Lemma get_label_center_points_centers_witness :
  length [1; 2] = length two_labels
  ∧ length [(2 # 1, 0, 0); (0, 3 # 1, 0)]%Q = length two_labels
  ∧ (hemisphere_sorted two_labels → by_hemisphere two_labels = two_labels)
  ∧ ∀ i label, by_hemisphere two_labels !! i = Some label →
      ∃ v, [1; 2] !! i = Some (v + vertex_offset two_surfaces label)
           ∧ [(2 # 1, 0, 0); (0, 3 # 1, 0)]%Q !! i
             = (surface_rr two_surfaces.1 ++ surface_rr two_surfaces.2)
                 !! (v + vertex_offset two_surfaces label)
           ∧ v ∈ vertices label
           ∧ v ∈ surface_vertno (surface_of two_surfaces label)
           ∧ ∀ w, w ∈ vertices label →
                  w ∈ surface_vertno (surface_of two_surfaces label) →
                  np_less (sphere_distance two_spaces label w)
                    (sphere_distance two_spaces label v) = false.
Proof.
  apply (get_label_center_points_centers two_labels two_surfaces two_spaces
           [] [] [(2 # 1, 0, 0); (0, 3 # 1, 0)]%Q [1; 2]
           Q_np_less_irrefl Q_np_less_trans).
  vm_compute. reflexivity.
Defined.

(** ** get_peak_dipole_error *)

Section PeakDipoleErrorFacts.
Context {F : Type} `{Scalar F}.

Lemma argmax_from_bound (v : list F) : ∀ best_i best i,
  best_i < i → argmax_from best_i best i v < i + length v.
Proof.
  induction v as [|x v IH]; intros best_i best i Hlt; cbn [argmax_from length].
  - lia.
  - destruct (np_greater x best).
    + specialize (IH i x (S i)). lia.
    + specialize (IH best_i best (S i)). lia.
Qed.

Lemma argmax_of_bound (v : list F) : v ≠ [] → argmax_of v < length v.
Proof.
  destruct v as [|x v]; [done|]. intros _. cbn [argmax_of length].
  pose proof (argmax_from_bound v 0 x 1). lia.
Qed.

Lemma argmax_from_greatest (v : list F) :
  (∀ x, np_greater x x = false) →
  (∀ x y z, np_greater x y = true → np_greater y z = true →
            np_greater x z = true) →
  ∀ (pre : list F) best_i best,
  pre !! best_i = Some best →
  (∀ x, x ∈ pre → np_greater x best = false) →
  ∃ top, (pre ++ v) !! argmax_from best_i best (length pre) v = Some top
         ∧ ∀ x, x ∈ pre ++ v → np_greater x top = false.
Proof.
  intros Hirr Htrans.
  induction v as [|x v IH]; intros pre best_i best Hbest Hpre.
  - exists best. rewrite app_nil_r. by split.
  - cbn [argmax_from].
    replace (pre ++ x :: v) with ((pre ++ [x]) ++ v) by (by rewrite <- app_assoc).
    replace (S (length pre)) with (length (pre ++ [x]))
      by (rewrite length_app; simpl; lia).
    destruct (np_greater x best) eqn:Hx.
    + apply IH; [by apply list_lookup_middle|].
      intros y [Hy|Hy%list_elem_of_singleton]%elem_of_app.
      * destruct (np_greater y x) eqn:Hyx; [|done].
        specialize (Hpre y Hy). by rewrite (Htrans _ _ _ Hyx Hx) in Hpre.
      * subst y. apply Hirr.
    + apply IH; [by apply lookup_app_l_Some|].
      intros y [Hy|Hy%list_elem_of_singleton]%elem_of_app; [by apply Hpre|].
      by subst y.
Qed.

Lemma argmax_of_greatest (v : list F) :
  (∀ x, np_greater x x = false) →
  (∀ x y z, np_greater x y = true → np_greater y z = true →
            np_greater x z = true) →
  v ≠ [] →
  ∃ top, v !! argmax_of v = Some top
         ∧ ∀ x, x ∈ v → np_greater x top = false.
Proof.
  intros Hirr Htrans Hne. destruct v as [|x v]; [done|].
  apply (argmax_from_greatest v Hirr Htrans [x] 0 x); [done|].
  intros y Hy%list_elem_of_singleton. subst y. apply Hirr.
Qed.

Lemma peak_source_bound (r : ndarray F) (j : nat) :
  1 ≤ shape0 r → peak_source r j < shape0 r.
Proof.
  intros Hr. unfold peak_source.
  assert (map fabs (column r j) ≠ []) as Hne.
  { intros E%(f_equal length). rewrite length_map, column_length in E.
    simpl in E. lia. }
  pose proof (argmax_of_bound _ Hne) as Hb.
  by rewrite length_map, column_length in Hb.
Qed.

(** In column [j] no entry is greater in absolute value than the one at the
    peak source. *)
Lemma peak_source_greatest (r : ndarray F) (j : nat) :
  (∀ x : F, np_greater x x = false) →
  (∀ x y z : F, np_greater x y = true → np_greater y z = true →
                np_greater x z = true) →
  1 ≤ shape0 r →
  ∀ k, k < shape0 r →
    np_greater (fabs (item r k j)) (fabs (item r (peak_source r j) j)) = false.
Proof.
  intros Hirr Htrans Hr k Hk.
  assert (map fabs (column r j) ≠ []) as Hne.
  { intros E%(f_equal length). rewrite length_map, column_length in E.
    simpl in E. lia. }
  destruct (argmax_of_greatest _ Hirr Htrans Hne) as (top & Htop & Hgt).
  fold (peak_source r j) in Htop.
  rewrite list_lookup_fmap, column_lookup in Htop
    by (by apply peak_source_bound).
  injection Htop as <-. apply Hgt. apply list_elem_of_fmap.
  exists (item r k j). split; [done|].
  eapply list_elem_of_lookup_2. by apply column_lookup.
Qed.

Lemma source_positions_length (src : surface F * surface F) :
  length (source_positions src)
  = length (surface_vertno src.1) + length (surface_vertno src.2).
Proof. unfold source_positions. by rewrite length_app, !length_map. Qed.

Lemma bound_get_label_center_points :
  string_in "get_label_center_points" module_names = true.
Proof. reflexivity. Qed.

Lemma broadcast_sub_heap (a b : list (vec3 F)) h :
  (broadcast_sub a b h).2 = h.
Proof.
  unfold broadcast_sub. destruct (length a =? length b); [done|].
  destruct a as [|x [|x' a]], b as [|y [|y' b]]; done.
Qed.

(** The run of [get_peak_dipole_error] once the center points are there. *)
Lemma get_peak_dipole_error_run (R_vl : loc) (src : surface F * surface F)
    (sphere : source_space F * source_space F) (labels : list Label)
    h (r : ndarray F) center_points center_vertices :
  get_label_center_points labels src sphere h
  = (Ok (center_points, center_vertices), h) →
  h !! R_vl = Some r → 1 ≤ shape0 r →
  sources_in_range src →
  shape0 r ≤ length (surface_vertno src.1) + length (surface_vertno src.2) →
  get_peak_dipole_error R_vl src sphere labels h
  = ((let* differences :=
        broadcast_sub (map (peak_position src r) (seq 0 (shape1 r)))
          center_points in
      ret (map (fun d => fmul (norm3 d) (of_Z 100)) differences)) h).
Proof.
  intros Hcenters HR Hr [Hl Hrh] Hrows.
  unfold get_peak_dipole_error, global_name.
  rewrite bound_get_label_center_points. unfold bind at 1.
  rewrite Hcenters. cbn [fst]. unfold bind at 1, load. rewrite HR.
  unfold bind at 1, argmax_abs_axis0.
  destruct (shape0 r =? 0) eqn:E; [apply Nat.eqb_eq in E; lia|].
  unfold ret at 1. unfold bind at 1. rewrite take_rows_nth by done.
  unfold bind at 1. rewrite take_rows_nth by done.
  fold (source_positions src). unfold bind at 1.
  rewrite take_rows_nth.
  - rewrite map_map. done.
  - apply Forall_forall. intros k (j & -> & Hj)%list_elem_of_fmap.
    rewrite source_positions_length.
    pose proof (peak_source_bound r j Hr). unfold peak_source in *. lia.
Qed.

Lemma center_points_returned (labels : list Label)
    (src : surface F * surface F)
    (sphere : source_space F * source_space F) h h'
    (center_points : list (vec3 F)) (center_vertices : list nat) :
  get_label_center_points labels src sphere h
  = (Ok (center_points, inr center_vertices), h') →
  h' = h ∧ length center_points = length labels.
Proof.
  rewrite get_label_center_points_run.
  destruct (decide (Forall _ labels)) as [Hrange|Hrange]; [|done].
  destruct (existsb (no_source src) labels) eqn:Hex; [done|].
  destruct (decide (labels ≠ [] ∧ _)) as [[Hne Hc]|Hn]; [|done].
  intros [= <- <- <-]. split; [done|]. rewrite !length_map.
  unfold by_hemisphere. by rewrite filter_hemispheres.
Qed.

Lemma zip_with_replicate {A B C} (f : A → B → C) (g : nat → A) (z : B)
    (l : list nat) :
  zip_with f (map g l) (replicate (length l) z) = map (fun j => f (g j) z) l.
Proof. induction l as [|x l IH]; [done|]. cbn. by rewrite IH. Qed.

Lemma broadcast_sub_mismatch (a b : list (vec3 F)) h :
  length a ≠ length b → length a ≠ 1 → length b ≠ 1 →
  broadcast_sub a b h = (Raise (ValueError CannotBroadcast), h).
Proof.
  intros Hab Ha Hb. unfold broadcast_sub.
  destruct (length a =? length b) eqn:E; [by apply Nat.eqb_eq in E|].
  destruct a as [|x [|x' a]], b as [|y [|y' b]]; done.
Qed.

(** [get_peak_dipole_error] when a label has none of the sources in use,
    for a reconstruction [R_vl] with at least one row and at most as many
    as there are sources, and labels on their spheres: the center points
    are then the array of zeros of shape (1000, 3), and the subtraction
    raises ValueError unless [R_vl] has 1 or 1000 columns; with 1000 columns
    it returns 100 times the distance of each peak position from the
    origin, and with one column a thousand times the value for that
    column.  In no case is the label without sources reported. *)
Theorem get_peak_dipole_error_no_source (R_vl : loc)
    (src : surface F * surface F)
    (sphere : source_space F * source_space F) (labels : list Label)
    h (r : ndarray F) :
  h !! R_vl = Some r → 1 ≤ shape0 r →
  shape0 r ≤ length (surface_vertno src.1) + length (surface_vertno src.2) →
  sources_in_range src →
  Forall (vertices_in_range sphere) labels →
  Exists (fun label => sources_in src label = []) labels →
  let from_origin := fun j =>
    fmul (norm3 (vec_sub (peak_position src r j) (of_Z 0, of_Z 0, of_Z 0)))
      (of_Z 100) in
  ∃ res,
    get_peak_dipole_error R_vl src sphere labels h = (res, h)
    ∧ (shape1 r ≠ 1 → shape1 r ≠ 1000 →
         res = Raise (ValueError CannotBroadcast))
    ∧ (shape1 r = 1 → res = Ok (replicate 1000 (from_origin 0)))
    ∧ (shape1 r = 1000 → res = Ok (map from_origin (seq 0 1000))).
Proof.
  intros HR Hr Hrows Hsrc Hrange Hex from_origin.
  assert (get_label_center_points labels src sphere h
          = (Ok (zeros_1000_3, inl zeros_1000_3), h)) as Hcenters.
  { rewrite get_label_center_points_run.
    destruct (decide (Forall _ labels)) as [_|Hn]; [|by destruct Hn].
    apply existsb_no_source in Hex. by rewrite Hex. }
  rewrite (get_peak_dipole_error_run R_vl src sphere labels h r _ _
             Hcenters HR Hr Hsrc Hrows).
  set (peaks := map (peak_position src r) (seq 0 (shape1 r))).
  assert (length peaks = shape1 r) as Hlen
    by (unfold peaks; by rewrite length_map, length_seq).
  assert (length (zeros_1000_3 (F:=F)) = 1000) as Hz
    by (unfold zeros_1000_3; by rewrite length_replicate).
  destruct (decide (shape1 r = 1000)) as [H1000|H1000].
  - unfold bind, broadcast_sub. rewrite Hlen, Hz, H1000. cbn [Nat.eqb].
    unfold ret. eexists. split; [done|]. split; [done|].
    split; [intros E; lia|]. intros _. f_equal.
    unfold peaks. rewrite H1000. unfold zeros_1000_3.
    rewrite <- (length_seq 0 1000) at 3.
    by rewrite zip_with_replicate, map_map.
  - destruct (decide (shape1 r = 1)) as [H1|H1].
    + unfold bind, broadcast_sub. rewrite Hlen, Hz, H1. cbn [Nat.eqb].
      unfold peaks. rewrite H1. cbn [seq map]. unfold ret.
      eexists. split; [done|]. split; [done|]. split; [|done].
      intros _. unfold zeros_1000_3.
      by rewrite !fmap_replicate.
    + unfold bind. rewrite broadcast_sub_mismatch by lia.
      eexists. split; [done|]. split; [done|]. split; done.
Qed.

(** [get_peak_dipole_error] when [get_label_center_points] returns the
    center points of the labels, for a reconstruction [R_vl] with at least
    one row and at most as many as there are sources (the order of np.argmax
    taken to be a strict order): with one column per label it returns one
    error per label, 100 times the distance between center point j and the
    position of the source at which column j is largest in absolute value;
    with another number of columns, neither being 1, it raises ValueError.
    The heap is left as it was. *)
Theorem get_peak_dipole_error_spec (R_vl : loc)
    (src : surface F * surface F)
    (sphere : source_space F * source_space F) (labels : list Label)
    h h' (r : ndarray F) (center_points : list (vec3 F))
    (center_vertices : list nat) :
  (∀ x : F, np_greater x x = false) →
  (∀ x y z : F, np_greater x y = true → np_greater y z = true →
                np_greater x z = true) →
  h !! R_vl = Some r → 1 ≤ shape0 r →
  shape0 r ≤ length (surface_vertno src.1) + length (surface_vertno src.2) →
  sources_in_range src →
  get_label_center_points labels src sphere h
  = (Ok (center_points, inr center_vertices), h') →
  ∃ res,
    get_peak_dipole_error R_vl src sphere labels h = (res, h)
    ∧ (shape1 r ≠ length labels → shape1 r ≠ 1 → length labels ≠ 1 →
         res = Raise (ValueError CannotBroadcast))
    ∧ (shape1 r = length labels →
       ∃ errors,
         res = Ok errors ∧ length errors = length labels
         ∧ ∀ j center, center_points !! j = Some center →
             errors !! j
             = Some (fmul (norm3 (vec_sub (peak_position src r j) center))
                       (of_Z 100))
             ∧ peak_source r j < shape0 r
             ∧ ∀ k, k < shape0 r →
                 np_greater (fabs (item r k j))
                   (fabs (item r (peak_source r j) j)) = false).
Proof.
  intros Hirr Htrans HR Hr Hrows Hsrc Hcenters.
  destruct (center_points_returned _ _ _ _ _ _ _ Hcenters) as [-> Hcp].
  rewrite (get_peak_dipole_error_run R_vl src sphere labels h r _ _
             Hcenters HR Hr Hsrc Hrows).
  set (peaks := map (peak_position src r) (seq 0 (shape1 r))).
  assert (length peaks = shape1 r) as Hlen
    by (unfold peaks; by rewrite length_map, length_seq).
  destruct (decide (shape1 r = length labels)) as [Heq|Hneq].
  - unfold bind, broadcast_sub. rewrite Hlen, Hcp, Heq, Nat.eqb_refl.
    unfold ret. eexists. split; [done|]. split; [done|]. intros _.
    eexists. split; [done|]. split.
    { rewrite length_map, length_zip_with. lia. }
    intros j center Hj.
    assert (j < shape1 r) as Hjr.
    { apply lookup_lt_Some in Hj. lia. }
    split; [|split].
    + rewrite list_lookup_fmap, lookup_zip_with.
      unfold peaks. rewrite list_lookup_fmap, lookup_seq_lt by done.
      cbn. by rewrite Hj.
    + by apply peak_source_bound.
    + by apply peak_source_greatest.
  - destruct (decide (shape1 r = 1)) as [H1|H1];
      [|destruct (decide (length labels = 1)) as [H2|H2]].
    + pose proof (broadcast_sub_heap peaks center_points h) as Hh.
      unfold bind. destruct (broadcast_sub peaks center_points h) as [[d|e] k];
        cbn [snd] in Hh; subst k; eexists; (split; [done|split; done]).
    + pose proof (broadcast_sub_heap peaks center_points h) as Hh.
      unfold bind. destruct (broadcast_sub peaks center_points h) as [[d|e] k];
        cbn [snd] in Hh; subst k; eexists; (split; [done|split; done]).
    + unfold bind. rewrite broadcast_sub_mismatch by lia.
      eexists. split; [done|]. split; done.
Qed.

End PeakDipoleErrorFacts.

Lemma Q_np_greater (x y : Q) : np_greater x y = np_less y x.
Proof.
  unfold np_greater, np_less, is_nan. cbn [feqb Q_scalar].
  by rewrite (Qeq_eq_bool x x), (Qeq_eq_bool y y) by reflexivity.
Qed.

Lemma Q_np_greater_irrefl (x : Q) : np_greater x x = false.
Proof. rewrite Q_np_greater. apply Q_np_less_irrefl. Qed.

Lemma Q_np_greater_trans (x y z : Q) :
  np_greater x y = true → np_greater y z = true → np_greater x z = true.
Proof.
  rewrite !Q_np_greater. intros Hyx Hzy. by apply (Q_np_less_trans z y x).
Qed.

Lemma get_peak_dipole_error_no_source_witness :
  ∃ res,
    get_peak_dipole_error 0 two_surfaces two_spaces unsourced [three_by_two]
    = (res, [three_by_two])
    ∧ (shape1 three_by_two ≠ 1 → shape1 three_by_two ≠ 1000 →
         res = Raise (ValueError CannotBroadcast))
    ∧ (shape1 three_by_two = 1 →
         res = Ok (replicate 1000
                     (fmul (norm3 (vec_sub
                                     (peak_position two_surfaces three_by_two 0)
                                     (of_Z 0, of_Z 0, of_Z 0)))
                        (of_Z 100))))
    ∧ (shape1 three_by_two = 1000 →
         res = Ok (map (fun j =>
                          fmul (norm3 (vec_sub
                                         (peak_position two_surfaces
                                            three_by_two j)
                                         (of_Z 0, of_Z 0, of_Z 0)))
                            (of_Z 100))
                     (seq 0 1000))).
Proof.
  apply (get_peak_dipole_error_no_source 0 two_surfaces two_spaces unsourced
           [three_by_two] three_by_two).
  - reflexivity.
  - cbn. lia.
  - cbn. lia.
  - split; repeat constructor.
  - repeat constructor.
  - apply Exists_cons_hd. reflexivity.
Defined.

Lemma get_peak_dipole_error_spec_witness :
  ∃ res,
    get_peak_dipole_error 0 two_surfaces two_spaces two_labels [three_by_two]
    = (res, [three_by_two])
    ∧ (shape1 three_by_two ≠ length two_labels → shape1 three_by_two ≠ 1 →
       length two_labels ≠ 1 → res = Raise (ValueError CannotBroadcast))
    ∧ (shape1 three_by_two = length two_labels →
       ∃ errors,
         res = Ok errors ∧ length errors = length two_labels
         ∧ ∀ j center,
             [(2 # 1, 0, 0); (0, 3 # 1, 0)]%Q !! j = Some center →
             errors !! j
             = Some (fmul (norm3 (vec_sub
                                    (peak_position two_surfaces three_by_two j)
                                    center))
                       (of_Z 100))
             ∧ peak_source three_by_two j < shape0 three_by_two
             ∧ ∀ k, k < shape0 three_by_two →
                 np_greater (fabs (item three_by_two k j))
                   (fabs (item three_by_two (peak_source three_by_two j) j))
                 = false).
Proof.
  apply (get_peak_dipole_error_spec 0 two_surfaces two_spaces two_labels
           [three_by_two] [three_by_two] three_by_two
           [(2 # 1, 0, 0); (0, 3 # 1, 0)]%Q [1; 2]
           Q_np_greater_irrefl Q_np_greater_trans).
  - reflexivity.
  - cbn. lia.
  - cbn. lia.
  - split; repeat constructor.
  - vm_compute. reflexivity.
Defined.

(** ** get_roc on matrices of perfect separation *)

Section ExactRocPerfect.
Open Scope Q_scope.

Lemma np_trapz_telescopes : ∀ (xs ys : list Q),
  length xs = length ys → level_or_still xs ys →
  np_trapz ys xs == List.last xs 0 - hd 0 xs.
Proof.
  induction xs as [|x0 xs IH]; intros ys Hlen Hst.
  - destruct ys; [|done]. change (np_trapz [] []) with 0. cbn. lra.
  - destruct ys as [|y0 ys]; [done|].
    destruct xs as [|x1 xs].
    + destruct ys; [|done]. change (np_trapz [y0] [x0]) with 0. cbn. lra.
    + destruct ys as [|y1 ys]; [done|].
      destruct Hst as [Hstep Hst].
      specialize (IH (y1 :: ys)).
      rewrite np_trapz_cons, IH by (done || (simpl in *; lia)).
      change (List.last (x0 :: x1 :: xs) 0) with (List.last (x1 :: xs) 0).
      cbn [hd]. generalize (List.last (x1 :: xs) 0). intros L.
      destruct Hstep as [[Hy0 Hy1]|Hx].
      * rewrite Hy0, Hy1. field.
      * rewrite Hx. field.
Qed.

Lemma level_or_still_rates (f_x f_y : Q → Q) (top : Q) (Ts : list Q) :
  (∀ T, T < 1 → f_y T == 1) → (∀ T, top <= T → f_x T == 0) →
  split_at_oneb top Ts = true →
  level_or_still (map f_x Ts ++ replicate 3 0) (map f_y Ts ++ replicate 3 0).
Proof.
  intros Hy Hx. induction Ts as [|T Ts IH]; intros Hsplit.
  - cbn. repeat split; right; reflexivity.
  - destruct Ts as [|T' Ts].
    + cbn in Hsplit. apply Qle_bool_iff in Hsplit.
      cbn. split; [right; by rewrite Hx|].
      repeat split; right; reflexivity.
    + cbn [split_at_oneb] in Hsplit.
      apply andb_true_iff in Hsplit as [Hpair Hrest].
      specialize (IH Hrest). cbn [map app level_or_still] in *.
      split; [|exact IH].
      apply orb_true_iff in Hpair as [Hp|Hp];
        apply andb_true_iff in Hp as [H1 H2].
      * left. apply negb_true_iff in H1, H2. split; apply Hy.
        -- apply Qnot_le_lt. intros Hle%Qle_bool_iff. congruence.
        -- apply Qnot_le_lt. intros Hle%Qle_bool_iff. congruence.
      * right. apply Qle_bool_iff in H1, H2. by rewrite !Hx.
Qed.

Lemma roc_thresholds_split :
  split_at_oneb last_threshold_below_one (roc_thresholds (F:=Q)) = true.
Proof. vm_compute. reflexivity. Qed.

Lemma roc_thresholds_first :
  ∃ T Ts, roc_thresholds (F:=Q) = T :: Ts ∧ T == -(1 # 100).
Proof.
  pose proof (roc_thresholds_length (F:=Q)) as Hlen.
  pose proof (roc_thresholds_even 0) as Hfirst.
  destruct (roc_thresholds (F:=Q)) as [|T Ts]; [done|].
  exists T, Ts. split; [done|]. rewrite (Hfirst T eq_refl).
  change (inject_Z (Z.of_nat 0)) with 0. ring.
Qed.

Lemma count_all (p : Q → bool) (l : list Q) :
  Forall (fun x => p x = true) l → count p l = Z.of_nat (length l).
Proof.
  unfold count. induction 1 as [|x l Hx _ IH]; [done|].
  cbn [List.filter]. rewrite Hx. cbn [length]. lia.
Qed.

Lemma count_none (p : Q → bool) (l : list Q) :
  Forall (fun x => p x = false) l → count p l = 0%Z.
Proof.
  unfold count. induction 1 as [|x l Hx _ IH]; [done|].
  cbn [List.filter]. by rewrite Hx.
Qed.

Lemma rate_all (m : Z) : (0 < m)%Z → inject_Z m / inject_Z (m + 0) == 1.
Proof.
  intros Hm. rewrite Z.add_0_r. apply inject_Z_pos in Hm. field. lra.
Qed.

Lemma rate_none (m : Z) : inject_Z 0 / inject_Z (0 + m) == 0.
Proof. unfold Qdiv. change (inject_Z 0) with 0. ring. Qed.

Lemma length_pos (l : list Q) : l ≠ [] → (0 < Z.of_nat (length l))%Z.
Proof. destruct l; [done|]. cbn [length]. lia. Qed.

(** Below 1 every true estimate equal to 1 is found. *)
Lemma roc_TPR_ones (te : list Q) (T : Q) :
  te ≠ [] → Forall (fun x => x == 1) te → T < 1 → roc_TPR te T == 1.
Proof.
  intros Hne Hte HT. unfold roc_TPR, roc_FN, roc_TP.
  rewrite count_all.
  - cbn [fdiv of_Z Q_scalar].
    replace (Z.of_nat (length te) + (Z.of_nat (length te) - Z.of_nat (length te)))%Z
      with (Z.of_nat (length te) + 0)%Z by lia.
    apply rate_all. by apply length_pos.
  - eapply Forall_impl; [exact Hte|]. intros x Hx. cbn beta in Hx. cbn [fltb Q_scalar].
    apply negb_true_iff. destruct (Qle_bool x T) eqn:E; [|done].
    apply Qle_bool_iff in E. lra.
Qed.

(** Below all the off-diagonal entries every one of them is a false
    positive, and above all of them none is. *)
Lemma roc_FPR_low (offs : list Q) (T : Q) :
  offs ≠ [] → Forall (fun x => T < x) offs → roc_FPR offs T == 1.
Proof.
  intros Hne Hoff. unfold roc_FPR, roc_FP, roc_TN.
  rewrite count_all, count_none.
  - cbn [fdiv of_Z Q_scalar]. apply rate_all. by apply length_pos.
  - eapply Forall_impl; [exact Hoff|]. intros x Hx. cbn beta in Hx. cbn [fleb Q_scalar].
    destruct (Qle_bool x T) eqn:E; [|done]. apply Qle_bool_iff in E. lra.
  - eapply Forall_impl; [exact Hoff|]. intros x Hx. cbn beta in Hx. cbn [fleb Q_scalar].
    apply Qle_bool_iff. lra.
Qed.

Lemma roc_FPR_high (offs : list Q) (T : Q) :
  Forall (fun x => x < T) offs → roc_FPR offs T == 0.
Proof.
  intros Hoff. unfold roc_FPR, roc_FP, roc_TN.
  rewrite count_none.
  - cbn [fdiv of_Z Q_scalar]. apply rate_none.
  - eapply Forall_impl; [exact Hoff|]. intros x Hx. cbn beta in Hx. cbn [fleb Q_scalar].
    destruct (Qle_bool T x) eqn:E; [|done]. apply Qle_bool_iff in E. lra.
Qed.

Lemma off_diagonal_entries_bounds (P : Q → Prop) (r : ndarray Q) (n : nat) :
  shape0 r = n → shape1 r = n →
  (∀ i j, (i < n)%nat → (j < n)%nat → i ≠ j → P (item r i j)) →
  Forall P (off_diagonal_entries r).
Proof.
  intros H0 H1 HP. unfold off_diagonal_entries.
  apply Forall_forall. intros x Hx.
  apply list_elem_of_In, in_flat_map in Hx as (j & Hj & Hx).
  apply in_seq in Hj. rewrite without_column in Hx by lia.
  apply in_map_iff in Hx as (i & <- & Hi).
  apply in_app_iff in Hi as [Hi|Hi]; apply in_seq in Hi; apply HP; lia.
Qed.

(** The area under the curve of a matrix that separates perfectly.  Let [R]
    be a square n-by-n matrix, n >= 2, in exact arithmetic, in which every
    column has its positive maximum on the diagonal and every other entry
    of the column, divided by that maximum, lies strictly between the first
    threshold -0.01 and the last threshold below one, 3299/3300.  Then
    [get_roc(R)] returns the area 1. *)
Theorem get_roc_perfect (R : loc) (h : list (ndarray Q)) (a : ndarray Q)
    (n : nat) :
  h !! R = Some a → shape0 a = n → shape1 a = n → (2 ≤ n)%nat →
  (∀ j, (j < n)%nat → 0 < col_max a j ∧ item a j j == col_max a j) →
  (∀ i j, (i < n)%nat → (j < n)%nat → i ≠ j →
     -(1 # 100) < item a i j / col_max a j
     ∧ item a i j / col_max a j < last_threshold_below_one) →
  ∃ ROC acu all_stats h',
    get_roc R h = (Ok (ROC, acu, all_stats), h') ∧ acu == 1.
Proof.
  intros HR H0 H1 Hn Hdiag Hoff.
  destruct (get_roc_square R h a n HR H0 H1)
    as (r_max & off & roc & h' & Hrun & Hroc & _ & Hstd & Hoff0 & Hoff1
        & Hcol & Hrow0 & Hrow1); [lia|done| |].
  { intros i j Hi Hj Hij. apply Qeq_bool_false.
    destruct (Hoff i j Hi Hj Hij) as [_ Hlt]. intros E.
    cbn [fdiv Q_scalar] in E. rewrite E in Hlt.
    unfold last_threshold_below_one in Hlt. by vm_compute in Hlt. }
  destruct Hstd as (Hr0 & Hr1 & Hitem). rewrite H0 in Hr0. rewrite H1 in Hr1.
  assert (∀ i j, (i < n)%nat → (j < n)%nat →
            item r_max i j = item a i j / col_max a j) as Hstd.
  { intros i j Hi Hj. rewrite Hitem by lia.
    by assert ((j <? n)%nat = true) as -> by (apply Nat.ltb_lt; lia). }
  assert (length (np_diag r_max) = n) as Hte
    by (rewrite np_diag_length, Hr0, Hr1; lia).
  assert (np_diag r_max ≠ []) as Hte_ne
    by (intros E; rewrite E in Hte; simpl in Hte; lia).
  assert (Forall (fun x => x == 1) (np_diag r_max)) as Hones.
  { unfold np_diag. rewrite Hr0, Hr1, Nat.min_id.
    apply Forall_forall. intros x Hx.
    apply list_elem_of_In, in_map_iff in Hx as (k & <- & Hk).
    apply in_seq in Hk. rewrite Hstd by lia.
    destruct (Hdiag k) as [Hpos Hkk]; [lia|]. rewrite Hkk. field. lra. }
  assert (off_diagonal_entries r_max ≠ []) as Hoff_ne.
  { intros E. apply (f_equal (count (fun _ => true))) in E.
    rewrite <- (count_off_diagonal _ r_max off) in E; [|lia|].
    - rewrite count_all in E by (apply Forall_forall; done).
      rewrite items_length, Hoff0, Hoff1 in E.
      change (count (fun _ : Q => true) []) with 0%Z in E. nia.
    - intros j Hj. apply Hcol. lia. }
  assert (∀ T, roc_FPR (items off) T = roc_FPR (off_diagonal_entries r_max) T)
    as HFPR.
  { intros T. unfold roc_FPR, roc_FP, roc_TN.
    by rewrite !(count_off_diagonal _ r_max off)
      by (lia || (intros j Hj; apply Hcol; lia)). }
  assert (Forall (fun x => -(1 # 100) < x ∧ x < last_threshold_below_one)
            (off_diagonal_entries r_max)) as Hbounds.
  { apply (off_diagonal_entries_bounds _ r_max n); [done..|].
    intros i j Hi Hj Hij. rewrite Hstd by done. by apply Hoff. }
  do 3 eexists. exists h'. split; [exact Hrun|].
  rewrite Hrow0, Hrow1. cbn [fabs Q_scalar]. change (of_Z 0%Z) with 0.
  rewrite np_trapz_telescopes.
  - destruct roc_thresholds_first as (T0 & Ts & HTs & HT0).
    rewrite HTs. cbn [map app hd].
    assert (List.last (roc_FPR (items off) T0
                         :: map (roc_FPR (items off)) Ts ++ replicate 3 0) 0
            = 0) as ->.
    { rewrite app_comm_cons. change (replicate 3 0) with ([0; 0] ++ [0]).
      rewrite app_assoc. apply last_last. }
    rewrite HFPR, roc_FPR_low; [done|done|].
    eapply Forall_impl; [exact Hbounds|]. intros x [Hx _]. by rewrite HT0.
  - by rewrite !length_app, !length_map.
  - apply (level_or_still_rates _ _ last_threshold_below_one).
    + intros T HT. by apply roc_TPR_ones.
    + intros T HT. rewrite HFPR. apply roc_FPR_high.
      eapply Forall_impl; [exact Hbounds|]. intros x [_ Hx]. cbn beta. lra.
    + apply roc_thresholds_split.
Qed.

End ExactRocPerfect.

Lemma get_roc_perfect_witness :
  ∃ ROC acu all_stats h',
    get_roc 0 [two_by_two] = (Ok (ROC, acu, all_stats), h') ∧ (acu == 1)%Q.
Proof.
  apply (get_roc_perfect 0 [two_by_two] two_by_two 2);
    [reflexivity|reflexivity|reflexivity|lia| |].
  - intros j Hj. destruct j as [|[|j]]; [| |lia]; split; vm_compute; reflexivity.
  - intros i j Hi Hj Hij.
    destruct i as [|[|i]], j as [|[|j]]; try lia; split; vm_compute; reflexivity.
Defined.

(** ** remove_diagonal on arrays that are not square *)

Section RemoveDiagonalShapes.
Context {F : Type} `{Scalar F}.

(** Column [j] of the diagonal-filled copy, masked. *)
Lemma remove_diagonal_run (A : loc) h (a : ndarray F) :
  h !! A = Some a →
  ∃ a',
    remove_diagonal A h
    = (let* r := np_reshape
                   (flat_map (fun j =>
                      List.filter (fun x => negb (feqb x sentinel))
                        (map (fun i => if i =? j then sentinel else item a i j)
                           (seq 0 (shape0 a))))
                      (seq 0 (shape1 a)))
                   (shape1 a) (Z.of_nat (shape0 a) - 1) in
       alloc (transposed r)) (h ++ [a']).
Proof.
  intros HA. eexists.
  unfold remove_diagonal. unfold bind at 1.
  unfold ndarray_copy, bind at 1, load at 1. rewrite HA. simpl.
  unfold bind at 1. unfold np_fill_diagonal, bind at 1.
  rewrite load_fresh, store_fresh.
  unfold bind at 1. rewrite load_fresh. simpl.
  unfold masked_items, row. simpl. reflexivity.
Qed.

Lemma filter_clear_column (a : ndarray F) j :
  shape0 a ≤ j →
  (∀ i, i < shape0 a → feqb (item a i j) sentinel = false) →
  List.filter (fun x => negb (feqb x sentinel))
    (map (fun i => if i =? j then sentinel else item a i j) (seq 0 (shape0 a)))
  = column a j.
Proof.
  intros Hj Ha. unfold column.
  rewrite <- (filter_map_all (fun x => negb (feqb x sentinel))
                (fun i => item a i j) (seq 0 (shape0 a))).
  - f_equal. apply map_ext_in. intros i Hi. apply in_seq in Hi.
    by assert ((i =? j) = false) as -> by (apply Nat.eqb_neq; lia).
  - intros i Hi. apply in_seq in Hi. rewrite Ha by lia. done.
Qed.

(** [remove_diagonal(A)] by the shape (m, n) of [A], for an array none of
    whose entries off the diagonal compares equal to the sentinel.  With at
    least as many rows as columns, m >= 1, it returns a new array of shape
    (m-1, n) whose column j is column j of [A] without its entry in row j.
    With fewer rows than columns, m >= 1, the entries kept do not fill the
    shape (n, m-1) and it raises ValueError.  Without rows, m - 1 is -1,
    which reshape takes as the dimension to infer: it returns an array of
    shape (0, n) if n >= 1 and raises ValueError if n = 0.  The arrays
    already in the heap are left as they were. *)
Theorem remove_diagonal_shapes (A : loc) h (a : ndarray F) :
  h !! A = Some a →
  feqb (sentinel (F:=F)) sentinel = true →
  (∀ i j, i < shape0 a → j < shape1 a → i ≠ j →
     feqb (item a i j) sentinel = false) →
  ∃ res h',
    remove_diagonal A h = (res, h')
    ∧ (∀ l x, h !! l = Some x → h' !! l = Some x)
    ∧ (1 ≤ shape0 a → shape1 a ≤ shape0 a →
       ∃ B b, res = Ok B ∧ h' !! B = Some b
              ∧ shape0 b = shape0 a - 1 ∧ shape1 b = shape1 a
              ∧ ∀ j, j < shape1 a → column b j = without j (column a j))
    ∧ (1 ≤ shape0 a → shape0 a < shape1 a →
       res = Raise (ValueError CannotReshape))
    ∧ (shape0 a = 0 → 1 ≤ shape1 a →
       ∃ B b, res = Ok B ∧ h' !! B = Some b
              ∧ shape0 b = 0 ∧ shape1 b = shape1 a)
    ∧ (shape0 a = 0 → shape1 a = 0 → res = Raise (ValueError CannotReshape)).
Proof.
  intros HA Hs Hoff.
  destruct (remove_diagonal_run A h a HA) as [a' ->].
  set (m := shape0 a) in *. set (n := shape1 a) in *.
  set (f := fun j => List.filter (fun x => negb (feqb x sentinel))
                       (map (fun i => if i =? j then sentinel else item a i j)
                          (seq 0 m))).
  assert (∀ j, j < n → j < m → f j = without j (column a j)) as Hf.
  { intros j Hj Hjm. unfold f, m.
    apply filter_filled_column; [done|done|].
    intros i Hi Hij. by apply Hoff. }
  assert (∀ j, j < n → m ≤ j → f j = column a j) as Hg.
  { intros j Hj Hjm. unfold f, m. apply filter_clear_column; [done|].
    intros i Hi. apply Hoff; [done|done|]. unfold m in Hjm. lia. }
  assert (∀ l x, h !! l = Some x → (h ++ [a']) !! l = Some x) as Hfr1
    by (intros l x Hl; by apply lookup_old).
  destruct (decide (m = 0)) as [Hm0|Hm0].
  - (* no row *)
    assert (flat_map f (seq 0 n) = []) as Hkept.
    { apply length_zero_iff_nil.
      rewrite (flat_map_block_length f 0 n 0); [lia|].
      intros k Hk. unfold f. rewrite Hm0. done. }
    rewrite Hkept. unfold bind, np_reshape.
    assert ((Z.of_nat m - 1 =? -1)%Z = true) as -> by lia.
    destruct (decide (n = 0)) as [Hn0|Hn0].
    + rewrite Hn0. cbn [Nat.eqb orb raise].
      do 2 eexists. split; [done|]. split; [done|].
      split; [lia|]. split; [lia|]. split; [lia|]. done.
    + assert ((n =? 0) = false) as -> by (apply Nat.eqb_neq; lia).
      cbn [length]. rewrite Nat.Div0.mod_0_l, Nat.Div0.div_0_l.
      cbn [Nat.eqb negb orb ret alloc].
      do 2 eexists. split; [done|].
      split; [intros l x Hl; by apply lookup_old, Hfr1|].
      split; [lia|]. split; [lia|]. split; [|lia].
      intros _ _. do 2 eexists. split; [done|].
      split; [apply lookup_fresh|]. done.
  - destruct (decide (n ≤ m)) as [Hnm|Hnm].
    + (* at least as many rows as columns *)
      assert (∀ k, k < n → length (f (0 + k)) = m - 1) as Hlen.
      { intros k Hk. simpl. rewrite Hf by lia.
        rewrite without_length; rewrite column_length; fold m; lia. }
      assert (length (flat_map f (seq 0 n)) = n * (m - 1)) as Hkept
        by (by apply flat_map_block_length).
      unfold bind, np_reshape.
      assert ((Z.of_nat m - 1 =? -1)%Z = false) as -> by lia.
      assert ((Z.of_nat n * (Z.of_nat m - 1)
               =? Z.of_nat (length (flat_map f (seq 0 n))))%Z = true) as ->
        by (apply Z.eqb_eq; rewrite Hkept; nia).
      cbn [ret alloc].
      do 2 eexists. split; [done|].
      split; [intros l x Hl; by apply lookup_old, Hfr1|].
      split; [|split; [lia|split; lia]].
      intros _ _. do 2 eexists. split; [done|].
      split; [apply lookup_fresh|].
      replace (Z.to_nat (Z.of_nat m - 1)) with (m - 1) by lia.
      split; [done|]. split; [done|].
      intros j Hj. rewrite <- Hf by lia.
      unfold column at 1. cbn [transposed shape0 shape1 item].
      apply list_eq. intros i. rewrite list_lookup_fmap.
      destruct (decide (i < m - 1)) as [Hi|Hi].
      * rewrite lookup_seq_lt by done. simpl.
        pose proof (flat_map_block_lookup f (m - 1) n 0 j i Hlen Hj Hi) as Hlk.
        simpl in Hlk. rewrite <- Hlk.
        destruct (flat_map f (seq 0 n) !! (j * (m - 1) + i)) eqn:E.
        -- f_equal. by apply nth_lookup_Some.
        -- exfalso. apply lookup_ge_None in E. rewrite Hkept in E. nia.
      * rewrite lookup_seq_ge by lia. simpl. symmetry.
        apply lookup_ge_None. specialize (Hlen j Hj). simpl in Hlen. lia.
    + (* fewer rows than columns *)
      assert (length (flat_map f (seq 0 n)) = m * (m - 1) + (n - m) * m)
        as Hkept.
      { replace n with (m + (n - m)) at 1 by lia.
        rewrite seq_app, flat_map_app, length_app.
        rewrite (flat_map_block_length f (m - 1) m 0),
          (flat_map_block_length f m (n - m) (0 + m)); [done| |].
        - intros k Hk. rewrite Hg by lia. apply column_length.
        - intros k Hk. simpl. rewrite Hf by lia.
          rewrite without_length; rewrite column_length; fold m; lia. }
      unfold bind, np_reshape.
      assert ((Z.of_nat m - 1 =? -1)%Z = false) as -> by lia.
      assert ((Z.of_nat n * (Z.of_nat m - 1)
               =? Z.of_nat (length (flat_map f (seq 0 n))))%Z = false) as ->
        by (apply Z.eqb_neq; rewrite Hkept; nia).
      cbn [raise].
      do 2 eexists. split; [done|]. split; [done|].
      split; [lia|]. split; [done|]. split; lia.
Qed.

End RemoveDiagonalShapes.

Lemma remove_diagonal_shapes_witness :
  ∃ res h',
    remove_diagonal 0 [three_by_two] = (res, h')
    ∧ (∀ l x, [three_by_two] !! l = Some x → h' !! l = Some x)
    ∧ (1 ≤ shape0 three_by_two → shape1 three_by_two ≤ shape0 three_by_two →
       ∃ B b, res = Ok B ∧ h' !! B = Some b
              ∧ shape0 b = shape0 three_by_two - 1
              ∧ shape1 b = shape1 three_by_two
              ∧ ∀ j, j < shape1 three_by_two →
                  column b j = without j (column three_by_two j))
    ∧ (1 ≤ shape0 three_by_two → shape0 three_by_two < shape1 three_by_two →
       res = Raise (ValueError CannotReshape))
    ∧ (shape0 three_by_two = 0 → 1 ≤ shape1 three_by_two →
       ∃ B b, res = Ok B ∧ h' !! B = Some b
              ∧ shape0 b = 0 ∧ shape1 b = shape1 three_by_two)
    ∧ (shape0 three_by_two = 0 → shape1 three_by_two = 0 →
       res = Raise (ValueError CannotReshape)).
Proof.
  apply (remove_diagonal_shapes 0 [three_by_two] three_by_two);
    [reflexivity|reflexivity|].
  intros i j Hi Hj Hij.
  destruct i as [|[|[|i]]], j as [|[|j]];
    try (cbn in Hi, Hj; lia); reflexivity.
Defined.

(** ** get_spatial_dispersion *)

Section SpatialDispersionFacts.
Context {F : Type} `{Scalar F}.

Lemma nth_map_seq {A} (f : nat → A) (n j : nat) (d : A) :
  j < n → nth j (map f (seq 0 n)) d = f j.
Proof.
  intros Hj. apply nth_lookup_Some.
  by rewrite list_lookup_fmap, lookup_seq_lt.
Qed.

(** The run of [get_spatial_dispersion] on a matrix with one row per
    source. *)
Lemma get_spatial_dispersion_run (R : loc) (src : surface F * surface F)
    (labels : list Label) h (r : ndarray F) :
  h !! R = Some r → sources_in_range src → 1 ≤ shape0 r →
  shape0 r = length (surface_vertno src.1) + length (surface_vertno src.2) →
  get_spatial_dispersion R src labels h
  = (Ok (map (dispersion_of src r) (seq 0 (shape1 r))), h).
Proof.
  intros HR [Hl Hrh] Hr Hrows. unfold get_spatial_dispersion.
  unfold bind at 1. rewrite take_rows_nth by done.
  unfold bind at 1. rewrite take_rows_nth by done.
  fold (source_positions src).
  unfold bind at 1, load. rewrite HR.
  unfold bind at 1, argmax_abs_axis0.
  destruct (shape0 r =? 0) eqn:E; [apply Nat.eqb_eq in E; lia|].
  unfold ret at 1. unfold bind at 1. rewrite take_rows_nth.
  2: { apply Forall_forall. intros k (j & -> & Hj)%list_elem_of_fmap.
       rewrite source_positions_length.
       pose proof (peak_source_bound r j Hr). unfold peak_source in *. lia. }
  unfold bind at 1, distance_table.
  rewrite source_positions_length, <- Hrows, Nat.eqb_refl.
  unfold ret at 1. unfold bind at 1, dot_diag.
  rewrite length_map, source_positions_length, <- Hrows, Nat.eqb_refl.
  unfold ret. f_equal. f_equal.
  rewrite zip_with_fmap_l, zip_with_fmap_r.
  rewrite zip_with_diag. rewrite map_map.
  apply map_ext_in. intros j Hj. apply in_seq in Hj.
  unfold dispersion_of. do 4 f_equal.
  rewrite map_map. apply map_ext. intros p. rewrite map_map.
  by rewrite nth_map_seq by lia.
Qed.

(** [get_spatial_dispersion(R, src, labels)], the sources in use being
    vertices of their surfaces, by the number m of rows of [R] and the
    number of sources.  Without rows it raises ValueError (np.argmax).  With
    one row per source, m >= 1, it returns one value per column: for column
    j 100 times the sum over the sources i of R[i, j] times the distance of
    source i from the source at which column j is largest in absolute value,
    divided by the sum of the absolute values of column j; the entries enter
    the numerator with their signs, and [labels] is not used.  With m >= 2
    rows and another number of sources, at least two, it raises IndexError
    or ValueError.  The heap is left as it was. *)
Theorem get_spatial_dispersion_outcome (R : loc)
    (src : surface F * surface F) (labels : list Label) h (r : ndarray F) :
  h !! R = Some r → sources_in_range src →
  let sources := length (surface_vertno src.1)
                 + length (surface_vertno src.2) in
  ∃ res,
    get_spatial_dispersion R src labels h = (res, h)
    ∧ (shape0 r = 0 → res = Raise (ValueError ZeroSizeReduction))
    ∧ (1 ≤ shape0 r → shape0 r = sources →
         res = Ok (map (dispersion_of src r) (seq 0 (shape1 r))))
    ∧ (2 ≤ shape0 r → 2 ≤ sources → shape0 r ≠ sources →
         res = Raise IndexError ∨ res = Raise (ValueError CannotBroadcast)).
Proof.
  intros HR Hsrc sources.
  destruct (decide (shape0 r = 0)) as [Hm0|Hm0].
  { destruct Hsrc as [Hl Hrh]. unfold get_spatial_dispersion.
    unfold bind at 1. rewrite take_rows_nth by done.
    unfold bind at 1. rewrite take_rows_nth by done.
    unfold bind at 1, load. rewrite HR.
    unfold bind at 1, argmax_abs_axis0. rewrite Hm0. cbn [Nat.eqb raise].
    eexists. split; [done|]. split; [done|]. split; lia. }
  destruct (decide (shape0 r = sources)) as [Heq|Hne].
  { rewrite (get_spatial_dispersion_run R src labels h r) by (done || lia).
    eexists. split; [done|]. split; [lia|]. split; [done|]. lia. }
  destruct Hsrc as [Hl Hrh]. unfold get_spatial_dispersion.
  unfold bind at 1. rewrite take_rows_nth by done.
  unfold bind at 1. rewrite take_rows_nth by done.
  fold (source_positions src).
  unfold bind at 1, load. rewrite HR.
  unfold bind at 1, argmax_abs_axis0.
  destruct (shape0 r =? 0) eqn:E; [by apply Nat.eqb_eq in E|].
  unfold ret at 1. unfold bind at 1.
  set (peaks := map _ (seq 0 (shape1 r))).
  destruct (decide (Forall (fun v => v < length (source_positions src))
                      peaks)) as [Hp|Hp].
  - rewrite take_rows_nth by done. unfold bind at 1, distance_table.
    rewrite source_positions_length. fold sources.
    assert ((shape0 r =? sources) = false) as -> by (by apply Nat.eqb_neq).
    destruct (decide (2 ≤ shape0 r ∧ 2 ≤ sources)) as [[H2 H2']|Hsmall].
    + assert ((shape0 r =? 1) = false) as -> by (apply Nat.eqb_neq; lia).
      pose proof (source_positions_length src) as Hlen. fold sources in Hlen.
      destruct (source_positions src) as [|p0 [|p1 ps]];
        [cbn in Hlen; lia|cbn in Hlen; lia|].
      cbn [raise]. eexists. split; [done|]. split; [lia|]. split; [done|].
      intros _ _ _. by right.
    + assert (∀ (x : result (list F) * list (ndarray F)), x.2 = h →
                ∃ res, x = (res, h)
                       ∧ (shape0 r = 0 → res = Raise (ValueError ZeroSizeReduction))
                       ∧ (1 ≤ shape0 r → shape0 r = sources →
                            res = Ok (map (dispersion_of src r)
                                        (seq 0 (shape1 r))))
                       ∧ (2 ≤ shape0 r → 2 ≤ sources → shape0 r ≠ sources →
                            res = Raise IndexError
                            ∨ res = Raise (ValueError CannotBroadcast)))
        as Hany.
      { intros [res k] Hm. cbn [snd] in Hm. subst k.
        exists res. split; [done|]. split; [lia|]. split; lia. }
      apply Hany.
      destruct (shape0 r =? 1).
      * unfold ret at 1. unfold bind at 1, dot_diag.
        by destruct (_ =? shape0 r).
      * destruct (source_positions src) as [|p0 [|p1 ps]]; [done| |done].
        unfold ret at 1. unfold bind at 1, dot_diag.
        by destruct (_ =? shape0 r).
  - rewrite take_rows_out_of_range by done.
    eexists. split; [done|]. split; [lia|]. split; [done|].
    intros _ _ _. by left.
Qed.

End SpatialDispersionFacts.

Section ExactSpatialDispersion.
Open Scope Q_scope.

Lemma Q_fsqrt_zero (q : Q) : q == 0 → fsqrt q == 0.
Proof.
  intros Hq. assert (Qnum q = 0%Z) as Hn.
  { unfold Qeq in Hq. cbn in Hq. lia. }
  cbn [fsqrt Q_scalar]. rewrite Hn, Z.mul_0_l. reflexivity.
Qed.

Lemma Q_fsqrt_nonneg (q : Q) : 0 <= fsqrt q.
Proof.
  cbn [fsqrt Q_scalar]. unfold Qle. cbn.
  pose proof (Z.sqrt_nonneg (Qnum q * Z.pos (Qden q))). lia.
Qed.

Lemma Q_norm3_self (p : vec3 Q) : norm3 (vec_sub p p) == 0.
Proof.
  unfold norm3. apply Q_fsqrt_zero.
  unfold vec_sub, vx, vy, vz. cbn [fst snd fadd fsub fmul Q_scalar]. ring.
Qed.

Lemma Q_norm3_nonneg (p : vec3 Q) : 0 <= norm3 p.
Proof. unfold norm3. apply Q_fsqrt_nonneg. Qed.

Lemma np_sum_zero (l : list Q) : Forall (fun x => x == 0) l → np_sum l == 0.
Proof.
  induction 1 as [|x l Hx _ IH]; [reflexivity|].
  rewrite np_sum_cons, Hx, IH. ring.
Qed.

Lemma np_sum_nonneg (l : list Q) : Forall (fun x => 0 <= x) l → 0 <= np_sum l.
Proof.
  induction 1 as [|x l Hx _ IH]; [done|].
  rewrite np_sum_cons. lra.
Qed.

Lemma Forall_zip_with {A B} (P : Q → Prop) (f : A → B → Q)
    (l : list A) (k : list B) :
  (∀ i a b, l !! i = Some a → k !! i = Some b → P (f a b)) →
  Forall P (zip_with f l k).
Proof.
  intros HP. apply Forall_forall. intros x Hx.
  apply list_elem_of_lookup_1 in Hx as [i Hi].
  apply lookup_zip_with_Some in Hi as (a & b & -> & Ha & Hb). eauto.
Qed.

(** In a column with a single entry that is not zero, the peak is there. *)
Lemma peak_source_single (r : ndarray Q) (j k : nat) :
  (k < shape0 r)%nat → ¬ item r k j == 0 →
  (∀ i, (i < shape0 r)%nat → i ≠ k → item r i j == 0) →
  peak_source r j = k.
Proof.
  intros Hk Hnz Hz.
  assert (1 ≤ shape0 r)%nat as Hr by lia.
  pose proof (peak_source_bound r j Hr) as Hb.
  pose proof (peak_source_greatest r j Q_np_greater_irrefl Q_np_greater_trans
                Hr k Hk) as Hg.
  rewrite Q_np_greater in Hg.
  destruct (decide (peak_source r j = k)) as [|Hne]; [done|].
  exfalso. specialize (Hz _ Hb Hne).
  assert (np_less (fabs (item r (peak_source r j) j)) (fabs (item r k j))
          = true); [|congruence].
  apply Q_np_less. cbn [fabs Q_scalar]. rewrite Hz.
  change (Qabs 0) with 0.
  destruct (Qlt_le_dec 0 (Qabs (item r k j))) as [|Hle]; [done|].
  exfalso. apply Hnz. apply Qabs_Qle_condition in Hle. lra.
Qed.

(** The spatial dispersion in exact arithmetic, for a matrix with one row
    per source in use, at least one: [get_spatial_dispersion] returns one
    value per column; the value of a column without negative entry and with
    a positive one is not negative; and the value of a column in which a
    single entry is not zero is zero. *)
Theorem get_spatial_dispersion_exact (R : loc) (src : surface Q * surface Q)
    (labels : list Label) (h : list (ndarray Q)) (r : ndarray Q) :
  h !! R = Some r → sources_in_range src → (1 ≤ shape0 r)%nat →
  shape0 r = (length (surface_vertno src.1)
              + length (surface_vertno src.2))%nat →
  ∃ SD,
    get_spatial_dispersion R src labels h = (Ok SD, h)
    ∧ length SD = shape1 r
    ∧ ∀ j d, SD !! j = Some d →
        ((∀ i, (i < shape0 r)%nat → 0 <= item r i j) →
         (∃ i, (i < shape0 r)%nat ∧ 0 < item r i j) → 0 <= d)
        ∧ (∀ k, (k < shape0 r)%nat → ¬ item r k j == 0 →
             (∀ i, (i < shape0 r)%nat → i ≠ k → item r i j == 0) → d == 0).
Proof.
  intros HR Hsrc Hr Hrows.
  rewrite (get_spatial_dispersion_run R src labels h r) by done.
  eexists. split; [done|]. split; [by rewrite length_map, length_seq|].
  intros j d Hj. apply list_lookup_fmap_Some in Hj as (j' & -> & Hj).
  apply lookup_seq in Hj as [-> Hj]. cbn [Nat.add].
  pose proof (source_positions_length src) as Hlen. rewrite <- Hrows in Hlen.
  unfold dispersion_of. cbn [fmul fdiv of_Z Q_scalar]. split.
  - intros Hpos _.
    assert (0 <= np_sum (zip_with fmul
                           (map (fun p => norm3 (vec_sub (peak_position src r j) p))
                              (source_positions src))
                           (column r j))) as Hnum.
    { apply np_sum_nonneg, Forall_zip_with. intros i a b Ha Hb.
      apply list_lookup_fmap_Some in Ha as (p & -> & Hp).
      pose proof (lookup_lt_Some _ _ _ Hb) as Hi. rewrite column_length in Hi.
      rewrite column_lookup in Hb by done. injection Hb as <-.
      cbn [fmul Q_scalar]. apply Qmult_le_0_compat; [apply Q_norm3_nonneg|].
      by apply Hpos. }
    assert (0 <= np_sum (map fabs (column r j))) as Hden.
    { apply np_sum_nonneg, Forall_forall.
      intros x (y & -> & _)%list_elem_of_fmap. cbn [fabs Q_scalar].
      apply Qabs_nonneg. }
    apply Qmult_le_0_compat; [|done].
    apply Qmult_le_0_compat; [done|]. by apply Qinv_le_0_compat.
  - intros k Hk Hnz Hz.
    assert (np_sum (zip_with fmul
                      (map (fun p => norm3 (vec_sub (peak_position src r j) p))
                         (source_positions src))
                      (column r j)) == 0) as Hnum.
    { apply np_sum_zero, Forall_zip_with. intros i a b Ha Hb.
      apply list_lookup_fmap_Some in Ha as (p & -> & Hp).
      pose proof (lookup_lt_Some _ _ _ Hb) as Hi. rewrite column_length in Hi.
      rewrite column_lookup in Hb by done. injection Hb as <-.
      cbn [fmul Q_scalar].
      destruct (decide (i = k)) as [->|Hik].
      - unfold peak_position. rewrite (peak_source_single r j k) by done.
        rewrite (nth_lookup_Some _ _ _ _ Hp), Q_norm3_self. ring.
      - rewrite (Hz i Hi Hik). ring. }
    rewrite Hnum. unfold Qdiv. ring.
Qed.

End ExactSpatialDispersion.

Lemma get_spatial_dispersion_outcome_witness :
  ∃ res,
    get_spatial_dispersion 0 two_surfaces two_labels [three_by_two]
    = (res, [three_by_two])
    ∧ (shape0 three_by_two = 0 → res = Raise (ValueError ZeroSizeReduction))
    ∧ (1 ≤ shape0 three_by_two →
       shape0 three_by_two
       = length (surface_vertno two_surfaces.1)
         + length (surface_vertno two_surfaces.2) →
         res = Ok (map (dispersion_of two_surfaces three_by_two)
                     (seq 0 (shape1 three_by_two))))
    ∧ (2 ≤ shape0 three_by_two →
       2 ≤ length (surface_vertno two_surfaces.1)
           + length (surface_vertno two_surfaces.2) →
       shape0 three_by_two
       ≠ length (surface_vertno two_surfaces.1)
         + length (surface_vertno two_surfaces.2) →
         res = Raise IndexError ∨ res = Raise (ValueError CannotBroadcast)).
Proof.
  apply (get_spatial_dispersion_outcome 0 two_surfaces two_labels
           [three_by_two] three_by_two).
  - reflexivity.
  - split; repeat constructor.
Defined.

Lemma get_spatial_dispersion_exact_witness :
  ∃ SD,
    get_spatial_dispersion 0 two_surfaces two_labels [one_hot]
    = (Ok SD, [one_hot])
    ∧ length SD = shape1 one_hot
    ∧ ∀ j d, SD !! j = Some d →
        ((∀ i, i < shape0 one_hot → (0 <= item one_hot i j)%Q) →
         (∃ i, i < shape0 one_hot ∧ (0 < item one_hot i j)%Q) → (0 <= d)%Q)
        ∧ (∀ k, k < shape0 one_hot → ¬ (item one_hot k j == 0)%Q →
             (∀ i, i < shape0 one_hot → i ≠ k → (item one_hot i j == 0)%Q) →
             (d == 0)%Q).
Proof.
  apply (get_spatial_dispersion_exact 0 two_surfaces two_labels [one_hot]
           one_hot).
  - reflexivity.
  - split; repeat constructor.
  - cbn. lia.
  - reflexivity.
Defined.
